(** * Regularization of an LLVM module for SPIR-V

    A shallow embedding of [lib/SPIRV/SPIRVRegularizeLLVM.cpp]: the
    module, its functions, blocks and instructions are modelled as
    the pass sees them, the IRBuilder calls of the three synthesized helper
    bodies are modelled as the instruction lists they emit, and a small
    evaluator gives those instructions the meaning the LLVM language
    reference gives them (wrap-around, poison, undefined behaviour). *)

From Stdlib Require Import ZArith List String Ascii Bool Lia Arith.
Import ListNotations.
Set Warnings "-register-all".
Open Scope string_scope.
Open Scope list_scope.
Open Scope Z_scope.

(** ** Types and operands *)

Inductive ty :=
| TInt (w : Z)                 (* iW *)
| TVec (n : nat) (w : Z)       (* <n x iW> *)
| TStruct (fs : list ty)
| TPtr
| TFuncPtr                     (* pointer to function, the canonical void()* *)
| TVoid.

(** Operands.  Constant expressions are terms, instruction results are
    referred to by the stable identifier of the instruction. *)
Inductive value :=
| VInst (id : nat)
| VArg (n : nat)
| VConstInt (w : Z) (z : Z)
| VSplat (n : nat) (v : value)
| VUndef (t : ty)
| VFunc (name : string)
| VCast (v : value)            (* constant bitcast expression *)
| VNull.                       (* operand slot after dropAllReferences *)

Fixpoint isConstant (v : value) : bool :=
  match v with
  | VInst _ | VArg _ => false
  | VConstInt _ _ | VUndef _ | VFunc _ => true
  | VNull => false
  | VSplat _ v | VCast v => isConstant v
  end.

Definition isConstantInt (v : value) : bool :=
  match v with VConstInt _ _ => true | _ => false end.

Fixpoint value_eqb (a b : value) : bool :=
  match a, b with
  | VInst i, VInst j => Nat.eqb i j
  | VArg i, VArg j => Nat.eqb i j
  | VConstInt w z, VConstInt w' z' => Z.eqb w w' && Z.eqb z z'
  | VSplat n v, VSplat n' v' => Nat.eqb n n' && value_eqb v v'
  | VUndef _, VUndef _ => true
  | VFunc s, VFunc s' => String.eqb s s'
  | VCast v, VCast v' => value_eqb v v'
  | VNull, VNull => true
  | _, _ => false
  end.

(** ** Instructions *)

Inductive binop := Add | Sub | Mul | UDiv | SDiv | URem | Shl | LShr | AShr | And | Or | Xor.

Inductive icmp_pred := ICMP_EQ | ICMP_NE.

Inductive AtomicOrdering :=
| NotAtomic | Unordered | Monotonic | Acquire | Release | AcquireRelease
| SequentiallyConsistent.

Inductive opcode :=
| Call (callee : value) (args : list value) (tail nounwind : bool)
| BinaryOperator (op : binop) (nuw exact : bool) (a b : value)
| ICmp (p : icmp_pred) (a b : value)
| AtomicCmpXchg (ptr cmp newval : value) (succ fail : AtomicOrdering)
| ExtractValue (agg : value) (idxs : list nat)
| InsertValue (agg v : value) (idx : nat)
| Store (v ptr : value)
| Ret (v : option value)
| Other (mnemonic : string) (ops : list value).

Record instr := mkInstr {
  iid : nat;
  iname : string;
  ity : ty;
  iop : opcode;
  imd : list (string * nat)      (* metadata: kind name and attached node *)
}.

Record block := mkBlock { bname : string; insts : list instr }.

Record function := mkFunction {
  fname : string;
  fret : ty;
  fparams : list ty;
  blocks : list block            (* empty for a declaration *)
}.

Record module := mkModule {
  funcs : list function;
  next_id : nat                  (* next unused instruction identifier *)
}.

(** ** Meaning of the instructions the builders emit *)

Inductive lane := Poison | Bits (z : Z).

Inductive rval :=
| RInt (l : lane)
| RVec (ls : list lane)
| RStruct (fs : list rval)
| RUndef.

(** [UB] is immediate undefined behaviour (division by zero). *)
Inductive outcome (A : Type) := UB | Ok (a : A).
Arguments UB {A}.
Arguments Ok {A} a.

Definition bind {A B} (m : outcome A) (k : A -> outcome B) : outcome B :=
  match m with UB => UB | Ok a => k a end.

Notation "x <- m ;; k" := (bind m (fun x => k))
  (at level 61, m at next level, right associativity).

Definition wrap (w z : Z) : Z := z mod 2 ^ w.

(** One lane of a binary operator at width [w], after the language
    reference: [nuw] multiplications and over-wide shifts give poison,
    a zero divisor is undefined behaviour. *)
Definition eval_binop_lane (op : binop) (nuw exact : bool) (w : Z)
    (x y : lane) : outcome lane :=
  match op, x, y with
  | (UDiv | URem | SDiv), _, Poison => UB
  | (UDiv | URem | SDiv), _, Bits 0 => UB
  | _, Poison, _ => Ok Poison
  | _, _, Poison => Ok Poison
  | Mul, Bits a, Bits b =>
      if nuw && (2 ^ w <=? a * b) then Ok Poison else Ok (Bits (wrap w (a * b)))
  | Add, Bits a, Bits b =>
      if nuw && (2 ^ w <=? a + b) then Ok Poison else Ok (Bits (wrap w (a + b)))
  | Sub, Bits a, Bits b =>
      if nuw && (a <? b) then Ok Poison else Ok (Bits (wrap w (a - b)))
  | UDiv, Bits a, Bits b =>
      if exact && negb (a mod b =? 0) then Ok Poison else Ok (Bits (a / b))
  | URem, Bits a, Bits b => Ok (Bits (a mod b))
  | Shl, Bits a, Bits b =>
      if w <=? b then Ok Poison
      else if nuw && (2 ^ w <=? Z.shiftl a b) then Ok Poison
      else Ok (Bits (wrap w (Z.shiftl a b)))
  | LShr, Bits a, Bits b =>
      if w <=? b then Ok Poison
      else if exact && negb (a mod 2 ^ b =? 0) then Ok Poison
      else Ok (Bits (Z.shiftr a b))
  | And, Bits a, Bits b => Ok (Bits (Z.land a b))
  | Or, Bits a, Bits b => Ok (Bits (Z.lor a b))
  | Xor, Bits a, Bits b => Ok (Bits (Z.lxor a b))
  | (SDiv | AShr), Bits _, Bits _ => Ok Poison   (* not emitted by the builders *)
  end.

Fixpoint eval_binop_lanes (op : binop) (nuw exact : bool) (w : Z)
    (xs ys : list lane) : outcome (list lane) :=
  match xs, ys with
  | x :: xs', y :: ys' =>
      r <- eval_binop_lane op nuw exact w x y ;;
      rs <- eval_binop_lanes op nuw exact w xs' ys' ;;
      Ok (r :: rs)
  | _, _ => Ok []
  end.

Definition eval_binop (op : binop) (nuw exact : bool) (t : ty)
    (x y : rval) : outcome rval :=
  match t, x, y with
  | TInt w, RInt a, RInt b =>
      r <- eval_binop_lane op nuw exact w a b ;; Ok (RInt r)
  | TVec _ w, RVec xs, RVec ys =>
      rs <- eval_binop_lanes op nuw exact w xs ys ;; Ok (RVec rs)
  | _, _, _ => Ok RUndef
  end.

Definition eval_icmp_lane (p : icmp_pred) (x y : lane) : lane :=
  match x, y with
  | Bits a, Bits b =>
      match p with
      | ICMP_EQ => Bits (if a =? b then 1 else 0)
      | ICMP_NE => Bits (if a =? b then 0 else 1)
      end
  | _, _ => Poison
  end.

Fixpoint eval_icmp_lanes (p : icmp_pred) (xs ys : list lane) : list lane :=
  match xs, ys with
  | x :: xs', y :: ys' => eval_icmp_lane p x y :: eval_icmp_lanes p xs' ys'
  | _, _ => []
  end.

Definition eval_icmp (p : icmp_pred) (x y : rval) : rval :=
  match x, y with
  | RInt a, RInt b => RInt (eval_icmp_lane p a b)
  | RVec xs, RVec ys => RVec (eval_icmp_lanes p xs ys)
  | _, _ => RUndef
  end.

Fixpoint set_nth {A} (n : nat) (x : A) (l : list A) : list A :=
  match n, l with
  | _, [] => []
  | O, _ :: l' => x :: l'
  | S n', y :: l' => y :: set_nth n' x l'
  end.

Definition eval_insertvalue (agg v : rval) (idx : nat) (t : ty) : rval :=
  match agg, t with
  | RStruct fs, _ => RStruct (set_nth idx v fs)
  | RUndef, TStruct ts => RStruct (set_nth idx v (map (fun _ => RUndef) ts))
  | _, _ => RUndef
  end.

Definition eval_extractvalue (agg : rval) (idx : nat) : rval :=
  match agg with
  | RStruct fs => nth idx fs RUndef
  | _ => RUndef
  end.

(** Environment of a running straight-line body: results by identifier. *)
Definition env := list (nat * rval).

Fixpoint lookup_env (e : env) (i : nat) : rval :=
  match e with
  | [] => RUndef
  | (j, v) :: e' => if Nat.eqb i j then v else lookup_env e' i
  end.

Fixpoint eval_value (args : list rval) (e : env) (v : value) : rval :=
  match v with
  | VInst i => lookup_env e i
  | VArg n => nth n args RUndef
  | VConstInt w z => RInt (Bits (wrap w z))
  | VSplat n c =>
      match eval_value args e c with
      | RInt l => RVec (repeat l n)
      | _ => RUndef
      end
  | VUndef _ => RUndef
  | VFunc _ | VCast _ | VNull => RUndef
  end.

(** Runs the instructions of one block up to its [ret]; only the
    instruction kinds the builders of this file emit are given a value. *)
Fixpoint run_insts (args : list rval) (e : env) (l : list instr)
    : outcome (option rval) :=
  match l with
  | [] => Ok None
  | i :: l' =>
      match iop i with
      | Ret None => Ok None
      | Ret (Some v) => Ok (Some (eval_value args e v))
      | BinaryOperator op nuw exact a b =>
          r <- eval_binop op nuw exact (ity i)
                 (eval_value args e a) (eval_value args e b) ;;
          run_insts args ((iid i, r) :: e) l'
      | ICmp p a b =>
          run_insts args
            ((iid i, eval_icmp p (eval_value args e a) (eval_value args e b)) :: e) l'
      | InsertValue agg v idx =>
          run_insts args
            ((iid i, eval_insertvalue (eval_value args e agg)
                       (eval_value args e v) idx (ity i)) :: e) l'
      | ExtractValue agg (idx :: _) =>
          run_insts args
            ((iid i, eval_extractvalue (eval_value args e agg) idx) :: e) l'
      | _ => run_insts args ((iid i, RUndef) :: e) l'
      end
  end.

Definition run_function (f : function) (args : list rval) : outcome (option rval) :=
  match blocks f with
  | b :: _ => run_insts args [] (insts b)
  | [] => Ok None
  end.

(** ** The module as a mutable graph: lookups and in-place updates *)

Definition getFunction (M : module) (n : string) : option function :=
  find (fun f => String.eqb (fname f) n) (funcs M).

Definition isDeclaration (F : function) : bool :=
  match blocks F with [] => true | _ => false end.

(** [Function::empty]: no basic block. *)
Definition empty (F : function) : bool := isDeclaration F.

Definition instrs_of (F : function) : list instr :=
  flat_map insts (blocks F).

Definition all_instrs (M : module) : list instr :=
  flat_map instrs_of (funcs M).

Definition get_instr (M : module) (id : nat) : option instr :=
  find (fun i => Nat.eqb (iid i) id) (all_instrs M).

Definition operands (o : opcode) : list value :=
  match o with
  | Call callee args _ _ => args ++ [callee]
  | BinaryOperator _ _ _ a b => [a; b]
  | ICmp _ a b => [a; b]
  | AtomicCmpXchg p c n _ _ => [p; c; n]
  | ExtractValue a _ => [a]
  | InsertValue a v _ => [a; v]
  | Store v p => [v; p]
  | Ret (Some v) => [v]
  | Ret None => []
  | Other _ ops => ops
  end.

Definition map_operands (g : value -> value) (o : opcode) : opcode :=
  match o with
  | Call callee args t n => Call (g callee) (map g args) t n
  | BinaryOperator op nuw ex a b => BinaryOperator op nuw ex (g a) (g b)
  | ICmp p a b => ICmp p (g a) (g b)
  | AtomicCmpXchg p c n s f => AtomicCmpXchg (g p) (g c) (g n) s f
  | ExtractValue a ix => ExtractValue (g a) ix
  | InsertValue a v ix => InsertValue (g a) (g v) ix
  | Store v p => Store (g v) (g p)
  | Ret (Some v) => Ret (Some (g v))
  | Ret None => Ret None
  | Other m ops => Other m (map g ops)
  end.

Definition set_iop (o : opcode) (i : instr) : instr :=
  mkInstr (iid i) (iname i) (ity i) o (imd i).

Definition set_imd (md : list (string * nat)) (i : instr) : instr :=
  mkInstr (iid i) (iname i) (ity i) (iop i) md.

Definition map_block (g : list instr -> list instr) (b : block) : block :=
  mkBlock (bname b) (g (insts b)).

Definition map_function (g : list instr -> list instr) (F : function) : function :=
  mkFunction (fname F) (fret F) (fparams F) (map (map_block g) (blocks F)).

(** Applies a rewriting of instruction lists to every block of the module. *)
Definition map_module (g : list instr -> list instr) (M : module) : module :=
  mkModule (map (map_function g) (funcs M)) (next_id M).

(** Every in-place change of instructions is a rewriting of each
    instruction into the instructions that take its place. *)
Definition rewrite_instrs (h : instr -> list instr) (M : module) : module :=
  map_module (flat_map h) M.

Definition update_instr (id : nat) (g : instr -> instr) (M : module) : module :=
  rewrite_instrs (fun i => [if Nat.eqb (iid i) id then g i else i]) M.

(** Inserts [new] immediately before the instruction [pos], in its block. *)
Definition insert_before (pos : nat) (new : instr) (M : module) : module :=
  rewrite_instrs (fun i => if Nat.eqb (iid i) pos then [new; i] else [i]) M.

(** [Instruction::eraseFromParent]. *)
Definition eraseFromParent (id : nat) (M : module) : module :=
  rewrite_instrs (fun i => if Nat.eqb (iid i) id then [] else [i]) M.

Definition subst_value (old new v : value) : value :=
  if value_eqb v old then new else v.

(** [Value::replaceAllUsesWith]: every operand slot holding [old] now
    holds [new]. *)
Definition replaceAllUsesWith (old new : value) (M : module) : module :=
  rewrite_instrs
    (fun i => [set_iop (map_operands (subst_value old new) (iop i)) i]) M.

(** [User::dropAllReferences]: the instruction no longer uses anything. *)
Definition dropAllReferences (id : nat) (M : module) : module :=
  update_instr id (fun i => set_iop (map_operands (fun _ => VNull) (iop i)) i) M.

(** The use-list of an instruction result, one entry per operand slot that
    holds it.  A use is pushed at the head of the list when it is created,
    so the list runs from the last user in layout order to the first. *)
Definition uses_in (v : value) (i : instr) : list nat :=
  map (fun _ => iid i) (filter (fun o => value_eqb o v) (operands (iop i))).

Definition users (M : module) (v : value) : list nat :=
  rev (flat_map (uses_in v) (all_instrs M)).

Definition user_empty (M : module) (v : value) : bool :=
  match users M v with [] => true | _ => false end.

(** Uses of a function: operand slots that hold it, possibly under casts. *)
Fixpoint mentions_func (n : string) (v : value) : bool :=
  match v with
  | VFunc s => String.eqb s n
  | VCast v' | VSplat _ v' => mentions_func n v'
  | _ => false
  end.

Definition func_use_empty (M : module) (n : string) : bool :=
  forallb (fun i => negb (existsb (mentions_func n) (operands (iop i))))
          (all_instrs M).

Definition erase_function (n : string) (M : module) : module :=
  mkModule (filter (fun f => negb (String.eqb (fname f) n)) (funcs M)) (next_id M).

Definition update_function (n : string) (g : function -> function) (M : module)
    : module :=
  mkModule (map (fun f => if String.eqb (fname f) n then g f else f) (funcs M))
           (next_id M).

Definition set_blocks (bs : list block) (F : function) : function :=
  mkFunction (fname F) (fret F) (fparams F) bs.

(** [Function::Create (..., M)]: a new declaration at the end of the
    function list. *)
Definition append_function (F : function) (M : module) : module :=
  mkModule (funcs M ++ [F]) (next_id M).

(** ** Lowering of intrinsics *)

Fixpoint replace_char (a b : ascii) (s : string) : string :=
  match s with
  | EmptyString => EmptyString
  | String c s' => String (if Ascii.eqb c a then b else c) (replace_char a b s')
  end.

(** [CallBase::getCalledFunction]: the callee when it is a function of the
    module, nothing for an indirect call. *)
Definition getCalledFunction (M : module) (II : instr) : option function :=
  match iop II with
  | Call (VFunc n) _ _ _ => getFunction M n
  | _ => None
  end.

Definition lowerLLVMIntrinsicName (M : module) (II : instr) : string :=
  match getCalledFunction M II with
  | Some IntrinsicFunc =>
      ("spirv." ++ replace_char "."%char "_"%char (fname IntrinsicFunc))%string
  | None => ""                    (* assert (IntrinsicFunc && "Missing function") *)
  end.

Definition setCalledFunction (id : nat) (F : string) (M : module) : module :=
  update_instr id
    (fun i => match iop i with
              | Call _ args t n => set_iop (Call (VFunc F) args t n) i
              | _ => i
              end) M.

Definition new_inst (id : nat) (name : string) (t : ty) (o : opcode) : instr :=
  mkInstr id name t o [].

Definition bump (k : nat) (M : module) : module :=
  mkModule (funcs M) (next_id M + k)%nat.

(** A new instruction created in front of [pos]; its identifier is the
    [next_id] of the module it is inserted in.  [name] is the name the
    constructor is given: when the function already holds a value of that
    name the symbol table appends a number to it, which is not represented. *)
Definition insert_new (pos : nat) (name : string) (t : ty) (o : opcode)
    (M : module) : module :=
  bump 1 (insert_before pos (new_inst (next_id M) name t o) M).

Definition declaration (name : string) (ret : ty) (params : list ty) : function :=
  mkFunction name ret params [].

(** Modelled from the spec: [getOrCreateFunction] of SPIRVUtil, which is not
    among the sources.  If a function with that name already exists in the
    module it is reused as it is; otherwise a declaration is created. *)
Definition getOrCreateFunction (RetTy : ty) (ArgTypes : list ty) (Name : string)
    (M : module) : module :=
  match getFunction M Name with
  | Some _ => M
  | None => append_function (declaration Name RetTy ArgTypes) M
  end.

(** [Type::getIntegerBitWidth].  On a type that is no integer type the cast
    inside asserts; that stop is not represented here: the function gives 0
    on such a type, and what is proved of the funnel-shift body is stated
    for integer types and vectors of integers only. *)
Definition getIntegerBitWidth (t : ty) : Z :=
  match t with TInt w => w | _ => 0 end.

(** The expansion of [expandMemSetAsLoop] (LowerMemIntrinsics), as the
    blocks it leaves in the helper once the memset itself is erased. *)
Definition memset_loop (n : nat) (LenTy : ty) (isvolatile : bool) : list block :=
  [ mkBlock "entry"
      [ new_inst n "" (TInt 1) (ICmp ICMP_EQ (VConstInt (getIntegerBitWidth LenTy) 0) (VArg 2));
        new_inst (n + 1) "" TVoid (Other "br" [VInst n]) ];
    mkBlock "loadstoreloop"
      [ new_inst (n + 2) "" LenTy (Other "phi" [VConstInt (getIntegerBitWidth LenTy) 0; VInst (n + 5)]);
        new_inst (n + 3) "" TPtr (Other "getelementptr" [VArg 0; VInst (n + 2)]);
        new_inst (n + 4) "" TVoid
          (if isvolatile then Other "store volatile" [VArg 1; VInst (n + 3)]
           else Store (VArg 1) (VInst (n + 3)));
        new_inst (n + 5) "" LenTy
          (BinaryOperator Add false false (VInst (n + 2)) (VConstInt (getIntegerBitWidth LenTy) 1));
        new_inst (n + 6) "" (TInt 1) (Other "icmp ult" [VInst (n + 5); VArg 2]);
        new_inst (n + 7) "" TVoid (Other "br" [VInst (n + 6)]) ];
    mkBlock "split"
      [ new_inst (n + 8) "" TVoid (Ret None) ] ]%nat.

Definition isVolatile (args : list value) : bool :=
  match nth 3 args VNull with
  | VConstInt _ z => negb (z =? 0)
  | _ => false
  end.

Definition lowerMemset (MSI : nat) (M : module) : module :=
  match get_instr M MSI with
  | None => M
  | Some II =>
      match iop II, getCalledFunction M II with
      | Call _ args _ _, Some IntrinsicFunc =>
          if isConstant (nth 1 args VNull) && isConstantInt (nth 2 args VNull)
          then M  (* To be handled in LLVMToSPIRV::transIntrinsicInst *)
          else
            let FuncName :=
              (lowerLLVMIntrinsicName M II ++
               (if isVolatile args then ".volatile" else ""))%string in
            (* Redirect @llvm.memset.* call to @spirv.llvm_memset_* *)
            match getFunction M FuncName with
            | Some _ =>
                (* This function is already linked in. *)
                setCalledFunction MSI FuncName M
            | None =>
                let M1 := append_function
                            (declaration FuncName (fret IntrinsicFunc)
                                         (fparams IntrinsicFunc)) M in
                let M2 := setCalledFunction MSI FuncName M1 in
                bump 9
                  (update_function FuncName
                     (set_blocks (memset_loop (next_id M2)
                                    (nth 2 (fparams IntrinsicFunc) TVoid)
                                    (isVolatile args))) M2)
            end
      | _, _ => M
      end
  end.

Definition buildFunnelShiftLeftFunc (FSHLFunc : string) (M : module) : module :=
  match getFunction M FSHLFunc with
  | None => M
  | Some F =>
      if negb (empty F) then M
      else
        let Ty := fret F in
        (* "int" is used interchangeably with "vector of int elements" *)
        let IntTy := match Ty with TVec _ w => TInt w | _ => Ty end in
        let BitWidth := getIntegerBitWidth IntTy in
        let BitWidthConstant := VConstInt BitWidth BitWidth in
        let BitWidthForInsts :=
          match Ty with
          | TVec n _ => VSplat n BitWidthConstant
          | _ => BitWidthConstant
          end in
        let n := next_id M in
        let RotateModVal :=
          new_inst n "" Ty (BinaryOperator URem false false (VArg 2) BitWidthForInsts) in
        let ShiftLeft :=
          new_inst (n + 1) "" Ty (BinaryOperator Shl false false (VArg 0) (VInst n)) in
        let SubRotateVal :=
          new_inst (n + 2) "" Ty (BinaryOperator Sub false false BitWidthForInsts (VInst n)) in
        let ShiftRight :=
          new_inst (n + 3) "" Ty (BinaryOperator LShr false false (VArg 1) (VInst (n + 2))) in
        let FunnelShiftRes :=
          new_inst (n + 4) "" Ty (BinaryOperator Or false false (VInst (n + 1)) (VInst (n + 3))) in
        let RetI := new_inst (n + 5) "" TVoid (Ret (Some (VInst (n + 4)))) in
        bump 6
          (update_function FSHLFunc
             (set_blocks
                [mkBlock "rotate"
                   [RotateModVal; ShiftLeft; SubRotateVal; ShiftRight;
                    FunnelShiftRes; RetI]]) M)
  end%nat.

Definition lowerFunnelShiftLeft (FSHLIntrinsic : nat) (M : module) : module :=
  match get_instr M FSHLIntrinsic with
  | None => M
  | Some II =>
      match getCalledFunction M II with
      | None => M
      | Some IntrinsicFunc =>
          let FuncName := lowerLLVMIntrinsicName M II in
          let M1 := getOrCreateFunction (fret IntrinsicFunc)
                      (fparams IntrinsicFunc) FuncName M in
          let M2 := buildFunnelShiftLeftFunc FuncName M1 in
          setCalledFunction FSHLIntrinsic FuncName M2
      end
  end.

Definition cmp_result_ty (t : ty) : ty :=
  match t with TVec n _ => TVec n 1 | _ => TInt 1 end.

Definition buildUMulWithOverflowFunc (UMulFunc : string) (M : module) : module :=
  match getFunction M UMulFunc with
  | None => M
  | Some F =>
      if negb (empty F) then M
      else
        let FirstArg := VArg 0 in
        let SecondArg := VArg 1 in
        let ArgTy := nth 0 (fparams F) TVoid in
        let n := next_id M in
        (* Do unsigned multiplication Mul = A * B.
           Then check if unsigned division Div = Mul / A is not equal to B. *)
        let Mul := new_inst n "" ArgTy (BinaryOperator Mul true false FirstArg SecondArg) in
        let Div := new_inst (n + 1) "" ArgTy (BinaryOperator UDiv false false (VInst n) FirstArg) in
        let Overflow :=
          new_inst (n + 2) "" (cmp_result_ty ArgTy) (ICmp ICMP_NE FirstArg (VInst (n + 1))) in
        let StructTy := fret F in
        let Agg := new_inst (n + 3) "" StructTy (InsertValue (VUndef StructTy) (VInst n) 0) in
        let Res := new_inst (n + 4) "" StructTy (InsertValue (VInst (n + 3)) (VInst (n + 2)) 1) in
        let RetI := new_inst (n + 5) "" TVoid (Ret (Some (VInst (n + 4)))) in
        bump 6
          (update_function UMulFunc
             (set_blocks [mkBlock "entry" [Mul; Div; Overflow; Agg; Res; RetI]]) M)
  end%nat.

Definition lowerUMulWithOverflow (UMulIntrinsic : nat) (M : module) : module :=
  match get_instr M UMulIntrinsic with
  | None => M
  | Some II =>
      match getCalledFunction M II with
      | None => M
      | Some IntrinsicFunc =>
          let FuncName := lowerLLVMIntrinsicName M II in
          let M1 := getOrCreateFunction (fret IntrinsicFunc)
                      (fparams IntrinsicFunc) FuncName M in
          let M2 := buildUMulWithOverflowFunc FuncName M1 in
          setCalledFunction UMulIntrinsic FuncName M2
      end
  end.

(** ** The pass *)

(** A run of the pass either completes, or stops on the [llvm_unreachable]
    or on one of the [user_empty] assertions of [regularize]: these are
    the stops [Abort] stands for.  The assertions of [lowerLLVMIntrinsicName]
    and of [lowerMemset], and the one inside [getIntegerBitWidth], are not
    represented.  [OutOfFuel] belongs to the model only. *)
Inductive result (A : Type) :=
| Abort (msg : string)
| OutOfFuel
| Done (a : A).
Arguments Abort {A} msg.
Arguments OutOfFuel {A}.
Arguments Done {A} a.

Definition isIntrinsic (F : function) : bool := prefix "llvm." (fname F).
(** [dyn_cast<MemSetInst>]: a call of llvm.memset or llvm.memset.inline.  The
    element-wise atomic fill, llvm.memset.element.unordered.atomic, is an
    [AtomicMemSetInst], which is no [MemSetInst]. *)
Definition isMemSet (F : function) : bool :=
  prefix "llvm.memset." (fname F) &&
  negb (prefix "llvm.memset.element.unordered.atomic." (fname F)).
Definition isFshl (F : function) : bool := prefix "llvm.fshl." (fname F).
Definition isUMulWithOverflow (F : function) : bool :=
  prefix "llvm.umul.with.overflow." (fname F).

Definition isPossiblyExact (op : binop) : bool :=
  match op with UDiv | SDiv | LShr | AShr => true | _ => false end.

(** Metadata not supported by SPIRV *)
Definition MDs : list string := ["fpmath"; "tbaa"; "range"].

Definition getMetadata (k : string) (i : instr) : bool :=
  existsb (fun kv => String.eqb (fst kv) k) (imd i).

(** [setMetadata (k, nullptr)] *)
Definition dropMetadata (k : string) (i : instr) : instr :=
  set_imd (filter (fun kv => negb (String.eqb (fst kv) k)) (imd i)) i.

Definition strip_metadata (i : instr) : instr :=
  fold_left (fun i MDName => if getMetadata MDName i then dropMetadata MDName i else i)
            MDs i.

Definition getInt32 (z : Z) : value := VConstInt 32 z.

Definition ScopeDevice : Z := 1.

Definition toCABI (o : AtomicOrdering) : Z :=
  match o with
  | NotAtomic | Unordered | Monotonic => 0
  | Acquire => 2
  | Release => 3
  | AcquireRelease => 4
  | SequentiallyConsistent => 5
  end.

(** Modelled from the spec: the external ordering-translation table
    ([OCLMemOrderMap], declared in OCLUtil.h), from the C ABI code of an
    ordering to the memory-semantics mask of the target. *)
Definition OCLMemOrderMap_map (k : Z) : Z :=
  if k =? 2 then 2 else if k =? 3 then 4 else if k =? 4 then 8
  else if k =? 5 then 16 else 0.

Definition kAtomicCompareExchange : string := "__spirv_AtomicCompareExchange".

(** Modelled from the spec: [addCallInstSPIRV] of SPIRVUtil, which is not
    among the sources.  A call to the target primitive is inserted
    immediately before [Pos]; the primitive is declared when it is not yet.
    Name mangling is left out. *)
Definition addCallInstSPIRV (FuncName : string) (RetTy : ty) (ArgTys : list ty)
    (Args : list value) (Pos : nat) (InstName : string) (M : module) : module :=
  insert_new Pos InstName RetTy (Call (VFunc FuncName) Args false false)
             (getOrCreateFunction RetTy ArgTys FuncName M).

(** The loop over [Cmpxchg->users()].  [us] is the use-list as it stood
    when the loop was entered.  The store case replaces every use of the
    original result, which moves all remaining entries of the use-list to the
    new composite: the iterator then only meets users it has already passed
    over, none of them an extract or a store, and the loop does nothing
    more. *)
Fixpoint cmpxchg_users (Res : nat) (Comparator : value) (CmpxchgTy : ty)
    (us : list nat) (st : module * list nat) : result (module * list nat) :=
  match us with
  | [] => Done st
  | U :: us' =>
      let (M, ToErase) := st in
      match option_map iop (get_instr M U) with
      | Some (ExtractValue _ idxs) =>
          match idxs with
          | O :: _ =>
              let M1 := replaceAllUsesWith (VInst U) (VInst Res) M in
              if negb (user_empty M1 (VInst U)) then Abort "Extract->user_empty()"
              else cmpxchg_users Res Comparator CmpxchgTy us'
                     (dropAllReferences U M1, ToErase ++ [U])
          | 1%nat :: _ =>
              let Cmp := next_id M in
              let M1 := insert_new U "cmpxchg.success" (TInt 1)
                          (ICmp ICMP_EQ (VInst Res) Comparator) M in
              let M2 := replaceAllUsesWith (VInst U) (VInst Cmp) M1 in
              if negb (user_empty M2 (VInst U)) then Abort "Extract->user_empty()"
              else cmpxchg_users Res Comparator CmpxchgTy us'
                     (dropAllReferences U M2, ToErase ++ [U])
          | _ => Abort "Unxpected cmpxchg pattern"
          end
      | Some (Store StoredValue _) =>
          let Cmp := next_id M in
          let M1 := insert_new U "cmpxchg.success" (TInt 1)
                      (ICmp ICMP_EQ (VInst Res) Comparator) M in
          let Agg := next_id M1 in
          let M2 := insert_new U "agg0" CmpxchgTy
                      (InsertValue (VUndef CmpxchgTy) (VInst Res) 0) M1 in
          let AggStruct := next_id M2 in
          let M3 := insert_new U "agg1" CmpxchgTy
                      (InsertValue (VInst Agg) (VInst Cmp) 1) M2 in
          Done (replaceAllUsesWith StoredValue (VInst AggStruct) M3, ToErase)
      | _ => cmpxchg_users Res Comparator CmpxchgTy us' (M, ToErase)
      end
  end.

(** The body of the loop over the instructions of a function, for the
    instruction [id]. *)
Definition visit (id : nat) (st : module * list nat) : result (module * list nat) :=
  let (M, ToErase) := st in
  match get_instr M id with
  | None => Done st
  | Some II =>
      let M1 :=
        match iop II with
        | Call callee args _ nounwind =>
            (* Call->setTailCall(false) *)
            let M' := update_instr id (set_iop (Call callee args false nounwind)) M in
            match getCalledFunction M II with
            | Some CF =>
                if isIntrinsic CF then
                  (* removeFnAttr(Call, Attribute::NoUnwind) *)
                  let M'' := update_instr id (set_iop (Call callee args false false)) M' in
                  if isMemSet CF then lowerMemset id M''
                  else if isFshl CF then lowerFunnelShiftLeft id M''
                  else if isUMulWithOverflow CF then lowerUMulWithOverflow id M''
                  else M''
                else M'
            | None => M'
            end
        | BinaryOperator op nuw exact a b =>
            (* Remove optimization info not supported by SPIRV *)
            if isPossiblyExact op && exact
            then update_instr id (set_iop (BinaryOperator op nuw false a b)) M
            else M
        | _ => M
        end in
      (* Remove metadata not supported by SPIRV *)
      let M2 := update_instr id strip_metadata M1 in
      match iop II with
      | AtomicCmpXchg Ptr Comparator Val succ fail =>
          let MemoryScope := getInt32 ScopeDevice in
          let EqualSem := getInt32 (OCLMemOrderMap_map (toCABI succ)) in
          let UnequalSem := getInt32 (OCLMemOrderMap_map (toCABI fail)) in
          let Args := [Ptr; MemoryScope; EqualSem; UnequalSem; Val; Comparator] in
          let CmpTy := match ity II with TStruct (t :: _) => t | _ => TVoid end in
          let M3 := addCallInstSPIRV kAtomicCompareExchange CmpTy
                      [TPtr; TInt 32; TInt 32; TInt 32; CmpTy; CmpTy]
                      Args id "cmpxchg.res" M2 in
          let Res := next_id M2 in
          match cmpxchg_users Res Comparator (ity II) (users M3 (VInst id))
                  (M3, ToErase) with
          | Done (M4, ToErase') =>
              if user_empty M4 (VInst id) then Done (M4, ToErase' ++ [id])
              else Done (M4, ToErase')
          | r => r
          end
      | _ => Done (M2, ToErase)
      end
  end.

(** The element that follows [cur] in a list of identifiers: the step of an
    intrusive-list iterator. *)
Fixpoint next_after {A} (eqb : A -> A -> bool) (cur : A) (l : list A) : option A :=
  match l with
  | [] => None
  | x :: l' => if eqb x cur then hd_error l' else next_after eqb cur l'
  end.

Definition inst_ids (M : module) (F : string) : list nat :=
  match getFunction M F with
  | Some f => map iid (instrs_of f)
  | None => []
  end.

(** [for (BasicBlock &BB : *F) for (Instruction &II : BB)]: the iterator is
    advanced after the body has run, on the lists as the body left them. *)
Fixpoint walk_insts (fuel : nat) (F : string) (cur : option nat)
    (st : module * list nat) : result (module * list nat) :=
  match cur with
  | None => Done st
  | Some id =>
      match fuel with
      | O => OutOfFuel
      | S fuel' =>
          match visit id st with
          | Done st' =>
              walk_insts fuel' F (next_after Nat.eqb id (inst_ids (fst st') F)) st'
          | r => r
          end
      end
  end.

(** [for (Instruction *V : ToErase)] *)
Fixpoint erase_all (ToErase : list nat) (M : module) : result module :=
  match ToErase with
  | [] => Done M
  | V :: rest =>
      if user_empty M (VInst V) then erase_all rest (eraseFromParent V M)
      else Abort "V->user_empty()"
  end.

(** The loop over the functions of the module; [I] is the iterator, already
    advanced past the function being processed. *)
Fixpoint walk_functions (fuel : nat) (I : option string) (M : module)
    : result module :=
  match I with
  | None => Done M
  | Some Fn =>
      match fuel with
      | O => OutOfFuel
      | S fuel' =>
          let I' := next_after String.eqb Fn (map fname (funcs M)) in
          match getFunction M Fn with
          | None => Done M
          | Some F =>
              if isDeclaration F && func_use_empty M Fn
              then walk_functions fuel' I' (erase_function Fn M)
              else
                match walk_insts fuel Fn (hd_error (map iid (instrs_of F))) (M, []) with
                | Done (M1, ToErase) =>
                    match erase_all ToErase M1 with
                    | Done M2 => walk_functions fuel' I' M2
                    | r => r
                    end
                | Abort msg => Abort msg
                | OutOfFuel => OutOfFuel
                end
          end
      end
  end.

(** Modelled from the spec: [eraseUselessFunctions] of SPIRVUtil, which is
    not among the sources.  Every function with no body and an empty use-list
    is removed from the module. *)
Definition eraseUselessFunctions (M : module) : module :=
  mkModule
    (filter (fun f => negb (isDeclaration f && func_use_empty M (fname f))) (funcs M))
    (next_id M).

Definition isFunctionPointerType (t : ty) : bool :=
  match t with TFuncPtr => true | _ => false end.

(** Modelled from the spec: at least one function-pointer-typed parameter. *)
Definition hasFunctionPointerArg (F : function) : bool :=
  existsb isFunctionPointerType (fparams F).

Definition kSPIRVName_Prefix : string := "__spirv_".
Definition kSPIRVName_Postfix : string := "__".

(** Modelled from the spec: the builtin-opcode mapping, an external table.
    A name is taken for a builtin when it carries the SPIR-V prefix; the
    operation name is what follows the prefix. *)
Definition getSPIRVFuncOC (name : string) : option string :=
  if prefix kSPIRVName_Prefix name
  then Some (substring (length kSPIRVName_Prefix)
                       (length name - length kSPIRVName_Prefix) name)
  else None.

Definition decorateSPIRVFunction (s : string) : string :=
  (kSPIRVName_Prefix ++ s ++ kSPIRVName_Postfix)%string.

(** The cast of a constant expression, unwrapped. *)
Fixpoint removeConstantCast (v : value) : value :=
  match v with
  | VCast v' => removeConstantCast v'
  | _ => v
  end.

(** [CastInst]: the conversion instructions. *)
Definition cast_mnemonics : list string :=
  ["trunc"; "zext"; "sext"; "fptrunc"; "fpext"; "fptoui"; "fptosi"; "uitofp";
   "sitofp"; "ptrtoint"; "inttoptr"; "bitcast"; "addrspacecast"].

Definition isCastInst (o : opcode) : bool :=
  match o with
  | Other m [_] => existsb (String.eqb m) cast_mnemonics
  | _ => false
  end.

(** Modelled from the spec: [removeCast] of SPIRVUtil, which is not among the
    sources.  The function reference is encoded as a cast of the function,
    which is a constant cast expression or a cast instruction (the bitcast
    instruction of the comment above [lowerFuncPtr]); the cast is unwrapped
    and gives the value under it. *)
Definition removeCast (M : module) (v : value) : value :=
  match removeConstantCast v with
  | VInst id =>
      match get_instr M id with
      | Some C =>
          match iop C with
          | Other _ [v'] => if isCastInst (iop C) then removeConstantCast v' else VInst id
          | _ => VInst id
          end
      | None => VInst id
      end
  | w => w
  end.

(** Modelled from the spec: the rewriting of one call site of a builtin
    that takes a function reference ([mutateFunction] of SPIRVUtil is not
    among the sources).  Each argument of function-pointer type loses its
    cast and the call is retargeted to the canonical symbol; casts are looked
    up in [M], the module as it is when the rewriting starts. *)
Definition lowerFuncPtr_call (M : module) (F : function) (Name : string)
    (i : instr) : instr :=
  match iop i with
  | Call (VFunc callee) Args t n =>
      if String.eqb callee (fname F) then
        set_iop
          (Call (VFunc Name)
                (map (fun p => if isFunctionPointerType (snd p)
                               then removeCast M (fst p) else fst p)
                     (combine Args (fparams F)))
                t n) i
      else i
  | _ => i
  end.

(** [InvokeFuncPtrs]: the arguments of function-pointer type of the call
    sites of [F], as they are before the rewriting.  Only an instruction can
    be erased from the module, so only the arguments that are instruction
    results are kept here.  The source holds them in a [std::set] of
    pointers, whose order is that of the addresses; here they come in the
    order of the call sites and of their arguments. *)
Definition InvokeFuncPtrs (F : function) (M : module) : list nat :=
  flat_map
    (fun i =>
       match iop i with
       | Call (VFunc callee) Args _ _ =>
           if String.eqb callee (fname F) then
             flat_map (fun p => if isFunctionPointerType (snd p)
                                then match fst p with VInst id => [id] | _ => [] end
                                else [])
                      (combine Args (fparams F))
           else []
       | _ => []
       end)
    (all_instrs M).

(** Modelled from the spec: [eraseIfNoUse] of SPIRVUtil, which is not among
    the sources: a removal candidate whose use-list is empty is erased. *)
Definition eraseIfNoUse (V : nat) (M : module) : module :=
  if user_empty M (VInst V) then eraseFromParent V M else M.

Definition lowerFuncPtr_F (F : function) (OC : string) (M : module) : module :=
  let Name := decorateSPIRVFunction OC in
  let M1 := getOrCreateFunction (fret F) (fparams F) Name M in
  let M2 := rewrite_instrs (fun i => [lowerFuncPtr_call M1 F Name i]) M1 in
  (* for (auto &I : InvokeFuncPtrs) eraseIfNoUse(I) *)
  fold_left (fun M' I => eraseIfNoUse I M') (InvokeFuncPtrs F M1) M2.

Definition lowerFuncPtr (M : module) : module :=
  let Work :=
    flat_map (fun F =>
                if hasFunctionPointerArg F then
                  match getSPIRVFuncOC (fname F) with
                  | Some OC => [(F, OC)]  (* builtin with a function pointer argument *)
                  | None => []
                  end
                else []) (funcs M) in
  fold_left (fun M' I => lowerFuncPtr_F (fst I) (snd I) M') Work M.

(** Remove entities not representable by SPIR-V *)
Definition regularize (fuel : nat) (M : module) : result module :=
  let M1 := eraseUselessFunctions M in
  let M2 := lowerFuncPtr M1 in
  walk_functions fuel (hd_error (map fname (funcs M2))) M2.

(** ** Running a synthesized helper

    The helper is declared in a module of its own, its body is built, and the
    body is run on the given arguments. *)

Definition synthesize (build : string -> module -> module) (ret : ty)
    (params : list ty) : option function :=
  getFunction (build "helper" (mkModule [declaration "helper" ret params] 0))
              "helper".

Definition run_synthesized (build : string -> module -> module) (ret : ty)
    (params : list ty) (args : list rval) : outcome (option rval) :=
  match synthesize build ret params with
  | Some f => run_function f args
  | None => Ok None
  end.

Definition umul_ret (w : Z) : ty := TStruct [TInt w; TInt 1].

Definition run_umul (w a b : Z) : outcome (option rval) :=
  run_synthesized buildUMulWithOverflowFunc (umul_ret w) [TInt w; TInt w]
                  [RInt (Bits a); RInt (Bits b)].

Definition run_fshl (w a b r : Z) : outcome (option rval) :=
  run_synthesized buildFunnelShiftLeftFunc (TInt w) [TInt w; TInt w; TInt w]
                  [RInt (Bits a); RInt (Bits b); RInt (Bits r)].

(** The funnel shift of the language reference: the operands are
    concatenated, the first one being the more significant, the
    concatenation is shifted left by [r mod w], and the most significant [w]
    bits of the result are returned. *)
Definition fshl_reference (w a b r : Z) : Z :=
  (((a * 2 ^ w + b) * 2 ^ (r mod w)) / 2 ^ w) mod 2 ^ w.


(** ** Well-formed modules and the predicates of the statements *)

(** Instruction identifiers are unique and below [next_id]; function names
    are unique. *)
Record wf (M : module) : Prop := mk_wf {
  wf_ids : NoDup (map iid (all_instrs M));
  wf_bound : Forall (fun i => (iid i < next_id M)%nat) (all_instrs M);
  wf_names : NoDup (map fname (funcs M))
}.

(** The instruction carries none of the three metadata kinds. *)
Definition is_clean (i : instr) : bool :=
  forallb (fun k => negb (getMetadata k i)) MDs.

(** A consumer the loop over the users passes over: neither an extract nor
    a store. *)
Definition skipped (M : module) (U : nat) : bool :=
  match option_map iop (get_instr M U) with
  | Some (ExtractValue _ _) | Some (Store _ _) => false
  | _ => true
  end.


(** What the users of the two extracts hold after the decomposition. *)
Definition decomposed_operand (e0 e1 res cmp : nat) (v : value) : value :=
  subst_value (VInst e1) (VInst cmp) (subst_value (VInst e0) (VInst res) v).

(** [tracks g excl M M']: every instruction of [M] whose identifier is not in
    [excl] is still in [M'], with each operand [v] replaced by [g v]. *)
Definition tracks (g : value -> value) (excl : list nat) (M M' : module) : Prop :=
  forall i, In i (all_instrs M) -> ~ In (iid i) excl ->
    exists i', In i' (all_instrs M') /\ iid i' = iid i /\
               operands (iop i') = map g (operands (iop i)).

(** ** Example modules *)

Definition cmpxchg_ty : ty := TStruct [TInt 32; TInt 1].

Definition example_cmpxchg : instr :=
  mkInstr 0 "c" cmpxchg_ty
    (AtomicCmpXchg (VArg 0) (VArg 1) (VArg 2) SequentiallyConsistent Acquire) [].

(** A function whose compare-exchange is followed by the given consumers. *)
Definition cmpxchg_module (ret : ty) (consumers : list instr) : module :=
  mkModule
    [mkFunction "g" ret [TPtr; TInt 32; TInt 32]
       [mkBlock "entry" (example_cmpxchg :: consumers)]] 10.

(** The composite is returned as a whole. *)
Definition returned_whole : module :=
  cmpxchg_module cmpxchg_ty [mkInstr 1 "" TVoid (Ret (Some (VInst 0))) []].

(** The composite is stored as a whole, twice. *)
Definition stored_twice : module :=
  cmpxchg_module TVoid
    [mkInstr 1 "" TVoid (Store (VInst 0) (VArg 0)) [];
     mkInstr 2 "" TVoid (Store (VInst 0) (VArg 0)) [];
     mkInstr 3 "" TVoid (Ret None) []].

(** Both fields are extracted; the value is stored and the flag is
    branched on. *)
Definition both_extracted : module :=
  cmpxchg_module TVoid
    [mkInstr 1 "v" (TInt 32) (ExtractValue (VInst 0) [0%nat]) [];
     mkInstr 2 "ok" (TInt 1) (ExtractValue (VInst 0) [1%nat]) [];
     mkInstr 3 "" TVoid (Store (VInst 1) (VArg 0)) [];
     mkInstr 4 "" TVoid (Other "br" [VInst 2]) [];
     mkInstr 5 "" TVoid (Ret None) []].


Definition fshl_i8 : function :=
  declaration "llvm.fshl.i8" (TInt 8) [TInt 8; TInt 8; TInt 8].

(** One call of the 8-bit funnel shift, declared ahead of its caller. *)
Definition calls_fshl : module :=
  mkModule
    [fshl_i8;
     mkFunction "f" (TInt 8) [TInt 8; TInt 8; TInt 8]
       [mkBlock "entry"
          [mkInstr 0 "" (TInt 8)
             (Call (VFunc "llvm.fshl.i8") [VArg 0; VArg 1; VArg 2] false false) [];
           mkInstr 1 "" TVoid (Ret (Some (VInst 0))) []]]] 2.

Definition memset_p0i8_i32 : function :=
  declaration "llvm.memset.p0i8.i32" TVoid [TPtr; TInt 8; TInt 32; TInt 1].

(** A fill with a constant value and a constant length, marked as a tail
    call. *)
Definition constant_fill : module :=
  mkModule
    [mkFunction "clear" TVoid [TPtr]
       [mkBlock "entry"
          [mkInstr 0 "" TVoid
             (Call (VFunc "llvm.memset.p0i8.i32")
                   [VArg 0; VConstInt 8 0; VConstInt 32 16; VConstInt 1 0] true true)
             [("tbaa", 7%nat)];
           mkInstr 1 "" TVoid (Ret None) []]];
     memset_p0i8_i32] 2.

Definition result_map {A B} (f : A -> B) (r : result A) : result B :=
  match r with
  | Done a => Done (f a)
  | Abort m => Abort m
  | OutOfFuel => OutOfFuel
  end.

(** The two extract cases of the loop over the users, as changes of the
    module: the uses of the extract [U] are replaced by [x] and [U] gives up
    its operands. *)
Definition retire (U x : nat) (M : module) : module :=
  dropAllReferences U (replaceAllUsesWith (VInst U) (VInst x) M).

Definition new_icmp (Res : nat) (Comparator : value) (U : nat) (M : module) : module :=
  insert_new U "cmpxchg.success" (TInt 1) (ICmp ICMP_EQ (VInst Res) Comparator) M.

(** A decidable check of [wf]. *)
Fixpoint nodupb {A} (eqb : A -> A -> bool) (l : list A) : bool :=
  match l with
  | [] => true
  | x :: l' => negb (existsb (eqb x) l') && nodupb eqb l'
  end.

Definition wf_check (M : module) : bool :=
  nodupb Nat.eqb (map iid (all_instrs M)) &&
  forallb (fun i => Nat.ltb (iid i) (next_id M)) (all_instrs M) &&
  nodupb String.eqb (map fname (funcs M)).

(** The module as the loop over the users finds it: the metadata of the
    compare-exchange [c] is stripped and the call of the target primitive is
    in front of it. *)
Definition with_primitive (c : nat) (T : ty) (Args : list value) (M : module) : module :=
  addCallInstSPIRV kAtomicCompareExchange T [TPtr; TInt 32; TInt 32; TInt 32; T; T]
                   Args c "cmpxchg.res" (update_instr c strip_metadata M).

Definition primitive_args (Ptr Cmp Val : value) (succ fail : AtomicOrdering) : list value :=
  [Ptr; getInt32 ScopeDevice; getInt32 (OCLMemOrderMap_map (toCABI succ));
   getInt32 (OCLMemOrderMap_map (toCABI fail)); Val; Cmp].

Definition compare_ty (II : instr) : ty :=
  match ity II with TStruct (t :: _) => t | _ => TVoid end.

(** No operand of the compare-exchange is one of the given instructions. *)
Definition operands_apart (ops : list value) (ids : list nat) : bool :=
  forallb (fun v => negb (existsb (fun n => value_eqb v (VInst n)) ids)) ops.

Definition result_bind {A B} (r : result A) (k : A -> result B) : result B :=
  match r with
  | Done a => k a
  | Abort m => Abort m
  | OutOfFuel => OutOfFuel
  end.

(** The three lowerings, and for each the name of the function the call is
    redirected to and whether the call is lowered at all. *)
Inductive lowering := LowerMemset | LowerFshl | LowerUMul.

Definition lower (k : lowering) : nat -> module -> module :=
  match k with
  | LowerMemset => lowerMemset
  | LowerFshl => lowerFunnelShiftLeft
  | LowerUMul => lowerUMulWithOverflow
  end.

Definition call_args (II : instr) : list value :=
  match iop II with Call _ args _ _ => args | _ => [] end.

Definition derived_name (k : lowering) (M : module) (II : instr) : string :=
  match k with
  | LowerMemset =>
      (lowerLLVMIntrinsicName M II ++
       (if isVolatile (call_args II) then ".volatile" else ""))%string
  | _ => lowerLLVMIntrinsicName M II
  end.

Definition is_lowered (k : lowering) (II : instr) : bool :=
  match k with
  | LowerMemset =>
      negb (isConstant (nth 1 (call_args II) VNull) &&
            isConstantInt (nth 2 (call_args II) VNull))
  | _ => true
  end.

(** Two calls of the 8-bit funnel shift; in [second_fshl_call] the first one
    has been lowered. *)
Definition calls_fshl_twice : module :=
  mkModule
    [mkFunction "f" (TInt 8) [TInt 8; TInt 8; TInt 8]
       [mkBlock "entry"
          [mkInstr 0 "" (TInt 8)
             (Call (VFunc "llvm.fshl.i8") [VArg 0; VArg 1; VArg 2] false false) [];
           mkInstr 1 "" (TInt 8)
             (Call (VFunc "llvm.fshl.i8") [VInst 0; VArg 1; VArg 2] false false) [];
           mkInstr 2 "" TVoid (Ret (Some (VInst 1))) []]];
     fshl_i8] 3.

Definition second_fshl_call : module := lowerFunnelShiftLeft 0 calls_fshl_twice.

Definition function_names (M : module) : list string := map fname (funcs M).

(** ** How the walk changes a module

    [ext n0 n1 l l']: the instruction list [l'] descends from [l]: every
    instruction of [l] is still there, in the same order and under the same
    identifier, with its metadata either kept or stripped of the three kinds;
    the other instructions of [l'] are new ones, with an identifier in
    [n0, n1) and none of the three kinds. *)
Definition banned (kv : string * nat) : bool := existsb (String.eqb (fst kv)) MDs.

Definition strip_md (md : list (string * nat)) : list (string * nat) :=
  filter (fun kv => negb (banned kv)) md.

Definition md_kept (i i' : instr) : Prop :=
  imd i' = imd i \/ imd i' = strip_md (imd i).

Inductive ext (n0 n1 : nat) : list instr -> list instr -> Prop :=
| ext_nil : ext n0 n1 [] []
| ext_keep i i' l l' :
    iid i' = iid i -> md_kept i i' -> ext n0 n1 l l' ->
    ext n0 n1 (i :: l) (i' :: l')
| ext_new j l l' :
    (n0 <= iid j < n1)%nat -> is_clean j = true -> ext n0 n1 l l' ->
    ext n0 n1 l (j :: l').

(** The functions of the module keep their place and their name and their
    bodies descend from what they were; new functions come at the end. *)
Inductive fext (n0 n1 : nat) : list function -> list function -> Prop :=
| fext_nil news :
    Forall (fun G => ext n0 n1 [] (instrs_of G)) news -> fext n0 n1 [] news
| fext_cons F F' l l' :
    fname F' = fname F -> ext n0 n1 (instrs_of F) (instrs_of F') ->
    fext n0 n1 l l' -> fext n0 n1 (F :: l) (F' :: l').

Definition evolves (M M' : module) : Prop :=
  (next_id M <= next_id M')%nat /\
  fext (next_id M) (next_id M') (funcs M) (funcs M').

Definition all_clean (F : function) : Prop :=
  Forall (fun i => is_clean i = true) (instrs_of F).

(** A change of the module that keeps it well formed and lets it descend
    from what it was. *)
Definition sound_step (M M' : module) : Prop := wf M' /\ evolves M M'.

(** Every instruction of the module that carries the identifier [id] is free
    of the three metadata kinds. *)
Definition clean_at (id : nat) (M : module) : Prop :=
  forall i, In i (all_instrs M) -> iid i = id -> is_clean i = true.

(** An instruction of [M'] is new, or descends from an instruction of [M]. *)
Definition descends (M : module) (i' : instr) : Prop :=
  ((next_id M <= iid i')%nat /\ is_clean i' = true) \/
  (exists i, In i (all_instrs M) /\ iid i' = iid i /\ md_kept i i').

(** What one turn of the loop over the functions does to the module: the
    functions keep their place and name, those free of the three metadata
    kinds stay so, new functions come at the end and are free of them, and
    every instruction is new or descends from one of the module. *)
Definition fstep (M M2 : module) : Prop :=
  (next_id M <= next_id M2)%nat /\
  (forall i', In i' (all_instrs M2) -> descends M i') /\
  exists olds news,
    funcs M2 = olds ++ news /\
    Forall2 (fun F F' => fname F' = fname F /\ (all_clean F -> all_clean F'))
            (funcs M) olds /\
    Forall all_clean news.


(** The module a completed run of the pass leaves. *)
Definition regularized (fuel : nat) (M : module) : module :=
  match regularize fuel M with
  | Done M' => M'
  | _ => M
  end.


(** [D] names declarations only, and nothing uses it. *)
Definition decl_unused (D : string) (M : module) : bool :=
  forallb (fun F => negb (String.eqb (fname F) D) || isDeclaration F) (funcs M) &&
  func_use_empty M D.

(** [D] is not a name the walk gives to a function or redirects a call to. *)
Definition not_derived (D : string) : bool :=
  negb (prefix "spirv." D) && negb (String.eqb D kAtomicCompareExchange).

(** ** Declarations nothing uses *)

(** No operand of the instruction mentions the function [D]. *)
Definition quiet (D : string) (i : instr) : Prop :=
  forall v, In v (operands (iop i)) -> mentions_func D v = false.

(** [D] names declarations only and no instruction of the module mentions
    it: the statement of [decl_unused]. *)
Definition idle (D : string) (M : module) : Prop :=
  (forall F, In F (funcs M) -> fname F = D -> isDeclaration F = true) /\
  (forall i, In i (all_instrs M) -> quiet D i).

(** The functions of [M'] are functions of [M] or carry a name the walk
    itself gives. *)
Definition names_ok (M M' : module) : Prop :=
  forall n, In n (map fname (funcs M')) ->
            In n (map fname (funcs M)) \/ not_derived n = false.

(** The place of the iterator over the functions with respect to [D]:
    [D] is not among the functions the iterator has passed. *)
Definition dinv (D : string) (M : module) (I : option string) : Prop :=
  match I with
  | None => ~ In D (map fname (funcs M))
  | Some n =>
      exists done F todo,
        funcs M = done ++ F :: todo /\ fname F = n /\ ~ In D (map fname done)
  end.

(** The module as it is when the iterator of the loop over the functions
    arrives at the function [D]: the loop of [walk_functions], stopped at
    that moment.  Nothing is returned when the loop ends without meeting
    [D]. *)
Fixpoint reaches (D : string) (fuel : nat) (I : option string) (M : module)
    : option module :=
  match I with
  | None => None
  | Some Fn =>
      match fuel with
      | O => None
      | S fuel' =>
          if String.eqb Fn D then Some M
          else
            let I' := next_after String.eqb Fn (map fname (funcs M)) in
            match getFunction M Fn with
            | None => None
            | Some F =>
                if isDeclaration F && func_use_empty M Fn
                then reaches D fuel' I' (erase_function Fn M)
                else
                  match walk_insts fuel Fn (hd_error (map iid (instrs_of F))) (M, []) with
                  | Done (M1, ToErase) =>
                      match erase_all ToErase M1 with
                      | Done M2 => reaches D fuel' I' M2
                      | _ => None
                      end
                  | _ => None
                  end
            end
      end
  end.

(** The module [M'] still has [D] idle and got no function but under a name
    the walk gives. *)
Definition calm (D : string) (M M' : module) : Prop :=
  idle D M' /\ names_ok M M'.

(** A builtin that takes a function reference, declared ahead of the
    function it is handed and of its only caller. *)
Definition enqueues_kernel : module :=
  mkModule
    [declaration "__spirv_EnqueueKernel" (TInt 32) [TFuncPtr];
     mkFunction "block" TVoid []
       [mkBlock "entry" [mkInstr 0 "" TVoid (Ret None) []]];
     mkFunction "f" (TInt 32) []
       [mkBlock "entry"
          [mkInstr 1 "" (TInt 32)
             (Call (VFunc "__spirv_EnqueueKernel") [VCast (VFunc "block")] false false) [];
           mkInstr 2 "" TVoid (Ret (Some (VInst 1))) []]]] 3.

(** ** Further cases of the synthesized bodies and of the derived names *)

(** The funnel-shift body at a vector type of [length ts] lanes of width
    [w]; a lane triple holds the lanes of the first operand, of the second
    operand and of the rotate amount. *)
Definition run_fshl_vec (w : Z) (ts : list (Z * Z * Z)) : outcome (option rval) :=
  let t := TVec (List.length ts) w in
  run_synthesized buildFunnelShiftLeftFunc t [t; t; t]
    [RVec (map (fun t => Bits (fst (fst t))) ts);
     RVec (map (fun t => Bits (snd (fst t))) ts);
     RVec (map (fun t => Bits (snd t)) ts)].

(** What the body computes in one lane. *)
Definition fshl_lane (w a b r : Z) : lane :=
  if r mod w =? 0 then Poison else Bits (fshl_reference w a b r).

Fixpoint has_char (c : ascii) (s : string) : bool :=
  match s with
  | EmptyString => false
  | String c' s' => Ascii.eqb c' c || has_char c s'
  end.

(** ** The pass as a sequence of primitive changes *)

(** The names under which the pass declares functions: the derived names of
    the lowered intrinsics and the names of the target primitives. *)
Definition pass_name (n : string) : bool :=
  prefix "spirv." n || prefix kSPIRVName_Prefix n.

(** The instructions the pass creates: compares, insertions into a
    composite, the instructions of the synthesized bodies, and calls of
    functions that are not intrinsics, neither marked as tail calls nor as
    not unwinding; a binary operator is created without the exact flag. *)
Definition created (o : opcode) : bool :=
  match o with
  | ICmp _ _ _ | InsertValue _ _ _ | Ret _ | Other _ _ | Store _ _ => true
  | BinaryOperator _ _ exact _ _ => negb exact
  | Call (VFunc F) _ tail nounwind => negb (prefix "llvm." F) && negb tail && negb nounwind
  | _ => false
  end.

(** A body for a declaration: new instructions with identifiers in
    [next_id M, next_id M + k), pairwise different. *)
Definition fresh_body (M : module) (k : nat) (B : list block) : Prop :=
  Forall (fun j => ((next_id M <= iid j < next_id M + k)%nat /\ is_clean j = true) /\
                   created (iop j) = true) (flat_map insts B) /\
  NoDup (map iid (flat_map insts B)).

(** One change of the module by the pass. *)
Inductive prim : module -> module -> Prop :=
| prim_flags M id II c a t n n' :
    get_instr M id = Some II -> iop II = Call c a t n -> n' = n \/ n' = false ->
    prim M (update_instr id (set_iop (Call c a false n')) M)
| prim_inexact M id II op nuw ex a b :
    get_instr M id = Some II -> iop II = BinaryOperator op nuw ex a b ->
    prim M (update_instr id (set_iop (BinaryOperator op nuw false a b)) M)
| prim_strip M id : prim M (update_instr id strip_metadata M)
| prim_retarget M id F :
    prefix "llvm." F = false -> prim M (setCalledFunction id F M)
| prim_drop M id : prim M (dropAllReferences id M)
| prim_rauw M old x : prim M (replaceAllUsesWith old (VInst x) M)
| prim_insert M pos name t o :
    created o = true -> prim M (insert_new pos name t o M)
| prim_declare M n r ps :
    pass_name n = true -> getFunction M n = None ->
    prim M (append_function (declaration n r ps) M)
| prim_body M n F B k :
    getFunction M n = Some F -> empty F = true -> fresh_body M k B ->
    prim M (bump k (update_function n (set_blocks B) M))
| prim_erase_decl M n F :
    getFunction M n = Some F -> isDeclaration F = true ->
    func_use_empty M n = true -> prim M (erase_function n M)
| prim_erase M V : prim M (eraseFromParent V M)
| prim_funcptr M N F Name :
    prefix "llvm." Name = false ->
    prim M (rewrite_instrs (fun i => [lowerFuncPtr_call N F Name i]) M)
| prim_useless M : prim M (eraseUselessFunctions M).

Inductive steps : module -> module -> Prop :=
| steps_refl M : steps M M
| steps_cons M M1 M2 : prim M M1 -> steps M1 M2 -> steps M M2.

(** The functions of [M'] are functions of [M] or carry a name the pass
    gives. *)
Definition names_from (M M' : module) : Prop :=
  forall n, In n (map fname (funcs M')) ->
            In n (map fname (funcs M)) \/ pass_name n = true.

(** The function [F'] is [F] up to the instructions in its blocks: same
    name, same signature, same blocks in the same order. *)
Definition same_shape (F F' : function) : Prop :=
  fname F' = fname F /\ fret F' = fret F /\ fparams F' = fparams F /\
  map bname (blocks F') = map bname (blocks F).

(** Every function of [M] that has a body is in [M'], up to the
    instructions in its blocks. *)
Definition bodies_kept (M M' : module) : Prop :=
  forall F, In F (funcs M) -> isDeclaration F = false ->
            exists F', In F' (funcs M') /\ same_shape F F'.

(** A function that calls the funnel-shift and the multiply-with-overflow
    intrinsics and an ordinary function, divides exactly and exchanges
    atomically, the two fields of the exchange being extracted. *)
Definition mixed : module :=
  mkModule
    [mkFunction "f" (TInt 8) [TInt 8; TInt 8; TInt 8; TPtr]
       [mkBlock "entry"
          [mkInstr 0 "" (TInt 8)
             (Call (VFunc "llvm.fshl.i8") [VArg 0; VArg 1; VArg 2] true true) [];
           mkInstr 1 "" (TStruct [TInt 8; TInt 1])
             (Call (VFunc "llvm.umul.with.overflow.i8") [VInst 0; VArg 1] true false)
             [("range", 1%nat)];
           mkInstr 2 "" (TInt 8) (ExtractValue (VInst 1) [0%nat]) [];
           mkInstr 3 "" (TInt 8) (BinaryOperator UDiv false true (VInst 2) (VArg 2)) [];
           mkInstr 4 "" (TStruct [TInt 8; TInt 1])
             (AtomicCmpXchg (VArg 3) (VInst 3) (VArg 0) SequentiallyConsistent Monotonic)
             [];
           mkInstr 5 "" (TInt 8) (ExtractValue (VInst 4) [0%nat]) [];
           mkInstr 6 "" (TInt 1) (ExtractValue (VInst 4) [1%nat]) [];
           mkInstr 7 "" TVoid (Call (VFunc "h") [VInst 5; VInst 6] true true) [];
           mkInstr 8 "" TVoid (Ret (Some (VInst 3))) []]];
     declaration "h" TVoid [TInt 8; TInt 1];
     declaration "llvm.fshl.i8" (TInt 8) [TInt 8; TInt 8; TInt 8];
     declaration "llvm.umul.with.overflow.i8" (TStruct [TInt 8; TInt 1]) [TInt 8; TInt 8]]
    9.

(** ** Instructions the walk has dealt with

    [goodop] tells the instructions that are as the walk leaves them. *)

Definition good_at (goodop : opcode -> bool) (id : nat) (M : module) : Prop :=
  forall i, In i (all_instrs M) -> iid i = id -> goodop (iop i) = true.

(** Every instruction of [M'] that is not as the walk leaves it has the
    identifier of such an instruction of [M]. *)
Definition offenders_from (goodop : opcode -> bool) (M M' : module) : Prop :=
  forall i', In i' (all_instrs M') ->
    goodop (iop i') = true \/
    exists i, In i (all_instrs M) /\ iid i = iid i' /\ goodop (iop i) = false.

Definition all_good (goodop : opcode -> bool) (F : function) : Prop :=
  Forall (fun i => goodop (iop i) = true) (instrs_of F).

(** The instructions of [l'] are new ones or carry the identifier of an
    instruction of [l]. *)
Definition from_ids (n0 : nat) (l l' : list instr) : Prop :=
  forall j, In j l' -> (n0 <= iid j)%nat \/ exists i, In i l /\ iid i = iid j.

(** The functions of [M] keep their place and their name in [M2] and no
    instruction moves from one function to another; new functions come at
    the end and hold new instructions. *)
Definition located (M M2 : module) : Prop :=
  exists olds news,
    funcs M2 = olds ++ news /\
    Forall2 (fun G G2 => fname G2 = fname G /\
                         from_ids (next_id M) (instrs_of G) (instrs_of G2))
            (funcs M) olds /\
    Forall (fun G => from_ids (next_id M) [] (instrs_of G)) news.

(** The place of the iterator over the functions: the instructions of every
    function before it are as the walk leaves them. *)
Definition ginv (goodop : opcode -> bool) (M : module) (I : option string) : Prop :=
  match I with
  | None => Forall (all_good goodop) (funcs M)
  | Some n =>
      exists done F todo,
        funcs M = done ++ F :: todo /\ Forall (all_good goodop) done /\ fname F = n
  end.

(** No call is marked as a tail call. *)
Definition no_tail (o : opcode) : bool :=
  match o with Call _ _ tail _ => negb tail | _ => true end.

(** No binary operator that can be exact is marked exact. *)
Definition no_exact (o : opcode) : bool :=
  match o with
  | BinaryOperator op _ exact _ _ => negb (isPossiblyExact op && exact)
  | _ => true
  end.

(** The instruction is not a direct call of [D]. *)
Definition not_calling (D : string) (o : opcode) : bool :=
  match o with Call (VFunc n) _ _ _ => negb (String.eqb n D) | _ => true end.

(** The instruction is not a direct call of [D] marked as not unwinding. *)
Definition unwinding (D : string) (o : opcode) : bool :=
  match o with
  | Call (VFunc n) _ _ nounwind => negb (String.eqb n D && nounwind)
  | _ => true
  end.

(** The instruction once the visit has cleared its tail-call mark or its
    exact flag. *)
Definition after_flags (o : opcode) : opcode :=
  match o with
  | Call c a _ n => Call c a false n
  | BinaryOperator op nuw ex a b =>
      BinaryOperator op nuw (if isPossiblyExact op && ex then false else ex) a b
  | _ => o
  end.

(** The multiply-with-overflow body at a vector type of [length ts] lanes of
    width [w]; a lane pair holds the lanes of the two operands. *)
Definition run_umul_vec (w : Z) (ts : list (Z * Z)) : outcome (option rval) :=
  let t := TVec (List.length ts) w in
  run_synthesized buildUMulWithOverflowFunc
    (TStruct [t; TVec (List.length ts) 1]) [t; t]
    [RVec (map (fun t => Bits (fst t)) ts); RVec (map (fun t => Bits (snd t)) ts)].

(** What the body computes in one lane: the product and the flag. *)
Definition umul_product_lane (w a b : Z) : lane :=
  if a * b <? 2 ^ w then Bits (a * b) else Poison.

Definition umul_flag_lane (w a b : Z) : lane :=
  if a * b <? 2 ^ w then Bits (if a =? b then 0 else 1) else Poison.

(** ** What an instruction is, whatever its operands

    The operation of an instruction without its operands; for a call,
    without its arguments and marks, and for a binary operator without the
    exact flag. *)
Definition skeleton (o : opcode) : opcode :=
  match o with
  | Call _ _ _ _ => Call VNull [] false false
  | BinaryOperator op nuw _ _ _ => BinaryOperator op nuw false VNull VNull
  | _ => map_operands (fun _ => VNull) o
  end.

(** The instructions the pass erases: compare-exchanges and extractions,
    in the walk, and casts, in the normalization of the calls that take a
    function reference. *)
Definition erasable (o : opcode) : bool :=
  match o with
  | AtomicCmpXchg _ _ _ _ _ | ExtractValue _ _ => true
  | _ => isCastInst o
  end.

(** The result of [V] is an operand of an instruction of [M] that is no
    cast. *)
Definition held (V : nat) (M : module) : Prop :=
  exists J, In J (all_instrs M) /\ isCastInst (iop J) = false /\
            In (VInst V) (operands (iop J)).

(** The instruction [i'] is [i] up to its operands, marks and metadata. *)
Definition same_instr (i i' : instr) : Prop :=
  iid i' = iid i /\ iname i' = iname i /\ ity i' = ity i /\
  skeleton (iop i') = skeleton (iop i).

(** Every instruction of [M'] is a new one or an instruction of [M], up to
    its operands, marks and metadata. *)
Definition kinds_from (M M' : module) : Prop :=
  (next_id M <= next_id M')%nat /\
  forall i', In i' (all_instrs M') ->
    (next_id M <= iid i')%nat \/ exists i, In i (all_instrs M) /\ same_instr i i'.

(** Every instruction that carries the identifier [V] is one of those the
    pass erases. *)
Definition erasable_at (V : nat) (M : module) : Prop :=
  (V < next_id M)%nat /\
  forall i, In i (all_instrs M) -> iid i = V -> erasable (iop i) = true.

(** Every instruction of [M] that is not one of those the pass erases is in
    [M'], up to its operands, marks and metadata. *)
Definition present (M M' : module) : Prop :=
  forall i, In i (all_instrs M) -> erasable (iop i) = false ->
            exists i', In i' (all_instrs M') /\ same_instr i i'.

(** The instructions buildFunnelShiftLeftFunc emits at the scalar type of
    width [w], the first one under the identifier [n]. *)
Definition fshl_body (n : nat) (w : Z) : list instr :=
  let Ty := TInt w in
  let BitWidth := VConstInt w w in
  [new_inst n "" Ty (BinaryOperator URem false false (VArg 2) BitWidth);
   new_inst (n + 1) "" Ty (BinaryOperator Shl false false (VArg 0) (VInst n));
   new_inst (n + 2) "" Ty (BinaryOperator Sub false false BitWidth (VInst n));
   new_inst (n + 3) "" Ty (BinaryOperator LShr false false (VArg 1) (VInst (n + 2)));
   new_inst (n + 4) "" Ty (BinaryOperator Or false false (VInst (n + 1)) (VInst (n + 3)));
   new_inst (n + 5) "" TVoid (Ret (Some (VInst (n + 4))))]%nat.

(** The instructions buildUMulWithOverflowFunc emits at the scalar type of
    width [w], the first one under the identifier [n]. *)
Definition umul_body (n : nat) (w : Z) : list instr :=
  let ArgTy := TInt w in
  let StructTy := umul_ret w in
  [new_inst n "" ArgTy (BinaryOperator Mul true false (VArg 0) (VArg 1));
   new_inst (n + 1) "" ArgTy (BinaryOperator UDiv false false (VInst n) (VArg 0));
   new_inst (n + 2) "" (TInt 1) (ICmp ICMP_NE (VArg 0) (VInst (n + 1)));
   new_inst (n + 3) "" StructTy (InsertValue (VUndef StructTy) (VInst n) 0);
   new_inst (n + 4) "" StructTy (InsertValue (VInst (n + 3)) (VInst (n + 2)) 1);
   new_inst (n + 5) "" TVoid (Ret (Some (VInst (n + 4))))]%nat.

(** What the multiply-with-overflow body returns at width [w]. *)
Definition umul_outcome (w a b : Z) : outcome (option rval) :=
  if a =? 0 then UB
  else Ok (Some (RStruct [RInt (umul_product_lane w a b);
                          RInt (umul_flag_lane w a b)])).

(** One call of the 8-bit multiply with overflow. *)
Definition calls_umul : module :=
  mkModule
    [mkFunction "g" (TStruct [TInt 8; TInt 1]) [TInt 8; TInt 8]
       [mkBlock "entry"
          [mkInstr 0 "" (TStruct [TInt 8; TInt 1])
             (Call (VFunc "llvm.umul.with.overflow.i8") [VArg 0; VArg 1] false false) [];
           mkInstr 1 "" TVoid (Ret (Some (VInst 0))) []]];
     declaration "llvm.umul.with.overflow.i8" (TStruct [TInt 8; TInt 1])
       [TInt 8; TInt 8]] 2.

(** A fill whose length is not a constant. *)
Definition variable_fill : module :=
  mkModule
    [mkFunction "clear" TVoid [TPtr; TInt 32]
       [mkBlock "entry"
          [mkInstr 0 "" TVoid
             (Call (VFunc "llvm.memset.p0i8.i32")
                   [VArg 0; VConstInt 8 0; VArg 1; VConstInt 1 0] true false) [];
           mkInstr 1 "" TVoid (Ret None) []]];
     memset_p0i8_i32] 2.

(** The instruction is not a compare-exchange. *)
Definition no_cmpxchg (o : opcode) : bool :=
  match o with AtomicCmpXchg _ _ _ _ _ => false | _ => true end.

Definition cmpxchg_free (M : module) : Prop :=
  forall i, In i (all_instrs M) -> no_cmpxchg (iop i) = true.

(** A call of an intrinsic, the only instruction the walk can redirect to a
    helper it creates. *)
Definition intrinsic_call (o : opcode) : bool :=
  match o with Call (VFunc n) _ _ _ => prefix "llvm." n | _ => false end.

(** The number of calls of intrinsics in the module. *)
Definition pending (M : module) : nat :=
  List.length (filter (fun i => intrinsic_call (iop i)) (all_instrs M)).

(** No function holds more than [S] instructions. *)
Definition sized (S : nat) (M : module) : Prop :=
  Forall (fun F => (List.length (instrs_of F) <= S)%nat) (funcs M).

(** Every function of [M] that holds instructions is in [M'] under its name
    and holds the same instructions there, in the same order. *)
Definition ids_kept (M M' : module) : Prop :=
  forall n F, getFunction M n = Some F -> instrs_of F <> [] ->
    exists F', getFunction M' n = Some F' /\
               map iid (instrs_of F') = map iid (instrs_of F).

(** From [M] to [M'] at most [a] functions are added, at least [b] calls of
    intrinsics are redirected, and no function that holds instructions gets
    or loses one. *)
Definition drift (S a b : nat) (M M' : module) : Prop :=
  (sized S M -> sized S M') /\ ids_kept M M' /\
  (List.length (funcs M') <= List.length (funcs M) + a)%nat /\
  (pending M' + b <= pending M)%nat.

(** As [drift], every added function being paid for by a redirected call. *)
Definition tame (S : nat) (M M' : module) : Prop :=
  (sized S M -> sized S M') /\ ids_kept M M' /\
  (List.length (funcs M') + pending M' <= List.length (funcs M) + pending M)%nat.

(** From [M] to [M'] at most [a] functions are added, no function grows
    past [S] instructions and no call of an intrinsic is added. *)
Definition bounded (S a : nat) (M M' : module) : Prop :=
  (sized S M -> sized S M') /\
  (List.length (funcs M') <= List.length (funcs M) + a)%nat /\
  (pending M' <= pending M)%nat.

Definition largest (M : module) : nat :=
  list_max (map (fun F => List.length (instrs_of F)) (funcs M)).

(** A number of iterations within which the loops of the pass are over on a
    module without compare-exchange. *)
Definition enough (M : module) : nat :=
  (2 * List.length (funcs M) + pending M + Nat.max 9 (largest M))%nat.




(** A function of that name is in the module and has a body. *)
Definition has_body (M : module) (n : string) : bool :=
  match getFunction M n with
  | Some F => negb (empty F)
  | None => false
  end.



(** * Properties of the synthesized bodies *)

Lemma eval_udiv (w a b : Z) :
  b <> 0 -> eval_binop_lane UDiv false false w (Bits a) (Bits b) = Ok (Bits (a / b)).
Proof. intros H. destruct b; [congruence | reflexivity | reflexivity]. Qed.

Lemma eval_udiv_poison (w b : Z) :
  b <> 0 -> eval_binop_lane UDiv false false w Poison (Bits b) = Ok Poison.
Proof. intros H. destruct b; [congruence | reflexivity | reflexivity]. Qed.

Lemma eval_mul_nuw_fits (w a b : Z) :
  0 <= a * b < 2 ^ w ->
  eval_binop_lane Mul true false w (Bits a) (Bits b) = Ok (Bits (a * b)).
Proof.
  intros H. unfold eval_binop_lane.
  replace (2 ^ w <=? a * b) with false by (symmetry; apply Z.leb_gt; lia).
  cbn [andb]. unfold wrap. now rewrite Z.mod_small.
Qed.

Lemma eval_mul_nuw_overflows (w a b : Z) :
  2 ^ w <= a * b ->
  eval_binop_lane Mul true false w (Bits a) (Bits b) = Ok Poison.
Proof.
  intros H. unfold eval_binop_lane.
  now replace (2 ^ w <=? a * b) with true by (symmetry; apply Z.leb_le; lia).
Qed.

Lemma run_umul_fits (w a b : Z) :
  0 < a -> 0 <= b -> a * b < 2 ^ w ->
  run_umul w a b =
  Ok (Some (RStruct [RInt (Bits (a * b)); RInt (Bits (if a =? b then 0 else 1))])).
Proof.
  intros Ha Hb Hab.
  unfold run_umul, run_synthesized, synthesize.
  cbn -[eval_binop_lane Z.mul Z.div Z.pow Z.eqb].
  rewrite eval_mul_nuw_fits by nia.
  cbn -[eval_binop_lane Z.mul Z.div Z.pow Z.eqb].
  rewrite eval_udiv by lia.
  cbn -[Z.mul Z.div Z.pow Z.eqb].
  now rewrite (Z.mul_comm a b), Z.div_mul by lia.
Qed.

Lemma run_umul_overflows (w a b : Z) :
  0 < a -> 2 ^ w <= a * b ->
  run_umul w a b = Ok (Some (RStruct [RInt Poison; RInt Poison])).
Proof.
  intros Ha Hab.
  unfold run_umul, run_synthesized, synthesize.
  cbn -[eval_binop_lane Z.mul Z.div Z.pow Z.eqb].
  rewrite eval_mul_nuw_overflows by lia.
  cbn -[eval_binop_lane Z.mul Z.div Z.pow Z.eqb].
  now rewrite eval_udiv_poison by lia.
Qed.

Lemma testbit_small (x n s : Z) : 0 <= x < 2 ^ s -> s <= n -> Z.testbit x n = false.
Proof.
  intros [H0 H1] Hs.
  destruct (Z.eq_dec x 0) as [->|Hx]; [apply Z.bits_0|].
  apply Z.bits_above_log2; [lia|].
  assert (Z.log2 x < s); [|lia].
  apply Z.log2_lt_pow2; lia.
Qed.

Lemma lor_disjoint (x lo s : Z) :
  0 <= s -> 0 <= lo < 2 ^ s -> Z.lor (x * 2 ^ s) lo = x * 2 ^ s + lo.
Proof.
  intros Hs Hlo.
  assert (Z.land (x * 2 ^ s) lo = 0) as Hl.
  { apply Z.bits_inj'. intros n Hn.
    rewrite Z.land_spec, Z.bits_0.
    destruct (Z_lt_le_dec n s).
    - rewrite Z.mul_pow2_bits_low by lia. reflexivity.
    - rewrite (testbit_small lo n s) by lia. apply andb_false_r. }
  rewrite Z.add_nocarry_lxor by exact Hl. symmetry. now apply Z.lxor_lor.
Qed.

Lemma funnel_arith (w a b s : Z) :
  0 < s < w -> 0 <= a -> 0 <= b < 2 ^ w ->
  Z.lor (wrap w (Z.shiftl a s)) (Z.shiftr b (w - s)) =
  (((a * 2 ^ w + b) * 2 ^ s) / 2 ^ w) mod 2 ^ w.
Proof.
  intros Hs Ha Hb. unfold wrap.
  rewrite Z.shiftl_mul_pow2, Z.shiftr_div_pow2 by lia.
  assert (2 ^ w = 2 ^ s * 2 ^ (w - s)) as E
    by (rewrite <- Z.pow_add_r by lia; f_equal; lia).
  assert (0 < 2 ^ s) by (apply Z.pow_pos_nonneg; lia).
  assert (0 < 2 ^ (w - s)) by (apply Z.pow_pos_nonneg; lia).
  set (P := 2 ^ s) in *. set (Q := 2 ^ (w - s)) in *.
  rewrite E.
  assert (0 <= b / Q < P) as Hlo.
  { split; [apply Z.div_pos; lia|]. apply Z.div_lt_upper_bound; lia. }
  replace ((a * (P * Q) + b) * P) with (b * P + (a * P) * (P * Q)) by ring.
  rewrite Z.div_add by lia.
  rewrite (Z.mul_comm b P), Z.div_mul_cancel_l by lia.
  rewrite (Z.mul_comm a P), Z.mul_mod_distr_l by lia.
  rewrite (Z.mul_comm P (a mod Q)).
  unfold P at 1. rewrite lor_disjoint by (fold P; lia). fold P.
  rewrite <- Z.add_mod_idemp_r by lia.
  rewrite Z.mul_mod_distr_l by lia.
  assert (0 <= a mod Q < Q) by (apply Z.mod_pos_bound; lia).
  set (m := a mod Q) in *. set (lo := b / Q) in *. clearbody m lo P Q.
  assert (P * m <= P * (Q - 1)) by (apply Z.mul_le_mono_nonneg_l; lia).
  assert (0 <= P * m) by (apply Z.mul_nonneg_nonneg; lia).
  rewrite Z.mod_small by lia. ring.
Qed.

Lemma eval_urem (w a b : Z) :
  b <> 0 -> eval_binop_lane URem false false w (Bits a) (Bits b) = Ok (Bits (a mod b)).
Proof. intros H. destruct b; [congruence | reflexivity | reflexivity]. Qed.

Lemma wrap_small (w z : Z) : 0 <= z < 2 ^ w -> wrap w z = z.
Proof. intros H. unfold wrap. now apply Z.mod_small. Qed.

Lemma width_lt_pow (w : Z) : 0 < w -> w < 2 ^ w.
Proof. intros H. apply Z.pow_gt_lin_r; lia. Qed.

Lemma run_fshl_nonzero (w a b r : Z) :
  0 < w -> 0 <= a -> 0 <= b < 2 ^ w -> r mod w <> 0 ->
  run_fshl w a b r = Ok (Some (RInt (Bits (fshl_reference w a b r)))).
Proof.
  intros Hw Ha Hb Hn.
  pose proof (width_lt_pow w Hw) as Hlt.
  pose proof (Z.mod_pos_bound r w Hw) as Hs.
  unfold run_fshl, run_synthesized, synthesize.
  cbn -[eval_binop_lane Z.mul Z.div Z.pow Z.eqb Z.modulo wrap].
  rewrite (wrap_small w w) by lia.
  rewrite eval_urem by lia.
  cbn -[Z.mul Z.div Z.pow Z.eqb Z.modulo wrap Z.leb Z.sub Z.shiftl Z.shiftr Z.lor].
  replace (w <=? r mod w) with false by (symmetry; apply Z.leb_gt; lia).
  cbn -[Z.mul Z.div Z.pow Z.eqb Z.modulo wrap Z.leb Z.sub Z.shiftl Z.shiftr Z.lor].
  rewrite (wrap_small w (w - r mod w)) by lia.
  replace (w <=? w - r mod w) with false by (symmetry; apply Z.leb_gt; lia).
  cbn -[Z.mul Z.div Z.pow Z.eqb Z.modulo wrap Z.leb Z.sub Z.shiftl Z.shiftr Z.lor].
  unfold fshl_reference. now rewrite funnel_arith by lia.
Qed.

Lemma run_fshl_zero (w a b r : Z) :
  0 < w -> r mod w = 0 ->
  run_fshl w a b r = Ok (Some (RInt Poison)).
Proof.
  intros Hw Hn.
  pose proof (width_lt_pow w Hw) as Hlt.
  unfold run_fshl, run_synthesized, synthesize.
  cbn -[eval_binop_lane Z.mul Z.div Z.pow Z.eqb Z.modulo wrap].
  rewrite (wrap_small w w) by lia.
  rewrite eval_urem by lia. rewrite Hn.
  cbn -[Z.mul Z.div Z.pow Z.eqb Z.modulo wrap Z.leb Z.sub Z.shiftl Z.shiftr Z.lor].
  replace (w <=? 0) with false by (symmetry; apply Z.leb_gt; lia).
  cbn -[Z.mul Z.div Z.pow Z.eqb Z.modulo wrap Z.leb Z.sub Z.shiftl Z.shiftr Z.lor].
  rewrite Z.sub_0_r, (wrap_small w w) by lia.
  now rewrite Z.leb_refl.
Qed.

(** C1 (code at the failing input): at width 8 the body flags an overflow
    for 2 * 3, whose product 6 does not exceed 2^8 - 1; the quotient is
    compared with the first operand, not with the second. *)
Theorem umul_flag_raised_without_overflow :
  run_umul 8 2 3 = Ok (Some (RStruct [RInt (Bits 6); RInt (Bits 1)])) /\
  2 * 3 <= 2 ^ 8 - 1 /\ (2 * 3) / 2 = 3.
Proof. repeat split; vm_compute; congruence. Qed.

(** C6 (code at the failing input): at width 8 the product 16 * 16 = 256
    exceeds 2^8 - 1, and the first field of the result is poison, not the
    low 8 bits of the product (which are 0): the multiplication carries the
    no-unsigned-wrap flag. *)
Theorem umul_product_poison_on_overflow :
  run_umul 8 16 16 = Ok (Some (RStruct [RInt Poison; RInt Poison])) /\
  2 ^ 8 - 1 < 16 * 16 /\ wrap 8 (16 * 16) = 0.
Proof. repeat split; vm_compute; congruence. Qed.

(** C2 (code at the failing input): at width 8 and rotate amount 0 the body
    shifts the second operand right by 8 - 0 = 8 bits, the full width, which
    is poison; the reference funnel shift returns the first operand. *)
Theorem fshl_poison_on_zero_rotate :
  run_fshl 8 1 128 0 = Ok (Some (RInt Poison)) /\ fshl_reference 8 1 128 0 = 1.
Proof. split; vm_compute; reflexivity. Qed.

(** * The module as a graph: basic facts *)

Lemma flat_map_flat_map {A B C} (f : A -> list B) (g : B -> list C) (l : list A) :
  flat_map g (flat_map f l) = flat_map (fun x => flat_map g (f x)) l.
Proof. induction l; simpl; [easy|]. now rewrite flat_map_app, IHl. Qed.

Lemma instrs_of_map_function (h : instr -> list instr) (F : function) :
  instrs_of (map_function (flat_map h) F) = flat_map h (instrs_of F).
Proof.
  unfold instrs_of, map_function; simpl.
  rewrite flat_map_flat_map. induction (blocks F); simpl; [easy|].
  now rewrite IHl.
Qed.

Lemma all_instrs_rewrite (h : instr -> list instr) (M : module) :
  all_instrs (rewrite_instrs h M) = flat_map h (all_instrs M).
Proof.
  unfold all_instrs, rewrite_instrs, map_module; simpl.
  rewrite flat_map_flat_map. induction (funcs M); simpl; [easy|].
  now rewrite IHl, instrs_of_map_function.
Qed.

Lemma next_id_rewrite (h : instr -> list instr) (M : module) :
  next_id (rewrite_instrs h M) = next_id M.
Proof. reflexivity. Qed.

Lemma fname_map_function (g : list instr -> list instr) (F : function) :
  fname (map_function g F) = fname F.
Proof. reflexivity. Qed.

Lemma names_rewrite (h : instr -> list instr) (M : module) :
  map fname (funcs (rewrite_instrs h M)) = map fname (funcs M).
Proof.
  unfold rewrite_instrs, map_module; simpl. rewrite map_map.
  now apply map_ext.
Qed.

Lemma getFunction_rewrite (h : instr -> list instr) (M : module) (n : string) :
  getFunction (rewrite_instrs h M) n =
  option_map (map_function (flat_map h)) (getFunction M n).
Proof.
  unfold getFunction, rewrite_instrs, map_module; simpl.
  induction (funcs M) as [|F l IH]; simpl; [easy|].
  destruct (String.eqb (fname F) n); [easy | exact IH].
Qed.

Lemma all_instrs_append_function (F : function) (M : module) :
  all_instrs (append_function F M) = all_instrs M ++ instrs_of F.
Proof.
  unfold all_instrs, append_function; simpl.
  rewrite flat_map_app; simpl. now rewrite app_nil_r.
Qed.

Lemma all_instrs_getOrCreateFunction (r : ty) (ps : list ty) (n : string) (M : module) :
  all_instrs (getOrCreateFunction r ps n M) = all_instrs M.
Proof.
  unfold getOrCreateFunction. destruct (getFunction M n); [easy|].
  rewrite all_instrs_append_function. apply app_nil_r.
Qed.

Lemma next_id_getOrCreateFunction (r : ty) (ps : list ty) (n : string) (M : module) :
  next_id (getOrCreateFunction r ps n M) = next_id M.
Proof. unfold getOrCreateFunction. now destruct (getFunction M n). Qed.

Lemma operands_map_operands (g : value -> value) (o : opcode) :
  operands (map_operands g o) = map g (operands o).
Proof.
  destruct o as [callee args t n| | | | | | |[v|]|]; simpl; try reflexivity.
  now rewrite map_app.
Qed.

Lemma value_eqb_refl (v : value) : value_eqb v v = true.
Proof.
  induction v; simpl; rewrite ?Nat.eqb_refl, ?Z.eqb_refl, ?String.eqb_refl; auto.
Qed.

Lemma value_eqb_VInst (v : value) (n : nat) : value_eqb v (VInst n) = true -> v = VInst n.
Proof.
  destruct v; simpl; try discriminate. intros H. apply Nat.eqb_eq in H. now subst.
Qed.

Lemma VInst_eqb (a b : nat) : value_eqb (VInst a) (VInst b) = Nat.eqb a b.
Proof. reflexivity. Qed.

(** ** Lookups through a rewriting *)

Lemma find_flat_map_single {A} (p : A -> bool) (f : A -> A) (l : list A) :
  (forall x, p (f x) = p x) ->
  find p (flat_map (fun x => [f x]) l) = option_map f (find p l).
Proof.
  intros Hp. induction l as [|x l IH]; simpl; [easy|].
  rewrite Hp. destruct (p x); [easy | exact IH].
Qed.

Lemma find_flat_map_insert {A} (p q : A -> bool) (new : A) (l : list A) :
  p new = false ->
  find p (flat_map (fun x => if q x then [new; x] else [x]) l) = find p l.
Proof.
  intros Hn. induction l as [|x l IH]; simpl; [easy|].
  destruct (q x); simpl; rewrite ?Hn; destruct (p x); auto.
Qed.

Lemma find_flat_map_insert_new {A} (p q : A -> bool) (new : A) (l : list A) :
  p new = true -> (forall x, In x l -> p x = false) -> (exists x, In x l /\ q x = true) ->
  find p (flat_map (fun x => if q x then [new; x] else [x]) l) = Some new.
Proof.
  intros Hn Hl [y [Hy Hq]]. induction l as [|x l IH]; simpl; [easy|].
  destruct (q x) eqn:E; simpl.
  - now rewrite Hn.
  - rewrite (Hl x) by now left. apply IH.
    + intros z Hz. apply Hl. now right.
    + destruct Hy as [->|Hy]; [congruence | exact Hy].
Qed.

Lemma get_instr_update_instr (id id' : nat) (g : instr -> instr) (M : module) :
  (forall i, iid (g i) = iid i) ->
  get_instr (update_instr id' g M) id =
  option_map (fun i => if Nat.eqb (iid i) id' then g i else i) (get_instr M id).
Proof.
  intros Hg. unfold get_instr, update_instr. rewrite all_instrs_rewrite.
  apply find_flat_map_single. intros x. destruct (Nat.eqb (iid x) id'); [|easy].
  now rewrite Hg.
Qed.

Lemma get_instr_replaceAllUsesWith (old new : value) (id : nat) (M : module) :
  get_instr (replaceAllUsesWith old new M) id =
  option_map (fun i => set_iop (map_operands (subst_value old new) (iop i)) i)
             (get_instr M id).
Proof.
  unfold get_instr, replaceAllUsesWith. rewrite all_instrs_rewrite.
  now apply find_flat_map_single.
Qed.

Lemma get_instr_bump (k id : nat) (M : module) : get_instr (bump k M) id = get_instr M id.
Proof. reflexivity. Qed.

Lemma get_instr_insert_before_other (pos id : nat) (new : instr) (M : module) :
  iid new <> id ->
  get_instr (insert_before pos new M) id = get_instr M id.
Proof.
  intros H. unfold get_instr, insert_before. rewrite all_instrs_rewrite.
  apply find_flat_map_insert. now apply Nat.eqb_neq.
Qed.

Lemma get_instr_Some (M : module) (id : nat) (i : instr) :
  get_instr M id = Some i -> In i (all_instrs M) /\ iid i = id.
Proof.
  unfold get_instr. intros H. apply find_some in H. destruct H as [H1 H2].
  split; [easy|]. now apply Nat.eqb_eq.
Qed.

Lemma get_instr_lt (M : module) (id : nat) (i : instr) :
  wf M -> get_instr M id = Some i -> (id < next_id M)%nat.
Proof.
  intros W H. apply get_instr_Some in H. destruct H as [H <-].
  pose proof (wf_bound M W) as B. rewrite Forall_forall in B. now apply B.
Qed.

Lemma get_instr_insert_before_new (pos : nat) (new : instr) (M : module) (p : instr) :
  wf M -> iid new = next_id M -> get_instr M pos = Some p ->
  get_instr (insert_before pos new M) (iid new) = Some new.
Proof.
  intros W Hn Hp. unfold get_instr, insert_before. rewrite all_instrs_rewrite.
  apply find_flat_map_insert_new.
  - apply Nat.eqb_refl.
  - intros x Hx. apply Nat.eqb_neq.
    pose proof (wf_bound M W) as B. rewrite Forall_forall in B.
    specialize (B x Hx). lia.
  - apply get_instr_Some in Hp. exists p. destruct Hp as [H1 H2].
    split; [easy|]. now apply Nat.eqb_eq.
Qed.

(** ** Use-lists through a rewriting *)

Lemma users_rewrite (h : instr -> list instr) (M : module) (v : value) :
  users (rewrite_instrs h M) v =
  rev (flat_map (fun i => flat_map (uses_in v) (h i)) (all_instrs M)).
Proof. unfold users. now rewrite all_instrs_rewrite, flat_map_flat_map. Qed.

Lemma users_rewrite_same (h : instr -> list instr) (M : module) (v : value) :
  (forall i, flat_map (uses_in v) (h i) = uses_in v i) ->
  users (rewrite_instrs h M) v = users M v.
Proof.
  intros H. rewrite users_rewrite. unfold users. f_equal.
  apply flat_map_ext. exact H.
Qed.

Lemma uses_in_set_imd (v : value) (md : list (string * nat)) (i : instr) :
  uses_in v (set_imd md i) = uses_in v i.
Proof. reflexivity. Qed.

Lemma users_update_instr (id : nat) (g : instr -> instr) (M : module) (v : value) :
  (forall i, uses_in v (g i) = uses_in v i) ->
  users (update_instr id g M) v = users M v.
Proof.
  intros H. apply users_rewrite_same. intros i; simpl. rewrite app_nil_r.
  destruct (Nat.eqb (iid i) id); [apply H | reflexivity].
Qed.

Lemma users_insert_before (pos : nat) (new : instr) (M : module) (v : value) :
  uses_in v new = [] ->
  users (insert_before pos new M) v = users M v.
Proof.
  intros H. apply users_rewrite_same. intros i.
  destruct (Nat.eqb (iid i) pos); simpl; rewrite ?H, app_nil_r; reflexivity.
Qed.

Lemma users_bump (k : nat) (M : module) (v : value) : users (bump k M) v = users M v.
Proof. reflexivity. Qed.

Lemma users_getOrCreateFunction (r : ty) (ps : list ty) (n : string) (M : module) (v : value) :
  users (getOrCreateFunction r ps n M) v = users M v.
Proof. unfold users. now rewrite all_instrs_getOrCreateFunction. Qed.

Lemma uses_in_nil (v : value) (i : instr) :
  (forall o, In o (operands (iop i)) -> value_eqb o v = false) -> uses_in v i = [].
Proof.
  intros H. unfold uses_in.
  induction (operands (iop i)) as [|o l IH]; simpl; [easy|].
  rewrite (H o) by now left. apply IH. intros o' Ho'. apply H. now right.
Qed.

Lemma subst_value_not_old (old new v : value) :
  value_eqb new old = false -> value_eqb (subst_value old new v) old = false.
Proof.
  intros H. unfold subst_value. now destruct (value_eqb v old) eqn:E.
Qed.

Lemma flat_map_nil {A B} (f : A -> list B) (l : list A) :
  (forall x, f x = []) -> flat_map f l = [].
Proof. intros H. induction l; simpl; [easy|]. now rewrite H, IHl. Qed.

Lemma users_replaced (old new : value) (M : module) :
  value_eqb new old = false -> users (replaceAllUsesWith old new M) old = [].
Proof.
  intros H. unfold replaceAllUsesWith. rewrite users_rewrite.
  rewrite flat_map_nil; [easy|].
  intros i; simpl. rewrite app_nil_r. apply uses_in_nil.
  simpl. intros o Ho. rewrite operands_map_operands in Ho.
  apply in_map_iff in Ho. destruct Ho as [x [<- _]].
  now apply subst_value_not_old.
Qed.

Lemma subst_value_other (old new v : value) (w : nat) :
  value_eqb (VInst w) old = false -> value_eqb new (VInst w) = false ->
  value_eqb (subst_value old new v) (VInst w) = value_eqb v (VInst w).
Proof.
  intros H1 H2. unfold subst_value. destruct (value_eqb v old) eqn:E; [|easy].
  rewrite H2. destruct (value_eqb v (VInst w)) eqn:E'; [|easy].
  apply value_eqb_VInst in E'. subst v. congruence.
Qed.

Lemma filter_map_ext_eq {A B} (p : B -> bool) (q : A -> bool) (f : A -> B) (l : list A) :
  (forall x, p (f x) = q x) -> List.length (filter p (map f l)) = List.length (filter q l).
Proof.
  intros H. induction l as [|x l IH]; simpl; [easy|].
  rewrite H. destruct (q x); simpl; now rewrite IH.
Qed.

Lemma map_const_length {A B} (c : B) (l l' : list A) :
  List.length l = List.length l' -> map (fun _ => c) l = map (fun _ => c) l'.
Proof.
  revert l'. induction l as [|x l IH]; intros [|y l']; simpl; try easy.
  intros H. f_equal. apply IH. lia.
Qed.

Lemma users_replace_other (old new : value) (M : module) (w : nat) :
  value_eqb (VInst w) old = false -> value_eqb new (VInst w) = false ->
  users (replaceAllUsesWith old new M) (VInst w) = users M (VInst w).
Proof.
  intros H1 H2. apply users_rewrite_same. intros i; simpl. rewrite app_nil_r.
  unfold uses_in; simpl. rewrite operands_map_operands.
  apply map_const_length. apply filter_map_ext_eq.
  intros x. now apply subst_value_other.
Qed.

Lemma filter_const_all {A} (p : nat -> bool) (c : nat) (l : list A) :
  filter p (map (fun _ => c) l) = if p c then map (fun _ => c) l else [].
Proof.
  induction l as [|x l IH]; simpl; [now destruct (p c)|].
  rewrite IH. now destruct (p c).
Qed.

Lemma users_dropAllReferences (a : nat) (M : module) (w : nat) :
  users (dropAllReferences a M) (VInst w) =
  filter (fun u => negb (Nat.eqb u a)) (users M (VInst w)).
Proof.
  unfold dropAllReferences, update_instr. rewrite users_rewrite. unfold users.
  rewrite filter_rev. f_equal.
  induction (all_instrs M) as [|i l IH]; simpl; [easy|].
  rewrite filter_app, <- IH, app_nil_r. f_equal.
  unfold uses_in at 2. rewrite filter_const_all.
  destruct (Nat.eqb (iid i) a) eqn:E; simpl.
  - unfold uses_in; simpl. rewrite operands_map_operands.
    replace (filter _ (map _ _)) with (@nil value); [easy|].
    induction (operands (iop i)); simpl; auto.
  - reflexivity.
Qed.

(** ** Well-formedness is kept by the primitives *)

Lemma ids_flat_map_single (f : instr -> instr) (l : list instr) :
  (forall i, iid (f i) = iid i) ->
  map iid (flat_map (fun i => [f i]) l) = map iid l.
Proof.
  intros H. induction l as [|i l IH]; simpl; [easy|]. now rewrite H, IH.
Qed.

Lemma Forall_flat_map_single (P : instr -> Prop) (f : instr -> instr) (l : list instr) :
  (forall i, P i -> P (f i)) -> Forall P l -> Forall P (flat_map (fun i => [f i]) l).
Proof.
  intros H HF. induction HF; simpl; constructor; auto.
Qed.

Lemma wf_rewrite_single (f : instr -> instr) (M : module) :
  (forall i, iid (f i) = iid i) -> wf M -> wf (rewrite_instrs (fun i => [f i]) M).
Proof.
  intros H [W1 W2 W3]. constructor.
  - rewrite all_instrs_rewrite, ids_flat_map_single; assumption.
  - rewrite all_instrs_rewrite, next_id_rewrite.
    apply Forall_flat_map_single; [|assumption]. intros i Hi. now rewrite H.
  - now rewrite names_rewrite.
Qed.

Lemma wf_update_instr (id : nat) (g : instr -> instr) (M : module) :
  (forall i, iid (g i) = iid i) -> wf M -> wf (update_instr id g M).
Proof.
  intros H W. unfold update_instr.
  apply (wf_rewrite_single (fun i => if Nat.eqb (iid i) id then g i else i)); [|easy].
  intros i. destruct (Nat.eqb (iid i) id); [apply H | reflexivity].
Qed.

Lemma wf_replaceAllUsesWith (old new : value) (M : module) :
  wf M -> wf (replaceAllUsesWith old new M).
Proof. intros W. unfold replaceAllUsesWith. now apply wf_rewrite_single. Qed.

Lemma wf_dropAllReferences (a : nat) (M : module) :
  wf M -> wf (dropAllReferences a M).
Proof. intros W. unfold dropAllReferences. now apply wf_update_instr. Qed.

Lemma NoDup_insert (pos x : nat) (l : list nat) :
  NoDup l -> ~ In x l ->
  NoDup (flat_map (fun y => if Nat.eqb y pos then [x; y] else [y]) l).
Proof.
  intros Hl Hx.
  assert (forall l', NoDup l' -> ~ In x l' ->
            forall z, In z (flat_map (fun y => if Nat.eqb y pos then [x; y] else [y]) l') ->
                      z = x \/ In z l') as Hin.
  { intros l' _ _ z. induction l' as [|y l' IH]; simpl; [easy|].
    rewrite in_app_iff. intros [H|H].
    - destruct (Nat.eqb y pos); simpl in H; intuition.
    - destruct (IH H); auto. }
  induction Hl as [|y l Hy Hl IH]; simpl; [constructor|].
  assert (~ In x l) as Hx' by (intros C; apply Hx; now right).
  assert (x <> y) as Hxy by (intros ->; apply Hx; now left).
  specialize (IH Hx').
  destruct (Nat.eqb y pos) eqn:E; simpl.
  - apply Nat.eqb_eq in E. subst pos.
    assert (forall l', ~ In y l' ->
              flat_map (fun z => if Nat.eqb z y then [x; z] else [z]) l' = l') as Hid.
    { induction l' as [|z l' IH']; simpl; [easy|]. intros Hz.
      destruct (Nat.eqb z y) eqn:E'.
      - apply Nat.eqb_eq in E'. subst z. exfalso. apply Hz. now left.
      - simpl. f_equal. apply IH'. intros C. apply Hz. now right. }
    rewrite Hid by assumption.
    constructor; [|constructor; assumption].
    simpl. intros [C|C]; [congruence | contradiction].
  - constructor; [|assumption].
    intros C. destruct (Hin l Hl Hx' y C) as [C'|C']; [congruence | contradiction].
Qed.

Lemma ids_flat_map_insert (pos : nat) (new : instr) (l : list instr) :
  map iid (flat_map (fun i => if Nat.eqb (iid i) pos then [new; i] else [i]) l) =
  flat_map (fun y => if Nat.eqb y pos then [iid new; y] else [y]) (map iid l).
Proof.
  induction l as [|i l IH]; simpl; [easy|].
  rewrite map_app, IH. now destruct (Nat.eqb (iid i) pos).
Qed.

Lemma bound_not_in (M : module) (x : nat) :
  wf M -> (next_id M <= x)%nat -> ~ In x (map iid (all_instrs M)).
Proof.
  intros W Hx C. apply in_map_iff in C. destruct C as [i [<- Hi]].
  pose proof (wf_bound M W) as B. rewrite Forall_forall in B.
  specialize (B i Hi). lia.
Qed.

Lemma wf_insert_new (pos : nat) (name : string) (t : ty) (o : opcode) (M : module) :
  wf M -> wf (insert_new pos name t o M).
Proof.
  intros W. pose proof W as [W1 W2 W3]. unfold insert_new, insert_before. constructor.
  - change (all_instrs (bump 1 ?X)) with (all_instrs X).
    rewrite all_instrs_rewrite, ids_flat_map_insert.
    apply NoDup_insert; [assumption|]. now apply bound_not_in.
  - change (all_instrs (bump 1 ?X)) with (all_instrs X).
    rewrite all_instrs_rewrite. simpl. clear W1.
    induction W2 as [|i l Hi Hl IH]; simpl; [constructor|].
    apply Forall_app. split; [|exact IH].
    destruct (Nat.eqb (iid i) pos); repeat constructor; simpl; lia.
  - change (funcs (bump 1 ?X)) with (funcs X). now rewrite names_rewrite.
Qed.

Lemma getFunction_None (M : module) (n : string) :
  getFunction M n = None -> ~ In n (map fname (funcs M)).
Proof.
  unfold getFunction. intros H C. apply in_map_iff in C.
  destruct C as [F [HF Hin]].
  pose proof (find_none _ _ H F Hin) as E. simpl in E.
  rewrite HF, String.eqb_refl in E. discriminate.
Qed.

Lemma wf_append_declaration (n : string) (r : ty) (ps : list ty) (M : module) :
  wf M -> getFunction M n = None -> wf (append_function (declaration n r ps) M).
Proof.
  intros [W1 W2 W3] H. constructor.
  - now rewrite all_instrs_append_function, app_nil_r.
  - now rewrite all_instrs_append_function, app_nil_r.
  - simpl. rewrite map_app. simpl.
    apply NoDup_app; [assumption | repeat constructor; easy |].
    intros x Hx [<-|[]]. now apply getFunction_None in H.
Qed.

Lemma wf_getOrCreateFunction (r : ty) (ps : list ty) (n : string) (M : module) :
  wf M -> wf (getOrCreateFunction r ps n M).
Proof.
  intros W. unfold getOrCreateFunction. destruct (getFunction M n) eqn:E; [easy|].
  now apply wf_append_declaration.
Qed.

Lemma NoDup_ids_filter (keep : instr -> bool) (l : list instr) :
  NoDup (map iid l) -> NoDup (map iid (filter keep l)).
Proof.
  intros H. induction l as [|i l IH]; simpl in *; [constructor|].
  inversion H as [|? ? Hi Hl]; subst.
  destruct (keep i); simpl; [|auto].
  constructor; [|auto]. intros C. apply Hi.
  apply in_map_iff in C. destruct C as [j [Hj Hin]]. apply filter_In in Hin.
  apply in_map_iff. exists j. tauto.
Qed.

Lemma erase_as_filter (id : nat) (l : list instr) :
  flat_map (fun i => if Nat.eqb (iid i) id then [] else [i]) l =
  filter (fun i => negb (Nat.eqb (iid i) id)) l.
Proof.
  induction l as [|i l IH]; simpl; [easy|].
  destruct (Nat.eqb (iid i) id); simpl; now rewrite IH.
Qed.

Lemma wf_eraseFromParent (id : nat) (M : module) : wf M -> wf (eraseFromParent id M).
Proof.
  intros [W1 W2 W3]. unfold eraseFromParent. constructor.
  - rewrite all_instrs_rewrite, erase_as_filter. now apply NoDup_ids_filter.
  - rewrite all_instrs_rewrite, erase_as_filter, next_id_rewrite.
    rewrite Forall_forall in *. intros i Hi. apply filter_In in Hi. now apply W2.
  - now rewrite names_rewrite.
Qed.

(** * The decomposition of atomic compare-exchange *)

Lemma cmpxchg_users_skipped (Res : nat) (C : value) (T : ty) (us : list nat)
    (M : module) (TE : list nat) :
  forallb (skipped M) us = true ->
  cmpxchg_users Res C T us (M, TE) = Done (M, TE).
Proof.
  induction us as [|U us IH]; simpl; [easy|].
  intros H. apply andb_prop in H. destruct H as [HU Hus].
  unfold skipped in HU.
  destruct (option_map iop (get_instr M U)) as [[]|]; try discriminate; auto.
Qed.

(** C5 (code at the failing input): in [stored_twice] the composite is built
    in front of the second store, the first one met in the use-list, and
    every use of the original result is replaced: the first store, instruction
    1, now stores the composite 13, which is defined after it. *)
Theorem store_replaces_all_uses :
  result_map (fun M => (inst_ids M "g", option_map iop (get_instr M 1),
                        option_map iop (get_instr M 2)))
             (regularize 10 stored_twice) =
  Done ([10; 1; 11; 12; 13; 2; 3]%nat,
        Some (Store (VInst 13) (VArg 0)), Some (Store (VInst 13) (VArg 0))).
Proof. vm_compute. reflexivity. Qed.

Lemma nodupb_sound {A} (eqb : A -> A -> bool) (l : list A) :
  (forall x y, eqb x y = true <-> x = y) -> nodupb eqb l = true -> NoDup l.
Proof.
  intros E. induction l as [|x l IH]; simpl; [constructor|].
  intros H. apply andb_prop in H. destruct H as [H1 H2].
  constructor; [|auto]. intros C.
  assert (existsb (eqb x) l = true) as X.
  { apply existsb_exists. exists x. split; [easy|]. now apply E. }
  now rewrite X in H1.
Qed.

Lemma wf_check_sound (M : module) : wf_check M = true -> wf M.
Proof.
  unfold wf_check. intros H.
  apply andb_prop in H. destruct H as [H H3].
  apply andb_prop in H. destruct H as [H1 H2].
  constructor.
  - eapply nodupb_sound; [|exact H1]. intros x y. apply Nat.eqb_eq.
  - rewrite Forall_forall. intros i Hi.
    rewrite forallb_forall in H2. apply Nat.ltb_lt. now apply H2.
  - eapply nodupb_sound; [|exact H3]. intros x y. apply String.eqb_eq.
Qed.

(** ** The steps of the loop over the users *)

Lemma map_operands_id (g : value -> value) (o : opcode) :
  (forall v, In v (operands o) -> g v = v) -> map_operands g o = o.
Proof.
  intros H.
  assert (forall l, (forall v, In v l -> g v = v) -> map g l = l) as Hm.
  { induction l as [|v l IH]; simpl; [easy|]. intros Hl.
    rewrite Hl by now left. f_equal. apply IH. intros w Hw. apply Hl. now right. }
  destruct o as [callee args t n| | | | | | |[v|]|]; simpl in *;
    rewrite ?H by auto; try reflexivity.
  - rewrite H by (apply in_or_app; right; now left).
    rewrite Hm; [easy|]. intros v Hv. apply H. apply in_or_app. now left.
  - rewrite Hm; [easy|]. assumption.
Qed.

Lemma subst_value_id (old new v : value) :
  value_eqb v old = false -> subst_value old new v = v.
Proof. unfold subst_value. now intros ->. Qed.

Lemma next_id_retire (U x : nat) (M : module) : next_id (retire U x M) = next_id M.
Proof. reflexivity. Qed.

Lemma wf_retire (U x : nat) (M : module) : wf M -> wf (retire U x M).
Proof. intros W. now apply wf_dropAllReferences, wf_replaceAllUsesWith. Qed.

Lemma iop_retire_other (U x y : nat) (M : module) (o : opcode) :
  y <> U -> option_map iop (get_instr M y) = Some o ->
  option_map iop (get_instr (retire U x M) y) =
  Some (map_operands (subst_value (VInst U) (VInst x)) o).
Proof.
  intros Hy H. unfold retire, dropAllReferences.
  rewrite get_instr_update_instr by reflexivity.
  rewrite get_instr_replaceAllUsesWith.
  destruct (get_instr M y) as [i|] eqn:E; [|discriminate].
  apply get_instr_Some in E. destruct E as [_ E].
  simpl in *. injection H as <-.
  replace (Nat.eqb (iid i) U) with false; [easy|].
  symmetry. apply Nat.eqb_neq. congruence.
Qed.

Lemma iop_retire_unused (U x y : nat) (M : module) (o : opcode) :
  y <> U -> option_map iop (get_instr M y) = Some o ->
  (forall v, In v (operands o) -> value_eqb v (VInst U) = false) ->
  option_map iop (get_instr (retire U x M) y) = Some o.
Proof.
  intros Hy H Ho. rewrite (iop_retire_other U x y M o) by assumption.
  f_equal. apply map_operands_id. intros v Hv. apply subst_value_id. now apply Ho.
Qed.

Lemma users_retire_self (U x : nat) (M : module) :
  x <> U -> users (retire U x M) (VInst U) = [].
Proof.
  intros H. unfold retire. rewrite users_dropAllReferences, users_replaced; [easy|].
  simpl. now apply Nat.eqb_neq.
Qed.

Lemma users_retire_other (U x w : nat) (M : module) :
  w <> U -> w <> x ->
  users (retire U x M) (VInst w) =
  filter (fun u => negb (Nat.eqb u U)) (users M (VInst w)).
Proof.
  intros H1 H2. unfold retire.
  rewrite users_dropAllReferences, users_replace_other; [easy| |];
    simpl; apply Nat.eqb_neq; congruence.
Qed.

Lemma tracks_rewrite (g : value -> value) (excl : list nat)
    (h : instr -> list instr) (M : module) :
  (forall i, ~ In (iid i) excl ->
     exists i', In i' (h i) /\ iid i' = iid i /\
                operands (iop i') = map g (operands (iop i))) ->
  tracks g excl M (rewrite_instrs h M).
Proof.
  intros H i Hi Hex. destruct (H i Hex) as [i' [H1 [H2 H3]]].
  exists i'. split; [|easy]. rewrite all_instrs_rewrite.
  apply in_flat_map. now exists i.
Qed.

Lemma tracks_trans (g1 g2 : value -> value) (excl : list nat) (M M1 M2 : module) :
  tracks g1 excl M M1 -> tracks g2 excl M1 M2 ->
  tracks (fun v => g2 (g1 v)) excl M M2.
Proof.
  intros T1 T2 i Hi Hex.
  destruct (T1 i Hi Hex) as [i1 [H1 [H2 H3]]].
  assert (~ In (iid i1) excl) as Hex1 by now rewrite H2.
  destruct (T2 i1 H1 Hex1) as [i2 [H4 [H5 H6]]].
  exists i2. split; [easy|]. split; [congruence|].
  now rewrite H6, H3, map_map.
Qed.

Lemma tracks_ext (g g' : value -> value) (excl : list nat) (M M' : module) :
  (forall v, g v = g' v) -> tracks g excl M M' -> tracks g' excl M M'.
Proof.
  intros E T i Hi Hex. destruct (T i Hi Hex) as [i' [H1 [H2 H3]]].
  exists i'. split; [easy|]. split; [easy|]. rewrite H3. now apply map_ext.
Qed.

Lemma tracks_weaken (g : value -> value) (excl excl' : list nat) (M M' : module) :
  incl excl excl' -> tracks g excl M M' -> tracks g excl' M M'.
Proof. intros I T i Hi Hex. apply T; [easy|]. intros C. apply Hex. now apply I. Qed.

Lemma tracks_same (M M' : module) :
  all_instrs M' = all_instrs M -> tracks (fun v => v) [] M M'.
Proof.
  intros E i Hi _. exists i. rewrite E. split; [easy|]. split; [easy|].
  now rewrite map_id.
Qed.

Lemma tracks_retire (U x : nat) (M : module) :
  tracks (subst_value (VInst U) (VInst x)) [U] M (retire U x M).
Proof.
  unfold retire, dropAllReferences, update_instr, replaceAllUsesWith.
  apply (tracks_trans (subst_value (VInst U) (VInst x)) (fun v => v) [U] M
           (rewrite_instrs
              (fun i => [set_iop (map_operands (subst_value (VInst U) (VInst x)) (iop i)) i])
              M)).
  - apply tracks_rewrite. intros i _. eexists. split; [now left|].
    split; [reflexivity|]. simpl. apply operands_map_operands.
  - apply tracks_rewrite. intros i Hi. exists i.
    replace (Nat.eqb (iid i) U) with false.
    + split; [now left|]. split; [easy|]. now rewrite map_id.
    + symmetry. apply Nat.eqb_neq. intros C. apply Hi. now left.
Qed.

Lemma tracks_insert_new (pos : nat) (name : string) (t : ty) (o : opcode) (M : module) :
  tracks (fun v => v) [] M (insert_new pos name t o M).
Proof.
  unfold insert_new, insert_before. intros i Hi Hex.
  change (all_instrs (bump 1 ?X)) with (all_instrs X).
  eapply (tracks_rewrite (fun v => v) []); [|exact Hi|exact Hex].
  intros j _. exists j. split.
  - destruct (Nat.eqb (iid j) pos); simpl; auto.
  - split; [easy|]. now rewrite map_id.
Qed.

Lemma get_instr_insert_new_other (pos y : nat) (name : string) (t : ty) (o : opcode)
    (M : module) :
  y <> next_id M ->
  get_instr (insert_new pos name t o M) y = get_instr M y.
Proof.
  intros H. unfold insert_new. rewrite get_instr_bump.
  apply get_instr_insert_before_other. simpl. congruence.
Qed.

Lemma get_instr_insert_new (pos : nat) (name : string) (t : ty) (o : opcode)
    (M : module) (p : instr) :
  wf M -> get_instr M pos = Some p ->
  get_instr (insert_new pos name t o M) (next_id M) =
  Some (new_inst (next_id M) name t o).
Proof.
  intros W H. unfold insert_new. rewrite get_instr_bump.
  now apply (get_instr_insert_before_new pos (new_inst (next_id M) name t o) M p).
Qed.

Lemma users_insert_new (pos : nat) (name : string) (t : ty) (o : opcode)
    (M : module) (v : value) :
  (forall x, In x (operands o) -> value_eqb x v = false) ->
  users (insert_new pos name t o M) v = users M v.
Proof.
  intros H. unfold insert_new. rewrite users_bump.
  apply users_insert_before. now apply uses_in_nil.
Qed.

Lemma cmpxchg_users_extract0 (Res : nat) (C : value) (T : ty) (U : nat)
    (us : list nat) (M : module) (TE : list nat) (a : value) (r : list nat) :
  option_map iop (get_instr M U) = Some (ExtractValue a (O :: r)) -> Res <> U ->
  cmpxchg_users Res C T (U :: us) (M, TE) =
  cmpxchg_users Res C T us (retire U Res M, TE ++ [U]).
Proof.
  intros H Hn. simpl. rewrite H. unfold user_empty.
  rewrite users_replaced; [reflexivity|]. simpl. now apply Nat.eqb_neq.
Qed.

Lemma cmpxchg_users_extract1 (Res : nat) (C : value) (T : ty) (U : nat)
    (us : list nat) (M : module) (TE : list nat) (a : value) (r : list nat) :
  option_map iop (get_instr M U) = Some (ExtractValue a (1%nat :: r)) ->
  U <> next_id M ->
  cmpxchg_users Res C T (U :: us) (M, TE) =
  cmpxchg_users Res C T us (retire U (next_id M) (new_icmp Res C U M), TE ++ [U]).
Proof.
  intros H Hn. simpl. rewrite H. unfold user_empty.
  rewrite users_replaced; [reflexivity|]. simpl. apply Nat.eqb_neq. congruence.
Qed.

Lemma cmpxchg_users_store (Res : nat) (C : value) (T : ty) (U : nat)
    (us : list nat) (M : module) (TE : list nat) (v p : value) :
  option_map iop (get_instr M U) = Some (Store v p) ->
  cmpxchg_users Res C T (U :: us) (M, TE) =
  Done (replaceAllUsesWith v (VInst (S (S (next_id M))))
          (insert_new U "agg1" T
             (InsertValue (VInst (S (next_id M))) (VInst (next_id M)) 1)
             (insert_new U "agg0" T (InsertValue (VUndef T) (VInst Res) 0)
                (new_icmp Res C U M))), TE).
Proof.
  intros H. simpl. rewrite H. unfold new_icmp. simpl.
  now rewrite !Nat.add_1_r.
Qed.

Lemma visit_cmpxchg (c : nat) (M : module) (TE : list nat) (II : instr)
    (Ptr Cmp Val : value) (s f : AtomicOrdering) :
  get_instr M c = Some II -> iop II = AtomicCmpXchg Ptr Cmp Val s f ->
  visit c (M, TE) =
  let M3 := with_primitive c (compare_ty II) (primitive_args Ptr Cmp Val s f) M in
  match cmpxchg_users (next_id M) Cmp (ity II) (users M3 (VInst c)) (M3, TE) with
  | Done (M4, TE') =>
      if user_empty M4 (VInst c) then Done (M4, TE' ++ [c]) else Done (M4, TE')
  | r => r
  end.
Proof. intros H1 H2. unfold visit. rewrite H1, H2. reflexivity. Qed.

Lemma iop_strip_metadata (i : instr) : iop (strip_metadata i) = iop i.
Proof.
  unfold strip_metadata. generalize MDs. intros l. revert i.
  induction l as [|k l IH]; intros i; simpl; [easy|].
  rewrite IH. now destruct (getMetadata k i).
Qed.

Lemma iid_strip_metadata (i : instr) : iid (strip_metadata i) = iid i.
Proof.
  unfold strip_metadata. generalize MDs. intros l. revert i.
  induction l as [|k l IH]; intros i; simpl; [easy|].
  rewrite IH. now destruct (getMetadata k i).
Qed.

Lemma get_instr_getOrCreateFunction (r : ty) (ps : list ty) (n : string)
    (M : module) (y : nat) :
  get_instr (getOrCreateFunction r ps n M) y = get_instr M y.
Proof. unfold get_instr. now rewrite all_instrs_getOrCreateFunction. Qed.

Section WithPrimitive.
Variables (c : nat) (T : ty) (Args : list value) (M : module) (II : instr).
Hypothesis W : wf M.
Hypothesis Hc : get_instr M c = Some II.

Let M3 := with_primitive c T Args M.

Lemma wf_with_primitive : wf M3.
Proof.
  apply wf_insert_new, wf_getOrCreateFunction, wf_update_instr; [|exact W].
  apply iid_strip_metadata.
Qed.

Lemma next_id_with_primitive : next_id M3 = S (next_id M).
Proof.
  unfold M3, with_primitive, addCallInstSPIRV, insert_new. simpl.
  rewrite next_id_getOrCreateFunction. simpl. lia.
Qed.

Lemma iop_with_primitive (y : nat) :
  y <> next_id M ->
  option_map iop (get_instr M3 y) = option_map iop (get_instr M y).
Proof.
  intros Hy. unfold M3, with_primitive, addCallInstSPIRV.
  rewrite get_instr_insert_new_other
    by (rewrite next_id_getOrCreateFunction; exact Hy).
  rewrite get_instr_getOrCreateFunction.
  rewrite get_instr_update_instr by apply iid_strip_metadata.
  destruct (get_instr M y) as [i|]; [|easy]. simpl.
  destruct (Nat.eqb (iid i) c); [|easy]. now rewrite iop_strip_metadata.
Qed.

Lemma get_instr_with_primitive :
  get_instr M3 (next_id M) =
  Some (new_inst (next_id M) "cmpxchg.res" T
          (Call (VFunc kAtomicCompareExchange) Args false false)).
Proof.
  unfold M3, with_primitive, addCallInstSPIRV.
  set (M2 := getOrCreateFunction _ _ _ _).
  assert (next_id M2 = next_id M) as E
    by (unfold M2; now rewrite next_id_getOrCreateFunction).
  rewrite <- E.
  assert (wf M2) as W2.
  { apply wf_getOrCreateFunction, wf_update_instr; [|exact W].
    apply iid_strip_metadata. }
  assert (exists p, get_instr M2 c = Some p) as [p Hp].
  { unfold M2. rewrite get_instr_getOrCreateFunction.
    rewrite get_instr_update_instr by apply iid_strip_metadata.
    rewrite Hc. simpl. eauto. }
  now apply (get_instr_insert_new c _ _ _ M2 p).
Qed.

Lemma users_with_primitive (w : nat) :
  (forall x, In x Args -> value_eqb x (VInst w) = false) ->
  users M3 (VInst w) = users M (VInst w).
Proof.
  intros H. unfold M3, with_primitive, addCallInstSPIRV.
  rewrite users_insert_new.
  - rewrite users_getOrCreateFunction. apply users_update_instr.
    intros i. unfold uses_in. now rewrite iop_strip_metadata, iid_strip_metadata.
  - simpl. intros x Hx. apply in_app_or in Hx.
    destruct Hx as [Hx|[<-|[]]]; [now apply H | reflexivity].
Qed.

Lemma tracks_with_primitive : tracks (fun v => v) [] M M3.
Proof.
  unfold M3, with_primitive, addCallInstSPIRV.
  apply (tracks_trans (fun v => v) (fun v => v) [] M
           (getOrCreateFunction T [TPtr; TInt 32; TInt 32; TInt 32; T; T]
              kAtomicCompareExchange (update_instr c strip_metadata M)));
    [|apply tracks_insert_new].
  intros i Hi _. rewrite all_instrs_getOrCreateFunction.
  unfold update_instr. rewrite all_instrs_rewrite.
  exists (if Nat.eqb (iid i) c then strip_metadata i else i).
  split; [apply in_flat_map; exists i; split; [easy | now left]|].
  destruct (Nat.eqb (iid i) c);
    rewrite ?iid_strip_metadata, ?iop_strip_metadata, map_id; auto.
Qed.
End WithPrimitive.

Lemma iop_new_icmp_other (Res : nat) (C : value) (U y : nat) (M : module) :
  y <> next_id M ->
  option_map iop (get_instr (new_icmp Res C U M) y) = option_map iop (get_instr M y).
Proof. intros H. unfold new_icmp. now rewrite get_instr_insert_new_other. Qed.

Lemma iop_new_icmp (Res : nat) (C : value) (U : nat) (M : module) (o : opcode) :
  wf M -> option_map iop (get_instr M U) = Some o ->
  option_map iop (get_instr (new_icmp Res C U M) (next_id M)) =
  Some (ICmp ICMP_EQ (VInst Res) C).
Proof.
  intros W H. destruct (get_instr M U) as [p|] eqn:E; [|discriminate].
  unfold new_icmp. now rewrite (get_instr_insert_new U _ _ _ M p).
Qed.

Lemma users_new_icmp (Res : nat) (C : value) (U w : nat) (M : module) :
  w <> Res -> value_eqb C (VInst w) = false ->
  users (new_icmp Res C U M) (VInst w) = users M (VInst w).
Proof.
  intros H1 H2. unfold new_icmp. apply users_insert_new.
  simpl. intros x [<-|[<-|[]]]; [|exact H2].
  simpl. apply Nat.eqb_neq. congruence.
Qed.


Lemma next_id_new_icmp (Res : nat) (C : value) (U : nat) (M : module) :
  next_id (new_icmp Res C U M) = S (next_id M).
Proof. unfold new_icmp, insert_new. simpl. lia. Qed.

Lemma subst_value_commute (a b x y : nat) (v : value) :
  a <> b -> x <> b -> y <> a ->
  subst_value (VInst a) (VInst x) (subst_value (VInst b) (VInst y) v) =
  subst_value (VInst b) (VInst y) (subst_value (VInst a) (VInst x) v).
Proof.
  intros H1 H2 H3. unfold subst_value.
  destruct (value_eqb v (VInst b)) eqn:Eb; destruct (value_eqb v (VInst a)) eqn:Ea;
    simpl; rewrite ?Ea, ?Eb.
  - apply value_eqb_VInst in Eb, Ea. congruence.
  - now replace (Nat.eqb y a) with false by (symmetry; now apply Nat.eqb_neq).
  - now replace (Nat.eqb x b) with false by (symmetry; now apply Nat.eqb_neq).
  - reflexivity.
Qed.

Lemma operands_apart_spec (ops : list value) (ids : list nat) (v : value) (w : nat) :
  operands_apart ops ids = true -> In v ops -> In w ids ->
  value_eqb v (VInst w) = false.
Proof.
  unfold operands_apart. intros H Hv Hw.
  rewrite forallb_forall in H. specialize (H v Hv).
  apply negb_true_iff in H.
  destruct (value_eqb v (VInst w)) eqn:E; [|easy].
  assert (existsb (fun n => value_eqb v (VInst n)) ids = true) as X
    by (apply existsb_exists; now exists w).
  congruence.
Qed.

Lemma primitive_args_apart (Ptr Cmp Val : value) (s f : AtomicOrdering)
    (ids : list nat) (w : nat) (x : value) :
  operands_apart [Ptr; Cmp; Val] ids = true -> In w ids ->
  In x (primitive_args Ptr Cmp Val s f ++ [VFunc kAtomicCompareExchange]) ->
  value_eqb x (VInst w) = false.
Proof.
  intros H Hw Hx. simpl in Hx.
  destruct Hx as [<-|[<-|[<-|[<-|[<-|[<-|[<-|[]]]]]]]]; try reflexivity;
    apply (operands_apart_spec [Ptr; Cmp; Val] ids); simpl; auto.
Qed.

Section TwoExtracts.
Variables (M : module) (c e0 e1 : nat) (II : instr).
Variables (Ptr Cmp Val : value) (s f : AtomicOrdering) (r0 r1 : list nat).
Hypothesis W : wf M.
Hypothesis Hc : get_instr M c = Some II.
Hypothesis Hop : iop II = AtomicCmpXchg Ptr Cmp Val s f.
Hypothesis He0 :
  option_map iop (get_instr M e0) = Some (ExtractValue (VInst c) (0%nat :: r0)).
Hypothesis He1 :
  option_map iop (get_instr M e1) = Some (ExtractValue (VInst c) (1%nat :: r1)).
Hypothesis Hops : operands_apart [Ptr; Cmp; Val] [c; e0; e1] = true.

Let res := next_id M.
Let cmp := S (next_id M).
Let Args := primitive_args Ptr Cmp Val s f.
Let M3 := with_primitive c (compare_ty II) Args M.

Lemma two_extracts_distinct :
  c <> e0 /\ c <> e1 /\ e0 <> e1 /\
  (c < res)%nat /\ (e0 < res)%nat /\ (e1 < res)%nat.
Proof.
  assert (exists i0, get_instr M e0 = Some i0) as [i0 H0]
    by (destruct (get_instr M e0); [eauto | discriminate]).
  assert (exists i1, get_instr M e1 = Some i1) as [i1 H1]
    by (destruct (get_instr M e1); [eauto | discriminate]).
  repeat split.
  - intros ->. rewrite Hc in He0. simpl in He0. congruence.
  - intros ->. rewrite Hc in He1. simpl in He1. congruence.
  - intros ->. rewrite He0 in He1. congruence.
  - now apply (get_instr_lt M c II).
  - now apply (get_instr_lt M e0 i0).
  - now apply (get_instr_lt M e1 i1).
Qed.

Lemma two_extracts_args (w : nat) (x : value) :
  In w [c; e0; e1] -> In x (Args ++ [VFunc kAtomicCompareExchange]) ->
  value_eqb x (VInst w) = false.
Proof. intros Hw Hx. now apply (primitive_args_apart Ptr Cmp Val s f [c; e0; e1]). Qed.

Lemma two_extracts_Cmp (w : nat) : In w [c; e0; e1] -> value_eqb Cmp (VInst w) = false.
Proof.
  intros Hw. apply (operands_apart_spec [Ptr; Cmp; Val] [c; e0; e1]); simpl; auto.
Qed.

Lemma two_extracts_users_M3 (w : nat) :
  In w [c; e0; e1] -> users M3 (VInst w) = users M (VInst w).
Proof.
  intros Hw. apply users_with_primitive. intros x Hx.
  apply two_extracts_args; [easy|]. apply in_or_app. now left.
Qed.

(** The extract of field 0 is met first. *)
Definition field0_first : module :=
  retire e1 cmp (new_icmp res Cmp e1 (retire e0 res M3)).

(** The extract of field 1 is met first. *)
Definition field1_first : module :=
  retire e0 res (retire e1 cmp (new_icmp res Cmp e1 M3)).

Lemma cmpxchg_users_field0_first (TE : list nat) :
  cmpxchg_users res Cmp (ity II) [e0; e1] (M3, TE) =
  Done (field0_first, (TE ++ [e0]) ++ [e1]).
Proof.
  destruct two_extracts_distinct as (D1 & D2 & D3 & L1 & L2 & L3).
  rewrite (cmpxchg_users_extract0 _ _ _ _ _ _ _ (VInst c) r0).
  - rewrite (cmpxchg_users_extract1 _ _ _ _ _ _ _
               (subst_value (VInst e0) (VInst res) (VInst c)) r1).
    + rewrite next_id_retire. unfold M3. rewrite next_id_with_primitive.
      reflexivity.
    + rewrite (iop_retire_other e0 res e1 M3 (ExtractValue (VInst c) (1%nat :: r1)));
        [reflexivity | congruence |].
      unfold M3. rewrite iop_with_primitive; [exact He1 | fold res; lia].
    + rewrite next_id_retire. unfold M3. rewrite next_id_with_primitive.
      fold res. lia.
  - unfold M3. rewrite iop_with_primitive; [exact He0 | fold res; lia].
  - lia.
Qed.

Lemma cmpxchg_users_field1_first (TE : list nat) :
  cmpxchg_users res Cmp (ity II) [e1; e0] (M3, TE) =
  Done (field1_first, (TE ++ [e1]) ++ [e0]).
Proof.
  destruct two_extracts_distinct as (D1 & D2 & D3 & L1 & L2 & L3).
  assert (next_id M3 = cmp) as N3 by (unfold M3; now rewrite next_id_with_primitive).
  rewrite (cmpxchg_users_extract1 _ _ _ _ _ _ _ (VInst c) r1).
  - rewrite N3.
    rewrite (cmpxchg_users_extract0 _ _ _ _ _ _ _
               (subst_value (VInst e1) (VInst cmp) (VInst c)) r0);
      [reflexivity | | lia].
    rewrite (iop_retire_other e1 cmp e0 _ (ExtractValue (VInst c) (0%nat :: r0)));
      [reflexivity | congruence |].
    rewrite iop_new_icmp_other by (rewrite N3; unfold cmp; lia).
    unfold M3. rewrite iop_with_primitive; [exact He0 | fold res; lia].
  - unfold M3. rewrite iop_with_primitive; [exact He1 | fold res; lia].
  - rewrite N3. unfold cmp. lia.
Qed.

Lemma iop_res_M3 :
  option_map iop (get_instr M3 res) =
  Some (Call (VFunc kAtomicCompareExchange) Args false false).
Proof. unfold M3, res. now rewrite (get_instr_with_primitive c _ _ M II W Hc). Qed.

Lemma next_id_M3 : next_id M3 = cmp.
Proof. unfold M3. now rewrite next_id_with_primitive. Qed.

Lemma wf_M3 : wf M3.
Proof. now apply (wf_with_primitive c _ _ M). Qed.

Lemma field0_first_res :
  option_map iop (get_instr field0_first res) =
  Some (Call (VFunc kAtomicCompareExchange) Args false false).
Proof.
  destruct two_extracts_distinct as (D1 & D2 & D3 & L1 & L2 & L3).
  unfold field0_first.
  apply iop_retire_unused; [lia | | intros v Hv; apply two_extracts_args; simpl; auto].
  rewrite iop_new_icmp_other by (rewrite next_id_retire, next_id_M3; unfold cmp, res; lia).
  apply iop_retire_unused; [lia | apply iop_res_M3 |].
  intros v Hv. apply two_extracts_args; simpl; auto.
Qed.

Lemma field1_first_res :
  option_map iop (get_instr field1_first res) =
  Some (Call (VFunc kAtomicCompareExchange) Args false false).
Proof.
  destruct two_extracts_distinct as (D1 & D2 & D3 & L1 & L2 & L3).
  unfold field1_first.
  apply iop_retire_unused; [lia | | intros v Hv; apply two_extracts_args; simpl; auto].
  apply iop_retire_unused; [lia | | intros v Hv; apply two_extracts_args; simpl; auto].
  rewrite iop_new_icmp_other by (rewrite next_id_M3; unfold cmp, res; lia).
  apply iop_res_M3.
Qed.

Lemma icmp_operands_apart (w : nat) (v : value) :
  In w [c; e0; e1] -> In v (operands (ICmp ICMP_EQ (VInst res) Cmp)) ->
  value_eqb v (VInst w) = false.
Proof.
  destruct two_extracts_distinct as (D1 & D2 & D3 & L1 & L2 & L3).
  intros Hw [<-|[<-|[]]]; [|now apply two_extracts_Cmp].
  simpl. apply Nat.eqb_neq. simpl in Hw. lia.
Qed.

Lemma field0_first_cmp :
  option_map iop (get_instr field0_first cmp) = Some (ICmp ICMP_EQ (VInst res) Cmp).
Proof.
  destruct two_extracts_distinct as (D1 & D2 & D3 & L1 & L2 & L3).
  unfold field0_first.
  apply iop_retire_unused;
    [unfold cmp, res in *; lia | | intros v Hv; apply icmp_operands_apart; simpl; auto].
  assert (option_map iop (get_instr (retire e0 res M3) e1) =
          Some (map_operands (subst_value (VInst e0) (VInst res))
                             (ExtractValue (VInst c) (1%nat :: r1)))) as H1.
  { apply iop_retire_other; [congruence|].
    unfold M3. rewrite iop_with_primitive; [exact He1 | fold res; lia]. }
  pose proof (iop_new_icmp res Cmp e1 _ _ (wf_retire e0 res M3 wf_M3) H1) as X.
  now rewrite next_id_retire, next_id_M3 in X.
Qed.

Lemma field1_first_cmp :
  option_map iop (get_instr field1_first cmp) = Some (ICmp ICMP_EQ (VInst res) Cmp).
Proof.
  destruct two_extracts_distinct as (D1 & D2 & D3 & L1 & L2 & L3).
  unfold field1_first.
  apply iop_retire_unused;
    [unfold cmp, res in *; lia | | intros v Hv; apply icmp_operands_apart; simpl; auto].
  apply iop_retire_unused;
    [unfold cmp, res in *; lia | | intros v Hv; apply icmp_operands_apart; simpl; auto].
  assert (option_map iop (get_instr M3 e1) =
          Some (ExtractValue (VInst c) (1%nat :: r1))) as H1.
  { unfold M3. rewrite iop_with_primitive; [exact He1 | fold res; lia]. }
  pose proof (iop_new_icmp res Cmp e1 _ _ wf_M3 H1) as X.
  now rewrite next_id_M3 in X.
Qed.

Lemma field0_first_tracks :
  tracks (decomposed_operand e0 e1 res cmp) [e0; e1] M field0_first.
Proof.
  unfold field0_first, decomposed_operand.
  apply (tracks_trans (subst_value (VInst e0) (VInst res))
                      (subst_value (VInst e1) (VInst cmp)) _ M
                      (new_icmp res Cmp e1 (retire e0 res M3))).
  - apply (tracks_trans (subst_value (VInst e0) (VInst res)) (fun v => v) _ M
                        (retire e0 res M3)).
    + apply (tracks_trans (fun v => v) (subst_value (VInst e0) (VInst res)) _ M M3).
      * apply (tracks_weaken _ []); [easy|].
        now apply (tracks_with_primitive c _ _ M).
      * apply (tracks_weaken _ [e0]); [|apply tracks_retire].
        intros x [<-|[]]. now left.
    + apply (tracks_weaken _ []); [easy | apply tracks_insert_new].
  - apply (tracks_weaken _ [e1]); [|apply tracks_retire].
    intros x [<-|[]]. right. now left.
Qed.

Lemma field1_first_tracks :
  tracks (decomposed_operand e0 e1 res cmp) [e0; e1] M field1_first.
Proof.
  destruct two_extracts_distinct as (D1 & D2 & D3 & L1 & L2 & L3).
  unfold field1_first.
  apply (tracks_ext (fun v => subst_value (VInst e0) (VInst res)
                                (subst_value (VInst e1) (VInst cmp) v))).
  { intros v. unfold decomposed_operand.
    apply subst_value_commute; unfold cmp, res in *; lia. }
  apply (tracks_trans (subst_value (VInst e1) (VInst cmp))
                      (subst_value (VInst e0) (VInst res)) _ M
                      (retire e1 cmp (new_icmp res Cmp e1 M3))).
  - apply (tracks_trans (fun v => v) (subst_value (VInst e1) (VInst cmp)) _ M
                        (new_icmp res Cmp e1 M3)).
    + apply (tracks_trans (fun v => v) (fun v => v) _ M M3).
      * apply (tracks_weaken _ []); [easy|].
        now apply (tracks_with_primitive c _ _ M).
      * apply (tracks_weaken _ []); [easy | apply tracks_insert_new].
    + apply (tracks_weaken _ [e1]); [|apply tracks_retire].
      intros x [<-|[]]. right. now left.
  - apply (tracks_weaken _ [e0]); [|apply tracks_retire].
    intros x [<-|[]]. now left.
Qed.

Lemma field0_first_users_e0 : users field0_first (VInst e0) = [].
Proof.
  destruct two_extracts_distinct as (D1 & D2 & D3 & L1 & L2 & L3).
  unfold field0_first.
  rewrite users_retire_other by (unfold cmp, res in *; lia).
  rewrite users_new_icmp
    by (try apply two_extracts_Cmp; unfold cmp, res in *; simpl; auto; lia).
  rewrite users_retire_self; [easy | unfold res in *; lia].
Qed.

Lemma field0_first_users_e1 : users field0_first (VInst e1) = [].
Proof.
  destruct two_extracts_distinct as (D1 & D2 & D3 & L1 & L2 & L3).
  unfold field0_first. apply users_retire_self. unfold cmp, res in *. lia.
Qed.

Lemma field0_first_users_c :
  users field0_first (VInst c) =
  filter (fun u => negb (Nat.eqb u e1))
         (filter (fun u => negb (Nat.eqb u e0)) (users M (VInst c))).
Proof.
  destruct two_extracts_distinct as (D1 & D2 & D3 & L1 & L2 & L3).
  unfold field0_first.
  rewrite users_retire_other by (unfold cmp, res in *; lia).
  rewrite users_new_icmp
    by (try apply two_extracts_Cmp; unfold cmp, res in *; simpl; auto; lia).
  rewrite users_retire_other by (unfold cmp, res in *; lia).
  rewrite two_extracts_users_M3; simpl; auto.
Qed.

Lemma field1_first_users_e0 : users field1_first (VInst e0) = [].
Proof.
  destruct two_extracts_distinct as (D1 & D2 & D3 & L1 & L2 & L3).
  unfold field1_first. apply users_retire_self. unfold cmp, res in *. lia.
Qed.

Lemma field1_first_users_e1 : users field1_first (VInst e1) = [].
Proof.
  destruct two_extracts_distinct as (D1 & D2 & D3 & L1 & L2 & L3).
  unfold field1_first.
  rewrite users_retire_other by (unfold cmp, res in *; lia).
  rewrite users_retire_self; [easy | unfold cmp, res in *; lia].
Qed.

Lemma field1_first_users_c :
  users field1_first (VInst c) =
  filter (fun u => negb (Nat.eqb u e0))
         (filter (fun u => negb (Nat.eqb u e1)) (users M (VInst c))).
Proof.
  destruct two_extracts_distinct as (D1 & D2 & D3 & L1 & L2 & L3).
  unfold field1_first.
  rewrite users_retire_other by (unfold cmp, res in *; lia).
  rewrite users_retire_other by (unfold cmp, res in *; lia).
  rewrite users_new_icmp
    by (try apply two_extracts_Cmp; unfold cmp, res in *; simpl; auto; lia).
  rewrite two_extracts_users_M3; simpl; auto.
Qed.
End TwoExtracts.

Lemma eval_icmp_eq_true (x y : Z) :
  eval_icmp ICMP_EQ (RInt (Bits x)) (RInt (Bits y)) = RInt (Bits 1) <-> x = y.
Proof.
  simpl. destruct (Z.eqb_spec x y) as [E|E]; split; intros H;
    try easy; try discriminate.
Qed.

(** C4: when the result of a compare-exchange [c] is consumed by one extract
    of field 0, [e0], and one extract of field 1, [e1], the visit of [c]
    completes; the call of the target primitive and the equality test of its
    result with the comparator are in the module; every operand slot that held
    [e0] holds the result of the call and every slot that held [e1] holds the
    test, which is true exactly when its operands are equal; both extracts
    have no users left and are queued for erasure, as is [c]. *)
Theorem cmpxchg_two_extracts_decomposed (M : module) (TE : list nat)
    (c e0 e1 : nat) (II : instr) (Ptr Cmp Val : value) (s f : AtomicOrdering)
    (r0 r1 : list nat) :
  wf M ->
  get_instr M c = Some II ->
  iop II = AtomicCmpXchg Ptr Cmp Val s f ->
  option_map iop (get_instr M e0) = Some (ExtractValue (VInst c) (0%nat :: r0)) ->
  option_map iop (get_instr M e1) = Some (ExtractValue (VInst c) (1%nat :: r1)) ->
  operands_apart [Ptr; Cmp; Val] [c; e0; e1] = true ->
  users M (VInst c) = [e0; e1] \/ users M (VInst c) = [e1; e0] ->
  exists M' TE',
    visit c (M, TE) = Done (M', TE') /\
    option_map iop (get_instr M' (next_id M)) =
      Some (Call (VFunc kAtomicCompareExchange)
                 (primitive_args Ptr Cmp Val s f) false false) /\
    option_map iop (get_instr M' (S (next_id M))) =
      Some (ICmp ICMP_EQ (VInst (next_id M)) Cmp) /\
    (forall x y, eval_icmp ICMP_EQ (RInt (Bits x)) (RInt (Bits y)) = RInt (Bits 1)
                 <-> x = y) /\
    tracks (decomposed_operand e0 e1 (next_id M) (S (next_id M))) [e0; e1] M M' /\
    users M' (VInst e0) = [] /\ users M' (VInst e1) = [] /\
    In e0 TE' /\ In e1 TE' /\ In c TE'.
Proof.
  intros W Hc Hop He0 He1 Hops Hu.
  assert (c <> e0 /\ c <> e1 /\ e0 <> e1) as (D1 & D2 & D3).
  { edestruct two_extracts_distinct as (D1 & D2 & D3 & _); eauto. }
  assert (users (with_primitive c (compare_ty II) (primitive_args Ptr Cmp Val s f) M)
                (VInst c) = users M (VInst c)) as U3
    by (eapply two_extracts_users_M3; eauto; now left).
  destruct Hu as [Hu|Hu].
  - eexists. eexists. split.
    { rewrite (visit_cmpxchg c M TE II Ptr Cmp Val s f Hc Hop). cbv zeta.
      rewrite U3, Hu.
      erewrite cmpxchg_users_field0_first by eauto.
      unfold user_empty.
      erewrite field0_first_users_c by eauto. rewrite Hu.
      simpl. rewrite !Nat.eqb_refl. simpl.
      replace (Nat.eqb e1 e0) with false
        by (symmetry; apply Nat.eqb_neq; congruence).
      simpl. rewrite Nat.eqb_refl. simpl. reflexivity. }
    split; [eapply field0_first_res; eauto|].
    split; [eapply field0_first_cmp; eauto|].
    split; [apply eval_icmp_eq_true|].
    split; [eapply field0_first_tracks; eauto|].
    split; [eapply field0_first_users_e0; eauto|].
    split; [eapply field0_first_users_e1; eauto|].
    rewrite !in_app_iff. simpl. tauto.
  - eexists. eexists. split.
    { rewrite (visit_cmpxchg c M TE II Ptr Cmp Val s f Hc Hop). cbv zeta.
      rewrite U3, Hu.
      erewrite cmpxchg_users_field1_first by eauto.
      unfold user_empty.
      erewrite field1_first_users_c by eauto. rewrite Hu.
      simpl. rewrite !Nat.eqb_refl. simpl.
      replace (Nat.eqb e0 e1) with false
        by (symmetry; apply Nat.eqb_neq; congruence).
      simpl. rewrite Nat.eqb_refl. simpl. reflexivity. }
    split; [eapply field1_first_res; eauto|].
    split; [eapply field1_first_cmp; eauto|].
    split; [apply eval_icmp_eq_true|].
    split; [eapply field1_first_tracks; eauto|].
    split; [eapply field1_first_users_e0; eauto|].
    split; [eapply field1_first_users_e1; eauto|].
    rewrite !in_app_iff. simpl. tauto.
Qed.

Lemma cmpxchg_two_extracts_decomposed_witness :
  wf both_extracted /\
  users both_extracted (VInst 0) = [2; 1]%nat /\
  exists M' TE',
    visit 0 (both_extracted, []) = Done (M', TE') /\
    option_map iop (get_instr M' 10) =
      Some (Call (VFunc kAtomicCompareExchange)
                 (primitive_args (VArg 0) (VArg 1) (VArg 2)
                                 SequentiallyConsistent Acquire) false false) /\
    option_map iop (get_instr M' 11) = Some (ICmp ICMP_EQ (VInst 10) (VArg 1)) /\
    (forall x y, eval_icmp ICMP_EQ (RInt (Bits x)) (RInt (Bits y)) = RInt (Bits 1)
                 <-> x = y) /\
    tracks (decomposed_operand 1 2 10 11) [1; 2]%nat both_extracted M' /\
    users M' (VInst 1) = [] /\ users M' (VInst 2) = [] /\
    In 1%nat TE' /\ In 2%nat TE' /\ In 0%nat TE'.
Proof.
  split; [apply wf_check_sound; reflexivity|].
  split; [reflexivity|].
  apply (cmpxchg_two_extracts_decomposed both_extracted [] 0 1 2 example_cmpxchg
           (VArg 0) (VArg 1) (VArg 2) SequentiallyConsistent Acquire [] []).
  - apply wf_check_sound; reflexivity.
  - reflexivity.
  - reflexivity.
  - reflexivity.
  - reflexivity.
  - reflexivity.
  - right; reflexivity.
Defined.

(** * Lowering of intrinsics *)

Lemma prefix_app (s1 s2 s : string) :
  prefix (s1 ++ s2)%string s = true -> prefix s1 s = true.
Proof.
  revert s. induction s1 as [|a s1 IH]; intros s; simpl.
  - now destruct s.
  - destruct s as [|b s]; simpl; [discriminate|].
    destruct (ascii_dec a b); [apply IH | discriminate].
Qed.





(** For each of the three lowerings, when a function with the derived name
    is already in the module with a body, the lowering synthesizes nothing:
    all it does is to make that function the callee of the call. *)
Lemma lower_reuses_body (k : lowering) (id : nat) (M : module)
    (II : instr) (CF F : function) :
  get_instr M id = Some II ->
  getCalledFunction M II = Some CF ->
  is_lowered k II = true ->
  getFunction M (derived_name k M II) = Some F ->
  empty F = false ->
  lower k id M = setCalledFunction id (derived_name k M II) M.
Proof.
  intros H1 H2 H3 H4 H5. destruct k; simpl in *.
  - unfold lowerMemset. rewrite H1, H2.
    unfold call_args in *. unfold getCalledFunction in H2.
    destruct (iop II) as [callee args t n| | | | | | | |]; try discriminate.
    apply negb_true_iff in H3. now rewrite H3, H4.
  - unfold lowerFunnelShiftLeft. rewrite H1, H2.
    unfold getOrCreateFunction, buildFunnelShiftLeftFunc. rewrite H4, H4, H5.
    reflexivity.
  - unfold lowerUMulWithOverflow. rewrite H1, H2.
    unfold getOrCreateFunction, buildUMulWithOverflowFunc. rewrite H4, H4, H5.
    reflexivity.
Qed.

(** C7 (counterexample): in [calls_fshl] the intrinsic is declared ahead of
    its only caller.  One application of the transform keeps the declaration,
    which the walk reaches while the call still uses it; a second application
    erases it: the result is not the result of a single application. *)
Lemma regularize_twice_differs :
  result_map function_names (regularize 10 calls_fshl) =
    Done ["llvm.fshl.i8"; "f"; "spirv.llvm_fshl_i8"] /\
  result_map function_names
    (result_bind (regularize 10 calls_fshl) (regularize 10)) =
    Done ["f"; "spirv.llvm_fshl_i8"].
Proof. split; vm_compute; reflexivity. Qed.

(** * Metadata through the walk *)

Lemma getMetadata_banned (k : string) (i : instr) :
  getMetadata k i = existsb (fun kv => String.eqb (fst kv) k) (imd i).
Proof. reflexivity. Qed.

Lemma filter_filter_comm {A} (p q : A -> bool) (l : list A) :
  filter p (filter q l) = filter (fun x => q x && p x) l.
Proof.
  induction l as [|x l IH]; simpl; [easy|].
  destruct (q x); simpl; [destruct (p x)|]; now rewrite IH.
Qed.

Lemma drop_if_present (k : string) (i : instr) :
  imd (if getMetadata k i then dropMetadata k i else i) =
  filter (fun kv => negb (String.eqb (fst kv) k)) (imd i).
Proof.
  destruct (getMetadata k i) eqn:E; [reflexivity|].
  unfold getMetadata in E. symmetry.
  induction (imd i) as [|kv l IH]; simpl in *; [easy|].
  apply orb_false_iff in E. destruct E as [E1 E2].
  rewrite E1. simpl. f_equal. now apply IH.
Qed.

Lemma imd_strip_metadata (i : instr) : imd (strip_metadata i) = strip_md (imd i).
Proof.
  unfold strip_metadata, strip_md, banned, MDs. simpl.
  rewrite !drop_if_present, !filter_filter_comm.
  apply filter_ext. intros [k n]. simpl.
  rewrite (String.eqb_sym k "fpmath"), (String.eqb_sym k "tbaa"),
          (String.eqb_sym k "range").
  destruct (String.eqb "fpmath" k), (String.eqb "tbaa" k), (String.eqb "range" k);
    reflexivity.
Qed.

Lemma is_clean_spec (i : instr) :
  is_clean i = true <-> forall kv, In kv (imd i) -> banned kv = false.
Proof.
  unfold is_clean, banned, getMetadata. rewrite forallb_forall. split.
  - intros H kv Hkv. destruct (existsb _ MDs) eqn:E; [|easy].
    apply existsb_exists in E. destruct E as [k [Hk Ek]].
    specialize (H k Hk). apply negb_true_iff in H.
    assert (existsb (fun kv0 => String.eqb (fst kv0) k) (imd i) = true) as X.
    { apply existsb_exists. exists kv. split; [easy|].
      apply String.eqb_eq in Ek. subst k. apply String.eqb_refl. }
    congruence.
  - intros H k Hk. apply negb_true_iff.
    destruct (existsb _ (imd i)) eqn:E; [|easy].
    apply existsb_exists in E. destruct E as [kv [Hkv Ek]].
    specialize (H kv Hkv).
    assert (existsb (String.eqb (fst kv)) MDs = true) as X
      by (apply existsb_exists; now exists k).
    congruence.
Qed.


Lemma is_clean_of_stripped (i i' : instr) :
  imd i' = strip_md (imd i) -> is_clean i' = true.
Proof.
  intros H. apply is_clean_spec. rewrite H. unfold strip_md.
  intros kv Hkv. apply filter_In in Hkv. destruct Hkv as [_ Hkv].
  now apply negb_true_iff in Hkv.
Qed.

Lemma is_clean_imd (i i' : instr) : imd i' = imd i -> is_clean i' = is_clean i.
Proof. unfold is_clean, getMetadata. now intros ->. Qed.

Lemma strip_md_idem (md : list (string * nat)) : strip_md (strip_md md) = strip_md md.
Proof.
  unfold strip_md. rewrite filter_filter_comm. apply filter_ext.
  intros kv. now destruct (banned kv).
Qed.

Lemma md_kept_refl (i : instr) : md_kept i i.
Proof. now left. Qed.

Lemma md_kept_trans (i j k : instr) : md_kept i j -> md_kept j k -> md_kept i k.
Proof.
  unfold md_kept. intros [H1|H1] [H2|H2]; rewrite H2, H1; auto.
  right. apply strip_md_idem.
Qed.

Lemma md_kept_clean (i i' : instr) :
  md_kept i i' -> is_clean i = true -> is_clean i' = true.
Proof.
  intros [H|H] Hc.
  - now rewrite (is_clean_imd i i').
  - now apply (is_clean_of_stripped i).
Qed.


(** ** Descent of instruction lists *)

Lemma ext_refl (n0 n1 : nat) (l : list instr) : ext n0 n1 l l.
Proof. induction l; constructor; auto. apply md_kept_refl. Qed.

Lemma ext_news (n0 n1 : nat) (news l l' : list instr) :
  Forall (fun j => (n0 <= iid j < n1)%nat /\ is_clean j = true) news ->
  ext n0 n1 l l' -> ext n0 n1 l (news ++ l').
Proof.
  intros H E. induction H as [|j news [Hj Hc] _ IH]; simpl; [easy|].
  now constructor.
Qed.

Lemma ext_app (n0 n1 : nat) (l1 l1' l2 l2' : list instr) :
  ext n0 n1 l1 l1' -> ext n0 n1 l2 l2' -> ext n0 n1 (l1 ++ l2) (l1' ++ l2').
Proof.
  intros E1 E2.
  induction E1 as [|i i' l l' Hid Hmd E IH|j l l' Hj Hc E IH]; simpl;
    [easy | |]; constructor; auto.
Qed.

Lemma ext_flat_map (n0 n1 : nat) (h : instr -> list instr) (l : list instr) :
  (forall i, ext n0 n1 [i] (h i)) -> ext n0 n1 l (flat_map h l).
Proof.
  intros H. induction l as [|i l IH]; simpl; [constructor|].
  apply (ext_app n0 n1 [i] (h i) l); auto.
Qed.

Lemma ext_weaken (n0 n1 m0 m1 : nat) (l l' : list instr) :
  (m0 <= n0)%nat -> (n1 <= m1)%nat -> ext n0 n1 l l' -> ext m0 m1 l l'.
Proof.
  intros H0 H1 E.
  induction E as [|i i' l l' Hid Hmd E IH|j l l' Hj Hc E IH]; constructor; auto.
  lia.
Qed.

Lemma ext_trans (n0 n1 n2 : nat) (l l1 l2 : list instr) :
  (n0 <= n1)%nat -> (n1 <= n2)%nat ->
  ext n0 n1 l l1 -> ext n1 n2 l1 l2 -> ext n0 n2 l l2.
Proof.
  intros H01 H12 E1 E2. revert l E1.
  induction E2 as [|i1 i2 l1 l2 Hid Hmd E2 IH|j l1 l2 Hj Hc E2 IH]; intros l E1.
  - inversion E1; subst. constructor.
  - inversion E1 as [|i i1' l0 l1' Hid' Hmd' E1'|j l0 l1' Hj Hc E1']; subst.
    + constructor; [congruence | eapply md_kept_trans; eauto | auto].
    + apply ext_new; [lia | eapply md_kept_clean; eauto | auto].
  - apply ext_new; [lia | easy | auto].
Qed.

Lemma ext_clean (n0 n1 : nat) (l l' : list instr) :
  ext n0 n1 l l' ->
  Forall (fun i => is_clean i = true) l -> Forall (fun i => is_clean i = true) l'.
Proof.
  intros E. induction E as [|i i' l l' Hid Hmd E IH|j l l' Hj Hc E IH];
    intros HF; [easy | |].
  - inversion HF; subst. constructor; [eapply md_kept_clean; eauto | auto].
  - constructor; auto.
Qed.

(** The place of an instruction is kept: what was before it stays before
    it, what was after it stays after it. *)
Lemma ext_split (n0 n1 : nat) (pre post : list instr) (c : instr) (l' : list instr) :
  ext n0 n1 (pre ++ c :: post) l' ->
  exists pre' c' post',
    l' = pre' ++ c' :: post' /\ ext n0 n1 pre pre' /\
    iid c' = iid c /\ md_kept c c' /\ ext n0 n1 post post'.
Proof.
  remember (pre ++ c :: post) as l eqn:El. intros E. revert pre El.
  induction E as [|i i' l l' Hid Hmd E IH|j l l' Hj Hc E IH]; intros pre El.
  - destruct pre; discriminate.
  - destruct pre as [|p pre]; simpl in El; injection El as -> ->.
    + exists [], i', l'. repeat split; auto. constructor.
    + destruct (IH pre eq_refl) as (pre' & c' & post' & -> & E1 & H1 & H2 & E2).
      exists (i' :: pre'), c', post'. repeat split; auto. now constructor.
  - destruct (IH pre El) as (pre' & c' & post' & -> & E1 & H1 & H2 & E2).
    exists (j :: pre'), c', post'. repeat split; auto. now constructor.
Qed.

Lemma ext_nil_inv (n0 n1 : nat) (l' : list instr) :
  ext n0 n1 [] l' ->
  Forall (fun j => (n0 <= iid j < n1)%nat /\ is_clean j = true) l'.
Proof.
  remember (@nil instr) as l eqn:El. intros E.
  induction E; [constructor | discriminate | constructor; auto].
Qed.

(** Every instruction of the descendant is a new one or descends from an
    instruction of the same identifier. *)
Lemma ext_In (n0 n1 : nat) (l l' : list instr) (i' : instr) :
  ext n0 n1 l l' -> In i' l' ->
  ((n0 <= iid i' < n1)%nat /\ is_clean i' = true) \/
  (exists i, In i l /\ iid i' = iid i /\ md_kept i i').
Proof.
  intros E. induction E as [|i i2 l l' Hid Hmd E IH|j l l' Hj Hc E IH]; intros H.
  - destruct H.
  - destruct H as [<-|H].
    + right. exists i. split; [now left | auto].
    + destruct (IH H) as [X|[x [X1 X2]]]; [now left|].
      right. exists x. split; [now right | auto].
  - destruct H as [<-|H]; [now left | auto].
Qed.

(** ** Descent of modules *)

Lemma fext_refl (n0 n1 : nat) (l : list function) : fext n0 n1 l l.
Proof.
  induction l as [|F l IH]; [constructor; constructor|].
  constructor; [reflexivity | apply ext_refl | exact IH].
Qed.

Lemma fext_weaken (n0 n1 m0 m1 : nat) (l l' : list function) :
  (m0 <= n0)%nat -> (n1 <= m1)%nat -> fext n0 n1 l l' -> fext m0 m1 l l'.
Proof.
  intros H0 H1 E. induction E as [news H|F F' l l' Hn HE E IH].
  - constructor. eapply Forall_impl; [|exact H].
    intros G HG. now apply (ext_weaken n0 n1).
  - constructor; auto. now apply (ext_weaken n0 n1).
Qed.

Lemma fext_trans (n0 n1 n2 : nat) (l l1 l2 : list function) :
  (n0 <= n1)%nat -> (n1 <= n2)%nat ->
  fext n0 n1 l l1 -> fext n1 n2 l1 l2 -> fext n0 n2 l l2.
Proof.
  intros H01 H12 E1. revert l2.
  induction E1 as [news H|F F' l l' Hn HE E IH]; intros l2 E2.
  - constructor. revert l2 E2.
    induction H as [|G news HG H IH]; intros l2 E2.
    + inversion E2 as [news2 H2|]; subst.
      eapply Forall_impl; [|exact H2].
      intros G HG. apply (ext_weaken n1 n2); auto; lia.
    + inversion E2 as [|G0 G' l0 l' Hn HE E2']; subst.
      constructor; [|now apply IH].
      now apply (ext_trans n0 n1 n2 [] (instrs_of G)).
  - inversion E2 as [|F0 F'' l0 l'' Hn' HE' E2']; subst.
    constructor; [congruence | | now apply IH].
    now apply (ext_trans n0 n1 n2 _ (instrs_of F')).
Qed.

Lemma evolves_refl (M : module) : evolves M M.
Proof. split; [lia | apply fext_refl]. Qed.

Lemma evolves_trans (M M1 M2 : module) : evolves M M1 -> evolves M1 M2 -> evolves M M2.
Proof.
  intros [H1 E1] [H2 E2]. split; [lia|].
  apply (fext_trans (next_id M) (next_id M1) (next_id M2) _ (funcs M1)); auto.
Qed.

Lemma fext_map (n0 n1 : nat) (g : function -> function) (l : list function) :
  (forall F, fname (g F) = fname F /\ ext n0 n1 (instrs_of F) (instrs_of (g F))) ->
  fext n0 n1 l (map g l).
Proof.
  intros H. induction l as [|F l IH]; simpl; [constructor; constructor|].
  destruct (H F). now constructor.
Qed.

Lemma fext_app_new (n0 n1 : nat) (l l' news : list function) :
  fext n0 n1 l l' -> Forall (fun G => ext n0 n1 [] (instrs_of G)) news ->
  fext n0 n1 l (l' ++ news).
Proof.
  intros E H. induction E as [news0 H0|F F' l l' Hn HE E IH]; simpl.
  - constructor. apply Forall_app. now split.
  - now constructor.
Qed.

Lemma evolves_rewrite (h : instr -> list instr) (k : nat) (M : module) :
  (forall i, ext (next_id M) (next_id M + k) [i] (h i)) ->
  evolves M (bump k (rewrite_instrs h M)).
Proof.
  intros H. split; [simpl; lia|]. simpl.
  apply fext_map. intros F. split; [reflexivity|].
  rewrite instrs_of_map_function. now apply ext_flat_map.
Qed.

Lemma bump_0 (M : module) : bump 0 M = M.
Proof. destruct M as [fs n]. unfold bump. simpl. now rewrite Nat.add_0_r. Qed.

Lemma evolves_rewrite_single (f : instr -> instr) (M : module) :
  (forall i, iid (f i) = iid i /\ md_kept i (f i)) ->
  evolves M (rewrite_instrs (fun i => [f i]) M).
Proof.
  intros H. rewrite <- (bump_0 (rewrite_instrs _ M)).
  apply evolves_rewrite. intros i. destruct (H i).
  constructor; auto. constructor.
Qed.

Lemma evolves_update_instr (id : nat) (g : instr -> instr) (M : module) :
  (forall i, iid (g i) = iid i /\ md_kept i (g i)) ->
  evolves M (update_instr id g M).
Proof.
  intros H. unfold update_instr.
  apply (evolves_rewrite_single (fun i => if Nat.eqb (iid i) id then g i else i)).
  intros i. destruct (Nat.eqb (iid i) id); [apply H|].
  split; [reflexivity | apply md_kept_refl].
Qed.

Lemma evolves_replaceAllUsesWith (old new : value) (M : module) :
  evolves M (replaceAllUsesWith old new M).
Proof.
  unfold replaceAllUsesWith. apply evolves_rewrite_single.
  intros i. split; [reflexivity | now left].
Qed.

Lemma evolves_dropAllReferences (a : nat) (M : module) :
  evolves M (dropAllReferences a M).
Proof.
  unfold dropAllReferences. apply evolves_update_instr.
  intros i. split; [reflexivity | now left].
Qed.

Lemma evolves_insert_new (pos : nat) (name : string) (t : ty) (o : opcode) (M : module) :
  evolves M (insert_new pos name t o M).
Proof.
  unfold insert_new, insert_before. apply evolves_rewrite.
  intros i. destruct (Nat.eqb (iid i) pos).
  - apply ext_new; [simpl; lia | reflexivity|].
    constructor; [reflexivity | apply md_kept_refl | constructor].
  - constructor; [reflexivity | apply md_kept_refl | constructor].
Qed.

Lemma evolves_append_declaration (n : string) (r : ty) (ps : list ty) (M : module) :
  evolves M (append_function (declaration n r ps) M).
Proof.
  split; [simpl; lia|]. simpl.
  apply fext_app_new; [apply fext_refl|].
  constructor; [|constructor]. constructor.
Qed.

Lemma evolves_getOrCreateFunction (r : ty) (ps : list ty) (n : string) (M : module) :
  evolves M (getOrCreateFunction r ps n M).
Proof.
  unfold getOrCreateFunction. destruct (getFunction M n).
  - apply evolves_refl.
  - apply evolves_append_declaration.
Qed.

(** ** A body for a declaration *)

Lemma getFunction_split (M : module) (n : string) (F : function) :
  wf M -> getFunction M n = Some F ->
  fname F = n /\
  exists a b, funcs M = a ++ F :: b /\
              (forall G, In G (a ++ b) -> String.eqb (fname G) n = false).
Proof.
  intros [_ _ W] H. unfold getFunction in H.
  induction (funcs M) as [|G l IH]; simpl in *; [discriminate|].
  inversion W as [|? ? HG Hl]; subst.
  destruct (String.eqb (fname G) n) eqn:E.
  - injection H as ->. apply String.eqb_eq in E. split; [easy|].
    exists [], l. split; [reflexivity|]. simpl. intros G HG'.
    destruct (String.eqb (fname G) n) eqn:E'; [|easy].
    apply String.eqb_eq in E'. exfalso. apply HG. rewrite E, <- E'.
    now apply in_map.
  - destruct (IH Hl H) as [Hn [a [b [-> Hab]]]]. split; [easy|].
    exists (G :: a), b. split; [reflexivity|].
    simpl. intros G' [<-|HG']; auto.
Qed.

Lemma update_function_split (n : string) (g : function -> function)
    (a b : list function) (F : function) (k : nat) :
  fname F = n -> (forall G, In G (a ++ b) -> String.eqb (fname G) n = false) ->
  update_function n g (mkModule (a ++ F :: b) k) = mkModule (a ++ g F :: b) k.
Proof.
  intros HF H. unfold update_function. simpl. f_equal.
  rewrite map_app. simpl. rewrite HF, String.eqb_refl.
  assert (forall l, (forall G, In G l -> String.eqb (fname G) n = false) ->
            map (fun f => if String.eqb (fname f) n then g f else f) l = l) as X.
  { induction l as [|G l IH]; simpl; [easy|]. intros Hl.
    rewrite (Hl G) by now left. f_equal. apply IH. intros G' HG'. apply Hl. now right. }
  rewrite !X; [easy | |]; intros G HG; apply H; apply in_or_app; auto.
Qed.

Lemma NoDup_app_middle {A} (x y m : list A) :
  NoDup (x ++ y) -> NoDup m -> (forall z, In z m -> ~ In z (x ++ y)) ->
  NoDup (x ++ m ++ y).
Proof.
  intros H Hm Hd. induction x as [|a x IH]; simpl in *.
  - induction Hm as [|z m Hz Hm IHm]; simpl; [easy|].
    constructor.
    + rewrite in_app_iff. intros [C|C]; [contradiction|].
      apply (Hd z); [now left | exact C].
    + apply IHm. intros w Hw. apply Hd. now right.
  - inversion H as [|? ? Ha Hx]; subst. constructor.
    + rewrite !in_app_iff. intros [C|[C|C]].
      * apply Ha. apply in_or_app. now left.
      * apply (Hd a C). now left.
      * apply Ha. apply in_or_app. now right.
    + apply IH; [easy|]. intros z Hz C. apply (Hd z Hz). now right.
Qed.

Lemma instrs_of_set_blocks (B : list block) (F : function) :
  instrs_of (set_blocks B F) = flat_map insts B.
Proof. reflexivity. Qed.

Lemma empty_instrs_of (F : function) : empty F = true -> instrs_of F = [].
Proof.
  unfold empty, isDeclaration, instrs_of. now destruct (blocks F).
Qed.

Lemma fext_replace (n0 n1 : nat) (a b : list function) (F F' : function) :
  fname F' = fname F -> ext n0 n1 (instrs_of F) (instrs_of F') ->
  fext n0 n1 (a ++ F :: b) (a ++ F' :: b).
Proof.
  intros Hn HE. induction a as [|G a IH]; simpl.
  - constructor; [easy | easy | apply fext_refl].
  - constructor; [reflexivity | apply ext_refl | exact IH].
Qed.

Lemma ext_all_new (n0 n1 : nat) (news : list instr) :
  Forall (fun j => (n0 <= iid j < n1)%nat /\ is_clean j = true) news ->
  ext n0 n1 [] news.
Proof.
  intros H. rewrite <- (app_nil_r news). apply ext_news; [easy | constructor].
Qed.

Lemma set_body (n : string) (B : list block) (k : nat) (M : module) (F : function) :
  wf M -> getFunction M n = Some F -> empty F = true ->
  Forall (fun j => (next_id M <= iid j < next_id M + k)%nat /\ is_clean j = true)
         (flat_map insts B) ->
  NoDup (map iid (flat_map insts B)) ->
  wf (bump k (update_function n (set_blocks B) M)) /\
  evolves M (bump k (update_function n (set_blocks B) M)).
Proof.
  intros W HF HE HB HN.
  destruct (getFunction_split M n F W HF) as [Hn [a [b [Hf Hab]]]].
  pose proof W as [W1 W2 W3].
  destruct M as [fs nid]. simpl in *. subst fs.
  rewrite (update_function_split n _ a b F nid Hn Hab).
  unfold all_instrs in *. simpl in *.
  rewrite flat_map_app in *. simpl in *.
  rewrite (empty_instrs_of F HE) in *. simpl in *.
  split.
  - constructor; unfold all_instrs; simpl.
    + rewrite flat_map_app. simpl. rewrite !map_app.
      rewrite map_app in W1.
      apply NoDup_app_middle; [easy | easy|].
      intros z Hz C. rewrite <- map_app in C.
      apply in_map_iff in Hz. destruct Hz as [j [<- Hj]].
      apply in_map_iff in C. destruct C as [i [Hi Hin]].
      rewrite Forall_forall in HB, W2.
      specialize (HB j Hj). specialize (W2 i Hin). lia.
    + rewrite flat_map_app. simpl.
      rewrite Forall_app in W2. destruct W2 as [Wa Wb].
      rewrite !Forall_app. repeat split.
      * eapply Forall_impl; [|exact Wa]. simpl. intros; lia.
      * eapply Forall_impl; [|exact HB]. simpl. intros; lia.
      * eapply Forall_impl; [|exact Wb]. simpl. intros; lia.
    + rewrite map_app in *. simpl in *. exact W3.
  - split; [simpl; lia|]. simpl.
    apply fext_replace; [reflexivity|].
    rewrite (empty_instrs_of F HE), instrs_of_set_blocks.
    now apply ext_all_new.
Qed.

(** ** The lowerings keep the module well formed *)

Lemma sound_refl (M : module) : wf M -> sound_step M M.
Proof. intros W. split; [easy | apply evolves_refl]. Qed.

Lemma sound_trans (M M1 M2 : module) :
  sound_step M M1 -> sound_step M1 M2 -> sound_step M M2.
Proof.
  intros [W1 E1] [W2 E2]. split; [easy | now apply (evolves_trans M M1)].
Qed.

Lemma sound_update_instr (id : nat) (g : instr -> instr) (M : module) :
  (forall i, iid (g i) = iid i /\ md_kept i (g i)) -> wf M ->
  sound_step M (update_instr id g M).
Proof.
  intros H W. split.
  - apply wf_update_instr; [|easy]. intros i. apply H.
  - now apply evolves_update_instr.
Qed.

Lemma sound_setCalledFunction (id : nat) (F : string) (M : module) :
  wf M -> sound_step M (setCalledFunction id F M).
Proof.
  intros W. unfold setCalledFunction. apply sound_update_instr; [|easy].
  intros i. destruct (iop i); split; try reflexivity; now left.
Qed.

Lemma sound_getOrCreateFunction (r : ty) (ps : list ty) (n : string) (M : module) :
  wf M -> sound_step M (getOrCreateFunction r ps n M).
Proof.
  intros W. split;
    [now apply wf_getOrCreateFunction | apply evolves_getOrCreateFunction].
Qed.

Lemma sound_insert_new (pos : nat) (name : string) (t : ty) (o : opcode) (M : module) :
  wf M -> sound_step M (insert_new pos name t o M).
Proof. intros W. split; [now apply wf_insert_new | apply evolves_insert_new]. Qed.

Lemma sound_replaceAllUsesWith (old new : value) (M : module) :
  wf M -> sound_step M (replaceAllUsesWith old new M).
Proof.
  intros W. split;
    [now apply wf_replaceAllUsesWith | apply evolves_replaceAllUsesWith].
Qed.

Lemma sound_dropAllReferences (a : nat) (M : module) :
  wf M -> sound_step M (dropAllReferences a M).
Proof.
  intros W. split;
    [now apply wf_dropAllReferences | apply evolves_dropAllReferences].
Qed.

Ltac fresh_block :=
  repeat (constructor; simpl; try (split; [lia | reflexivity]));
  simpl; try lia; intuition lia.

Lemma sound_buildFunnelShiftLeftFunc (n : string) (M : module) :
  wf M -> sound_step M (buildFunnelShiftLeftFunc n M).
Proof.
  intros W. unfold buildFunnelShiftLeftFunc.
  destruct (getFunction M n) as [F|] eqn:E; [|now apply sound_refl].
  destruct (empty F) eqn:EF; simpl; [|now apply sound_refl].
  apply (set_body n _ 6 M F W E EF); simpl; fresh_block.
Qed.

Lemma sound_buildUMulWithOverflowFunc (n : string) (M : module) :
  wf M -> sound_step M (buildUMulWithOverflowFunc n M).
Proof.
  intros W. unfold buildUMulWithOverflowFunc.
  destruct (getFunction M n) as [F|] eqn:E; [|now apply sound_refl].
  destruct (empty F) eqn:EF; simpl; [|now apply sound_refl].
  apply (set_body n _ 6 M F W E EF); simpl; fresh_block.
Qed.

Lemma sound_lowerFunnelShiftLeft (id : nat) (M : module) :
  wf M -> sound_step M (lowerFunnelShiftLeft id M).
Proof.
  intros W. unfold lowerFunnelShiftLeft.
  destruct (get_instr M id) as [II|]; [|now apply sound_refl].
  destruct (getCalledFunction M II) as [IF|]; [|now apply sound_refl].
  eapply sound_trans; [apply sound_getOrCreateFunction; exact W|].
  eapply sound_trans; [apply sound_buildFunnelShiftLeftFunc|].
  - now apply wf_getOrCreateFunction.
  - apply sound_setCalledFunction.
    apply sound_buildFunnelShiftLeftFunc. now apply wf_getOrCreateFunction.
Qed.

Lemma sound_lowerUMulWithOverflow (id : nat) (M : module) :
  wf M -> sound_step M (lowerUMulWithOverflow id M).
Proof.
  intros W. unfold lowerUMulWithOverflow.
  destruct (get_instr M id) as [II|]; [|now apply sound_refl].
  destruct (getCalledFunction M II) as [IF|]; [|now apply sound_refl].
  eapply sound_trans; [apply sound_getOrCreateFunction; exact W|].
  eapply sound_trans; [apply sound_buildUMulWithOverflowFunc|].
  - now apply wf_getOrCreateFunction.
  - apply sound_setCalledFunction.
    apply sound_buildUMulWithOverflowFunc. now apply wf_getOrCreateFunction.
Qed.

Lemma getFunction_append_new (D : function) (n : string) (M : module) :
  fname D = n -> getFunction M n = None ->
  getFunction (append_function D M) n = Some D.
Proof.
  unfold getFunction, append_function. simpl. intros <- H.
  induction (funcs M) as [|G l IH]; simpl in *.
  - now rewrite String.eqb_refl.
  - destruct (String.eqb (fname G) (fname D)); [discriminate | auto].
Qed.

Lemma sound_lowerMemset (id : nat) (M : module) :
  wf M -> sound_step M (lowerMemset id M).
Proof.
  intros W. unfold lowerMemset.
  destruct (get_instr M id) as [II|]; [|now apply sound_refl].
  destruct (iop II) as [callee args t n| | | | | | | |]; try now apply sound_refl.
  destruct (getCalledFunction M II) as [IF|]; [|now apply sound_refl].
  destruct (isConstant _ && isConstantInt _); [now apply sound_refl|].
  set (FuncName := (_ ++ _)%string).
  destruct (getFunction M FuncName) as [F|] eqn:E.
  - now apply sound_setCalledFunction.
  - set (D := declaration FuncName (fret IF) (fparams IF)).
    assert (wf (append_function D M)) as W1 by now apply wf_append_declaration.
    eapply sound_trans.
    { split; [exact W1 | apply evolves_append_declaration]. }
    eapply sound_trans; [now apply sound_setCalledFunction|].
    set (M2 := setCalledFunction id FuncName (append_function D M)).
    assert (wf M2) as W2 by now apply sound_setCalledFunction.
    assert (getFunction M2 FuncName = Some (map_function
              (flat_map (fun i => [if Nat.eqb (iid i) id
                                   then match iop i with
                                        | Call _ args0 t0 n0 =>
                                            set_iop (Call (VFunc FuncName) args0 t0 n0) i
                                        | _ => i
                                        end
                                   else i])) D)) as G.
    { unfold M2, setCalledFunction, update_instr. rewrite getFunction_rewrite.
      now rewrite (getFunction_append_new D FuncName M eq_refl E). }
    apply (set_body FuncName _ 9 M2 _ W2 G); [reflexivity | |];
      unfold memset_loop; simpl; fresh_block.
Qed.

(** ** One visit *)

Lemma fext_In (n0 n1 : nat) (fs fs' : list function) (i' : instr) :
  fext n0 n1 fs fs' -> In i' (flat_map instrs_of fs') ->
  ((n0 <= iid i' < n1)%nat /\ is_clean i' = true) \/
  (exists i, In i (flat_map instrs_of fs) /\ iid i' = iid i /\ md_kept i i').
Proof.
  intros E. induction E as [news H|F F' l l' Hn HE E IH]; intros Hin.
  - left. apply in_flat_map in Hin. destruct Hin as [G [HG Hi]].
    rewrite Forall_forall in H. specialize (H G HG).
    apply ext_nil_inv in H. rewrite Forall_forall in H. now apply H.
  - simpl in Hin. apply in_app_or in Hin. destruct Hin as [Hin|Hin].
    + destruct (ext_In n0 n1 _ _ i' HE Hin) as [X|[i [X1 X2]]]; [now left|].
      right. exists i. split; [simpl; apply in_or_app; now left | easy].
    + destruct (IH Hin) as [X|[i [X1 X2]]]; [now left|].
      right. exists i. split; [simpl; apply in_or_app; now right | easy].
Qed.

Lemma evolves_descends (M M' : module) (i' : instr) :
  evolves M M' -> In i' (all_instrs M') -> descends M i'.
Proof.
  intros [_ E] H. destruct (fext_In _ _ _ _ i' E H) as [[X Y]|X].
  - left. split; [lia | easy].
  - now right.
Qed.

Lemma evolves_clean_at (id : nat) (M M' : module) :
  evolves M M' -> (id < next_id M)%nat -> clean_at id M -> clean_at id M'.
Proof.
  intros E Hid Hc i' Hi' Hid'.
  destruct (evolves_descends M M' i' E Hi') as [[X Y]|[i [X [Y Z]]]]; [easy|].
  apply (md_kept_clean i i' Z). apply Hc; [easy | congruence].
Qed.

Lemma clean_at_strip (id : nat) (M : module) :
  clean_at id (update_instr id strip_metadata M).
Proof.
  intros i Hi Hid. unfold update_instr in Hi. rewrite all_instrs_rewrite in Hi.
  apply in_flat_map in Hi. destruct Hi as [j [Hj [<-|[]]]].
  destruct (Nat.eqb (iid j) id) eqn:E.
  - apply (is_clean_of_stripped j). apply imd_strip_metadata.
  - apply Nat.eqb_neq in E. contradiction.
Qed.

Lemma sound_strip (id : nat) (M : module) :
  wf M -> sound_step M (update_instr id strip_metadata M).
Proof.
  intros W. apply sound_update_instr; [|easy].
  intros i. split; [apply iid_strip_metadata|]. right. apply imd_strip_metadata.
Qed.

Lemma sound_cmpxchg_users (Res : nat) (C : value) (T : ty) (us : list nat) :
  forall (M : module) (TE : list nat) (M' : module) (TE' : list nat),
    wf M -> cmpxchg_users Res C T us (M, TE) = Done (M', TE') -> sound_step M M'.
Proof.
  induction us as [|U us IH]; intros M TE M' TE' W H; simpl in H.
  - injection H as <- <-. now apply sound_refl.
  - destruct (option_map iop (get_instr M U)) as [o|]; [|now apply (IH M TE M' TE')].
    destruct o as [| | | |agg idxs| |v p| |]; try now apply (IH M TE M' TE').
    + destruct idxs as [|[|[|k]] idxs]; try discriminate.
      * destruct (negb _); [discriminate|].
        eapply sound_trans; [|eapply IH; [|exact H]].
        -- eapply sound_trans; [now apply sound_replaceAllUsesWith|].
           apply sound_dropAllReferences. now apply wf_replaceAllUsesWith.
        -- now apply wf_dropAllReferences, wf_replaceAllUsesWith.
      * destruct (negb _); [discriminate|].
        eapply sound_trans; [|eapply IH; [|exact H]].
        -- eapply sound_trans; [now apply sound_insert_new|].
           eapply sound_trans;
             [apply sound_replaceAllUsesWith; now apply wf_insert_new|].
           apply sound_dropAllReferences.
           now apply wf_replaceAllUsesWith, wf_insert_new.
        -- now apply wf_dropAllReferences, wf_replaceAllUsesWith, wf_insert_new.
    + injection H as <- <-.
      eapply sound_trans; [now apply sound_insert_new|].
      eapply sound_trans; [apply sound_insert_new; now apply wf_insert_new|].
      eapply sound_trans;
        [apply sound_insert_new; now apply wf_insert_new, wf_insert_new|].
      apply sound_replaceAllUsesWith. now repeat apply wf_insert_new.
Qed.

Lemma sound_visit_call (id : nat) (M : module) (II : instr)
    (callee : value) (args : list value) (nounwind : bool) :
  wf M ->
  sound_step M
    (let M' := update_instr id (set_iop (Call callee args false nounwind)) M in
     match getCalledFunction M II with
     | Some CF =>
         if isIntrinsic CF then
           let M'' := update_instr id (set_iop (Call callee args false false)) M' in
           if isMemSet CF then lowerMemset id M''
           else if isFshl CF then lowerFunnelShiftLeft id M''
           else if isUMulWithOverflow CF then lowerUMulWithOverflow id M''
           else M''
         else M'
     | None => M'
     end).
Proof.
  intros W. cbv zeta.
  assert (forall o N, wf N -> sound_step N (update_instr id (set_iop o) N)) as S.
  { intros o N WN. apply sound_update_instr; [|easy].
    intros i. split; [reflexivity | now left]. }
  pose proof (S (Call callee args false nounwind) M W) as S1.
  destruct (getCalledFunction M II) as [CF|]; [|exact S1].
  destruct (isIntrinsic CF); [|exact S1].
  pose proof (S (Call callee args false false) _ (proj1 S1)) as S2.
  assert (sound_step M (update_instr id (set_iop (Call callee args false false))
            (update_instr id (set_iop (Call callee args false nounwind)) M))) as S12
    by (eapply sound_trans; eauto).
  destruct (isMemSet CF).
  { eapply sound_trans; [exact S12 | apply sound_lowerMemset, S12]. }
  destruct (isFshl CF).
  { eapply sound_trans; [exact S12 | apply sound_lowerFunnelShiftLeft, S12]. }
  destruct (isUMulWithOverflow CF).
  { eapply sound_trans; [exact S12 | apply sound_lowerUMulWithOverflow, S12]. }
  exact S12.
Qed.

Lemma sound_visit (id : nat) (M : module) (TE : list nat) (M' : module) (TE' : list nat) :
  wf M -> visit id (M, TE) = Done (M', TE') ->
  sound_step M M' /\ clean_at id M'.
Proof.
  intros W H. unfold visit in H.
  destruct (get_instr M id) as [II|] eqn:E.
  2:{ injection H as <- <-. split; [now apply sound_refl|].
      intros i Hi Hid. unfold get_instr in E.
      pose proof (find_none _ _ E i Hi) as X. simpl in X.
      rewrite Hid, Nat.eqb_refl in X. discriminate. }
  pose proof (get_instr_lt M id II W E) as Hlt.
  set (M1 := match iop II with
             | Call _ _ _ _ => _
             | BinaryOperator _ _ _ _ _ => _
             | _ => M
             end) in H.
  assert (sound_step M M1) as S1.
  { unfold M1. destruct (iop II) as [callee args t n|op nuw ex a b| | | | | | |];
      try now apply sound_refl.
    - now apply sound_visit_call.
    - destruct (isPossiblyExact op && ex); [|now apply sound_refl].
      apply sound_update_instr; [|easy].
      intros i. split; [reflexivity | now left]. }
  assert (sound_step M1 (update_instr id strip_metadata M1)) as S2
    by (apply sound_strip, S1).
  assert (sound_step M (update_instr id strip_metadata M1)) as S12
    by (eapply sound_trans; eauto).
  assert (id < next_id (update_instr id strip_metadata M1))%nat as Hlt2.
  { destruct S12 as [_ [X _]]. lia. }
  pose proof (clean_at_strip id M1) as C2.
  destruct (iop II) as [| | |Ptr Cmp Val sc fl| | | | |];
    try (injection H as <- <-; split; assumption).
  set (M3 := addCallInstSPIRV _ _ _ _ _ _ _) in H.
  assert (sound_step (update_instr id strip_metadata M1) M3) as S3.
  { unfold M3, addCallInstSPIRV.
    eapply sound_trans; [apply sound_getOrCreateFunction, S2|].
    apply sound_insert_new. apply wf_getOrCreateFunction, S2. }
  destruct (cmpxchg_users _ _ _ _ _) as [msg| |[M4 TE4]] eqn:EU; try discriminate.
  assert (sound_step M3 M4) as S4
    by (eapply sound_cmpxchg_users; [apply S3 | exact EU]).
  assert (sound_step (update_instr id strip_metadata M1) M') as S24.
  { destruct (user_empty M4 (VInst id)); injection H as <- <-;
      eapply sound_trans; eauto. }
  split.
  - eapply sound_trans; eauto.
  - apply (evolves_clean_at id _ M' (proj2 S24) Hlt2 C2).
Qed.

(** ** The walk over the instructions of a function *)

Lemma fext_getFunction (n0 n1 : nat) (fs fs' : list function) (n : string) (F : function) :
  fext n0 n1 fs fs' ->
  find (fun f => String.eqb (fname f) n) fs = Some F ->
  exists F', find (fun f => String.eqb (fname f) n) fs' = Some F' /\
             ext n0 n1 (instrs_of F) (instrs_of F').
Proof.
  intros E. induction E as [news H|G G' l l' Hn HE E IH]; simpl; [discriminate|].
  rewrite Hn. destruct (String.eqb (fname G) n).
  - intros X. injection X as <-. now exists G'.
  - exact IH.
Qed.

Lemma evolves_getFunction (M M' : module) (n : string) (F : function) :
  evolves M M' -> getFunction M n = Some F ->
  exists F', getFunction M' n = Some F' /\
             ext (next_id M) (next_id M') (instrs_of F) (instrs_of F').
Proof. intros [_ E] H. now apply (fext_getFunction _ _ (funcs M)). Qed.

Lemma getFunction_In (M : module) (n : string) (F : function) :
  getFunction M n = Some F -> In F (funcs M).
Proof. unfold getFunction. intros H. now apply find_some in H. Qed.

Lemma instrs_of_incl (M : module) (F : function) (i : instr) :
  In F (funcs M) -> In i (instrs_of F) -> In i (all_instrs M).
Proof. intros HF Hi. unfold all_instrs. apply in_flat_map. now exists F. Qed.

Lemma NoDup_app_l {A} (x y : list A) : NoDup (x ++ y) -> NoDup x.
Proof.
  induction x as [|a x IH]; simpl; [constructor|].
  intros H. inversion H as [|? ? Ha Hx]; subst. constructor; [|auto].
  intros C. apply Ha. apply in_or_app. now left.
Qed.

Lemma NoDup_app_r {A} (x y : list A) : NoDup (x ++ y) -> NoDup y.
Proof.
  induction x as [|a x IH]; simpl; [easy|].
  intros H. inversion H; subst. auto.
Qed.

Lemma NoDup_instrs_of (M : module) (F : function) :
  wf M -> In F (funcs M) -> NoDup (map iid (instrs_of F)).
Proof.
  intros [W _ _] H. unfold all_instrs in W.
  apply in_split in H. destruct H as [a [b Hs]]. rewrite Hs in W.
  rewrite flat_map_app in W. simpl in W. rewrite !map_app in W.
  apply NoDup_app_r in W. now apply NoDup_app_l in W.
Qed.

Lemma next_after_app (pre post : list nat) (id : nat) :
  ~ In id pre -> next_after Nat.eqb id (pre ++ id :: post) = hd_error post.
Proof.
  induction pre as [|x pre IH]; simpl; intros H.
  - now rewrite Nat.eqb_refl.
  - replace (Nat.eqb x id) with false.
    + apply IH. intros C. apply H. now right.
    + symmetry. apply Nat.eqb_neq. intros ->. apply H. now left.
Qed.

Lemma walk_insts_step (fuel : nat) (Fn : string) (id : nat) (st : module * list nat) :
  walk_insts (S fuel) Fn (Some id) st =
  match visit id st with
  | Done st' => walk_insts fuel Fn (next_after Nat.eqb id (inst_ids (fst st') Fn)) st'
  | r => r
  end.
Proof. reflexivity. Qed.

Lemma walk_insts_sound (fuel : nat) (Fn : string) :
  forall (cur : option nat) (M : module) (TE : list nat) (M1 : module)
         (TE1 : list nat) (F : function) (pre post : list instr),
    wf M -> getFunction M Fn = Some F -> instrs_of F = pre ++ post ->
    Forall (fun i => is_clean i = true) pre ->
    hd_error (map iid post) = cur ->
    walk_insts fuel Fn cur (M, TE) = Done (M1, TE1) ->
    sound_step M M1 /\ exists F1, getFunction M1 Fn = Some F1 /\ all_clean F1.
Proof.
  induction fuel as [|fuel IH]; intros cur M TE M1 TE1 F pre post W HF Hl Hpre Hcur H.
  - destruct cur as [id|]; simpl in H; [discriminate|].
    injection H as <- <-. split; [now apply sound_refl|].
    exists F. split; [easy|]. unfold all_clean. rewrite Hl.
    destruct post; [|discriminate]. now rewrite app_nil_r.
  - destruct cur as [id|].
    2:{ simpl in H. injection H as <- <-. split; [now apply sound_refl|].
        exists F. split; [easy|]. unfold all_clean. rewrite Hl.
        destruct post; [|discriminate]. now rewrite app_nil_r. }
    destruct post as [|c post]; [discriminate|]. simpl in Hcur.
    injection Hcur as Hid. rewrite walk_insts_step in H.
    destruct (visit id (M, TE)) as [msg| |[M' TE']] eqn:EV; try discriminate.
    destruct (sound_visit id M TE M' TE' W EV) as [S C].
    destruct (evolves_getFunction M M' Fn F (proj2 S) HF) as [F' [HF' E]].
    rewrite Hl in E.
    destruct (ext_split _ _ pre post c _ E)
      as (pre' & c' & post' & Hl' & E1 & Hc1 & Hc2 & E2).
    pose proof (getFunction_In M' Fn F' HF') as HIn.
    pose proof (NoDup_instrs_of M' F' (proj1 S) HIn) as ND.
    rewrite Hl', map_app in ND. simpl in ND.
    assert (~ In id (map iid pre')) as Hnot.
    { intros X. apply NoDup_remove_2 in ND. apply ND.
      apply in_or_app. left. now rewrite Hc1, Hid. }
    simpl in H. unfold inst_ids in H. rewrite HF', Hl', map_app in H. simpl in H.
    rewrite Hc1, Hid, (next_after_app _ _ id Hnot) in H.
    assert (is_clean c' = true) as Cc.
    { apply C; [|congruence]. apply (instrs_of_incl M' F'); [easy|].
      rewrite Hl'. apply in_or_app. right. now left. }
    destruct (IH (hd_error (map iid post')) M' TE' M1 TE1 F' (pre' ++ [c']) post'
                 (proj1 S) HF') as [S' X]; auto.
    + now rewrite <- app_assoc.
    + apply Forall_app. split; [|now constructor].
      eapply ext_clean; eauto.
    + split; [|exact X]. now apply (sound_trans M M').
Qed.

(** ** One turn of the loop over the functions *)

Lemma fext_fstep_lists (n0 n1 : nat) (fs fs' : list function) :
  fext n0 n1 fs fs' ->
  exists olds news,
    fs' = olds ++ news /\
    Forall2 (fun F F' => fname F' = fname F /\ (all_clean F -> all_clean F')) fs olds /\
    Forall all_clean news.
Proof.
  intros E. induction E as [news H|F F' l l' Hn HE E IH].
  - exists [], news. split; [reflexivity|]. split; [constructor|].
    eapply Forall_impl; [|exact H]. intros G HG. unfold all_clean.
    apply ext_nil_inv in HG. eapply Forall_impl; [|exact HG]. now intros j [_ Hj].
  - destruct IH as (olds & news & -> & H1 & H2).
    exists (F' :: olds), news. split; [reflexivity|]. split; [|easy].
    constructor; [|easy]. split; [easy|]. intros HF. eapply ext_clean; eauto.
Qed.

Lemma evolves_fstep (M M1 : module) : evolves M M1 -> fstep M M1.
Proof.
  intros E. split; [apply E|]. split.
  - intros i' Hi'. now apply (evolves_descends M M1).
  - destruct E as [_ E]. now apply (fext_fstep_lists _ _ _ _ E).
Qed.

Lemma all_clean_filter (keep : instr -> bool) (F : function) :
  all_clean F -> all_clean (map_function (filter keep) F).
Proof.
  unfold all_clean. intros H.
  assert (instrs_of (map_function (filter keep) F) = filter keep (instrs_of F)) as E.
  { unfold instrs_of, map_function. simpl.
    induction (blocks F) as [|b l IH]; simpl; [easy|].
    now rewrite filter_app, IH. }
  rewrite E. rewrite Forall_forall in *. intros i Hi.
  apply filter_In in Hi. now apply H.
Qed.

Lemma eraseFromParent_filter (V : nat) (M : module) :
  eraseFromParent V M =
  mkModule (map (map_function (filter (fun i => negb (Nat.eqb (iid i) V)))) (funcs M))
           (next_id M).
Proof.
  unfold eraseFromParent, rewrite_instrs, map_module. f_equal.
  apply map_ext. intros F. unfold map_function. f_equal.
  apply map_ext. intros b. unfold map_block. f_equal. apply erase_as_filter.
Qed.

Lemma fstep_eraseFromParent (V : nat) (M M1 : module) :
  fstep M M1 -> fstep M (eraseFromParent V M1).
Proof.
  intros (Hn & Hd & olds & news & Hf & H2 & Hnews).
  split; [exact Hn|]. split.
  - intros i' Hi'. apply Hd. unfold eraseFromParent in Hi'.
    rewrite all_instrs_rewrite, erase_as_filter in Hi'.
    apply filter_In in Hi'. tauto.
  - rewrite eraseFromParent_filter. simpl. rewrite Hf, map_app.
    eexists. eexists. split; [reflexivity|]. split.
    + clear Hf. induction H2 as [|F F' l l' [Ha Hb] H2 IH]; simpl; constructor; auto.
      split; [easy|]. intros HF. apply all_clean_filter. auto.
    + clear Hf. induction Hnews; simpl; constructor; auto.
      now apply all_clean_filter.
Qed.

Lemma erase_all_fstep (TE : list nat) :
  forall (M M1 M2 : module),
    wf M1 -> fstep M M1 -> erase_all TE M1 = Done M2 -> wf M2 /\ fstep M M2.
Proof.
  induction TE as [|V TE IH]; intros M M1 M2 W S H; simpl in H.
  - injection H as <-. now split.
  - destruct (user_empty M1 (VInst V)); [|discriminate].
    apply (IH M (eraseFromParent V M1)); auto.
    + now apply wf_eraseFromParent.
    + now apply fstep_eraseFromParent.
Qed.

Lemma erase_all_names (TE : list nat) :
  forall (M1 M2 : module),
    erase_all TE M1 = Done M2 -> map fname (funcs M2) = map fname (funcs M1).
Proof.
  induction TE as [|V TE IH]; intros M1 M2 H; simpl in H.
  - now injection H as <-.
  - destruct (user_empty M1 (VInst V)); [|discriminate].
    rewrite (IH _ _ H). unfold eraseFromParent. apply names_rewrite.
Qed.


(** ** The loop over the functions *)

Lemma next_after_names (pre post : list string) (n : string) :
  ~ In n pre -> next_after String.eqb n (pre ++ n :: post) = hd_error post.
Proof.
  induction pre as [|x pre IH]; simpl; intros H.
  - now rewrite String.eqb_refl.
  - replace (String.eqb x n) with false.
    + apply IH. intros C. apply H. now right.
    + symmetry. apply String.eqb_neq. intros ->. apply H. now left.
Qed.

Lemma find_skip (n : string) (done : list function) (rest : list function) :
  ~ In n (map fname done) ->
  find (fun f => String.eqb (fname f) n) (done ++ rest) =
  find (fun f => String.eqb (fname f) n) rest.
Proof.
  induction done as [|G done IH]; simpl; intros H; [easy|].
  replace (String.eqb (fname G) n) with false.
  - apply IH. intros C. apply H. now right.
  - symmetry. apply String.eqb_neq. intros E. apply H. now left.
Qed.

Lemma cursor_found (M : module) (done todo : list function) (F : function) :
  wf M -> funcs M = done ++ F :: todo ->
  ~ In (fname F) (map fname done) /\ ~ In (fname F) (map fname todo) /\
  getFunction M (fname F) = Some F /\
  next_after String.eqb (fname F) (map fname (funcs M)) = hd_error (map fname todo).
Proof.
  intros [_ _ W] Hf. rewrite Hf, map_app in W. simpl in W.
  pose proof (NoDup_remove_2 _ _ _ W) as X.
  assert (~ In (fname F) (map fname done)) as X1
    by (intros C; apply X; apply in_or_app; now left).
  assert (~ In (fname F) (map fname todo)) as X2
    by (intros C; apply X; apply in_or_app; now right).
  repeat split; auto.
  - unfold getFunction. rewrite Hf, find_skip by easy. simpl.
    now rewrite String.eqb_refl.
  - rewrite Hf, map_app. simpl. now apply next_after_names.
Qed.

Lemma filter_names_out (n : string) (l : list function) :
  ~ In n (map fname l) ->
  filter (fun f => negb (String.eqb (fname f) n)) l = l.
Proof.
  induction l as [|G l IH]; simpl; intros H; [easy|].
  replace (String.eqb (fname G) n) with false.
  - simpl. f_equal. apply IH. intros C. apply H. now right.
  - symmetry. apply String.eqb_neq. intros E. apply H. now left.
Qed.

Lemma erase_function_cursor (M : module) (done todo : list function) (F : function) :
  wf M -> funcs M = done ++ F :: todo ->
  funcs (erase_function (fname F) M) = done ++ todo.
Proof.
  intros W Hf. destruct (cursor_found M done todo F W Hf) as (X1 & X2 & _).
  unfold erase_function. simpl. rewrite Hf, filter_app. simpl.
  rewrite String.eqb_refl. simpl. now rewrite !filter_names_out.
Qed.

Lemma all_instrs_erase_declaration (M : module) (done todo : list function) (F : function) :
  wf M -> funcs M = done ++ F :: todo -> isDeclaration F = true ->
  all_instrs (erase_function (fname F) M) = all_instrs M.
Proof.
  intros W Hf HD. unfold all_instrs.
  rewrite (erase_function_cursor M done todo F W Hf), Hf, !flat_map_app. simpl.
  now rewrite (empty_instrs_of F HD).
Qed.

Lemma wf_erase_declaration (M : module) (done todo : list function) (F : function) :
  wf M -> funcs M = done ++ F :: todo -> isDeclaration F = true ->
  wf (erase_function (fname F) M).
Proof.
  intros W Hf HD. pose proof W as [W1 W2 W3]. constructor.
  - now rewrite (all_instrs_erase_declaration M done todo F).
  - now rewrite (all_instrs_erase_declaration M done todo F).
  - rewrite (erase_function_cursor M done todo F W Hf).
    rewrite Hf, map_app in W3. simpl in W3. apply NoDup_remove_1 in W3.
    now rewrite map_app.
Qed.

Lemma descends_refl (M : module) (i : instr) : In i (all_instrs M) -> descends M i.
Proof. intros H. right. exists i. split; [easy|]. split; [easy | apply md_kept_refl]. Qed.

Lemma descends_trans (M M1 : module) (i2 : instr) :
  (next_id M <= next_id M1)%nat ->
  (forall i1, In i1 (all_instrs M1) -> descends M i1) ->
  descends M1 i2 -> descends M i2.
Proof.
  intros Hn H1 [[X Y]|[i1 [X [Y Z]]]].
  - left. split; [lia | easy].
  - destruct (H1 i1 X) as [[A B]|[i [A [B C]]]].
    + left. split; [lia|]. now apply (md_kept_clean i1).
    + right. exists i. split; [easy|]. split; [congruence|].
      now apply (md_kept_trans i i1).
Qed.


Lemma walk_functions_step (fuel : nat) (Fn : string) (M : module) :
  walk_functions (S fuel) (Some Fn) M =
  match getFunction M Fn with
  | None => Done M
  | Some F =>
      if isDeclaration F && func_use_empty M Fn
      then walk_functions fuel (next_after String.eqb Fn (map fname (funcs M)))
                          (erase_function Fn M)
      else
        match walk_insts (S fuel) Fn (hd_error (map iid (instrs_of F))) (M, []) with
        | Done (M1, ToErase) =>
            match erase_all ToErase M1 with
            | Done M2 =>
                walk_functions fuel
                  (next_after String.eqb Fn (map fname (funcs M))) M2
            | r => r
            end
        | Abort msg => Abort msg
        | OutOfFuel => OutOfFuel
        end
  end.
Proof. reflexivity. Qed.



(** ** The whole pass *)

Lemma iid_lowerFuncPtr_call (N : module) (F : function) (Name : string) (i : instr) :
  iid (lowerFuncPtr_call N F Name i) = iid i /\
  md_kept i (lowerFuncPtr_call N F Name i).
Proof.
  unfold lowerFuncPtr_call.
  destruct (iop i) as [[| | | | |callee| |] args t n| | | | | | | |];
    try (split; [reflexivity | now left]).
  destruct (String.eqb callee (fname F)); split; try reflexivity; now left.
Qed.

Lemma all_instrs_eraseIfNoUse (V : nat) (M : module) (i : instr) :
  In i (all_instrs (eraseIfNoUse V M)) -> In i (all_instrs M).
Proof.
  unfold eraseIfNoUse. destruct (user_empty M (VInst V)); [|easy].
  unfold eraseFromParent. rewrite all_instrs_rewrite, erase_as_filter.
  intros H. apply filter_In in H. tauto.
Qed.

Lemma wf_eraseIfNoUse (V : nat) (M : module) : wf M -> wf (eraseIfNoUse V M).
Proof.
  intros W. unfold eraseIfNoUse. destruct (user_empty M (VInst V)); [|easy].
  now apply wf_eraseFromParent.
Qed.

Lemma next_id_eraseIfNoUse (V : nat) (M : module) :
  next_id (eraseIfNoUse V M) = next_id M.
Proof. unfold eraseIfNoUse. now destruct (user_empty M (VInst V)). Qed.

Lemma erase_candidates_subset (Cs : list nat) :
  forall M : module,
    wf M ->
    wf (fold_left (fun M' I => eraseIfNoUse I M') Cs M) /\
    next_id (fold_left (fun M' I => eraseIfNoUse I M') Cs M) = next_id M /\
    (forall i, In i (all_instrs (fold_left (fun M' I => eraseIfNoUse I M') Cs M)) ->
               In i (all_instrs M)).
Proof.
  induction Cs as [|V Cs IH]; intros M W; simpl; [auto|].
  destruct (IH (eraseIfNoUse V M) (wf_eraseIfNoUse V M W)) as (A & B & C).
  split; [exact A|]. split; [now rewrite B, next_id_eraseIfNoUse|].
  intros i Hi. apply (all_instrs_eraseIfNoUse V), C, Hi.
Qed.

(** The normalization of the calls of one builtin keeps the module well
    formed, and every instruction it leaves descends from one the module
    had. *)
Lemma descent_lowerFuncPtr_F (F : function) (OC : string) (M : module) :
  wf M ->
  wf (lowerFuncPtr_F F OC M) /\
  (next_id M <= next_id (lowerFuncPtr_F F OC M))%nat /\
  (forall i', In i' (all_instrs (lowerFuncPtr_F F OC M)) -> descends M i').
Proof.
  intros W. unfold lowerFuncPtr_F. cbv zeta.
  set (M1 := getOrCreateFunction (fret F) (fparams F) (decorateSPIRVFunction OC) M).
  set (M2 := rewrite_instrs (fun i => [lowerFuncPtr_call M1 F (decorateSPIRVFunction OC) i]) M1).
  assert (sound_step M M2) as [W2 E2].
  { eapply sound_trans; [now apply sound_getOrCreateFunction|]. split.
    - apply wf_rewrite_single; [|now apply wf_getOrCreateFunction].
      intros i. apply iid_lowerFuncPtr_call.
    - apply evolves_rewrite_single. intros i. apply iid_lowerFuncPtr_call. }
  destruct (erase_candidates_subset (InvokeFuncPtrs F M1) M2 W2) as (A & B & C).
  split; [exact A|]. split; [rewrite B; apply E2|].
  intros i' Hi'. apply (evolves_descends M M2 i' E2), C, Hi'.
Qed.

Lemma descent_lowerFuncPtr (M : module) :
  wf M ->
  wf (lowerFuncPtr M) /\
  (next_id M <= next_id (lowerFuncPtr M))%nat /\
  (forall i', In i' (all_instrs (lowerFuncPtr M)) -> descends M i').
Proof.
  intros W. unfold lowerFuncPtr. generalize (flat_map
    (fun F => if hasFunctionPointerArg F
              then match getSPIRVFuncOC (fname F) with
                   | Some OC => [(F, OC)]
                   | None => []
                   end
              else []) (funcs M)).
  intros Work. revert M W.
  induction Work as [|[F OC] Work IH]; intros M W; simpl.
  - split; [exact W|]. split; [lia|]. intros i' Hi'. now apply descends_refl.
  - destruct (descent_lowerFuncPtr_F F OC M W) as (W1 & N1 & D1).
    destruct (IH _ W1) as (W2 & N2 & D2).
    split; [exact W2|]. split; [lia|]. intros i' Hi'.
    apply (descends_trans M (lowerFuncPtr_F F OC M)); auto.
Qed.

Lemma all_instrs_filter_declarations (keep : function -> bool) (fs : list function) :
  (forall F, keep F = false -> isDeclaration F = true) ->
  flat_map instrs_of (filter keep fs) = flat_map instrs_of fs.
Proof.
  intros H. induction fs as [|F fs IH]; simpl; [easy|].
  destruct (keep F) eqn:E; simpl; rewrite IH; [easy|].
  now rewrite (empty_instrs_of F (H F E)).
Qed.

Lemma all_instrs_eraseUselessFunctions (M : module) :
  all_instrs (eraseUselessFunctions M) = all_instrs M.
Proof.
  unfold all_instrs, eraseUselessFunctions. simpl.
  apply all_instrs_filter_declarations. intros F H.
  apply negb_false_iff in H. apply andb_prop in H. tauto.
Qed.

Lemma NoDup_names_filter (keep : function -> bool) (fs : list function) :
  NoDup (map fname fs) -> NoDup (map fname (filter keep fs)).
Proof.
  intros H. induction fs as [|F fs IH]; simpl in *; [constructor|].
  inversion H as [|? ? HF Hfs]; subst.
  destruct (keep F); simpl; [|auto].
  constructor; [|auto]. intros C. apply HF.
  apply in_map_iff in C. destruct C as [G [HG Hin]]. apply filter_In in Hin.
  apply in_map_iff. exists G. tauto.
Qed.

Lemma wf_eraseUselessFunctions (M : module) : wf M -> wf (eraseUselessFunctions M).
Proof.
  intros [W1 W2 W3]. constructor.
  - now rewrite all_instrs_eraseUselessFunctions.
  - now rewrite all_instrs_eraseUselessFunctions.
  - apply NoDup_names_filter, W3.
Qed.



Lemma NoDup_ids_eq (l : list instr) (i j : instr) :
  NoDup (map iid l) -> In i l -> In j l -> iid i = iid j -> i = j.
Proof.
  induction l as [|x l IH]; simpl; [easy|].
  intros H Hi Hj E. inversion H as [|? ? Hx Hl]; subst.
  destruct Hi as [<-|Hi], Hj as [<-|Hj]; auto.
  - exfalso. apply Hx. rewrite E. now apply in_map.
  - exfalso. apply Hx. rewrite <- E. now apply in_map.
Qed.



(** C10 (counterexample): in [calls_fshl] the declaration of the intrinsic is
    used when the walk reaches it and loses its only use afterwards, when the
    call is redirected; when the pass completes it is still in the module,
    a bodiless declaration with an empty use-list. *)
Lemma unused_declaration_left :
  func_use_empty calls_fshl "llvm.fshl.i8" = false /\
  result_map (fun M => (option_map isDeclaration (getFunction M "llvm.fshl.i8"),
                        func_use_empty M "llvm.fshl.i8"))
             (regularize 10 calls_fshl) = Done (Some true, true).
Proof. split; vm_compute; reflexivity. Qed.

(** * Dead declarations *)

Lemma decl_unused_idle (D : string) (M : module) :
  decl_unused D M = true <-> idle D M.
Proof.
  unfold decl_unused, idle, func_use_empty, quiet.
  rewrite andb_true_iff, !forallb_forall. split.
  - intros [H1 H2]. split.
    + intros F HF Hn. specialize (H1 F HF). rewrite Hn, String.eqb_refl in H1.
      exact H1.
    + intros i Hi v Hv. specialize (H2 i Hi). apply negb_true_iff in H2.
      destruct (mentions_func D v) eqn:E; [|easy].
      assert (existsb (mentions_func D) (operands (iop i)) = true) as X
        by (apply existsb_exists; now exists v).
      congruence.
  - intros [H1 H2]. split.
    + intros F HF. destruct (String.eqb (fname F) D) eqn:E; [|easy].
      apply String.eqb_eq in E. simpl. now apply H1.
    + intros i Hi. apply negb_true_iff.
      destruct (existsb _ _) eqn:E; [|easy].
      apply existsb_exists in E. destruct E as [v [Hv Ev]].
      rewrite (H2 i Hi v Hv) in Ev. discriminate.
Qed.

Lemma names_ok_refl (M : module) : names_ok M M.
Proof. intros n Hn. now left. Qed.

Lemma names_ok_trans (M M1 M2 : module) :
  names_ok M M1 -> names_ok M1 M2 -> names_ok M M2.
Proof.
  intros H1 H2 n Hn. destruct (H2 n Hn) as [X|X]; [now apply H1 | now right].
Qed.

Lemma names_ok_same (M M' : module) :
  map fname (funcs M') = map fname (funcs M) -> names_ok M M'.
Proof. intros E n Hn. left. now rewrite <- E. Qed.

Lemma isDeclaration_map_function (g : list instr -> list instr) (F : function) :
  isDeclaration (map_function g F) = isDeclaration F.
Proof. unfold isDeclaration, map_function. simpl. now destruct (blocks F). Qed.

Lemma idle_rewrite (D : string) (h : instr -> list instr) (M : module) :
  (forall i, In i (all_instrs M) -> quiet D i -> forall j, In j (h i) -> quiet D j) ->
  idle D M -> idle D (rewrite_instrs h M).
Proof.
  intros H [I1 I2]. split.
  - intros F HF Hn. unfold rewrite_instrs, map_module in HF. simpl in HF.
    apply in_map_iff in HF. destruct HF as [F0 [<- HF0]].
    rewrite isDeclaration_map_function. now apply I1.
  - intros j Hj. rewrite all_instrs_rewrite in Hj. apply in_flat_map in Hj.
    destruct Hj as [i [Hi Hj]]. apply (H i Hi (I2 i Hi) j Hj).
Qed.

Lemma idle_update_instr (D : string) (id : nat) (g : instr -> instr) (M : module) :
  (forall i, In i (all_instrs M) -> quiet D i -> quiet D (g i)) ->
  idle D M -> idle D (update_instr id g M).
Proof.
  intros H. apply idle_rewrite. intros i Hi Hq j [<-|[]].
  destruct (Nat.eqb (iid i) id); auto.
Qed.

Lemma idle_same_operands (D : string) (id : nat) (g : instr -> instr) (M : module) :
  (forall i, operands (iop (g i)) = operands (iop i)) ->
  idle D M -> idle D (update_instr id g M).
Proof.
  intros H. apply idle_update_instr. intros i _ Hq v Hv. rewrite H in Hv. now apply Hq.
Qed.

Lemma idle_insert_new (D : string) (pos : nat) (name : string) (t : ty) (o : opcode)
    (M : module) :
  (forall v, In v (operands o) -> mentions_func D v = false) ->
  idle D M -> idle D (insert_new pos name t o M).
Proof.
  intros H I. unfold insert_new, insert_before.
  assert (idle D (rewrite_instrs
            (fun i => if Nat.eqb (iid i) pos
                      then [new_inst (next_id M) name t o; i] else [i]) M)) as X.
  { apply idle_rewrite; [|exact I]. intros i Hi Hq j Hj.
    destruct (Nat.eqb (iid i) pos); simpl in Hj.
    - destruct Hj as [<-|[<-|[]]]; [exact H | exact Hq].
    - destruct Hj as [<-|[]]. exact Hq. }
  exact X.
Qed.

Lemma mentions_subst (D : string) (old : value) (x : nat) (v : value) :
  mentions_func D v = false -> mentions_func D (subst_value old (VInst x) v) = false.
Proof. intros H. unfold subst_value. now destruct (value_eqb v old). Qed.

Lemma idle_replaceAllUsesWith (D : string) (old : value) (x : nat) (M : module) :
  idle D M -> idle D (replaceAllUsesWith old (VInst x) M).
Proof.
  unfold replaceAllUsesWith. apply idle_rewrite. intros i Hi Hq j [<-|[]] v Hv.
  simpl in Hv. rewrite operands_map_operands in Hv. apply in_map_iff in Hv.
  destruct Hv as [w [<- Hw]]. apply mentions_subst. now apply Hq.
Qed.

Lemma idle_dropAllReferences (D : string) (a : nat) (M : module) :
  idle D M -> idle D (dropAllReferences a M).
Proof.
  unfold dropAllReferences. apply idle_update_instr. intros i Hi Hq v Hv.
  simpl in Hv. rewrite operands_map_operands in Hv. apply in_map_iff in Hv.
  now destruct Hv as [w [<- Hw]].
Qed.

Lemma idle_append_declaration (D n : string) (r : ty) (ps : list ty) (M : module) :
  idle D M -> idle D (append_function (declaration n r ps) M).
Proof.
  intros [I1 I2]. split.
  - intros F HF Hn. simpl in HF. apply in_app_or in HF.
    destruct HF as [HF|[<-|[]]]; [now apply I1 | reflexivity].
  - intros i Hi. rewrite all_instrs_append_function, app_nil_r in Hi. now apply I2.
Qed.

Lemma idle_getOrCreateFunction (D n : string) (r : ty) (ps : list ty) (M : module) :
  idle D M -> idle D (getOrCreateFunction r ps n M).
Proof.
  intros I. unfold getOrCreateFunction. destruct (getFunction M n); [easy|].
  now apply idle_append_declaration.
Qed.

Lemma names_ok_getOrCreateFunction (n : string) (r : ty) (ps : list ty) (M : module) :
  not_derived n = false -> names_ok M (getOrCreateFunction r ps n M).
Proof.
  intros H. unfold getOrCreateFunction. destruct (getFunction M n);
    [apply names_ok_refl|].
  intros m Hm. simpl in Hm. rewrite map_app in Hm. apply in_app_or in Hm.
  destruct Hm as [Hm|[<-|[]]]; [now left | now right].
Qed.

Lemma idle_set_body (D n : string) (B : list block) (k : nat) (M : module) :
  n <> D -> (forall j, In j (flat_map insts B) -> quiet D j) ->
  idle D M -> idle D (bump k (update_function n (set_blocks B) M)).
Proof.
  intros Hn HB [I1 I2]. split.
  - intros F HF HD. simpl in HF. apply in_map_iff in HF.
    destruct HF as [F0 [HF0 Hin]].
    destruct (String.eqb (fname F0) n) eqn:E.
    + apply String.eqb_eq in E. subst F. simpl in HD. congruence.
    + subst F. now apply I1.
  - intros i Hi. unfold all_instrs in Hi. simpl in Hi.
    apply in_flat_map in Hi. destruct Hi as [F [HF Hi]].
    apply in_map_iff in HF. destruct HF as [F0 [HF0 Hin]].
    destruct (String.eqb (fname F0) n).
    + subst F. now apply HB.
    + subst F. apply I2. unfold all_instrs. apply in_flat_map. now exists F0.
Qed.

Lemma names_update_function (n : string) (g : function -> function) (M : module) :
  (forall F, fname (g F) = fname F) ->
  map fname (funcs (update_function n g M)) = map fname (funcs M).
Proof.
  intros H. unfold update_function. simpl. rewrite map_map. apply map_ext.
  intros F. destruct (String.eqb (fname F) n); [apply H | reflexivity].
Qed.

Lemma prefix_self_app (p s : string) : prefix p (p ++ s)%string = true.
Proof.
  induction p as [|a p IH]; simpl; [now destruct s|].
  destruct (ascii_dec a a); [exact IH | congruence].
Qed.

Lemma spirv_name_derived (s : string) : not_derived ("spirv." ++ s)%string = false.
Proof. unfold not_derived. now rewrite prefix_self_app. Qed.

Lemma not_derived_neq (D n : string) :
  not_derived D = true -> not_derived n = false -> n <> D.
Proof. intros H1 H2 ->. congruence. Qed.

Lemma intrinsic_name_derived (M : module) (II : instr) (CF : function) (suffix : string) :
  getCalledFunction M II = Some CF ->
  not_derived (lowerLLVMIntrinsicName M II ++ suffix)%string = false.
Proof.
  intros H. unfold lowerLLVMIntrinsicName. rewrite H.
  change (("spirv." ++ ?x) ++ suffix)%string with ("spirv." ++ (x ++ suffix))%string.
  apply spirv_name_derived.
Qed.

Lemma string_app_nil (s : string) : (s ++ "")%string = s.
Proof. induction s; simpl; [easy | now rewrite IHs]. Qed.

Lemma calm_refl (D : string) (M : module) : idle D M -> calm D M M.
Proof. intros I. split; [easy | apply names_ok_refl]. Qed.

Lemma calm_trans (D : string) (M M1 M2 : module) :
  calm D M M1 -> calm D M1 M2 -> calm D M M2.
Proof.
  intros [_ N1] [I2 N2]. split; [easy | now apply (names_ok_trans M M1)].
Qed.

Lemma calm_update_instr (D : string) (id : nat) (g : instr -> instr) (M : module) :
  (forall i, In i (all_instrs M) -> quiet D i -> quiet D (g i)) ->
  idle D M -> calm D M (update_instr id g M).
Proof.
  intros H I. split; [now apply idle_update_instr|].
  apply names_ok_same. apply names_rewrite.
Qed.

Lemma calm_setCalledFunction (D : string) (id : nat) (F : string) (M : module) :
  F <> D -> idle D M -> calm D M (setCalledFunction id F M).
Proof.
  intros HF I. unfold setCalledFunction. apply calm_update_instr; [|easy].
  intros i Hi Hq. destruct (iop i) as [callee args t n| | | | | | | |] eqn:E;
    try exact Hq.
  intros v Hv. simpl in Hv. apply in_app_or in Hv. destruct Hv as [Hv|[<-|[]]].
  - apply Hq. rewrite E. simpl. apply in_or_app. now left.
  - simpl. now apply String.eqb_neq.
Qed.

Lemma calm_getOrCreateFunction (D n : string) (r : ty) (ps : list ty) (M : module) :
  not_derived n = false -> idle D M -> calm D M (getOrCreateFunction r ps n M).
Proof.
  intros H I. split;
    [now apply idle_getOrCreateFunction | now apply names_ok_getOrCreateFunction].
Qed.

Lemma calm_set_body (D n : string) (B : list block) (k : nat) (M : module) :
  n <> D -> (forall j, In j (flat_map insts B) -> quiet D j) ->
  idle D M -> calm D M (bump k (update_function n (set_blocks B) M)).
Proof.
  intros Hn HB I. split; [now apply idle_set_body|].
  apply names_ok_same. change (funcs (bump k ?X)) with (funcs X).
  now apply names_update_function.
Qed.

Ltac quiet_block :=
  intros j Hj v Hv; simpl in Hj;
  repeat (destruct Hj as [<-|Hj]; [simpl in Hv; intuition (subst; reflexivity)|]);
  destruct Hj.

Lemma calm_buildFunnelShiftLeftFunc (D n : string) (M : module) :
  n <> D -> idle D M -> calm D M (buildFunnelShiftLeftFunc n M).
Proof.
  intros Hn I. unfold buildFunnelShiftLeftFunc.
  destruct (getFunction M n) as [F|]; [|now apply calm_refl].
  destruct (negb (empty F)); [now apply calm_refl|].
  apply calm_set_body; [easy | | easy].
  destruct (fret F); quiet_block.
Qed.

Lemma calm_buildUMulWithOverflowFunc (D n : string) (M : module) :
  n <> D -> idle D M -> calm D M (buildUMulWithOverflowFunc n M).
Proof.
  intros Hn I. unfold buildUMulWithOverflowFunc.
  destruct (getFunction M n) as [F|]; [|now apply calm_refl].
  destruct (negb (empty F)); [now apply calm_refl|].
  apply calm_set_body; [easy | | easy]. quiet_block.
Qed.

Lemma calm_lowerFunnelShiftLeft (D : string) (id : nat) (M : module) :
  not_derived D = true -> idle D M -> calm D M (lowerFunnelShiftLeft id M).
Proof.
  intros HD I. unfold lowerFunnelShiftLeft.
  destruct (get_instr M id) as [II|]; [|now apply calm_refl].
  destruct (getCalledFunction M II) as [CF|] eqn:E; [|now apply calm_refl].
  pose proof (intrinsic_name_derived M II CF "" E) as Hd.
  rewrite string_app_nil in Hd.
  pose proof (not_derived_neq D _ HD Hd) as Hn.
  set (n := lowerLLVMIntrinsicName M II) in *.
  set (M1 := getOrCreateFunction (fret CF) (fparams CF) n M).
  assert (calm D M M1) as C1 by now apply calm_getOrCreateFunction.
  assert (calm D M1 (buildFunnelShiftLeftFunc n M1)) as C2
    by (apply calm_buildFunnelShiftLeftFunc; [easy | apply C1]).
  apply (calm_trans D M M1); [exact C1|].
  apply (calm_trans D M1 (buildFunnelShiftLeftFunc n M1)); [exact C2|].
  apply calm_setCalledFunction; [easy | apply C2].
Qed.

Lemma calm_lowerUMulWithOverflow (D : string) (id : nat) (M : module) :
  not_derived D = true -> idle D M -> calm D M (lowerUMulWithOverflow id M).
Proof.
  intros HD I. unfold lowerUMulWithOverflow.
  destruct (get_instr M id) as [II|]; [|now apply calm_refl].
  destruct (getCalledFunction M II) as [CF|] eqn:E; [|now apply calm_refl].
  pose proof (intrinsic_name_derived M II CF "" E) as Hd.
  rewrite string_app_nil in Hd.
  pose proof (not_derived_neq D _ HD Hd) as Hn.
  set (n := lowerLLVMIntrinsicName M II) in *.
  set (M1 := getOrCreateFunction (fret CF) (fparams CF) n M).
  assert (calm D M M1) as C1 by now apply calm_getOrCreateFunction.
  assert (calm D M1 (buildUMulWithOverflowFunc n M1)) as C2
    by (apply calm_buildUMulWithOverflowFunc; [easy | apply C1]).
  apply (calm_trans D M M1); [exact C1|].
  apply (calm_trans D M1 (buildUMulWithOverflowFunc n M1)); [exact C2|].
  apply calm_setCalledFunction; [easy | apply C2].
Qed.

Lemma calm_lowerMemset (D : string) (id : nat) (M : module) :
  not_derived D = true -> idle D M -> calm D M (lowerMemset id M).
Proof.
  intros HD I. unfold lowerMemset.
  destruct (get_instr M id) as [II|]; [|now apply calm_refl].
  destruct (iop II) as [callee args t n| | | | | | | |]; try now apply calm_refl.
  destruct (getCalledFunction M II) as [CF|] eqn:E; [|now apply calm_refl].
  destruct (isConstant _ && isConstantInt _); [now apply calm_refl|].
  pose proof (intrinsic_name_derived M II CF
                (if isVolatile args then ".volatile" else "") E) as Hd.
  set (FuncName := (_ ++ _)%string) in *.
  pose proof (not_derived_neq D _ HD Hd) as Hn.
  destruct (getFunction M FuncName) as [F|] eqn:EF.
  - now apply calm_setCalledFunction.
  - set (D0 := declaration FuncName (fret CF) (fparams CF)).
    assert (calm D M (append_function D0 M)) as C1.
    { split; [now apply idle_append_declaration|].
      intros m Hm. unfold append_function in Hm. cbn [funcs] in Hm.
      rewrite map_app in Hm. apply in_app_or in Hm.
      destruct Hm as [Hm|Hm]; [left; exact Hm|].
      destruct Hm as [<-|[]]. right. exact Hd. }
    assert (calm D (append_function D0 M)
                 (setCalledFunction id FuncName (append_function D0 M))) as C2
      by (apply calm_setCalledFunction; [exact Hn | apply C1]).
    apply (calm_trans D M (append_function D0 M)); [exact C1|].
    apply (calm_trans D _ (setCalledFunction id FuncName (append_function D0 M)));
      [exact C2|].
    apply calm_set_body; [exact Hn | | apply C2].
    unfold memset_loop. destruct (isVolatile args); quiet_block.
Qed.

Lemma calm_same_names (D : string) (M M' : module) :
  idle D M' -> map fname (funcs M') = map fname (funcs M) -> calm D M M'.
Proof. intros I E. split; [easy | now apply names_ok_same]. Qed.

Lemma names_insert_new (pos : nat) (name : string) (t : ty) (o : opcode) (M : module) :
  map fname (funcs (insert_new pos name t o M)) = map fname (funcs M).
Proof.
  unfold insert_new, insert_before. change (funcs (bump 1 ?X)) with (funcs X).
  apply names_rewrite.
Qed.

Lemma calm_insert_new (D : string) (pos : nat) (name : string) (t : ty) (o : opcode)
    (M : module) :
  (forall v, In v (operands o) -> mentions_func D v = false) ->
  idle D M -> calm D M (insert_new pos name t o M).
Proof.
  intros H I. apply calm_same_names; [now apply idle_insert_new|].
  apply names_insert_new.
Qed.

Lemma calm_replaceAllUsesWith (D : string) (old : value) (x : nat) (M : module) :
  idle D M -> calm D M (replaceAllUsesWith old (VInst x) M).
Proof.
  intros I. apply calm_same_names; [now apply idle_replaceAllUsesWith|].
  apply names_rewrite.
Qed.

Lemma calm_dropAllReferences (D : string) (a : nat) (M : module) :
  idle D M -> calm D M (dropAllReferences a M).
Proof.
  intros I. apply calm_same_names; [now apply idle_dropAllReferences|].
  apply names_rewrite.
Qed.

Lemma calm_retire (D : string) (U x : nat) (M : module) :
  idle D M -> calm D M (retire U x M).
Proof.
  intros I. unfold retire.
  apply (calm_trans D M (replaceAllUsesWith (VInst U) (VInst x) M)).
  - now apply calm_replaceAllUsesWith.
  - apply calm_dropAllReferences. now apply idle_replaceAllUsesWith.
Qed.

Lemma calm_cmpxchg_users (D : string) (Res : nat) (C : value) (T : ty) (us : list nat) :
  mentions_func D C = false ->
  forall (M : module) (TE : list nat) (M' : module) (TE' : list nat),
    idle D M -> cmpxchg_users Res C T us (M, TE) = Done (M', TE') -> calm D M M'.
Proof.
  intros HC. induction us as [|U us IH]; intros M TE M' TE' I H; simpl in H.
  - injection H as <- <-. now apply calm_refl.
  - assert (forall v, In v (operands (ICmp ICMP_EQ (VInst Res) C)) ->
                      mentions_func D v = false) as Hicmp
      by (intros v [<-|[<-|[]]]; [reflexivity | exact HC]).
    destruct (option_map iop (get_instr M U)) as [o|]; [|now apply (IH M TE M' TE')].
    destruct o as [| | | |agg idxs| |v p| |]; try now apply (IH M TE M' TE').
    + destruct idxs as [|[|[|k]] idxs]; try discriminate.
      * destruct (negb _); [discriminate|].
        pose proof (calm_retire D U Res M I) as C1.
        apply (calm_trans D M (retire U Res M)); [exact C1|].
        apply (IH _ _ M' TE' (proj1 C1) H).
      * destruct (negb _); [discriminate|].
        pose proof (calm_insert_new D U "cmpxchg.success" (TInt 1) _ M Hicmp I) as C1.
        pose proof (calm_retire D U (next_id M) _ (proj1 C1)) as C2.
        apply (calm_trans D M _ M' C1). apply (calm_trans D _ _ M' C2).
        apply (IH _ _ M' TE' (proj1 C2) H).
    + injection H as <- <-.
      apply calm_same_names.
      * apply idle_replaceAllUsesWith.
        apply idle_insert_new; [simpl; intros w [<-|[<-|[]]]; reflexivity|].
        apply idle_insert_new; [simpl; intros w [<-|[<-|[]]]; reflexivity|].
        now apply idle_insert_new.
      * unfold replaceAllUsesWith. rewrite names_rewrite.
        now rewrite !names_insert_new.
Qed.

Lemma calm_visit_call (D : string) (id : nat) (M : module) (II : instr)
    (callee : value) (args : list value) (nounwind : bool) :
  not_derived D = true -> idle D M ->
  (forall v, In v (args ++ [callee]) -> mentions_func D v = false) ->
  calm D M
    (let M' := update_instr id (set_iop (Call callee args false nounwind)) M in
     match getCalledFunction M II with
     | Some CF =>
         if isIntrinsic CF then
           let M'' := update_instr id (set_iop (Call callee args false false)) M' in
           if isMemSet CF then lowerMemset id M''
           else if isFshl CF then lowerFunnelShiftLeft id M''
           else if isUMulWithOverflow CF then lowerUMulWithOverflow id M''
           else M''
         else M'
     | None => M'
     end).
Proof.
  intros HD I Hq. cbv zeta.
  assert (forall nu N, idle D N ->
            calm D N (update_instr id (set_iop (Call callee args false nu)) N)) as S.
  { intros nu N IN. apply calm_update_instr; [|easy]. intros i _ _. exact Hq. }
  pose proof (S nounwind M I) as S1.
  destruct (getCalledFunction M II) as [CF|]; [|exact S1].
  destruct (isIntrinsic CF); [|exact S1].
  pose proof (S false _ (proj1 S1)) as S2.
  pose proof (calm_trans D _ _ _ S1 S2) as S12.
  destruct (isMemSet CF).
  { eapply calm_trans; [exact S12 | now apply calm_lowerMemset; [|apply S12]]. }
  destruct (isFshl CF).
  { eapply calm_trans;
      [exact S12 | now apply calm_lowerFunnelShiftLeft; [|apply S12]]. }
  destruct (isUMulWithOverflow CF).
  { eapply calm_trans;
      [exact S12 | now apply calm_lowerUMulWithOverflow; [|apply S12]]. }
  exact S12.
Qed.

Lemma operands_strip_metadata (i : instr) :
  operands (iop (strip_metadata i)) = operands (iop i).
Proof. now rewrite iop_strip_metadata. Qed.

Lemma calm_visit (D : string) (id : nat) (M : module) (TE : list nat)
    (M' : module) (TE' : list nat) :
  not_derived D = true -> idle D M -> visit id (M, TE) = Done (M', TE') ->
  calm D M M'.
Proof.
  intros HD I H. unfold visit in H.
  destruct (get_instr M id) as [II|] eqn:E.
  2:{ injection H as <- <-. now apply calm_refl. }
  pose proof (get_instr_Some M id II E) as [HIn _].
  pose proof (proj2 I II HIn) as Hq.
  set (M1 := match iop II with
             | Call _ _ _ _ => _
             | BinaryOperator _ _ _ _ _ => _
             | _ => M
             end) in H.
  assert (calm D M M1) as S1.
  { unfold M1. destruct (iop II) as [callee args t n|op nuw ex a b| | | | | | |] eqn:EO;
      try now apply calm_refl.
    - apply calm_visit_call; auto.
      intros v Hv. apply Hq. rewrite EO. exact Hv.
    - destruct (isPossiblyExact op && ex); [|now apply calm_refl].
      apply calm_update_instr; [|easy]. intros i _ _ v Hv.
      apply Hq. rewrite EO. exact Hv. }
  assert (calm D M1 (update_instr id strip_metadata M1)) as S2.
  { apply calm_update_instr; [|apply S1]. intros i _ Hi v Hv.
    rewrite operands_strip_metadata in Hv. now apply Hi. }
  pose proof (calm_trans D _ _ _ S1 S2) as S12.
  destruct (iop II) as [| | |Ptr Cmp Val sc fl| | | | |] eqn:EO;
    try (injection H as <- <-; assumption).
  assert (String.eqb kAtomicCompareExchange D = false) as HK.
  { unfold not_derived in HD. apply andb_prop in HD. destruct HD as [_ HD].
    apply negb_true_iff in HD. now rewrite String.eqb_sym. }
  set (M3 := addCallInstSPIRV _ _ _ _ _ _ _) in H.
  assert (calm D (update_instr id strip_metadata M1) M3) as S3.
  { unfold M3, addCallInstSPIRV.
    eapply calm_trans.
    - apply calm_getOrCreateFunction; [|apply S2].
      unfold not_derived. now rewrite String.eqb_refl, andb_false_r.
    - apply calm_insert_new.
      + simpl. intros v Hv.
        destruct Hv as [<-|[<-|[<-|[<-|[<-|[<-|[<-|[]]]]]]]]; try reflexivity;
          try (apply Hq; rewrite EO; simpl; now auto). exact HK.
      + apply idle_getOrCreateFunction, S2. }
  destruct (cmpxchg_users _ _ _ _ _) as [msg| |[M4 TE4]] eqn:EU; try discriminate.
  assert (calm D M3 M4) as S4.
  { eapply (calm_cmpxchg_users D); [|apply S3|exact EU]. apply Hq. rewrite EO. simpl. auto. }
  assert (M' = M4) as -> by (destruct (user_empty M4 (VInst id)); now injection H).
  eapply calm_trans; [exact S12|]. eapply calm_trans; eauto.
Qed.

(** ** A declaration nothing refers to, through the loop over the functions *)

Lemma calm_walk_insts (D : string) (Fn : string) (fuel : nat) :
  not_derived D = true ->
  forall (cur : option nat) (M : module) (TE : list nat) (M1 : module) (TE1 : list nat),
    idle D M -> walk_insts fuel Fn cur (M, TE) = Done (M1, TE1) -> calm D M M1.
Proof.
  intros HD. induction fuel as [|fuel IH]; intros cur M TE M1 TE1 I H.
  - destruct cur; simpl in H; [discriminate|]. injection H as <- <-.
    now apply calm_refl.
  - destruct cur as [id|].
    2:{ simpl in H. injection H as <- <-. now apply calm_refl. }
    rewrite walk_insts_step in H.
    destruct (visit id (M, TE)) as [msg| |[M0 TE0]] eqn:EV; try discriminate.
    pose proof (calm_visit D id M TE M0 TE0 HD I EV) as C0.
    apply (calm_trans D M M0); [exact C0|].
    apply (IH _ M0 TE0 M1 TE1 (proj1 C0) H).
Qed.

Lemma idle_erase_all (D : string) (TE : list nat) :
  forall (M1 M2 : module), idle D M1 -> erase_all TE M1 = Done M2 -> idle D M2.
Proof.
  induction TE as [|V TE IH]; intros M1 M2 I H; simpl in H.
  - now injection H as <-.
  - destruct (user_empty M1 (VInst V)); [|discriminate].
    apply (IH (eraseFromParent V M1)); [|exact H].
    unfold eraseFromParent. apply idle_rewrite; [|exact I].
    intros i _ Hq j Hj. destruct (Nat.eqb (iid i) V); [destruct Hj|].
    destruct Hj as [<-|[]]. exact Hq.
Qed.

Lemma idle_erase_function (D n : string) (M : module) :
  idle D M -> idle D (erase_function n M).
Proof.
  intros [I1 I2]. split.
  - intros F HF. apply I1. simpl in HF. apply filter_In in HF. apply HF.
  - intros i Hi. apply I2. unfold all_instrs in *. simpl in Hi.
    apply in_flat_map in Hi. destruct Hi as [F [HF Hi]].
    apply filter_In in HF. apply in_flat_map. exists F. split; [apply HF | exact Hi].
Qed.

Lemma dinv_next (D : string) (M2 : module) (d2 t2 news : list function) (F2 : function) :
  funcs M2 = (d2 ++ F2 :: t2) ++ news ->
  ~ In D (map fname d2) -> fname F2 <> D -> ~ In D (map fname news) ->
  dinv D M2 (hd_error (map fname t2)).
Proof.
  intros Hf Hd HF Hn. destruct t2 as [|G t2]; cbn [map hd_error dinv].
  - intros X. rewrite Hf, !map_app in X.
    apply in_app_or in X. destruct X as [X|X]; [|tauto].
    apply in_app_or in X. destruct X as [X|[X|[]]]; tauto.
  - exists (d2 ++ [F2]), G, (t2 ++ news). split; [|split; [reflexivity|]].
    + rewrite Hf, <- !app_assoc. reflexivity.
    + rewrite map_app, in_app_iff. cbn [map In]. tauto.
Qed.

Lemma Forall2_names (P : function -> function -> Prop) (l l' : list function) :
  Forall2 (fun F F' => fname F' = fname F /\ P F F') l l' ->
  map fname l' = map fname l.
Proof.
  intros H. induction H as [|a b l l' [Ha _] _ IH]; simpl; [easy|].
  now rewrite Ha, IH.
Qed.

Lemma function_turn_shape (fuel : nat) (M M1 M2 : module) (TE : list nat)
    (done todo : list function) (F : function) :
  wf M -> funcs M = done ++ F :: todo ->
  walk_insts fuel (fname F) (hd_error (map iid (instrs_of F))) (M, []) = Done (M1, TE) ->
  erase_all TE M1 = Done M2 ->
  wf M2 /\
  exists d2 F2 t2 news,
    funcs M2 = (d2 ++ F2 :: t2) ++ news /\ map fname d2 = map fname done /\
    fname F2 = fname F /\ map fname t2 = map fname todo.
Proof.
  intros W Hf HW HE.
  destruct (cursor_found M done todo F W Hf) as (X1 & X2 & HG & _).
  destruct (walk_insts_sound fuel (fname F) _ M [] M1 TE F [] (instrs_of F)
              W HG eq_refl (Forall_nil _) eq_refl HW) as [[W1 E1] _].
  destruct (erase_all_fstep TE M M1 M2 W1 (evolves_fstep M M1 E1) HE) as [W2 S2].
  split; [easy|].
  destruct S2 as (_ & _ & olds & news & Hf2 & H2 & _).
  rewrite Hf in H2.
  apply Forall2_app_inv_l in H2. destruct H2 as (d2 & r2 & Hd2 & Hr2 & ->).
  inversion Hr2 as [|? G2 ? t2 [Hn2 _] Ht2]; subst.
  exists d2, G2, t2, news. split; [easy|].
  split; [now apply Forall2_names in Hd2|]. split; [easy|].
  now apply Forall2_names in Ht2.
Qed.

Lemma declaration_turn (D : string) (fuel : nat) (M M1 M2 : module) (TE : list nat)
    (done todo : list function) (F : function) :
  not_derived D = true -> wf M -> idle D M ->
  funcs M = done ++ F :: todo -> ~ In D (map fname done) -> fname F <> D ->
  walk_insts fuel (fname F) (hd_error (map iid (instrs_of F))) (M, []) = Done (M1, TE) ->
  erase_all TE M1 = Done M2 ->
  wf M2 /\ idle D M2 /\ dinv D M2 (hd_error (map fname todo)).
Proof.
  intros HD W I Hf Hd HF HW HE.
  destruct (function_turn_shape fuel M M1 M2 TE done todo F W Hf HW HE)
    as (W2 & d2 & F2 & t2 & news & Hf2 & Nd & NF & Nt).
  destruct (calm_walk_insts D (fname F) fuel HD _ M [] M1 TE I HW) as [I1 N1].
  split; [easy|]. split; [now apply (idle_erase_all D TE M1)|].
  rewrite <- Nt. apply (dinv_next D M2 d2 t2 news F2); auto.
  - now rewrite Nd.
  - congruence.
  - intros Hn.
    assert (In D (map fname (funcs M2))) as H2
      by (rewrite Hf2, map_app, in_app_iff; now right).
    rewrite (erase_all_names TE M1 M2 HE) in H2.
    destruct (N1 D H2) as [X|X]; [|congruence].
    rewrite Hf, map_app in X. cbn [map] in X.
    rewrite <- Nd, <- NF, <- Nt in X.
    change (In D (map fname d2 ++ map fname (F2 :: t2))) in X.
    rewrite <- map_app in X.
    pose proof (wf_names M2 W2) as ND. rewrite Hf2, map_app in ND.
    revert ND X Hn. generalize (map fname (d2 ++ F2 :: t2)) (map fname news).
    intros l1 l2 ND X Hn. induction l1 as [|a l1 IH]; [destruct X|].
    simpl in ND. inversion ND as [|? ? Ha ND']; subst.
    destruct X as [->|X]; [|now apply IH].
    apply Ha. apply in_app_iff. now right.
Qed.

Lemma dinv_start (D : string) (M : module) :
  dinv D M (hd_error (map fname (funcs M))).
Proof.
  destruct (funcs M) as [|F l] eqn:E; cbn [map hd_error dinv].
  - rewrite E. intros [].
  - exists [], F, l. rewrite E. split; [reflexivity|]. split; [reflexivity|].
    intros [].
Qed.

Lemma getFunction_absent (M : module) (D : string) :
  ~ In D (map fname (funcs M)) -> getFunction M D = None.
Proof.
  unfold getFunction. induction (funcs M) as [|F l IH]; simpl; intros H; [easy|].
  destruct (String.eqb (fname F) D) eqn:E.
  - apply String.eqb_eq in E. tauto.
  - apply IH. tauto.
Qed.

Lemma walk_functions_erases (D : string) (fuel : nat) :
  not_derived D = true ->
  forall (I : option string) (M M' : module),
    wf M -> idle D M -> dinv D M I -> walk_functions fuel I M = Done M' ->
    ~ In D (map fname (funcs M')).
Proof.
  intros HD. induction fuel as [|fuel IH]; intros I M M' W Id HI H.
  - destruct I as [Fn|]; simpl in H; [discriminate|]. injection H as <-. exact HI.
  - destruct I as [Fn|].
    2:{ simpl in H. injection H as <-. exact HI. }
    destruct HI as (done & F & todo & Hf & <- & Hd).
    destruct (cursor_found M done todo F W Hf) as (X1 & X2 & HG & HN).
    rewrite walk_functions_step, HG, HN in H.
    destruct (isDeclaration F && func_use_empty M (fname F)) eqn:ED.
    + apply andb_prop in ED. destruct ED as [ED _].
      pose proof (wf_erase_declaration M done todo F W Hf ED) as We.
      pose proof (erase_function_cursor M done todo F W Hf) as Fe.
      apply (IH (hd_error (map fname todo)) (erase_function (fname F) M) M' We
                (idle_erase_function D (fname F) M Id)); [|exact H].
      destruct todo as [|T todo]; cbn [map hd_error dinv].
      * now rewrite Fe, app_nil_r.
      * exists done, T, todo. now rewrite Fe.
    + assert (fname F <> D) as HF.
      { intros <-. apply decl_unused_idle in Id. unfold decl_unused in Id.
        apply andb_prop in Id. destruct Id as [A B]. rewrite B, andb_true_r in ED.
        rewrite forallb_forall in A.
        assert (In F (funcs M)) as HIn by (rewrite Hf; apply in_elt).
        specialize (A F HIn). rewrite String.eqb_refl in A. simpl in A. congruence. }
      destruct (walk_insts (S fuel) (fname F) _ (M, [])) as [msg| |[M1 TE]] eqn:HW;
        try discriminate.
      destruct (erase_all TE M1) as [msg| |M2] eqn:HE; try discriminate.
      destruct (declaration_turn D (S fuel) M M1 M2 TE done todo F HD W Id Hf Hd HF HW HE)
        as (W2 & I2 & D2).
      apply (IH (hd_error (map fname todo)) M2 M' W2 I2 D2 H).
Qed.


(** * Further properties of the code *)

(** ** The synthesized bodies on all operands *)

(** X1: whatever the operands of width [w], the body built by
    buildFunnelShiftLeftFunc returns the funnel shift of the language
    reference when the rotate amount is not a multiple of the width, and
    poison when it is. *)
Theorem fshl_body_meaning (w a b r : Z) :
  0 < w -> 0 <= a -> 0 <= b < 2 ^ w ->
  run_fshl w a b r = Ok (Some (RInt (fshl_lane w a b r))).
Proof.
  intros Hw Ha Hb. unfold fshl_lane.
  destruct (r mod w =? 0) eqn:E.
  - apply Z.eqb_eq in E. now apply run_fshl_zero.
  - apply Z.eqb_neq in E. now apply run_fshl_nonzero.
Qed.

Lemma fshl_body_meaning_witness :
  run_fshl 8 129 192 11 = Ok (Some (RInt (Bits 14))) /\
  run_fshl 8 129 192 16 = Ok (Some (RInt Poison)).
Proof.
  split.
  - apply (fshl_body_meaning 8 129 192 11); lia.
  - apply (fshl_body_meaning 8 129 192 16); lia.
Defined.

Lemma run_umul_zero (w b : Z) : 0 <= w -> run_umul w 0 b = UB.
Proof.
  intros Hw. unfold run_umul, run_synthesized, synthesize.
  cbn -[eval_binop_lane Z.mul Z.div Z.pow Z.eqb Z.modulo wrap].
  rewrite eval_mul_nuw_fits.
  - reflexivity.
  - pose proof (Z.pow_pos_nonneg 2 w). lia.
Qed.

(** X2: whatever the operands of width [w], the body built by
    buildUMulWithOverflowFunc divides by zero when the first operand is 0;
    otherwise, when the product fits the width it returns the product and a
    flag that tells whether the operands differ, and when it does not fit
    both fields are poison. *)
Theorem umul_body_meaning (w a b : Z) :
  0 <= w -> 0 <= a -> 0 <= b ->
  run_umul w a b =
  if a =? 0 then UB
  else if a * b <? 2 ^ w
       then Ok (Some (RStruct [RInt (Bits (a * b));
                               RInt (Bits (if a =? b then 0 else 1))]))
       else Ok (Some (RStruct [RInt Poison; RInt Poison])).
Proof.
  intros Hw Ha Hb. destruct (a =? 0) eqn:E0.
  - apply Z.eqb_eq in E0. subst a. now apply run_umul_zero.
  - apply Z.eqb_neq in E0. destruct (a * b <? 2 ^ w) eqn:E1.
    + apply Z.ltb_lt in E1. apply run_umul_fits; lia.
    + apply Z.ltb_ge in E1. apply run_umul_overflows; lia.
Qed.

Lemma umul_body_meaning_witness :
  run_umul 8 0 5 = UB /\
  run_umul 8 7 7 = Ok (Some (RStruct [RInt (Bits 49); RInt (Bits 0)])) /\
  run_umul 8 32 8 = Ok (Some (RStruct [RInt Poison; RInt Poison])).
Proof.
  split; [|split].
  - apply (umul_body_meaning 8 0 5); lia.
  - apply (umul_body_meaning 8 7 7); lia.
  - apply (umul_body_meaning 8 32 8); lia.
Defined.

Lemma eval_binop_lanes_map {T} (op : binop) (nuw exact : bool) (w : Z)
    (f g h : T -> lane) (ts : list T) :
  (forall t, In t ts -> eval_binop_lane op nuw exact w (f t) (g t) = Ok (h t)) ->
  eval_binop_lanes op nuw exact w (map f ts) (map g ts) = Ok (map h ts).
Proof.
  induction ts as [|t ts IH]; intros H; simpl; [reflexivity|].
  rewrite (H t) by now left. simpl.
  rewrite IH by (intros t' Ht'; apply H; now right). reflexivity.
Qed.

Lemma repeat_as_map {T} (x : lane) (ts : list T) :
  repeat x (List.length ts) = map (fun _ => x) ts.
Proof. induction ts as [|t ts IH]; simpl; [reflexivity | now rewrite IH]. Qed.

(** What the instructions of the body compute in one lane. *)
Lemma fshl_lane_shl (w a r : Z) :
  0 < w ->
  eval_binop_lane Shl false false w (Bits a) (Bits (r mod w)) =
  Ok (Bits (wrap w (Z.shiftl a (r mod w)))).
Proof.
  intros Hw. pose proof (Z.mod_pos_bound r w Hw) as Hs.
  cbn -[Z.pow Z.shiftl wrap Z.leb Z.modulo].
  now replace (w <=? r mod w) with false by (symmetry; apply Z.leb_gt; lia).
Qed.

Lemma fshl_lane_sub (w r : Z) :
  0 < w ->
  eval_binop_lane Sub false false w (Bits w) (Bits (r mod w)) =
  Ok (Bits (w - r mod w)).
Proof.
  intros Hw. pose proof (Z.mod_pos_bound r w Hw) as Hs.
  pose proof (width_lt_pow w Hw) as Hlt.
  cbn -[Z.pow wrap Z.sub Z.modulo]. now rewrite wrap_small by lia.
Qed.

Lemma fshl_lane_lshr (w b r : Z) :
  0 < w ->
  eval_binop_lane LShr false false w (Bits b) (Bits (w - r mod w)) =
  Ok (if r mod w =? 0 then Poison else Bits (Z.shiftr b (w - r mod w))).
Proof.
  intros Hw. pose proof (Z.mod_pos_bound r w Hw) as Hs.
  cbn -[Z.pow Z.shiftr Z.leb Z.sub Z.modulo Z.eqb].
  destruct (r mod w =? 0) eqn:E.
  - apply Z.eqb_eq in E. now rewrite E, Z.sub_0_r, Z.leb_refl.
  - apply Z.eqb_neq in E.
    now replace (w <=? w - r mod w) with false by (symmetry; apply Z.leb_gt; lia).
Qed.

Lemma fshl_lane_or (w a b r : Z) :
  0 < w -> 0 <= a -> 0 <= b < 2 ^ w ->
  eval_binop_lane Or false false w (Bits (wrap w (Z.shiftl a (r mod w))))
    (if r mod w =? 0 then Poison else Bits (Z.shiftr b (w - r mod w))) =
  Ok (fshl_lane w a b r).
Proof.
  intros Hw Ha Hb. pose proof (Z.mod_pos_bound r w Hw) as Hs.
  unfold fshl_lane. destruct (r mod w =? 0) eqn:E; [reflexivity|].
  apply Z.eqb_neq in E. cbn -[Z.pow Z.shiftl Z.shiftr wrap Z.sub Z.lor Z.modulo].
  unfold fshl_reference. now rewrite funnel_arith by lia.
Qed.

(** X3: at a vector type the body built by buildFunnelShiftLeftFunc
    computes lane by lane what it computes at the element type: each lane of
    the result is the funnel shift of the corresponding lanes of the
    operands, or poison where the rotate amount is a multiple of the
    width. *)
Theorem fshl_vector_lanewise (w : Z) (ts : list (Z * Z * Z)) :
  0 < w ->
  (forall a b r, In (a, b, r) ts -> 0 <= a /\ 0 <= b < 2 ^ w) ->
  run_fshl_vec w ts =
  Ok (Some (RVec (map (fun t => fshl_lane w (fst (fst t)) (snd (fst t)) (snd t)) ts))).
Proof.
  intros Hw H.
  pose proof (width_lt_pow w Hw) as Hlt.
  unfold run_fshl_vec, run_synthesized, synthesize.
  cbn -[eval_binop_lanes Z.mul Z.div Z.pow Z.eqb Z.modulo wrap List.length].
  rewrite (wrap_small w w) by lia. rewrite repeat_as_map.
  rewrite (eval_binop_lanes_map URem false false w _ _
             (fun t => Bits (snd t mod w))) by (intros t _; apply eval_urem; lia).
  cbn -[eval_binop_lanes Z.mul Z.div Z.pow Z.eqb Z.modulo wrap List.length].
  rewrite (eval_binop_lanes_map Shl false false w _ _
             (fun t => Bits (wrap w (Z.shiftl (fst (fst t)) (snd t mod w)))))
    by (intros t _; now apply fshl_lane_shl).
  cbn -[eval_binop_lanes Z.mul Z.div Z.pow Z.eqb Z.modulo wrap List.length].
  rewrite (eval_binop_lanes_map Sub false false w _ _
             (fun t => Bits (w - snd t mod w)))
    by (intros t _; now apply fshl_lane_sub).
  cbn -[eval_binop_lanes Z.mul Z.div Z.pow Z.eqb Z.modulo wrap List.length].
  rewrite (eval_binop_lanes_map LShr false false w _ _
             (fun t => if snd t mod w =? 0 then Poison
                       else Bits (Z.shiftr (snd (fst t)) (w - snd t mod w))))
    by (intros t _; now apply fshl_lane_lshr).
  cbn -[eval_binop_lanes Z.mul Z.div Z.pow Z.eqb Z.modulo wrap List.length].
  rewrite (eval_binop_lanes_map Or false false w _ _
             (fun t => fshl_lane w (fst (fst t)) (snd (fst t)) (snd t))).
  - reflexivity.
  - intros [[a b] r] Ht. destruct (H a b r Ht) as [Ha Hb].
    now apply fshl_lane_or.
Qed.

Lemma fshl_vector_lanewise_witness :
  run_fshl_vec 8 [(129, 192, 11); (1, 128, 0)] =
  Ok (Some (RVec [Bits 14; Poison])).
Proof.
  apply (fshl_vector_lanewise 8 [(129, 192, 11); (1, 128, 0)]); [lia|].
  intros a b r [E|[E|[]]]; injection E as <- <- <-; lia.
Defined.

Lemma eval_icmp_lanes_map {T} (p : icmp_pred) (f g : T -> lane) (ts : list T) :
  eval_icmp_lanes p (map f ts) (map g ts) =
  map (fun t => eval_icmp_lane p (f t) (g t)) ts.
Proof. induction ts as [|t ts IH]; simpl; [reflexivity | now rewrite IH]. Qed.

Lemma umul_lane_mul (w a b : Z) :
  0 < a -> 0 <= b ->
  eval_binop_lane Mul true false w (Bits a) (Bits b) = Ok (umul_product_lane w a b).
Proof.
  intros Ha Hb. unfold umul_product_lane. destruct (a * b <? 2 ^ w) eqn:E.
  - apply Z.ltb_lt in E. apply eval_mul_nuw_fits. nia.
  - apply Z.ltb_ge in E. now apply eval_mul_nuw_overflows.
Qed.

Lemma umul_lane_div (w a b : Z) :
  0 < a ->
  eval_binop_lane UDiv false false w (umul_product_lane w a b) (Bits a) =
  Ok (if a * b <? 2 ^ w then Bits b else Poison).
Proof.
  intros Ha. unfold umul_product_lane. destruct (a * b <? 2 ^ w).
  - rewrite eval_udiv by lia. now rewrite (Z.mul_comm a b), Z.div_mul by lia.
  - apply eval_udiv_poison. lia.
Qed.

Lemma umul_lane_flag (w a b : Z) :
  eval_icmp_lane ICMP_NE (Bits a) (if a * b <? 2 ^ w then Bits b else Poison) =
  umul_flag_lane w a b.
Proof. unfold umul_flag_lane. now destruct (a * b <? 2 ^ w). Qed.

(** X13: at a vector type, when no lane of the first operand is 0, the body
    built by buildUMulWithOverflowFunc computes lane by lane what it
    computes at the element type: where the product fits the width, the
    product and a flag that tells whether the operands differ; where it does
    not, poison in both fields. *)
Theorem umul_vector_lanewise (w : Z) (ts : list (Z * Z)) :
  (forall a b, In (a, b) ts -> 0 < a /\ 0 <= b) ->
  run_umul_vec w ts =
  Ok (Some (RStruct [RVec (map (fun t => umul_product_lane w (fst t) (snd t)) ts);
                     RVec (map (fun t => umul_flag_lane w (fst t) (snd t)) ts)])).
Proof.
  intros H.
  unfold run_umul_vec, run_synthesized, synthesize.
  cbn -[eval_binop_lanes eval_icmp_lanes Z.mul Z.div Z.pow Z.eqb List.length].
  rewrite (eval_binop_lanes_map Mul true false w _ _
             (fun t => umul_product_lane w (fst t) (snd t))).
  2:{ intros [a b] Ht. destruct (H a b Ht). now apply umul_lane_mul. }
  cbn -[eval_binop_lanes eval_icmp_lanes Z.mul Z.div Z.pow Z.eqb List.length].
  rewrite (eval_binop_lanes_map UDiv false false w _ _
             (fun t => if fst t * snd t <? 2 ^ w then Bits (snd t) else Poison)).
  2:{ intros [a b] Ht. destruct (H a b Ht). now apply umul_lane_div. }
  cbn -[eval_binop_lanes eval_icmp_lanes Z.mul Z.div Z.pow Z.eqb List.length].
  rewrite eval_icmp_lanes_map. do 6 f_equal.
  apply map_ext. intros [a b]. apply umul_lane_flag.
Qed.

Lemma umul_vector_lanewise_witness :
  run_umul_vec 8 [(7, 7); (32, 8); (2, 3)] =
  Ok (Some (RStruct [RVec [Bits 49; Poison; Bits 6];
                     RVec [Bits 0; Poison; Bits 1]])).
Proof.
  apply (umul_vector_lanewise 8 [(7, 7); (32, 8); (2, 3)]).
  intros a b [E|[E|[E|[]]]]; injection E as <- <-; lia.
Defined.

(** ** Derived names *)

Lemma replace_char_length (a b : ascii) (s : string) :
  String.length (replace_char a b s) = String.length s.
Proof. induction s as [|c s IH]; simpl; [reflexivity | now rewrite IH]. Qed.

Lemma replace_char_gone (a b : ascii) (s : string) :
  a <> b -> has_char a (replace_char a b s) = false.
Proof.
  intros H. induction s as [|c s IH]; simpl; [reflexivity|]. rewrite IH, orb_false_r.
  destruct (Ascii.eqb c a) eqn:E; [now apply Ascii.eqb_neq|exact E].
Qed.

Lemma replace_char_back (a b : ascii) (s : string) :
  has_char b s = false -> replace_char b a (replace_char a b s) = s.
Proof.
  induction s as [|c s IH]; simpl; intros H; [reflexivity|].
  apply orb_false_iff in H. destruct H as [H1 H2]. rewrite (IH H2). f_equal.
  destruct (Ascii.eqb c a) eqn:E.
  - rewrite Ascii.eqb_refl. apply Ascii.eqb_eq in E. now subst.
  - now rewrite H1.
Qed.

Lemma string_app_inj_l (p s t : string) : (p ++ s = p ++ t)%string -> s = t.
Proof. induction p as [|c p IH]; simpl; intros H; [easy|]. injection H as H. auto. Qed.

(** X4: the name derived for a call of the function [F] is [spirv.]
    followed by as many characters as the name of [F] has, none of them a
    dot; it is not the name of an intrinsic. *)
Theorem lowered_name_shape (M : module) (II : instr) (F : function) :
  getCalledFunction M II = Some F ->
  exists s,
    lowerLLVMIntrinsicName M II = ("spirv." ++ s)%string /\
    String.length s = String.length (fname F) /\
    has_char "."%char s = false /\
    prefix "llvm." (lowerLLVMIntrinsicName M II) = false.
Proof.
  intros H. unfold lowerLLVMIntrinsicName. rewrite H.
  exists (replace_char "."%char "_"%char (fname F)).
  split; [reflexivity|]. split; [apply replace_char_length|].
  split; [now apply replace_char_gone | reflexivity].
Qed.

Lemma lowered_name_shape_witness :
  exists s,
    lowerLLVMIntrinsicName calls_fshl (mkInstr 0 "" (TInt 8)
      (Call (VFunc "llvm.fshl.i8") [VArg 0; VArg 1; VArg 2] false false) []) =
      ("spirv." ++ s)%string /\
    String.length s = String.length (fname fshl_i8) /\
    has_char "."%char s = false /\
    prefix "llvm." (lowerLLVMIntrinsicName calls_fshl (mkInstr 0 "" (TInt 8)
      (Call (VFunc "llvm.fshl.i8") [VArg 0; VArg 1; VArg 2] false false) [])) = false.
Proof.
  apply (lowered_name_shape calls_fshl _ fshl_i8). reflexivity.
Defined.

(** X5: two called functions with different names, neither holding an
    underscore, get different derived names: on such names the derivation
    loses nothing. *)
Theorem lowered_names_distinct (M : module) (II JJ : instr) (F G : function) :
  getCalledFunction M II = Some F -> getCalledFunction M JJ = Some G ->
  has_char "_"%char (fname F) = false -> has_char "_"%char (fname G) = false ->
  fname F <> fname G ->
  lowerLLVMIntrinsicName M II <> lowerLLVMIntrinsicName M JJ.
Proof.
  intros HF HG UF UG N. unfold lowerLLVMIntrinsicName. rewrite HF, HG. intros E.
  apply string_app_inj_l in E. apply N.
  rewrite <- (replace_char_back "."%char "_"%char (fname F) UF).
  rewrite <- (replace_char_back "."%char "_"%char (fname G) UG).
  now rewrite E.
Qed.

Lemma lowered_names_distinct_witness :
  (fname fshl_i8 <> fname memset_p0i8_i32) /\
  (lowerLLVMIntrinsicName (mkModule [fshl_i8; memset_p0i8_i32] 0)
     (mkInstr 0 "" (TInt 8) (Call (VFunc "llvm.fshl.i8") [] false false) []) <>
   lowerLLVMIntrinsicName (mkModule [fshl_i8; memset_p0i8_i32] 0)
     (mkInstr 1 "" TVoid (Call (VFunc "llvm.memset.p0i8.i32") [] false false) [])).
Proof.
  split; [discriminate|].
  apply (lowered_names_distinct (mkModule [fshl_i8; memset_p0i8_i32] 0) _ _
           fshl_i8 memset_p0i8_i32); try reflexivity.
  discriminate.
Defined.

(** ** The pass as a sequence of primitive changes *)

Lemma steps_one (M M' : module) : prim M M' -> steps M M'.
Proof. intros H. eapply steps_cons; [exact H | apply steps_refl]. Qed.

Lemma steps_trans (M M1 M2 : module) : steps M M1 -> steps M1 M2 -> steps M M2.
Proof.
  intros H1 H2. induction H1 as [|A B C P S IH]; [exact H2|].
  eapply steps_cons; [exact P | now apply IH].
Qed.

Lemma prefix_app_assoc (p s t : string) : prefix p ((p ++ s) ++ t)%string = true.
Proof. induction p as [|c p IH]; simpl; [now destruct (_ ++ _)%string|].
  destruct (ascii_dec c c); [exact IH | congruence].
Qed.

Lemma derived_name_not_intrinsic (M : module) (II : instr) (CF : function)
    (suffix : string) :
  getCalledFunction M II = Some CF ->
  prefix "llvm." (lowerLLVMIntrinsicName M II ++ suffix)%string = false /\
  pass_name (lowerLLVMIntrinsicName M II ++ suffix)%string = true.
Proof.
  intros H. unfold lowerLLVMIntrinsicName, pass_name. rewrite H.
  split; [reflexivity|]. now rewrite prefix_app_assoc.
Qed.

Lemma steps_getOrCreateFunction (r : ty) (ps : list ty) (n : string) (M : module) :
  pass_name n = true -> steps M (getOrCreateFunction r ps n M).
Proof.
  intros H. unfold getOrCreateFunction.
  destruct (getFunction M n) eqn:E; [apply steps_refl|].
  apply steps_one. now constructor.
Qed.

Ltac fresh_body_tac :=
  split;
  [ repeat (constructor; [simpl; split; [split; [lia | reflexivity] | reflexivity]|]);
    constructor
  | simpl; repeat (constructor; [simpl; intuition lia|]); constructor ].

Lemma steps_buildFunnelShiftLeftFunc (n : string) (M : module) :
  steps M (buildFunnelShiftLeftFunc n M).
Proof.
  unfold buildFunnelShiftLeftFunc.
  destruct (getFunction M n) as [F|] eqn:E; [|apply steps_refl].
  destruct (empty F) eqn:EF; simpl; [|apply steps_refl].
  apply steps_one. apply (prim_body M n F _ 6 E EF). fresh_body_tac.
Qed.

Lemma steps_buildUMulWithOverflowFunc (n : string) (M : module) :
  steps M (buildUMulWithOverflowFunc n M).
Proof.
  unfold buildUMulWithOverflowFunc.
  destruct (getFunction M n) as [F|] eqn:E; [|apply steps_refl].
  destruct (empty F) eqn:EF; simpl; [|apply steps_refl].
  apply steps_one. apply (prim_body M n F _ 6 E EF). fresh_body_tac.
Qed.

Lemma steps_lowerFunnelShiftLeft (id : nat) (M : module) :
  steps M (lowerFunnelShiftLeft id M).
Proof.
  unfold lowerFunnelShiftLeft.
  destruct (get_instr M id) as [II|]; [|apply steps_refl].
  destruct (getCalledFunction M II) as [CF|] eqn:E; [|apply steps_refl].
  destruct (derived_name_not_intrinsic M II CF "" E) as [H1 H2].
  rewrite string_app_nil in H1, H2.
  set (n := lowerLLVMIntrinsicName M II) in *.
  apply (steps_trans M (getOrCreateFunction (fret CF) (fparams CF) n M));
    [now apply steps_getOrCreateFunction|].
  eapply steps_trans; [apply (steps_buildFunnelShiftLeftFunc n)|].
  apply steps_one. now constructor.
Qed.

Lemma steps_lowerUMulWithOverflow (id : nat) (M : module) :
  steps M (lowerUMulWithOverflow id M).
Proof.
  unfold lowerUMulWithOverflow.
  destruct (get_instr M id) as [II|]; [|apply steps_refl].
  destruct (getCalledFunction M II) as [CF|] eqn:E; [|apply steps_refl].
  destruct (derived_name_not_intrinsic M II CF "" E) as [H1 H2].
  rewrite string_app_nil in H1, H2.
  set (n := lowerLLVMIntrinsicName M II) in *.
  apply (steps_trans M (getOrCreateFunction (fret CF) (fparams CF) n M));
    [now apply steps_getOrCreateFunction|].
  eapply steps_trans; [apply (steps_buildUMulWithOverflowFunc n)|].
  apply steps_one. now constructor.
Qed.

Lemma steps_lowerMemset (id : nat) (M : module) : steps M (lowerMemset id M).
Proof.
  unfold lowerMemset.
  destruct (get_instr M id) as [II|]; [|apply steps_refl].
  destruct (iop II) as [callee args t n| | | | | | | |]; try apply steps_refl.
  destruct (getCalledFunction M II) as [CF|] eqn:E; [|apply steps_refl].
  destruct (isConstant _ && isConstantInt _); [apply steps_refl|].
  destruct (derived_name_not_intrinsic M II CF
              (if isVolatile args then ".volatile" else "") E) as [H1 H2].
  set (FuncName := (_ ++ _)%string) in *.
  destruct (getFunction M FuncName) as [F|] eqn:EF.
  - apply steps_one. now constructor.
  - set (D := declaration FuncName (fret CF) (fparams CF)).
    eapply steps_cons; [now apply (prim_declare M FuncName)|].
    eapply steps_cons; [now apply (prim_retarget _ id FuncName)|].
    apply steps_one. fold D.
    set (M2 := setCalledFunction id FuncName (append_function D M)).
    assert (exists G, getFunction M2 FuncName = Some G /\ empty G = true) as [G [HG EG]].
    { unfold M2, setCalledFunction, update_instr. rewrite getFunction_rewrite.
      rewrite (getFunction_append_new D FuncName M eq_refl EF). simpl. eauto. }
    apply (prim_body M2 FuncName G _ 9 HG EG).
    unfold memset_loop. destruct (isVolatile args); fresh_body_tac.
Qed.

Lemma steps_retire (U x : nat) (M : module) : steps M (retire U x M).
Proof.
  unfold retire. eapply steps_cons; [apply prim_rauw|].
  apply steps_one. apply prim_drop.
Qed.

Lemma steps_cmpxchg_users (Res : nat) (C : value) (T : ty) (us : list nat) :
  forall (M : module) (TE : list nat) (M' : module) (TE' : list nat),
    cmpxchg_users Res C T us (M, TE) = Done (M', TE') -> steps M M'.
Proof.
  induction us as [|U us IH]; intros M TE M' TE' H; simpl in H.
  - injection H as <- <-. apply steps_refl.
  - destruct (option_map iop (get_instr M U)) as [o|]; [|now apply (IH M TE M' TE')].
    destruct o as [| | | |agg idxs| |v p| |]; try now apply (IH M TE M' TE').
    + destruct idxs as [|[|[|k]] idxs]; try discriminate.
      * destruct (negb _); [discriminate|].
        eapply steps_trans; [apply (steps_retire U Res M)|].
        apply (IH _ _ M' TE' H).
      * destruct (negb _); [discriminate|].
        eapply steps_cons;
          [apply (prim_insert M U "cmpxchg.success" (TInt 1)
                    (ICmp ICMP_EQ (VInst Res) C)); reflexivity|].
        eapply steps_trans; [apply (steps_retire U (next_id M))|].
        apply (IH _ _ M' TE' H).
    + injection H as <- <-.
      eapply steps_cons;
        [apply (prim_insert M U "cmpxchg.success" (TInt 1)
                  (ICmp ICMP_EQ (VInst Res) C)); reflexivity|].
      eapply steps_cons;
        [apply (prim_insert _ U "agg0" T (InsertValue (VUndef T) (VInst Res) 0));
         reflexivity|].
      eapply steps_cons;
        [apply (prim_insert _ U "agg1" T
                  (InsertValue (VInst (next_id M + 1)) (VInst (next_id M)) 1));
         reflexivity|].
      apply steps_one. apply prim_rauw.
Qed.

Lemma get_instr_set_iop (id : nat) (o : opcode) (M : module) (II : instr) :
  get_instr M id = Some II ->
  get_instr (update_instr id (set_iop o) M) id = Some (set_iop o II).
Proof.
  intros H. rewrite get_instr_update_instr by reflexivity. rewrite H. simpl.
  destruct (get_instr_Some M id II H) as [_ ->]. now rewrite Nat.eqb_refl.
Qed.

Lemma steps_visit_call (id : nat) (M : module) (II : instr)
    (callee : value) (args : list value) (t nounwind : bool) :
  get_instr M id = Some II -> iop II = Call callee args t nounwind ->
  steps M
    (let M' := update_instr id (set_iop (Call callee args false nounwind)) M in
     match getCalledFunction M II with
     | Some CF =>
         if isIntrinsic CF then
           let M'' := update_instr id (set_iop (Call callee args false false)) M' in
           if isMemSet CF then lowerMemset id M''
           else if isFshl CF then lowerFunnelShiftLeft id M''
           else if isUMulWithOverflow CF then lowerUMulWithOverflow id M''
           else M''
         else M'
     | None => M'
     end).
Proof.
  intros HG HO. cbv zeta.
  assert (prim M (update_instr id (set_iop (Call callee args false nounwind)) M)) as P1
    by (apply (prim_flags M id II callee args t nounwind nounwind); auto).
  set (M1 := update_instr id (set_iop (Call callee args false nounwind)) M) in *.
  assert (prim M1 (update_instr id (set_iop (Call callee args false false)) M1)) as P2.
  { apply (prim_flags M1 id (set_iop (Call callee args false nounwind) II)
             callee args false nounwind false); auto.
    now apply get_instr_set_iop. }
  destruct (getCalledFunction M II) as [CF|]; [|now apply steps_one].
  destruct (isIntrinsic CF); [|now apply steps_one].
  eapply steps_cons; [exact P1|]. eapply steps_cons; [exact P2|].
  destruct (isMemSet CF); [apply steps_lowerMemset|].
  destruct (isFshl CF); [apply steps_lowerFunnelShiftLeft|].
  destruct (isUMulWithOverflow CF); [apply steps_lowerUMulWithOverflow|].
  apply steps_refl.
Qed.

Lemma pass_name_kAtomicCompareExchange : pass_name kAtomicCompareExchange = true.
Proof. reflexivity. Qed.

Lemma steps_visit (id : nat) (M : module) (TE : list nat) (M' : module) (TE' : list nat) :
  visit id (M, TE) = Done (M', TE') -> steps M M'.
Proof.
  intros H. unfold visit in H.
  destruct (get_instr M id) as [II|] eqn:E.
  2:{ injection H as <- <-. apply steps_refl. }
  set (M1 := match iop II with
             | Call _ _ _ _ => _
             | BinaryOperator _ _ _ _ _ => _
             | _ => M
             end) in H.
  assert (steps M M1) as S1.
  { unfold M1. destruct (iop II) as [callee args t n|op nuw ex a b| | | | | | |] eqn:EO;
      try apply steps_refl.
    - now apply (steps_visit_call id M II callee args t n).
    - destruct (isPossiblyExact op && ex); [|apply steps_refl].
      apply steps_one. now apply (prim_inexact M id II op nuw ex a b). }
  assert (steps M (update_instr id strip_metadata M1)) as S12.
  { eapply steps_trans; [exact S1|]. apply steps_one. apply prim_strip. }
  destruct (iop II) as [| | |Ptr Cmp Val sc fl| | | | |] eqn:EO;
    try (injection H as <- <-; assumption).
  set (M3 := addCallInstSPIRV _ _ _ _ _ _ _) in H.
  assert (steps (update_instr id strip_metadata M1) M3) as S3.
  { unfold M3, addCallInstSPIRV.
    eapply steps_trans;
      [apply steps_getOrCreateFunction, pass_name_kAtomicCompareExchange|].
    apply steps_one. now constructor. }
  destruct (cmpxchg_users _ _ _ _ _) as [msg| |[M4 TE4]] eqn:EU; try discriminate.
  pose proof (steps_cmpxchg_users _ _ _ _ _ _ _ _ EU) as S4.
  assert (M' = M4) as -> by (destruct (user_empty M4 (VInst id)); now injection H).
  eapply steps_trans; [exact S12|]. eapply steps_trans; eauto.
Qed.

Lemma steps_walk_insts (Fn : string) (fuel : nat) :
  forall (cur : option nat) (M : module) (TE : list nat) (M1 : module) (TE1 : list nat),
    walk_insts fuel Fn cur (M, TE) = Done (M1, TE1) -> steps M M1.
Proof.
  induction fuel as [|fuel IH]; intros cur M TE M1 TE1 H.
  - destruct cur; simpl in H; [discriminate|]. injection H as <- <-. apply steps_refl.
  - destruct cur as [id|].
    2:{ simpl in H. injection H as <- <-. apply steps_refl. }
    rewrite walk_insts_step in H.
    destruct (visit id (M, TE)) as [msg| |[M0 TE0]] eqn:EV; try discriminate.
    eapply steps_trans; [apply (steps_visit id M TE M0 TE0 EV)|].
    apply (IH _ M0 TE0 M1 TE1 H).
Qed.

Lemma steps_erase_all (TE : list nat) :
  forall (M1 M2 : module), erase_all TE M1 = Done M2 -> steps M1 M2.
Proof.
  induction TE as [|V TE IH]; intros M1 M2 H; simpl in H.
  - injection H as <-. apply steps_refl.
  - destruct (user_empty M1 (VInst V)); [|discriminate].
    eapply steps_cons; [apply (prim_erase M1 V)|]. now apply IH.
Qed.

Lemma steps_walk_functions (fuel : nat) :
  forall (I : option string) (M M' : module),
    walk_functions fuel I M = Done M' -> steps M M'.
Proof.
  induction fuel as [|fuel IH]; intros I M M' H.
  - destruct I; simpl in H; [discriminate|]. injection H as <-. apply steps_refl.
  - destruct I as [Fn|].
    2:{ simpl in H. injection H as <-. apply steps_refl. }
    rewrite walk_functions_step in H.
    destruct (getFunction M Fn) as [F|] eqn:HG.
    2:{ injection H as <-. apply steps_refl. }
    destruct (isDeclaration F && func_use_empty M Fn) eqn:ED.
    + apply andb_prop in ED. destruct ED as [E1 E2].
      eapply steps_cons; [apply (prim_erase_decl M Fn F HG E1 E2)|].
      apply (IH _ _ _ H).
    + destruct (walk_insts (S fuel) Fn _ (M, [])) as [msg| |[M1 TE]] eqn:HW;
        try discriminate.
      destruct (erase_all TE M1) as [msg| |M2] eqn:HE; try discriminate.
      eapply steps_trans; [apply (steps_walk_insts Fn _ _ _ _ _ _ HW)|].
      eapply steps_trans; [apply (steps_erase_all TE _ _ HE)|].
      apply (IH _ _ _ H).
Qed.

Lemma steps_eraseIfNoUse (V : nat) (M : module) : steps M (eraseIfNoUse V M).
Proof.
  unfold eraseIfNoUse. destruct (user_empty M (VInst V)); [|apply steps_refl].
  apply steps_one, prim_erase.
Qed.

Lemma steps_erase_candidates (Cs : list nat) :
  forall M : module, steps M (fold_left (fun M' I => eraseIfNoUse I M') Cs M).
Proof.
  induction Cs as [|V Cs IH]; intros M; simpl; [apply steps_refl|].
  eapply steps_trans; [apply (steps_eraseIfNoUse V)|apply IH].
Qed.

Lemma steps_lowerFuncPtr_F (F : function) (OC : string) (M : module) :
  steps M (lowerFuncPtr_F F OC M).
Proof.
  unfold lowerFuncPtr_F. cbv zeta.
  apply (steps_trans M (getOrCreateFunction (fret F) (fparams F)
                          (decorateSPIRVFunction OC) M)).
  - apply steps_getOrCreateFunction. unfold pass_name, decorateSPIRVFunction.
    now rewrite prefix_self_app, orb_true_r.
  - eapply steps_cons; [|apply steps_erase_candidates]. now constructor.
Qed.

Lemma steps_lowerFuncPtr (M : module) : steps M (lowerFuncPtr M).
Proof.
  unfold lowerFuncPtr. generalize (flat_map
    (fun F => if hasFunctionPointerArg F
              then match getSPIRVFuncOC (fname F) with
                   | Some OC => [(F, OC)]
                   | None => []
                   end
              else []) (funcs M)).
  intros Work. revert M.
  induction Work as [|[F OC] Work IH]; intros M; simpl; [apply steps_refl|].
  eapply steps_trans; [apply (steps_lowerFuncPtr_F F OC M) | apply IH].
Qed.

Lemma steps_regularize (fuel : nat) (M M' : module) :
  regularize fuel M = Done M' -> steps M M'.
Proof.
  unfold regularize. cbv zeta. intros H.
  eapply steps_cons; [apply prim_useless|].
  eapply steps_trans; [apply steps_lowerFuncPtr|].
  apply (steps_walk_functions fuel _ _ _ H).
Qed.

(** ** What every primitive change keeps *)

Lemma fresh_body_split (M : module) (k : nat) (B : list block) :
  fresh_body M k B ->
  Forall (fun j => (next_id M <= iid j < next_id M + k)%nat /\ is_clean j = true)
         (flat_map insts B) /\
  NoDup (map iid (flat_map insts B)).
Proof.
  intros [H1 H2]. split; [|exact H2].
  eapply Forall_impl; [|exact H1]. now intros j [Hj _].
Qed.

Lemma wf_erase_function (n : string) (M : module) (F : function) :
  wf M -> getFunction M n = Some F -> isDeclaration F = true ->
  wf (erase_function n M).
Proof.
  intros W HG HD.
  destruct (getFunction_split M n F W HG) as [Hn [a [b [Hf _]]]].
  rewrite <- Hn. now apply (wf_erase_declaration M a b F).
Qed.

Lemma wf_prim (M M' : module) : wf M -> prim M M' -> wf M'.
Proof.
  intros W P. destruct P.
  - now apply wf_update_instr.
  - now apply wf_update_instr.
  - apply wf_update_instr; [apply iid_strip_metadata | easy].
  - now apply sound_setCalledFunction.
  - now apply wf_dropAllReferences.
  - now apply wf_replaceAllUsesWith.
  - now apply wf_insert_new.
  - now apply wf_append_declaration.
  - match goal with HB : fresh_body _ _ _ |- _ =>
      destruct (fresh_body_split _ _ _ HB) as [B1 B2] end.
    eapply set_body; eauto.
  - eapply wf_erase_function; eauto.
  - now apply wf_eraseFromParent.
  - apply wf_rewrite_single; [|easy]. intros i. apply iid_lowerFuncPtr_call.
  - now apply wf_eraseUselessFunctions.
Qed.

Lemma wf_steps (M M' : module) : wf M -> steps M M' -> wf M'.
Proof.
  intros W S. induction S as [|A B C P S IH]; [easy|].
  apply IH. now apply (wf_prim A).
Qed.

(** A relation between modules that every primitive change of a well-formed
    module satisfies, and that is reflexive and transitive, holds all along
    the pass. *)
Lemma steps_invariant (R : module -> module -> Prop) :
  (forall M, R M M) ->
  (forall M M1 M2, R M M1 -> R M1 M2 -> R M M2) ->
  (forall M M1, wf M -> prim M M1 -> R M M1) ->
  forall M M', wf M -> steps M M' -> R M M'.
Proof.
  intros Hrefl Htrans Hprim M M' W S.
  induction S as [|A B C P S IH]; [apply Hrefl|].
  apply (Htrans A B C); [now apply Hprim|].
  apply IH. now apply (wf_prim A).
Qed.

(** X6: the pass keeps a module well formed: when it completes, the names
    of the functions are still pairwise different, the instructions still
    pairwise different, and every instruction is older than the next one to
    be created. *)
Theorem regularize_well_formed (fuel : nat) (M M' : module) :
  wf M -> regularize fuel M = Done M' -> wf M'.
Proof.
  intros W H. apply (wf_steps M M' W). now apply (steps_regularize fuel).
Qed.

Lemma regularize_well_formed_witness :
  regularize 20 mixed = Done (regularized 20 mixed) /\ wf (regularized 20 mixed).
Proof.
  split; [vm_compute; reflexivity|].
  apply (regularize_well_formed 20 mixed).
  - apply wf_check_sound. reflexivity.
  - vm_compute. reflexivity.
Defined.

(** ** Names of the functions *)

Lemma names_from_refl (M : module) : names_from M M.
Proof. intros n Hn. now left. Qed.

Lemma names_from_trans (M M1 M2 : module) :
  names_from M M1 -> names_from M1 M2 -> names_from M M2.
Proof.
  intros H1 H2 n Hn. destruct (H2 n Hn) as [X|X]; [now apply H1 | now right].
Qed.

Lemma names_from_same (M M' : module) :
  map fname (funcs M') = map fname (funcs M) -> names_from M M'.
Proof. intros E n Hn. left. now rewrite <- E. Qed.

Lemma names_from_filter (keep : function -> bool) (M : module) (k : nat) :
  names_from M (mkModule (filter keep (funcs M)) k).
Proof.
  intros n Hn. left. simpl in Hn. apply in_map_iff in Hn.
  destruct Hn as [F [<- HF]]. apply filter_In in HF. apply in_map. apply HF.
Qed.

Lemma names_from_prim (M M' : module) : prim M M' -> names_from M M'.
Proof.
  intros P. destruct P;
    try (apply names_from_same; apply names_rewrite).
  - intros m Hm. unfold append_function in Hm. cbn [funcs] in Hm.
    rewrite map_app in Hm. apply in_app_or in Hm.
    destruct Hm as [Hm|[<-|[]]]; [now left | now right].
  - apply names_from_same. change (funcs (bump k ?X)) with (funcs X).
    now apply names_update_function.
  - apply names_from_filter.
  - apply names_from_filter.
Qed.

Lemma names_from_steps (M M' : module) : steps M M' -> names_from M M'.
Proof.
  intros S. induction S as [|A B C P S IH]; [apply names_from_refl|].
  apply (names_from_trans A B C); [now apply names_from_prim | exact IH].
Qed.

Lemma pass_name_not_intrinsic (n : string) :
  pass_name n = true -> prefix "llvm." n = false.
Proof.
  unfold pass_name. destruct n as [|c n]; [reflexivity|]. intros H.
  destruct (ascii_dec "l" c) as [<-|Hl].
  - simpl in H. discriminate.
  - change (prefix "llvm." (String c n))
      with (if ascii_dec "l" c then prefix "lvm." n else false).
    destruct (ascii_dec "l" c); [contradiction | reflexivity].
Qed.

(** X7: every function the pass leaves in the module was in it before the
    pass, or carries a name that starts with [spirv.] or with [__spirv_];
    no function the pass adds has the name of an intrinsic. *)
Theorem regularize_names (fuel : nat) (M M' : module) (n : string) :
  regularize fuel M = Done M' -> In n (map fname (funcs M')) ->
  In n (map fname (funcs M)) \/
  (pass_name n = true /\ prefix "llvm." n = false).
Proof.
  intros H Hn.
  destruct (names_from_steps M M' (steps_regularize fuel M M' H) n Hn) as [X|X];
    [now left|].
  right. split; [exact X | now apply pass_name_not_intrinsic].
Qed.

Lemma regularize_names_witness :
  regularize 20 mixed = Done (regularized 20 mixed) /\
  (In "spirv.llvm_fshl_i8" (map fname (funcs mixed)) \/
   (pass_name "spirv.llvm_fshl_i8" = true /\
    prefix "llvm." "spirv.llvm_fshl_i8" = false)).
Proof.
  split; [vm_compute; reflexivity|].
  apply (regularize_names 20 mixed (regularized 20 mixed)).
  - vm_compute. reflexivity.
  - vm_compute. tauto.
Defined.

(** ** Functions that have a body *)

Lemma same_shape_refl (F : function) : same_shape F F.
Proof. repeat split. Qed.

Lemma same_shape_trans (F F1 F2 : function) :
  same_shape F F1 -> same_shape F1 F2 -> same_shape F F2.
Proof.
  intros (A1 & A2 & A3 & A4) (B1 & B2 & B3 & B4). repeat split; congruence.
Qed.

Lemma same_shape_defined (F F' : function) :
  same_shape F F' -> isDeclaration F = false -> isDeclaration F' = false.
Proof.
  intros (_ & _ & _ & H). unfold isDeclaration.
  destruct (blocks F); [discriminate|]. now destruct (blocks F').
Qed.

Lemma same_shape_map_function (g : list instr -> list instr) (F : function) :
  same_shape F (map_function g F).
Proof.
  repeat split. unfold map_function. simpl. rewrite map_map. reflexivity.
Qed.

Lemma bodies_kept_refl (M : module) : bodies_kept M M.
Proof. intros F HF _. exists F. split; [easy | apply same_shape_refl]. Qed.

Lemma bodies_kept_trans (M M1 M2 : module) :
  bodies_kept M M1 -> bodies_kept M1 M2 -> bodies_kept M M2.
Proof.
  intros H1 H2 F HF HD. destruct (H1 F HF HD) as [F1 [HF1 S1]].
  destruct (H2 F1 HF1 (same_shape_defined F F1 S1 HD)) as [F2 [HF2 S2]].
  exists F2. split; [easy | now apply (same_shape_trans F F1)].
Qed.

Lemma bodies_kept_rewrite (h : instr -> list instr) (k : nat) (M : module) :
  bodies_kept M (bump k (rewrite_instrs h M)).
Proof.
  intros F HF _. exists (map_function (flat_map h) F). split.
  - simpl. now apply in_map.
  - apply same_shape_map_function.
Qed.

Lemma bodies_kept_rewrite_only (h : instr -> list instr) (M : module) :
  bodies_kept M (rewrite_instrs h M).
Proof.
  rewrite <- (bump_0 (rewrite_instrs h M)). apply bodies_kept_rewrite.
Qed.

Lemma bodies_kept_others (M M' : module) (n : string) (F0 : function) :
  wf M -> getFunction M n = Some F0 -> isDeclaration F0 = true ->
  (forall G, In G (funcs M) -> String.eqb (fname G) n = false -> In G (funcs M')) ->
  bodies_kept M M'.
Proof.
  intros W HG HD H F HF HFd.
  destruct (getFunction_split M n F0 W HG) as [Hn [a [b [Hf Hab]]]].
  exists F. split; [|apply same_shape_refl]. apply (H F HF). apply Hab.
  rewrite Hf in HF. apply in_app_or in HF. apply in_or_app.
  destruct HF as [HF|[HF|HF]]; [now left | congruence | now right].
Qed.

Lemma bodies_kept_prim (M M' : module) : wf M -> prim M M' -> bodies_kept M M'.
Proof.
  intros W P. destruct P;
    try apply bodies_kept_rewrite_only; try apply bodies_kept_rewrite.
  - intros G HG _. exists G. split; [|apply same_shape_refl].
    simpl. apply in_or_app. now left.
  - apply (bodies_kept_others M _ n F W); auto.
    intros G HG HN. simpl. apply in_map_iff. exists G. now rewrite HN.
  - apply (bodies_kept_others M _ n F W); auto.
    intros G HG HN. simpl. apply filter_In. now rewrite HN.
  - intros G HG HD. exists G. split; [|apply same_shape_refl].
    simpl. apply filter_In. now rewrite HD.
Qed.

Lemma wf_getFunction (M : module) (F : function) :
  wf M -> In F (funcs M) -> getFunction M (fname F) = Some F.
Proof.
  intros W H. apply in_split in H. destruct H as [a [b Hf]].
  now destruct (cursor_found M a b F W Hf) as (_ & _ & HG & _).
Qed.

(** X8: a function that has a body is never removed by the pass and keeps
    its name, its signature and its blocks, in their order; only the
    instructions inside the blocks change. *)
Theorem regularize_keeps_bodies (fuel : nat) (M M' : module) (F : function) :
  wf M -> regularize fuel M = Done M' ->
  In F (funcs M) -> isDeclaration F = false ->
  exists F', getFunction M' (fname F) = Some F' /\
             fret F' = fret F /\ fparams F' = fparams F /\
             map bname (blocks F') = map bname (blocks F).
Proof.
  intros W H HF HD.
  pose proof (steps_regularize fuel M M' H) as S.
  destruct (steps_invariant bodies_kept bodies_kept_refl bodies_kept_trans
              bodies_kept_prim M M' W S F HF HD) as [F' [HF' (A & B & C & D)]].
  exists F'. split; [|easy]. rewrite <- A.
  apply wf_getFunction; [|exact HF']. now apply (wf_steps M).
Qed.

Lemma regularize_keeps_bodies_witness :
  regularize 20 mixed = Done (regularized 20 mixed) /\
  exists F', getFunction (regularized 20 mixed) "f" = Some F' /\
             fret F' = TInt 8 /\ fparams F' = [TInt 8; TInt 8; TInt 8; TPtr] /\
             map bname (blocks F') = ["entry"].
Proof.
  split; [vm_compute; reflexivity|].
  apply (regularize_keeps_bodies 20 mixed (regularized 20 mixed)
           (hd (declaration "" TVoid []) (funcs mixed))).
  - apply wf_check_sound. reflexivity.
  - vm_compute. reflexivity.
  - left. reflexivity.
  - reflexivity.
Defined.

(** ** No instruction moves from one function to another *)

Lemma from_ids_ext (n0 n1 : nat) (l l' : list instr) :
  ext n0 n1 l l' -> from_ids n0 l l'.
Proof.
  intros E j Hj. destruct (ext_In n0 n1 l l' j E Hj) as [[X _]|[i [A [B _]]]].
  - left. lia.
  - right. exists i. now split.
Qed.

Lemma located_fext (n0 n1 : nat) (fs fs' : list function) :
  fext n0 n1 fs fs' ->
  exists olds news,
    fs' = olds ++ news /\
    Forall2 (fun G G2 => fname G2 = fname G /\
                         from_ids n0 (instrs_of G) (instrs_of G2)) fs olds /\
    Forall (fun G => from_ids n0 [] (instrs_of G)) news.
Proof.
  intros E. induction E as [news H|F F' l l' Hn HE E IH].
  - exists [], news. split; [reflexivity|]. split; [constructor|].
    eapply Forall_impl; [|exact H]. intros G HG. now apply (from_ids_ext n0 n1).
  - destruct IH as (olds & news & -> & H1 & H2).
    exists (F' :: olds), news. split; [reflexivity|]. split; [|easy].
    constructor; [|easy]. split; [easy|]. now apply (from_ids_ext n0 n1).
Qed.

Lemma located_evolves (M M1 : module) : evolves M M1 -> located M M1.
Proof. intros [_ E]. now apply (located_fext _ _ _ _ E). Qed.

Lemma instrs_of_filter (keep : instr -> bool) (F : function) :
  instrs_of (map_function (filter keep) F) = filter keep (instrs_of F).
Proof.
  unfold instrs_of, map_function. simpl.
  induction (blocks F) as [|b l IH]; simpl; [easy|].
  now rewrite filter_app, IH.
Qed.

Lemma from_ids_filter (n0 : nat) (keep : instr -> bool) (l : list instr) (G : function) :
  from_ids n0 l (instrs_of G) ->
  from_ids n0 l (instrs_of (map_function (filter keep) G)).
Proof.
  intros H j Hj. rewrite instrs_of_filter in Hj. apply filter_In in Hj.
  apply H. apply Hj.
Qed.

Lemma located_eraseFromParent (V : nat) (M M1 : module) :
  located M M1 -> located M (eraseFromParent V M1).
Proof.
  intros (olds & news & Hf & H2 & Hnews).
  rewrite eraseFromParent_filter. unfold located. simpl. rewrite Hf, map_app.
  eexists. eexists. split; [reflexivity|]. split.
  - clear Hf. induction H2 as [|F F' l l' [Ha Hb] H2 IH]; simpl; constructor; auto.
    split; [easy|]. now apply from_ids_filter.
  - clear Hf. induction Hnews; simpl; constructor; auto.
    now apply from_ids_filter.
Qed.

Lemma located_erase_all (TE : list nat) :
  forall (M M1 M2 : module),
    located M M1 -> erase_all TE M1 = Done M2 -> located M M2.
Proof.
  induction TE as [|V TE IH]; intros M M1 M2 L H; simpl in H.
  - now injection H as <-.
  - destruct (user_empty M1 (VInst V)); [|discriminate].
    apply (IH M (eraseFromParent V M1)); [|exact H].
    now apply located_eraseFromParent.
Qed.

(** ** Instructions as the walk leaves them, along the pass *)

Section GoodWalk.

Variable goodop : opcode -> bool.

Hypothesis good_subst : forall o old x,
  goodop o = true -> goodop (map_operands (subst_value old (VInst x)) o) = true.
Hypothesis good_drop : forall o,
  goodop o = true -> goodop (map_operands (fun _ => VNull) o) = true.
Hypothesis good_retarget : forall c F a a' t n,
  prefix "llvm." F = false ->
  goodop (Call c a t n) = true -> goodop (Call (VFunc F) a' t n) = true.
Hypothesis good_flags : forall c a t n n',
  n' = n \/ n' = false ->
  goodop (Call c a t n) = true -> goodop (Call c a false n') = true.
Hypothesis good_inexact : forall op nuw ex a b,
  goodop (BinaryOperator op nuw ex a b) = true ->
  goodop (BinaryOperator op nuw false a b) = true.
Hypothesis good_created : forall o, created o = true -> goodop o = true.

Lemma offenders_refl (M : module) : offenders_from goodop M M.
Proof.
  intros i Hi. destruct (goodop (iop i)) eqn:E; [now left|].
  right. now exists i.
Qed.

Lemma offenders_trans (M M1 M2 : module) :
  offenders_from goodop M M1 -> offenders_from goodop M1 M2 ->
  offenders_from goodop M M2.
Proof.
  intros H1 H2 i2 Hi2. destruct (H2 i2 Hi2) as [X|[i1 [A [B C]]]]; [now left|].
  destruct (H1 i1 A) as [X|[i [A' [B' C']]]]; [congruence|].
  right. exists i. split; [easy|]. split; [congruence | easy].
Qed.

Lemma offenders_subset (M M' : module) :
  (forall i, In i (all_instrs M') -> In i (all_instrs M)) ->
  offenders_from goodop M M'.
Proof.
  intros H i Hi. destruct (goodop (iop i)) eqn:E; [now left|].
  right. exists i. split; [now apply H | easy].
Qed.

Lemma offenders_rewrite (h : instr -> list instr) (k : nat) (M : module) :
  (forall i j, In i (all_instrs M) -> In j (h i) ->
     goodop (iop j) = true \/ (iid j = iid i /\ goodop (iop i) = false)) ->
  offenders_from goodop M (bump k (rewrite_instrs h M)).
Proof.
  intros H j Hj.
  change (all_instrs (bump k ?X)) with (all_instrs X) in Hj.
  rewrite all_instrs_rewrite in Hj. apply in_flat_map in Hj.
  destruct Hj as [i [Hi Hj]].
  destruct (H i j Hi Hj) as [X|[X Y]]; [now left|].
  right. exists i. split; [easy|]. split; [congruence | easy].
Qed.

Lemma offenders_single (f : instr -> instr) (M : module) :
  (forall i, In i (all_instrs M) ->
     iid (f i) = iid i /\ (goodop (iop i) = true -> goodop (iop (f i)) = true)) ->
  offenders_from goodop M (rewrite_instrs (fun i => [f i]) M).
Proof.
  intros H. rewrite <- (bump_0 (rewrite_instrs _ M)).
  apply offenders_rewrite. intros i j Hi [<-|[]].
  destruct (H i Hi) as [A B].
  destruct (goodop (iop i)) eqn:E; [left; now apply B | right; now split].
Qed.

Lemma offenders_update_instr (id : nat) (g : instr -> instr) (M : module) :
  (forall i, In i (all_instrs M) -> iid i = id ->
     iid (g i) = iid i /\ (goodop (iop i) = true -> goodop (iop (g i)) = true)) ->
  offenders_from goodop M (update_instr id g M).
Proof.
  intros H. unfold update_instr.
  apply (offenders_single (fun i => if Nat.eqb (iid i) id then g i else i)).
  intros i Hi. destruct (Nat.eqb (iid i) id) eqn:E; [|now split].
  apply Nat.eqb_eq in E. now apply H.
Qed.

Lemma the_instr (M : module) (id : nat) (II i : instr) :
  wf M -> get_instr M id = Some II -> In i (all_instrs M) -> iid i = id -> i = II.
Proof.
  intros W HG Hi Hid. destruct (get_instr_Some M id II HG) as [HI HIid].
  apply (NoDup_ids_eq (all_instrs M)); [apply W | easy | easy | congruence].
Qed.

Lemma all_instrs_set_body (M : module) (n : string) (F : function) (B : list block)
    (k : nat) (j : instr) :
  wf M -> getFunction M n = Some F ->
  In j (all_instrs (bump k (update_function n (set_blocks B) M))) ->
  In j (flat_map insts B) \/ In j (all_instrs M).
Proof.
  intros W HG Hj.
  destruct (getFunction_split M n F W HG) as [Hn [a [b [Hf Hab]]]].
  destruct M as [fs nid]. simpl in Hf. subst fs.
  rewrite (update_function_split n _ a b F nid Hn Hab) in Hj.
  unfold all_instrs in *. simpl in *. rewrite flat_map_app in *. simpl in *.
  rewrite !in_app_iff in *. rewrite instrs_of_set_blocks in Hj. tauto.
Qed.

Lemma all_instrs_filter_functions (keep : function -> bool) (M : module) (k : nat)
    (i : instr) :
  In i (all_instrs (mkModule (filter keep (funcs M)) k)) -> In i (all_instrs M).
Proof.
  unfold all_instrs. simpl. intros H. apply in_flat_map in H.
  destruct H as [F [HF Hi]]. apply filter_In in HF. apply in_flat_map.
  exists F. split; [apply HF | exact Hi].
Qed.

Lemma offenders_prim (M M' : module) :
  wf M -> prim M M' -> offenders_from goodop M M'.
Proof.
  intros W P. destruct P.
  - apply offenders_update_instr. intros i Hi Hid. split; [reflexivity|].
    rewrite (the_instr M id II i W H Hi Hid), H0. simpl. now apply good_flags.
  - apply offenders_update_instr. intros i Hi Hid. split; [reflexivity|].
    rewrite (the_instr M id II i W H Hi Hid), H0. simpl. apply good_inexact.
  - apply offenders_update_instr. intros i Hi Hid.
    split; [apply iid_strip_metadata | now rewrite iop_strip_metadata].
  - unfold setCalledFunction. apply offenders_update_instr. intros i Hi Hid.
    destruct (iop i) eqn:E; split; try reflexivity; try (now rewrite E).
    simpl. now apply good_retarget.
  - unfold dropAllReferences. apply offenders_update_instr. intros i Hi Hid.
    split; [reflexivity | apply good_drop].
  - unfold replaceAllUsesWith. apply offenders_single. intros i Hi.
    split; [reflexivity | apply good_subst].
  - unfold insert_new, insert_before. apply offenders_rewrite. intros i j Hi Hj.
    destruct (Nat.eqb (iid i) pos).
    + destruct Hj as [<-|[<-|[]]].
      * left. simpl. now apply good_created.
      * destruct (goodop (iop i)) eqn:E; [now left | right; now split].
    + destruct Hj as [<-|[]].
      destruct (goodop (iop i)) eqn:E; [now left | right; now split].
  - apply offenders_subset. intros i Hi.
    rewrite all_instrs_append_function in Hi. simpl in Hi.
    now rewrite app_nil_r in Hi.
  - intros j Hj. destruct (all_instrs_set_body M n F B k j W H Hj) as [X|X].
    + left. destruct H1 as [H1 _]. rewrite Forall_forall in H1.
      apply good_created. now apply H1.
    + now apply offenders_refl.
  - apply offenders_subset. intros i. apply all_instrs_filter_functions.
  - apply offenders_subset. intros i Hi. unfold eraseFromParent in Hi.
    rewrite all_instrs_rewrite, erase_as_filter in Hi. apply filter_In in Hi. tauto.
  - apply offenders_single. intros i Hi. split; [apply iid_lowerFuncPtr_call|].
    unfold lowerFuncPtr_call.
    destruct (iop i) as [[| | | | |callee| |] args t n| | | | | | | |] eqn:E;
      try (now rewrite E).
    destruct (String.eqb callee (fname F)); [|now rewrite E].
    simpl. now apply good_retarget.
  - apply offenders_subset. intros i. apply all_instrs_filter_functions.
Qed.

Lemma offenders_steps (M M' : module) :
  wf M -> steps M M' -> offenders_from goodop M M'.
Proof.
  apply steps_invariant;
    [apply offenders_refl | apply offenders_trans | apply offenders_prim].
Qed.

Lemma good_at_offenders (id : nat) (M M' : module) :
  good_at goodop id M -> offenders_from goodop M M' -> good_at goodop id M'.
Proof.
  intros G O i' Hi' Hid. destruct (O i' Hi') as [X|[i [A [B C]]]]; [easy|].
  rewrite (G i A) in C; [discriminate | congruence].
Qed.

(** The walk: [live] is what the walk needs of the module to deal with an
    instruction; it holds all along when it holds at the end. *)
Variable live : module -> Prop.

Hypothesis live_back : forall M M', names_from M M' -> live M' -> live M.

Hypothesis visit_good : forall id M TE M' TE',
  wf M -> live M -> visit id (M, TE) = Done (M', TE') -> good_at goodop id M'.

Lemma live_steps (M M' : module) : steps M M' -> live M' -> live M.
Proof. intros S. apply live_back. now apply names_from_steps. Qed.

Lemma good_descendants (M M' : module) (l l' : list instr) :
  wf M -> offenders_from goodop M M' ->
  (forall i, In i l -> In i (all_instrs M)) ->
  (forall j, In j l' -> In j (all_instrs M')) ->
  from_ids (next_id M) l l' ->
  Forall (fun i => goodop (iop i) = true) l ->
  Forall (fun i => goodop (iop i) = true) l'.
Proof.
  intros W O Hl Hl' Hf Hg. apply Forall_forall. intros j Hj.
  destruct (O j (Hl' j Hj)) as [X|[i0 [A [B C]]]]; [easy|].
  exfalso. destruct (Hf j Hj) as [X|[i [X Y]]].
  - pose proof (wf_bound M W) as Bd. rewrite Forall_forall in Bd.
    specialize (Bd i0 A). lia.
  - assert (i = i0) as ->
      by (apply (NoDup_ids_eq (all_instrs M)); [apply W | auto | auto | congruence]).
    rewrite Forall_forall in Hg. rewrite (Hg i0 X) in C. discriminate.
Qed.

Lemma walk_insts_good (fuel : nat) (Fn : string) :
  forall (cur : option nat) (M : module) (TE : list nat) (M1 : module)
         (TE1 : list nat) (F : function) (pre post : list instr),
    wf M -> live M1 -> getFunction M Fn = Some F -> instrs_of F = pre ++ post ->
    Forall (fun i => goodop (iop i) = true) pre ->
    hd_error (map iid post) = cur ->
    walk_insts fuel Fn cur (M, TE) = Done (M1, TE1) ->
    exists F1, getFunction M1 Fn = Some F1 /\ all_good goodop F1.
Proof.
  induction fuel as [|fuel IH]; intros cur M TE M1 TE1 F pre post W L HF Hl Hpre Hcur H.
  - destruct cur as [id|]; simpl in H; [discriminate|].
    injection H as <- <-. exists F. split; [easy|]. unfold all_good. rewrite Hl.
    destruct post; [|discriminate]. now rewrite app_nil_r.
  - destruct cur as [id|].
    2:{ simpl in H. injection H as <- <-. exists F. split; [easy|].
        unfold all_good. rewrite Hl.
        destruct post; [|discriminate]. now rewrite app_nil_r. }
    destruct post as [|c post]; [discriminate|]. simpl in Hcur.
    injection Hcur as Hid. rewrite walk_insts_step in H.
    destruct (visit id (M, TE)) as [msg| |[M' TE']] eqn:EV; try discriminate.
    pose proof (steps_visit id M TE M' TE' EV) as SV.
    pose proof (live_steps M' M1 (steps_walk_insts Fn fuel _ _ _ _ _ H) L) as L'.
    pose proof (live_steps M M' SV L') as L0.
    destruct (sound_visit id M TE M' TE' W EV) as [S _].
    pose proof (visit_good id M TE M' TE' W L0 EV) as C.
    pose proof (offenders_steps M M' W SV) as O.
    destruct (evolves_getFunction M M' Fn F (proj2 S) HF) as [F' [HF' E]].
    rewrite Hl in E.
    destruct (ext_split _ _ pre post c _ E)
      as (pre' & c' & post' & Hl' & E1 & Hc1 & Hc2 & E2).
    pose proof (getFunction_In M' Fn F' HF') as HIn.
    pose proof (getFunction_In M Fn F HF) as HIn0.
    pose proof (NoDup_instrs_of M' F' (proj1 S) HIn) as ND.
    rewrite Hl', map_app in ND. simpl in ND.
    assert (~ In id (map iid pre')) as Hnot.
    { intros X. apply NoDup_remove_2 in ND. apply ND.
      apply in_or_app. left. now rewrite Hc1, Hid. }
    simpl in H. unfold inst_ids in H. rewrite HF', Hl', map_app in H. simpl in H.
    rewrite Hc1, Hid, (next_after_app _ _ id Hnot) in H.
    assert (goodop (iop c') = true) as Cc.
    { apply C; [|congruence]. apply (instrs_of_incl M' F'); [easy|].
      rewrite Hl'. apply in_or_app. right. now left. }
    apply (IH (hd_error (map iid post')) M' TE' M1 TE1 F' (pre' ++ [c']) post'
              (proj1 S) L HF'); auto.
    + now rewrite <- app_assoc.
    + apply Forall_app. split; [|now constructor].
      apply (good_descendants M M' pre pre' W O).
      * intros i Hi. apply (instrs_of_incl M F); [easy|].
        rewrite Hl. apply in_or_app. now left.
      * intros j Hj. apply (instrs_of_incl M' F'); [easy|].
        rewrite Hl'. apply in_or_app. now left.
      * now apply (from_ids_ext _ (next_id M')).
      * exact Hpre.
Qed.

Lemma erase_all_good (TE : list nat) (n : string) :
  forall (M1 M2 : module) (F1 : function),
    erase_all TE M1 = Done M2 -> getFunction M1 n = Some F1 -> all_good goodop F1 ->
    exists F2, getFunction M2 n = Some F2 /\ all_good goodop F2.
Proof.
  induction TE as [|V TE IH]; intros M1 M2 F1 H HF HC; simpl in H.
  - injection H as <-. eauto.
  - destruct (user_empty M1 (VInst V)); [|discriminate].
    eapply (IH _ _ _ H).
    + unfold eraseFromParent. rewrite getFunction_rewrite, HF. reflexivity.
    + unfold all_good in *. rewrite instrs_of_map_function, erase_as_filter.
      rewrite Forall_forall in *. intros i Hi. apply filter_In in Hi. now apply HC.
Qed.

Lemma ginv_next (M2 : module) (d2 t2 news : list function) (F2 : function) :
  funcs M2 = (d2 ++ F2 :: t2) ++ news ->
  Forall (all_good goodop) d2 -> all_good goodop F2 ->
  Forall (all_good goodop) news ->
  ginv goodop M2 (hd_error (map fname t2)).
Proof.
  intros Hf Hd HF Hn. destruct t2 as [|G t2]; cbn [map hd_error ginv].
  - rewrite Hf. apply Forall_app. split; [|easy].
    apply Forall_app. split; [easy | now constructor].
  - exists (d2 ++ [F2]), G, (t2 ++ news). split; [|split; [|reflexivity]].
    + rewrite Hf, <- !app_assoc. reflexivity.
    + apply Forall_app. split; [easy | now constructor].
Qed.

Lemma Forall2_In_r {A B} (R : A -> B -> Prop) (l : list A) (l' : list B) (y : B) :
  Forall2 R l l' -> In y l' -> exists x, In x l /\ R x y.
Proof.
  intros H. induction H as [|a b l l' Hab H IH]; intros Hy; [destruct Hy|].
  destruct Hy as [<-|Hy].
  - exists a. split; [now left | easy].
  - destruct (IH Hy) as [x [Hx HR]]. exists x. split; [now right | easy].
Qed.

Lemma good_turn (fuel : nat) (M M1 M2 : module) (TE : list nat)
    (done todo : list function) (F : function) :
  wf M -> live M2 -> funcs M = done ++ F :: todo ->
  Forall (all_good goodop) done ->
  walk_insts fuel (fname F) (hd_error (map iid (instrs_of F))) (M, []) = Done (M1, TE) ->
  erase_all TE M1 = Done M2 ->
  wf M2 /\ ginv goodop M2 (hd_error (map fname todo)).
Proof.
  intros W L Hf Hd HW HE.
  destruct (cursor_found M done todo F W Hf) as (X1 & X2 & HG & _).
  destruct (walk_insts_sound fuel (fname F) _ M [] M1 TE F [] (instrs_of F)
              W HG eq_refl (Forall_nil _) eq_refl HW) as [[W1 E1] _].
  pose proof (steps_erase_all TE M1 M2 HE) as SE.
  pose proof (steps_walk_insts (fname F) fuel _ _ _ _ _ HW) as SW.
  pose proof (live_steps M1 M2 SE L) as L1.
  destruct (walk_insts_good fuel (fname F) _ M [] M1 TE F [] (instrs_of F)
              W L1 HG eq_refl (Forall_nil _) eq_refl HW) as [F1 [HF1 C1]].
  destruct (erase_all_good TE (fname F) M1 M2 F1 HE HF1 C1) as [F2 [HF2 C2]].
  pose proof (wf_steps M1 M2 W1 SE) as W2.
  pose proof (located_erase_all TE M M1 M2 (located_evolves M M1 E1) HE) as Lc.
  pose proof (offenders_steps M M2 W (steps_trans M M1 M2 SW SE)) as O.
  split; [easy|].
  destruct Lc as (olds & news & Hf2 & H2 & Hnews).
  rewrite Hf in H2.
  apply Forall2_app_inv_l in H2. destruct H2 as (d2 & r2 & Hd2 & Hr2 & ->).
  inversion Hr2 as [|? G2 ? t2 [Hn2 Hc2] Ht2]; subst.
  pose proof (Forall2_names _ _ _ Hd2) as Nd.
  pose proof (Forall2_names _ _ _ Ht2) as Nt.
  assert (G2 = F2) as ->.
  { unfold getFunction in HF2. rewrite Hf2, <- app_assoc in HF2.
    rewrite find_skip in HF2 by now rewrite Nd.
    simpl in HF2. rewrite Hn2, String.eqb_refl in HF2. congruence. }
  rewrite <- Nt. apply (ginv_next M2 d2 t2 news F2); auto.
  - apply Forall_forall. intros G' HG'.
    destruct (Forall2_In_r _ _ _ G' Hd2 HG') as [G [HGd [_ HGf]]].
    rewrite Forall_forall in Hd.
    apply (good_descendants M M2 (instrs_of G) (instrs_of G') W O); auto.
    + intros i Hi. apply (instrs_of_incl M G); [|easy].
      rewrite Hf. apply in_or_app. now left.
    + intros j Hj. apply (instrs_of_incl M2 G'); [|easy].
      rewrite Hf2. apply in_or_app. left. apply in_or_app. now left.
    + now apply Hd.
  - apply Forall_forall. intros G' HG'.
    rewrite Forall_forall in Hnews.
    apply (good_descendants M M2 [] (instrs_of G') W O); auto.
    + intros i [].
    + intros j Hj. apply (instrs_of_incl M2 G'); [|easy].
      rewrite Hf2. apply in_or_app. now right.
Qed.

Lemma walk_functions_good (fuel : nat) :
  forall (I : option string) (M M' : module),
    wf M -> live M' -> ginv goodop M I -> walk_functions fuel I M = Done M' ->
    Forall (all_good goodop) (funcs M').
Proof.
  induction fuel as [|fuel IH]; intros I M M' W L HI H.
  - destruct I as [Fn|]; simpl in H; [discriminate|]. now injection H as <-.
  - destruct I as [Fn|].
    2:{ simpl in H. now injection H as <-. }
    destruct HI as (done & F & todo & Hf & Hd & <-).
    destruct (cursor_found M done todo F W Hf) as (X1 & X2 & HG & HN).
    rewrite walk_functions_step, HG, HN in H.
    destruct (isDeclaration F && func_use_empty M (fname F)) eqn:ED.
    + apply andb_prop in ED. destruct ED as [ED _].
      pose proof (wf_erase_declaration M done todo F W Hf ED) as We.
      pose proof (erase_function_cursor M done todo F W Hf) as Fe.
      apply (IH (hd_error (map fname todo)) (erase_function (fname F) M) M' We L);
        [|exact H].
      destruct todo as [|T todo]; unfold ginv; cbn [map hd_error].
      * now rewrite Fe, app_nil_r.
      * exists done, T, todo. now rewrite Fe.
    + destruct (walk_insts (S fuel) (fname F) _ (M, [])) as [msg| |[M1 TE]] eqn:HW;
        try discriminate.
      destruct (erase_all TE M1) as [msg| |M2] eqn:HE; try discriminate.
      pose proof (live_steps M2 M' (steps_walk_functions fuel _ _ _ H) L) as L2.
      destruct (good_turn (S fuel) M M1 M2 TE done todo F W L2 Hf Hd HW HE)
        as (W2 & I2).
      apply (IH (hd_error (map fname todo)) M2 M' W2 L I2 H).
Qed.

Lemma ginv_start (M : module) : ginv goodop M (hd_error (map fname (funcs M))).
Proof.
  destruct (funcs M) as [|F l] eqn:E; cbn [map hd_error ginv].
  - rewrite E. constructor.
  - exists [], F, l. rewrite E. repeat split. constructor.
Qed.

(** When the pass completes, every instruction of the module is as the
    walk leaves it. *)
Lemma regularize_good (fuel : nat) (M M' : module) :
  wf M -> live M' -> regularize fuel M = Done M' ->
  forall i, In i (all_instrs M') -> goodop (iop i) = true.
Proof.
  intros W L H. unfold regularize in H. cbv zeta in H.
  pose proof (wf_eraseUselessFunctions M W) as W1.
  destruct (descent_lowerFuncPtr _ W1) as (W2 & _).
  pose proof (walk_functions_good fuel _ _ M' W2 L (ginv_start _) H) as G.
  intros i Hi. unfold all_instrs in Hi. apply in_flat_map in Hi.
  destruct Hi as [F [HF Hi]]. rewrite Forall_forall in G.
  specialize (G F HF). unfold all_good in G. rewrite Forall_forall in G. now apply G.
Qed.
End GoodWalk.

(** ** What one visit does to the instruction it is at *)

Lemma good_at_set_iop (goodop : opcode -> bool) (id : nat) (o : opcode) (M : module) :
  goodop o = true -> good_at goodop id (update_instr id (set_iop o) M).
Proof.
  intros H i Hi Hid. unfold update_instr in Hi. rewrite all_instrs_rewrite in Hi.
  apply in_flat_map in Hi. destruct Hi as [j [Hj [<-|[]]]].
  destruct (Nat.eqb (iid j) id) eqn:E; [exact H|].
  apply Nat.eqb_neq in E. contradiction.
Qed.

Lemma good_at_the_instr (goodop : opcode -> bool) (id : nat) (M : module) (II : instr) :
  wf M -> get_instr M id = Some II -> goodop (iop II) = true -> good_at goodop id M.
Proof.
  intros W HG H i Hi Hid. now rewrite (the_instr M id II i W HG Hi Hid).
Qed.

Lemma good_at_absent (goodop : opcode -> bool) (id : nat) (M : module) :
  get_instr M id = None -> good_at goodop id M.
Proof.
  intros E i Hi Hid. unfold get_instr in E.
  pose proof (find_none _ _ E i Hi) as X. simpl in X.
  rewrite Hid, Nat.eqb_refl in X. discriminate.
Qed.

(** The visit of a call: the module after the tail-call mark is cleared,
    after the attribute is removed, and after the call is redirected, each
    followed by the rest of the visit. *)
Lemma visit_call_phases (id : nat) (M : module) (TE : list nat) (M' : module)
    (TE' : list nat) (II : instr) (c : value) (a : list value) (t n : bool) :
  get_instr M id = Some II -> iop II = Call c a t n ->
  visit id (M, TE) = Done (M', TE') ->
  let Ma := update_instr id (set_iop (Call c a false n)) M in
  let Mb := update_instr id (set_iop (Call c a false false)) Ma in
  steps Ma M' /\
  forall CF, getCalledFunction M II = Some CF -> isIntrinsic CF = true ->
    steps Mb M' /\
    (isMemSet CF = false -> isFshl CF = true ->
     steps (lowerFunnelShiftLeft id Mb) M') /\
    (isMemSet CF = false -> isFshl CF = false -> isUMulWithOverflow CF = true ->
     steps (lowerUMulWithOverflow id Mb) M').
Proof.
  intros HG HO H. cbv zeta. unfold visit in H. rewrite HG, HO in H.
  injection H as <- _.
  set (Ma := update_instr id (set_iop (Call c a false n)) M).
  set (Mb := update_instr id (set_iop (Call c a false false)) Ma).
  assert (prim Ma Mb) as Pb.
  { apply (prim_flags Ma id (set_iop (Call c a false n) II) c a false n false); auto.
    now apply get_instr_set_iop. }
  assert (forall X, steps X (update_instr id strip_metadata X)) as St
    by (intros X; apply steps_one, prim_strip).
  split.
  - destruct (getCalledFunction M II) as [CF|]; [|apply St].
    destruct (isIntrinsic CF); [|apply St].
    eapply steps_cons; [exact Pb|].
    eapply steps_trans; [|apply St].
    destruct (isMemSet CF); [apply steps_lowerMemset|].
    destruct (isFshl CF); [apply steps_lowerFunnelShiftLeft|].
    destruct (isUMulWithOverflow CF); [apply steps_lowerUMulWithOverflow|].
    apply steps_refl.
  - intros CF HCF HI. rewrite HCF, HI. split; [|split].
    + eapply steps_trans; [|apply St].
      destruct (isMemSet CF); [apply steps_lowerMemset|].
      destruct (isFshl CF); [apply steps_lowerFunnelShiftLeft|].
      destruct (isUMulWithOverflow CF); [apply steps_lowerUMulWithOverflow|].
      apply steps_refl.
    + intros -> ->. apply St.
    + intros -> -> ->. apply St.
Qed.

(** The visit of a binary operator and of any other instruction. *)
Lemma visit_other_phases (id : nat) (M : module) (TE : list nat) (M' : module)
    (TE' : list nat) (II : instr) :
  get_instr M id = Some II -> visit id (M, TE) = Done (M', TE') ->
  match iop II with
  | Call _ _ _ _ => True
  | BinaryOperator op nuw ex a b =>
      steps (if isPossiblyExact op && ex
             then update_instr id (set_iop (BinaryOperator op nuw false a b)) M
             else M) M'
  | _ => steps M M'
  end.
Proof.
  intros HG H. pose proof (steps_visit id M TE M' TE' H) as S.
  destruct (iop II) as [| op nuw ex a b | | | | | | |] eqn:HO; auto.
  unfold visit in H. rewrite HG, HO in H. injection H as <- _.
  apply steps_one, prim_strip.
Qed.

(** An instruction that is as the walk leaves it once its flags are cleared
    is so when the visit is over, if nothing in the pass undoes it. *)
Lemma visit_good_after (goodop : opcode -> bool) (id : nat) (M : module)
    (TE : list nat) (M' : module) (TE' : list nat) (II : instr) :
  (forall N N', wf N -> steps N N' -> offenders_from goodop N N') ->
  wf M -> get_instr M id = Some II -> visit id (M, TE) = Done (M', TE') ->
  goodop (after_flags (iop II)) = true -> good_at goodop id M'.
Proof.
  intros Hoff W HG H HA.
  pose proof (visit_other_phases id M TE M' TE' II HG H) as S.
  destruct (iop II) as [c a t n| op nuw ex x y | | | | | | |] eqn:HO.
  - destruct (visit_call_phases id M TE M' TE' II c a t n HG HO H) as [S' _].
    apply (good_at_offenders goodop id _ M'
             (good_at_set_iop goodop id (Call c a false n) M HA)).
    apply Hoff; [|exact S']. now apply wf_update_instr.
  - simpl in HA. destruct (isPossiblyExact op && ex).
    + apply (good_at_offenders goodop id _ M'
               (good_at_set_iop goodop id (BinaryOperator op nuw false x y) M HA)).
      apply Hoff; [|exact S]. now apply wf_update_instr.
    + apply (good_at_offenders goodop id M M'); [|now apply Hoff].
      apply (good_at_the_instr goodop id M II W HG). now rewrite HO.
  - apply (good_at_offenders goodop id M M'); [|now apply Hoff].
    apply (good_at_the_instr goodop id M II W HG). now rewrite HO.
  - apply (good_at_offenders goodop id M M'); [|now apply Hoff].
    apply (good_at_the_instr goodop id M II W HG). now rewrite HO.
  - apply (good_at_offenders goodop id M M'); [|now apply Hoff].
    apply (good_at_the_instr goodop id M II W HG). now rewrite HO.
  - apply (good_at_offenders goodop id M M'); [|now apply Hoff].
    apply (good_at_the_instr goodop id M II W HG). now rewrite HO.
  - apply (good_at_offenders goodop id M M'); [|now apply Hoff].
    apply (good_at_the_instr goodop id M II W HG). now rewrite HO.
  - apply (good_at_offenders goodop id M M'); [|now apply Hoff].
    apply (good_at_the_instr goodop id M II W HG). now rewrite HO.
  - apply (good_at_offenders goodop id M M'); [|now apply Hoff].
    apply (good_at_the_instr goodop id M II W HG). now rewrite HO.
Qed.

Lemma visit_absent (goodop : opcode -> bool) (id : nat) (M : module)
    (TE : list nat) (M' : module) (TE' : list nat) :
  get_instr M id = None -> visit id (M, TE) = Done (M', TE') ->
  good_at goodop id M'.
Proof.
  intros HG H. unfold visit in H. rewrite HG in H. injection H as <- _.
  now apply good_at_absent.
Qed.

(** ** Tail calls *)

Lemma no_tail_subst (o : opcode) (old : value) (x : nat) :
  no_tail o = true -> no_tail (map_operands (subst_value old (VInst x)) o) = true.
Proof. destruct o as [| | | | | | |[v|]|]; auto. Qed.

Lemma no_tail_drop (o : opcode) :
  no_tail o = true -> no_tail (map_operands (fun _ => VNull) o) = true.
Proof. destruct o as [| | | | | | |[v|]|]; auto. Qed.

Lemma no_tail_created (o : opcode) : created o = true -> no_tail o = true.
Proof.
  destruct o as [[| | | | |F| |] a t n| | | | | | | |]; simpl; auto; try discriminate.
  intros H. apply andb_prop in H. destruct H as [H _].
  apply andb_prop in H. apply H.
Qed.

Lemma no_tail_steps (M M' : module) :
  wf M -> steps M M' -> offenders_from no_tail M M'.
Proof.
  apply offenders_steps.
  - apply no_tail_subst.
  - apply no_tail_drop.
  - intros c F a a' t n _ H. exact H.
  - reflexivity.
  - reflexivity.
  - apply no_tail_created.
Qed.

Lemma no_tail_visit (id : nat) (M : module) (TE : list nat) (M' : module)
    (TE' : list nat) :
  wf M -> visit id (M, TE) = Done (M', TE') -> good_at no_tail id M'.
Proof.
  intros W H. destruct (get_instr M id) as [II|] eqn:HG.
  - apply (visit_good_after no_tail id M TE M' TE' II no_tail_steps W HG H).
    now destruct (iop II).
  - now apply (visit_absent no_tail id M TE M' TE').
Qed.

(** X9: when the pass completes, no call instruction of the module is
    marked as a tail call. *)
Theorem regularize_no_tail_calls (fuel : nat) (M M' : module) (i : instr)
    (c : value) (a : list value) (t n : bool) :
  wf M -> regularize fuel M = Done M' ->
  In i (all_instrs M') -> iop i = Call c a t n -> t = false.
Proof.
  intros W H Hi HO.
  pose proof (regularize_good no_tail no_tail_subst no_tail_drop
                (fun _ _ _ _ _ _ _ X => X) (fun _ _ _ _ _ _ _ => eq_refl)
                (fun _ _ _ _ _ _ => eq_refl) no_tail_created
                (fun _ => True) (fun _ _ _ _ => I)
                (fun id M0 TE M1 TE1 W0 _ => no_tail_visit id M0 TE M1 TE1 W0)
                fuel M M' W I H i Hi) as G.
  rewrite HO in G. simpl in G. now destruct t.
Qed.

Lemma regularize_no_tail_calls_witness :
  regularize 20 mixed = Done (regularized 20 mixed) /\
  forall i c a t n,
    In i (all_instrs (regularized 20 mixed)) -> iop i = Call c a t n -> t = false.
Proof.
  split; [vm_compute; reflexivity|].
  intros i c a t n.
  apply (regularize_no_tail_calls 20 mixed (regularized 20 mixed) i c a t n).
  - apply wf_check_sound. reflexivity.
  - vm_compute. reflexivity.
Defined.

(** ** Exact flags *)

Lemma no_exact_subst (o : opcode) (old : value) (x : nat) :
  no_exact o = true -> no_exact (map_operands (subst_value old (VInst x)) o) = true.
Proof. destruct o as [| | | | | | |[v|]|]; auto. Qed.

Lemma no_exact_drop (o : opcode) :
  no_exact o = true -> no_exact (map_operands (fun _ => VNull) o) = true.
Proof. destruct o as [| | | | | | |[v|]|]; auto. Qed.

Lemma no_exact_inexact (op : binop) (nuw ex : bool) (a b : value) :
  no_exact (BinaryOperator op nuw ex a b) = true ->
  no_exact (BinaryOperator op nuw false a b) = true.
Proof. intros _. simpl. now rewrite andb_false_r. Qed.

Lemma no_exact_created (o : opcode) : created o = true -> no_exact o = true.
Proof.
  destruct o as [| op nuw ex a b | | | | | | |]; simpl; auto.
  intros H. apply negb_true_iff in H. subst ex. now rewrite andb_false_r.
Qed.

Lemma no_exact_steps (M M' : module) :
  wf M -> steps M M' -> offenders_from no_exact M M'.
Proof.
  apply offenders_steps.
  - apply no_exact_subst.
  - apply no_exact_drop.
  - reflexivity.
  - reflexivity.
  - apply no_exact_inexact.
  - apply no_exact_created.
Qed.

Lemma no_exact_visit (id : nat) (M : module) (TE : list nat) (M' : module)
    (TE' : list nat) :
  wf M -> visit id (M, TE) = Done (M', TE') -> good_at no_exact id M'.
Proof.
  intros W H. destruct (get_instr M id) as [II|] eqn:HG.
  - apply (visit_good_after no_exact id M TE M' TE' II no_exact_steps W HG H).
    destruct (iop II) as [| op nuw ex a b | | | | | | |]; try reflexivity.
    simpl. now destruct (isPossiblyExact op), ex.
  - now apply (visit_absent no_exact id M TE M' TE').
Qed.

(** X10: when the pass completes, no binary operator of a kind that can
    be exact (the divisions and the right shifts) carries the exact flag. *)
Theorem regularize_no_exact_flags (fuel : nat) (M M' : module) (i : instr)
    (op : binop) (nuw ex : bool) (a b : value) :
  wf M -> regularize fuel M = Done M' ->
  In i (all_instrs M') -> iop i = BinaryOperator op nuw ex a b ->
  isPossiblyExact op = true -> ex = false.
Proof.
  intros W H Hi HO HP.
  pose proof (regularize_good no_exact no_exact_subst no_exact_drop
                (fun _ _ _ _ _ _ _ X => X) (fun _ _ _ _ _ _ _ => eq_refl)
                no_exact_inexact no_exact_created
                (fun _ => True) (fun _ _ _ _ => I)
                (fun id M0 TE M1 TE1 W0 _ => no_exact_visit id M0 TE M1 TE1 W0)
                fuel M M' W I H i Hi) as G.
  rewrite HO in G. simpl in G. rewrite HP in G. now destruct ex.
Qed.

Lemma regularize_no_exact_flags_witness :
  regularize 20 mixed = Done (regularized 20 mixed) /\
  forall i op nuw ex a b,
    In i (all_instrs (regularized 20 mixed)) ->
    iop i = BinaryOperator op nuw ex a b -> isPossiblyExact op = true -> ex = false.
Proof.
  split; [vm_compute; reflexivity|].
  intros i op nuw ex a b.
  apply (regularize_no_exact_flags 20 mixed (regularized 20 mixed) i op nuw ex a b).
  - apply wf_check_sound. reflexivity.
  - vm_compute. reflexivity.
Defined.

(** ** Calls of the lowered intrinsics *)

Lemma prefix_differs (p : string) (c1 c2 : ascii) (s1 s2 D : string) :
  c1 <> c2 ->
  prefix (p ++ String c1 s1)%string D = true ->
  prefix (p ++ String c2 s2)%string D = false.
Proof.
  intros N. revert D. induction p as [|a p IH]; intros D; simpl.
  - destruct D as [|d D]; [discriminate|].
    change (prefix (String c1 s1) (String d D))
      with (if ascii_dec c1 d then prefix s1 D else false).
    change (prefix (String c2 s2) (String d D))
      with (if ascii_dec c2 d then prefix s2 D else false).
    destruct (ascii_dec c1 d); [|discriminate].
    destruct (ascii_dec c2 d); [congruence | reflexivity].
  - destruct D as [|d D]; [discriminate|].
    change (prefix (String a (p ++ String c1 s1)) (String d D))
      with (if ascii_dec a d then prefix (p ++ String c1 s1) D else false).
    change (prefix (String a (p ++ String c2 s2)) (String d D))
      with (if ascii_dec a d then prefix (p ++ String c2 s2) D else false).
    destruct (ascii_dec a d); [apply IH | reflexivity].
Qed.

Lemma getFunction_declared (M : module) (D : string) :
  In D (map fname (funcs M)) ->
  exists CF, getFunction M D = Some CF /\ fname CF = D.
Proof.
  intros H. destruct (getFunction M D) as [CF|] eqn:E.
  - exists CF. split; [reflexivity|]. unfold getFunction in E.
    apply find_some in E. destruct E as [_ E]. now apply String.eqb_eq in E.
  - now apply getFunction_None in E.
Qed.

Lemma getCalledFunction_inv (M : module) (i : instr) (CF : function) :
  getCalledFunction M i = Some CF ->
  (exists a t n, iop i = Call (VFunc (fname CF)) a t n) /\
  In (fname CF) (map fname (funcs M)).
Proof.
  unfold getCalledFunction.
  destruct (iop i) as [[| | | | |m| |] a t n| | | | | | | |]; try discriminate.
  intros H. pose proof (getFunction_In M m CF H) as HIn.
  unfold getFunction in H. apply find_some in H. destruct H as [_ H].
  apply String.eqb_eq in H. subst m. split; [eauto | now apply in_map].
Qed.

Lemma declared_back (D : string) (M M' : module) :
  prefix "llvm." D = true -> names_from M M' ->
  In D (map fname (funcs M')) -> In D (map fname (funcs M)).
Proof.
  intros HD N H. destruct (N D H) as [X|X]; [exact X|].
  apply pass_name_not_intrinsic in X. congruence.
Qed.

Lemma not_llvm_neq (D F : string) :
  prefix "llvm." D = true -> prefix "llvm." F = false -> String.eqb F D = false.
Proof.
  intros HD HF. apply String.eqb_neq. intros ->. congruence.
Qed.

Section Intrinsic.

Variable D : string.
Hypothesis D_intrinsic : prefix "llvm." D = true.

Lemma subst_callee (old c : value) (x : nat) :
  subst_value old (VInst x) c = VInst x \/ subst_value old (VInst x) c = c.
Proof. unfold subst_value. destruct (value_eqb c old); auto. Qed.

Lemma not_calling_subst (o : opcode) (old : value) (x : nat) :
  not_calling D o = true ->
  not_calling D (map_operands (subst_value old (VInst x)) o) = true.
Proof.
  destruct o as [c a t n| | | | | | |[v|]|]; auto. simpl.
  destruct (subst_callee old c x) as [-> | ->]; auto.
Qed.

Lemma not_calling_drop (o : opcode) :
  not_calling D o = true -> not_calling D (map_operands (fun _ => VNull) o) = true.
Proof. destruct o as [| | | | | | |[v|]|]; auto. Qed.

Lemma not_calling_retarget (c : value) (F : string) (a a' : list value) (t n : bool) :
  prefix "llvm." F = false ->
  not_calling D (Call c a t n) = true -> not_calling D (Call (VFunc F) a' t n) = true.
Proof. intros HF _. simpl. now rewrite (not_llvm_neq D F). Qed.

Lemma not_calling_created (o : opcode) : created o = true -> not_calling D o = true.
Proof.
  destruct o as [[| | | | |F| |] a t n| | | | | | | |]; simpl; auto.
  intros H. apply andb_prop in H. destruct H as [H _].
  apply andb_prop in H. destruct H as [H _]. apply negb_true_iff in H.
  now rewrite (not_llvm_neq D F).
Qed.

Lemma not_calling_steps (M M' : module) :
  wf M -> steps M M' -> offenders_from (not_calling D) M M'.
Proof.
  apply offenders_steps.
  - apply not_calling_subst.
  - apply not_calling_drop.
  - apply not_calling_retarget.
  - intros c a t n n' _ H. exact H.
  - reflexivity.
  - apply not_calling_created.
Qed.

Lemma not_calling_setCalledFunction (id : nat) (F : string) (M : module) :
  String.eqb F D = false -> good_at (not_calling D) id (setCalledFunction id F M).
Proof.
  intros HF i Hi Hid. unfold setCalledFunction, update_instr in Hi.
  rewrite all_instrs_rewrite in Hi.
  apply in_flat_map in Hi. destruct Hi as [j [Hj [<-|[]]]].
  destruct (Nat.eqb (iid j) id) eqn:E.
  - destruct (iop j) eqn:EO; simpl; rewrite ?EO; simpl; auto. now rewrite HF.
  - apply Nat.eqb_neq in E. contradiction.
Qed.

Lemma unwinding_subst (o : opcode) (old : value) (x : nat) :
  unwinding D o = true ->
  unwinding D (map_operands (subst_value old (VInst x)) o) = true.
Proof.
  destruct o as [c a t n| | | | | | |[v|]|]; auto. simpl.
  destruct (subst_callee old c x) as [-> | ->]; auto.
Qed.

Lemma unwinding_drop (o : opcode) :
  unwinding D o = true -> unwinding D (map_operands (fun _ => VNull) o) = true.
Proof. destruct o as [| | | | | | |[v|]|]; auto. Qed.

Lemma unwinding_retarget (c : value) (F : string) (a a' : list value) (t n : bool) :
  prefix "llvm." F = false ->
  unwinding D (Call c a t n) = true -> unwinding D (Call (VFunc F) a' t n) = true.
Proof. intros HF _. simpl. now rewrite (not_llvm_neq D F). Qed.

Lemma unwinding_flags (c : value) (a : list value) (t n n' : bool) :
  n' = n \/ n' = false ->
  unwinding D (Call c a t n) = true -> unwinding D (Call c a false n') = true.
Proof.
  intros [-> | ->]; [auto|]. intros _.
  destruct c; simpl; auto. now rewrite andb_false_r.
Qed.

Lemma unwinding_created (o : opcode) : created o = true -> unwinding D o = true.
Proof.
  destruct o as [[| | | | |F| |] a t n| | | | | | | |]; simpl; auto.
  intros H. apply andb_prop in H. destruct H as [H _].
  apply andb_prop in H. destruct H as [H _]. apply negb_true_iff in H.
  now rewrite (not_llvm_neq D F).
Qed.

Lemma unwinding_steps (M M' : module) :
  wf M -> steps M M' -> offenders_from (unwinding D) M M'.
Proof.
  apply offenders_steps.
  - apply unwinding_subst.
  - apply unwinding_drop.
  - apply unwinding_retarget.
  - apply unwinding_flags.
  - reflexivity.
  - apply unwinding_created.
Qed.

End Intrinsic.

Lemma getFunction_update_instr (id : nat) (g : instr -> instr) (M : module)
    (n : string) (F : function) :
  getFunction M n = Some F ->
  exists F', getFunction (update_instr id g M) n = Some F' /\ fname F' = fname F.
Proof.
  intros H. unfold update_instr. rewrite getFunction_rewrite, H. simpl. eauto.
Qed.

Lemma fshl_redirects (D : string) (id : nat) (N : module) (J : instr) (CF : function)
    (a : list value) (t n : bool) :
  prefix "llvm." D = true ->
  get_instr N id = Some J -> iop J = Call (VFunc D) a t n ->
  getFunction N D = Some CF ->
  good_at (not_calling D) id (lowerFunnelShiftLeft id N).
Proof.
  intros HD HG HO HF. unfold lowerFunnelShiftLeft. rewrite HG.
  assert (getCalledFunction N J = Some CF) as HC
    by (unfold getCalledFunction; now rewrite HO).
  rewrite HC. cbv zeta. apply not_calling_setCalledFunction.
  apply not_llvm_neq; [exact HD|].
  destruct (derived_name_not_intrinsic N J CF "" HC) as [X _].
  now rewrite string_app_nil in X.
Qed.

Lemma umul_redirects (D : string) (id : nat) (N : module) (J : instr) (CF : function)
    (a : list value) (t n : bool) :
  prefix "llvm." D = true ->
  get_instr N id = Some J -> iop J = Call (VFunc D) a t n ->
  getFunction N D = Some CF ->
  good_at (not_calling D) id (lowerUMulWithOverflow id N).
Proof.
  intros HD HG HO HF. unfold lowerUMulWithOverflow. rewrite HG.
  assert (getCalledFunction N J = Some CF) as HC
    by (unfold getCalledFunction; now rewrite HO).
  rewrite HC. cbv zeta. apply not_calling_setCalledFunction.
  apply not_llvm_neq; [exact HD|].
  destruct (derived_name_not_intrinsic N J CF "" HC) as [X _].
  now rewrite string_app_nil in X.
Qed.

Lemma not_calling_visit (D : string) (id : nat) (M : module) (TE : list nat)
    (M' : module) (TE' : list nat) :
  prefix "llvm.fshl." D = true \/ prefix "llvm.umul.with.overflow." D = true ->
  wf M -> In D (map fname (funcs M)) -> visit id (M, TE) = Done (M', TE') ->
  good_at (not_calling D) id M'.
Proof.
  intros HK W L H.
  assert (prefix "llvm." D = true) as HD.
  { destruct HK as [HK|HK].
    - now apply (prefix_app "llvm." "fshl.").
    - now apply (prefix_app "llvm." "umul.with.overflow."). }
  destruct (get_instr M id) as [II|] eqn:HG.
  2:{ now apply (visit_absent _ id M TE M' TE'). }
  destruct (not_calling D (after_flags (iop II))) eqn:EA.
  { now apply (visit_good_after _ id M TE M' TE' II (not_calling_steps D HD) W HG H). }
  destruct (iop II) as [[| | | | |m| |] a t n| | | | | | | |] eqn:HO;
    try discriminate.
  simpl in EA. apply negb_false_iff in EA. apply String.eqb_eq in EA. subst m.
  destruct (getFunction_declared M D L) as [CF [HCF HN]].
  assert (getCalledFunction M II = Some CF) as HC
    by (unfold getCalledFunction; now rewrite HO).
  assert (isIntrinsic CF = true) as HI by (unfold isIntrinsic; now rewrite HN).
  destruct (visit_call_phases id M TE M' TE' II (VFunc D) a t n HG HO H) as [_ P].
  destruct (P CF HC HI) as (_ & Pf & Pu).
  set (Ma := update_instr id (set_iop (Call (VFunc D) a false n)) M) in *.
  set (Mb := update_instr id (set_iop (Call (VFunc D) a false false)) Ma) in *.
  assert (wf Mb) as Wb by (apply wf_update_instr; [easy|]; now apply wf_update_instr).
  assert (get_instr Mb id =
          Some (set_iop (Call (VFunc D) a false false)
                  (set_iop (Call (VFunc D) a false n) II))) as HGb
    by (apply get_instr_set_iop; now apply get_instr_set_iop).
  destruct (getFunction_update_instr id (set_iop (Call (VFunc D) a false n)) M D CF HCF)
    as [CFa [HCFa _]].
  destruct (getFunction_update_instr id (set_iop (Call (VFunc D) a false false))
              Ma D CFa HCFa) as [CFb [HCFb _]].
  destruct HK as [HK|HK].
  - assert (isMemSet CF = false) as E1.
    { unfold isMemSet. rewrite HN. apply andb_false_intro1.
      apply (prefix_differs "llvm." "f" "m" "shl." "emset."); [discriminate | exact HK]. }
    assert (isFshl CF = true) as E2 by (unfold isFshl; now rewrite HN).
    apply (good_at_offenders _ id (lowerFunnelShiftLeft id Mb) M').
    + now apply (fshl_redirects D id Mb _ CFb a false false HD HGb).
    + apply (not_calling_steps D HD); [apply sound_lowerFunnelShiftLeft, Wb | auto].
  - assert (isMemSet CF = false) as E1.
    { unfold isMemSet. rewrite HN. apply andb_false_intro1.
      apply (prefix_differs "llvm." "u" "m" "mul.with.overflow." "emset.");
        [discriminate | exact HK]. }
    assert (isFshl CF = false) as E2.
    { unfold isFshl. rewrite HN.
      apply (prefix_differs "llvm." "u" "f" "mul.with.overflow." "shl.");
        [discriminate | exact HK]. }
    assert (isUMulWithOverflow CF = true) as E3
      by (unfold isUMulWithOverflow; now rewrite HN).
    apply (good_at_offenders _ id (lowerUMulWithOverflow id Mb) M').
    + now apply (umul_redirects D id Mb _ CFb a false false HD HGb).
    + apply (not_calling_steps D HD); [apply sound_lowerUMulWithOverflow, Wb | auto].
Qed.

(** X11: when the pass completes, no instruction of the module calls a
    funnel-shift or a multiply-with-overflow intrinsic: every such call
    has been redirected. *)
Theorem regularize_lowers_intrinsic_calls (fuel : nat) (M M' : module) (i : instr)
    (CF : function) :
  wf M -> regularize fuel M = Done M' ->
  In i (all_instrs M') -> getCalledFunction M' i = Some CF ->
  isFshl CF = false /\ isUMulWithOverflow CF = false.
Proof.
  intros W H Hi HC.
  destruct (getCalledFunction_inv M' i CF HC) as [(a & t & n & HO) L].
  assert (prefix "llvm.fshl." (fname CF) = true \/
          prefix "llvm.umul.with.overflow." (fname CF) = true -> False) as X.
  { intros HK.
    assert (prefix "llvm." (fname CF) = true) as HD.
    { destruct HK as [HK|HK].
      - now apply (prefix_app "llvm." "fshl.").
      - now apply (prefix_app "llvm." "umul.with.overflow."). }
    pose proof (regularize_good (not_calling (fname CF))
                  (not_calling_subst (fname CF)) (not_calling_drop (fname CF))
                  (not_calling_retarget (fname CF) HD)
                  (fun _ _ _ _ _ _ Y => Y) (fun _ _ _ _ _ _ => eq_refl)
                  (not_calling_created (fname CF) HD)
                  (fun N => In (fname CF) (map fname (funcs N)))
                  (fun N N' => declared_back (fname CF) N N' HD)
                  (fun id M0 TE M1 TE1 W0 L0 =>
                     not_calling_visit (fname CF) id M0 TE M1 TE1 HK W0 L0)
                  fuel M M' W L H i Hi) as G.
    rewrite HO in G. simpl in G. rewrite String.eqb_refl in G. discriminate. }
  unfold isFshl, isUMulWithOverflow.
  destruct (prefix "llvm.fshl." (fname CF)); [exfalso; apply X; now left|].
  destruct (prefix "llvm.umul.with.overflow." (fname CF));
    [exfalso; apply X; now right|].
  now split.
Qed.

Lemma regularize_lowers_intrinsic_calls_witness :
  regularize 20 mixed = Done (regularized 20 mixed) /\
  forall i CF,
    In i (all_instrs (regularized 20 mixed)) ->
    getCalledFunction (regularized 20 mixed) i = Some CF ->
    isFshl CF = false /\ isUMulWithOverflow CF = false.
Proof.
  split; [vm_compute; reflexivity|].
  intros i CF.
  apply (regularize_lowers_intrinsic_calls 20 mixed (regularized 20 mixed) i CF).
  - apply wf_check_sound. reflexivity.
  - vm_compute. reflexivity.
Defined.

(** ** The attribute of the calls of intrinsics *)

Lemma unwinding_visit (D : string) (id : nat) (M : module) (TE : list nat)
    (M' : module) (TE' : list nat) :
  prefix "llvm." D = true ->
  wf M -> In D (map fname (funcs M)) -> visit id (M, TE) = Done (M', TE') ->
  good_at (unwinding D) id M'.
Proof.
  intros HD W L H.
  destruct (get_instr M id) as [II|] eqn:HG.
  2:{ now apply (visit_absent _ id M TE M' TE'). }
  destruct (unwinding D (after_flags (iop II))) eqn:EA.
  { now apply (visit_good_after _ id M TE M' TE' II (unwinding_steps D HD) W HG H). }
  destruct (iop II) as [[| | | | |m| |] a t n| | | | | | | |] eqn:HO;
    try discriminate.
  simpl in EA. apply negb_false_iff in EA. apply andb_prop in EA.
  destruct EA as [EA _]. apply String.eqb_eq in EA. subst m.
  destruct (getFunction_declared M D L) as [CF [HCF HN]].
  assert (getCalledFunction M II = Some CF) as HC
    by (unfold getCalledFunction; now rewrite HO).
  assert (isIntrinsic CF = true) as HI by (unfold isIntrinsic; now rewrite HN).
  destruct (visit_call_phases id M TE M' TE' II (VFunc D) a t n HG HO H) as [_ P].
  destruct (P CF HC HI) as (Pb & _).
  set (Ma := update_instr id (set_iop (Call (VFunc D) a false n)) M) in *.
  apply (good_at_offenders _ id
           (update_instr id (set_iop (Call (VFunc D) a false false)) Ma) M').
  - apply good_at_set_iop. simpl. now rewrite andb_false_r.
  - apply (unwinding_steps D HD); [|exact Pb].
    apply wf_update_instr; [easy|]. now apply wf_update_instr.
Qed.

(** X12: when the pass completes, no call of an intrinsic that is still in
    the module is marked as not unwinding. *)
Theorem regularize_intrinsic_calls_unwinding (fuel : nat) (M M' : module)
    (i : instr) (CF : function) (c : value) (a : list value) (t n : bool) :
  wf M -> regularize fuel M = Done M' ->
  In i (all_instrs M') -> getCalledFunction M' i = Some CF ->
  isIntrinsic CF = true -> iop i = Call c a t n -> n = false.
Proof.
  intros W H Hi HC HD HO.
  destruct (getCalledFunction_inv M' i CF HC) as [(a' & t' & n' & HO') L].
  unfold isIntrinsic in HD.
  pose proof (regularize_good (unwinding (fname CF))
                (unwinding_subst (fname CF)) (unwinding_drop (fname CF))
                (unwinding_retarget (fname CF) HD)
                (unwinding_flags (fname CF)) (fun _ _ _ _ _ _ => eq_refl)
                (unwinding_created (fname CF) HD)
                (fun N => In (fname CF) (map fname (funcs N)))
                (fun N N' => declared_back (fname CF) N N' HD)
                (fun id M0 TE M1 TE1 W0 L0 =>
                   unwinding_visit (fname CF) id M0 TE M1 TE1 HD W0 L0)
                fuel M M' W L H i Hi) as G.
  rewrite HO' in G. simpl in G. rewrite String.eqb_refl in G. simpl in G.
  rewrite HO' in HO. injection HO as _ _ _ <-. now destruct n'.
Qed.

Lemma regularize_intrinsic_calls_unwinding_witness :
  regularize 10 constant_fill = Done (regularized 10 constant_fill) /\
  forall i CF c a t n,
    In i (all_instrs (regularized 10 constant_fill)) ->
    getCalledFunction (regularized 10 constant_fill) i = Some CF ->
    isIntrinsic CF = true -> iop i = Call c a t n -> n = false.
Proof.
  split; [vm_compute; reflexivity|].
  intros i CF c a t n.
  apply (regularize_intrinsic_calls_unwinding 10 constant_fill
           (regularized 10 constant_fill) i CF c a t n).
  - apply wf_check_sound. reflexivity.
  - vm_compute. reflexivity.
Defined.

(** ** What the pass does to the instructions it keeps *)

Lemma skeleton_map_operands (g : value -> value) (o : opcode) :
  skeleton (map_operands g o) = skeleton o.
Proof.
  destruct o as [| | | | | | |[v|]|m ops]; simpl; try reflexivity.
  now rewrite !map_map.
Qed.

Lemma erasable_skeleton (o o' : opcode) :
  skeleton o = skeleton o' -> erasable o = erasable o'.
Proof.
  destruct o as [| | | | | | |[v|]|m ops], o' as [| | | | | | |[v'|]|m' ops'];
    simpl; intros H; try reflexivity; try discriminate.
  injection H as <- H.
  destruct ops as [|a [|b l]], ops' as [|a' [|b' l']]; simpl in H;
    try reflexivity; discriminate.
Qed.

Lemma iname_strip_metadata (i : instr) : iname (strip_metadata i) = iname i.
Proof.
  unfold strip_metadata. simpl.
  repeat match goal with |- context [if ?c then _ else _] => destruct c end;
    reflexivity.
Qed.

Lemma ity_strip_metadata (i : instr) : ity (strip_metadata i) = ity i.
Proof.
  unfold strip_metadata. simpl.
  repeat match goal with |- context [if ?c then _ else _] => destruct c end;
    reflexivity.
Qed.

Lemma same_instr_refl (i : instr) : same_instr i i.
Proof. repeat split. Qed.

Lemma same_instr_trans (i j k : instr) :
  same_instr i j -> same_instr j k -> same_instr i k.
Proof.
  intros (A1 & A2 & A3 & A4) (B1 & B2 & B3 & B4). repeat split; congruence.
Qed.

Lemma kinds_refl (M : module) : kinds_from M M.
Proof.
  split; [lia|]. intros i Hi. right. exists i. split; [easy | apply same_instr_refl].
Qed.

Lemma kinds_trans (M M1 M2 : module) :
  kinds_from M M1 -> kinds_from M1 M2 -> kinds_from M M2.
Proof.
  intros [N1 H1] [N2 H2]. split; [lia|]. intros i2 Hi2.
  destruct (H2 i2 Hi2) as [X|[i1 [A B]]]; [left; lia|].
  destruct (H1 i1 A) as [X|[i [A' B']]].
  - left. destruct B as [B _]. lia.
  - right. exists i. split; [easy | now apply (same_instr_trans i i1)].
Qed.

Lemma kinds_subset (M M' : module) :
  next_id M' = next_id M ->
  (forall i, In i (all_instrs M') -> In i (all_instrs M)) -> kinds_from M M'.
Proof.
  intros N H. split; [lia|]. intros i Hi. right. exists i.
  split; [now apply H | apply same_instr_refl].
Qed.

Lemma kinds_rewrite (h : instr -> list instr) (k : nat) (M : module) :
  (forall i j, In i (all_instrs M) -> In j (h i) ->
     (next_id M <= iid j)%nat \/ same_instr i j) ->
  kinds_from M (bump k (rewrite_instrs h M)).
Proof.
  intros H. split; [simpl; lia|]. intros j Hj.
  change (all_instrs (bump k ?X)) with (all_instrs X) in Hj.
  rewrite all_instrs_rewrite in Hj. apply in_flat_map in Hj.
  destruct Hj as [i [Hi Hj]].
  destruct (H i j Hi Hj) as [X|X]; [now left|]. right. now exists i.
Qed.

Lemma kinds_single (f : instr -> instr) (M : module) :
  (forall i, In i (all_instrs M) -> same_instr i (f i)) ->
  kinds_from M (rewrite_instrs (fun i => [f i]) M).
Proof.
  intros H. rewrite <- (bump_0 (rewrite_instrs _ M)).
  apply kinds_rewrite. intros i j Hi [<-|[]]. right. now apply H.
Qed.

Lemma kinds_update_instr (id : nat) (g : instr -> instr) (M : module) :
  (forall i, In i (all_instrs M) -> iid i = id -> same_instr i (g i)) ->
  kinds_from M (update_instr id g M).
Proof.
  intros H. unfold update_instr.
  apply (kinds_single (fun i => if Nat.eqb (iid i) id then g i else i)).
  intros i Hi. destruct (Nat.eqb (iid i) id) eqn:E; [|apply same_instr_refl].
  apply Nat.eqb_eq in E. now apply H.
Qed.

Lemma same_instr_set_iop (o : opcode) (i : instr) :
  skeleton o = skeleton (iop i) -> same_instr i (set_iop o i).
Proof. intros H. repeat split. exact H. Qed.

Lemma kinds_prim (M M' : module) : wf M -> prim M M' -> kinds_from M M'.
Proof.
  intros W P. destruct P.
  - apply kinds_update_instr. intros i Hi Hid. apply same_instr_set_iop.
    now rewrite (the_instr M id II i W H Hi Hid), H0.
  - apply kinds_update_instr. intros i Hi Hid. apply same_instr_set_iop.
    now rewrite (the_instr M id II i W H Hi Hid), H0.
  - apply kinds_update_instr. intros i Hi Hid.
    split; [apply iid_strip_metadata|]. split; [apply iname_strip_metadata|].
    split; [apply ity_strip_metadata | now rewrite iop_strip_metadata].
  - unfold setCalledFunction. apply kinds_update_instr. intros i Hi Hid.
    destruct (iop i) eqn:E; try apply same_instr_refl.
    apply same_instr_set_iop. now rewrite E.
  - unfold dropAllReferences. apply kinds_update_instr. intros i Hi Hid.
    apply same_instr_set_iop, skeleton_map_operands.
  - unfold replaceAllUsesWith. apply kinds_single. intros i Hi.
    apply same_instr_set_iop, skeleton_map_operands.
  - unfold insert_new, insert_before. apply kinds_rewrite. intros i j Hi Hj.
    destruct (Nat.eqb (iid i) pos).
    + destruct Hj as [<-|[<-|[]]]; [left; simpl; lia | right; apply same_instr_refl].
    + destruct Hj as [<-|[]]. right. apply same_instr_refl.
  - apply kinds_subset; [reflexivity|]. intros i Hi.
    rewrite all_instrs_append_function in Hi. simpl in Hi.
    now rewrite app_nil_r in Hi.
  - split; [simpl; lia|]. intros j Hj.
    destruct (all_instrs_set_body M n F B k j W H Hj) as [X|X].
    + left. destruct H1 as [H1 _]. rewrite Forall_forall in H1.
      destruct (H1 j X) as [[Y _] _]. lia.
    + right. exists j. split; [easy | apply same_instr_refl].
  - apply kinds_subset; [reflexivity|]. intros i. apply all_instrs_filter_functions.
  - apply kinds_subset; [reflexivity|]. intros i Hi. unfold eraseFromParent in Hi.
    rewrite all_instrs_rewrite, erase_as_filter in Hi. apply filter_In in Hi. tauto.
  - apply kinds_single. intros i Hi.
    split; [apply iid_lowerFuncPtr_call|]. unfold lowerFuncPtr_call.
    destruct (iop i) as [[| | | | |callee| |] args t n| | | | | | | |] eqn:E;
      try (repeat split; now rewrite E).
    destruct (String.eqb callee (fname F)); repeat split; now rewrite E.
  - apply kinds_subset; [reflexivity|]. intros i. apply all_instrs_filter_functions.
Qed.

Lemma kinds_steps (M M' : module) : wf M -> steps M M' -> kinds_from M M'.
Proof.
  apply steps_invariant; [apply kinds_refl | apply kinds_trans | apply kinds_prim].
Qed.

Lemma kinds_the_instr (M M' : module) (i i' : instr) :
  wf M -> kinds_from M M' ->
  In i (all_instrs M) -> In i' (all_instrs M') -> iid i' = iid i ->
  same_instr i i'.
Proof.
  intros W [_ K] Hi Hi' E. destruct (K i' Hi') as [X|[i0 [A B]]].
  - pose proof (wf_bound M W) as Bd. rewrite Forall_forall in Bd.
    specialize (Bd i Hi). lia.
  - assert (i0 = i) as <-; [|exact B].
    apply (NoDup_ids_eq (all_instrs M)); [apply W | easy | easy|].
    destruct B as [B _]. congruence.
Qed.

(** X14: every instruction of the module, when the pass completes, is one
    the pass created or an instruction of the module as it was, under the
    same identifier, name and type and with the same operation (operator
    and no-wrap flag, predicate, orderings, indices, mnemonic): only the
    operands, the marks of a call, the exact flag and the metadata may have
    changed. *)
Theorem regularize_keeps_operations (fuel : nat) (M M' : module) (i' : instr) :
  wf M -> regularize fuel M = Done M' -> In i' (all_instrs M') ->
  (next_id M <= iid i')%nat \/
  exists i, In i (all_instrs M) /\ iid i' = iid i /\ iname i' = iname i /\
            ity i' = ity i /\ skeleton (iop i') = skeleton (iop i).
Proof.
  intros W H Hi'.
  destruct (kinds_steps M M' W (steps_regularize fuel M M' H)) as [_ K].
  destruct (K i' Hi') as [X|[i [A B]]]; [now left|]. right. now exists i.
Qed.

Lemma regularize_keeps_operations_witness :
  regularize 20 mixed = Done (regularized 20 mixed) /\
  forall i', In i' (all_instrs (regularized 20 mixed)) ->
    (next_id mixed <= iid i')%nat \/
    exists i, In i (all_instrs mixed) /\ iid i' = iid i /\ iname i' = iname i /\
              ity i' = ity i /\ skeleton (iop i') = skeleton (iop i).
Proof.
  split; [vm_compute; reflexivity|].
  intros i'. apply (regularize_keeps_operations 20 mixed (regularized 20 mixed) i').
  - apply wf_check_sound. reflexivity.
  - vm_compute. reflexivity.
Defined.

(** ** What the pass erases *)

Lemma erasable_at_steps (V : nat) (M M' : module) :
  wf M -> steps M M' -> erasable_at V M -> erasable_at V M'.
Proof.
  intros W S [HV HE]. destruct (kinds_steps M M' W S) as [N K].
  split; [lia|]. intros i' Hi' Hid.
  destruct (K i' Hi') as [X|[i [A (B1 & _ & _ & B4)]]]; [lia|].
  rewrite (erasable_skeleton _ _ B4). apply HE; [easy | congruence].
Qed.

Lemma erasable_at_instr (V : nat) (M : module) (iv : instr) :
  wf M -> get_instr M V = Some iv -> erasable (iop iv) = true -> erasable_at V M.
Proof.
  intros W HG HE. split; [now apply (get_instr_lt M V iv)|].
  intros i Hi Hid. now rewrite (the_instr M V iv i W HG Hi Hid).
Qed.

Lemma erasable_push (U : nat) (M M' : module) (TE : list nat) (iu : instr) :
  wf M -> steps M M' -> get_instr M U = Some iu -> erasable (iop iu) = true ->
  Forall (fun V => erasable_at V M) TE ->
  Forall (fun V => erasable_at V M') (TE ++ [U]).
Proof.
  intros W S HG HE HT. apply Forall_app. split.
  - eapply Forall_impl; [|exact HT]. intros V. now apply erasable_at_steps.
  - constructor; [|constructor].
    apply (erasable_at_steps U M M' W S). now apply (erasable_at_instr U M iu).
Qed.

Lemma cmpxchg_users_erasable (Res : nat) (C : value) (T : ty) (us : list nat) :
  forall (M : module) (TE : list nat) (M' : module) (TE' : list nat),
    wf M -> Forall (fun V => erasable_at V M) TE ->
    cmpxchg_users Res C T us (M, TE) = Done (M', TE') ->
    Forall (fun V => erasable_at V M') TE'.
Proof.
  induction us as [|U us IH]; intros M TE M' TE' W HT H; simpl in H.
  - now injection H as <- <-.
  - destruct (get_instr M U) as [iu|] eqn:EU; simpl in H;
      [|now apply (IH M TE M' TE')].
    destruct (iop iu) as [| | | |agg idxs| |v p| |] eqn:EO;
      try now apply (IH M TE M' TE').
    + destruct idxs as [|[|[|k]] idxs]; try discriminate.
      * destruct (negb _); [discriminate|].
        apply (IH (retire U Res M) (TE ++ [U]) M' TE'); [now apply wf_retire | | exact H].
        apply (erasable_push U M _ TE iu W (steps_retire U Res M) EU); [|exact HT].
        now rewrite EO.
      * destruct (negb _); [discriminate|].
        set (M1 := insert_new U "cmpxchg.success" (TInt 1)
                     (ICmp ICMP_EQ (VInst Res) C) M) in *.
        assert (steps M (retire U (next_id M) M1)) as S.
        { eapply steps_cons;
            [apply (prim_insert M U "cmpxchg.success" (TInt 1)
                      (ICmp ICMP_EQ (VInst Res) C)); reflexivity|].
          apply steps_retire. }
        apply (IH (retire U (next_id M) M1) (TE ++ [U]) M' TE');
          [now apply wf_retire, wf_insert_new | | exact H].
        apply (erasable_push U M _ TE iu W S EU); [|exact HT]. now rewrite EO.
    + injection H as <- <-.
      eapply Forall_impl; [|exact HT]. intros V. apply erasable_at_steps; [easy|].
      eapply steps_cons;
        [apply (prim_insert M U "cmpxchg.success" (TInt 1)
                  (ICmp ICMP_EQ (VInst Res) C)); reflexivity|].
      eapply steps_cons;
        [apply (prim_insert _ U "agg0" T (InsertValue (VUndef T) (VInst Res) 0));
         reflexivity|].
      eapply steps_cons;
        [apply (prim_insert _ U "agg1" T
                  (InsertValue (VInst (next_id M + 1)) (VInst (next_id M)) 1));
         reflexivity|].
      apply steps_one. apply prim_rauw.
Qed.

Lemma visit_erasable (id : nat) (M : module) (TE : list nat) (M' : module)
    (TE' : list nat) :
  wf M -> Forall (fun V => erasable_at V M) TE ->
  visit id (M, TE) = Done (M', TE') ->
  Forall (fun V => erasable_at V M') TE'.
Proof.
  intros W HT H. pose proof (steps_visit id M TE M' TE' H) as S.
  unfold visit in H.
  destruct (get_instr M id) as [II|] eqn:HG.
  2:{ now injection H as <- <-. }
  assert (forall X, X = M' -> Done (X, TE) = Done (M', TE') ->
            Forall (fun V => erasable_at V M') TE') as Same.
  { intros X _ E. injection E as _ <-.
    eapply Forall_impl; [|exact HT]. intros V. now apply erasable_at_steps. }
  destruct (iop II) as [| | |Ptr Cmp Val sc fl| | | | |] eqn:HO;
    try (apply (Same _ eq_refl); injection H as <- <-; reflexivity).
  set (M2 := update_instr id strip_metadata M) in *.
  set (M3 := addCallInstSPIRV _ _ _ _ _ _ _) in H.
  assert (steps M M3) as S3.
  { eapply steps_cons; [apply (prim_strip M id)|]. unfold M3, addCallInstSPIRV.
    eapply steps_trans;
      [apply steps_getOrCreateFunction, pass_name_kAtomicCompareExchange|].
    apply steps_one. now constructor. }
  destruct (cmpxchg_users _ _ _ _ _) as [msg| |[M4 TE4]] eqn:EU; try discriminate.
  assert (Forall (fun V => erasable_at V M3) TE) as HT3.
  { eapply Forall_impl; [|exact HT]. intros V. now apply erasable_at_steps. }
  pose proof (cmpxchg_users_erasable _ _ _ _ M3 TE M4 TE4 (wf_steps M M3 W S3) HT3 EU)
    as H4.
  assert (M' = M4) as -> by (destruct (user_empty M4 (VInst id)); now injection H).
  destruct (user_empty M4 (VInst id)); injection H as <-; [|exact H4].
  apply Forall_app. split; [exact H4|]. constructor; [|constructor].
  apply (erasable_at_steps id M M4 W S). apply (erasable_at_instr id M II W HG).
  now rewrite HO.
Qed.

Lemma walk_insts_erasable (Fn : string) (fuel : nat) :
  forall (cur : option nat) (M : module) (TE : list nat) (M1 : module) (TE1 : list nat),
    wf M -> Forall (fun V => erasable_at V M) TE ->
    walk_insts fuel Fn cur (M, TE) = Done (M1, TE1) ->
    Forall (fun V => erasable_at V M1) TE1.
Proof.
  induction fuel as [|fuel IH]; intros cur M TE M1 TE1 W HT H.
  - destruct cur; simpl in H; [discriminate|]. now injection H as <- <-.
  - destruct cur as [id|].
    2:{ simpl in H. now injection H as <- <-. }
    rewrite walk_insts_step in H.
    destruct (visit id (M, TE)) as [msg| |[M0 TE0]] eqn:EV; try discriminate.
    refine (IH _ M0 TE0 M1 TE1 _ _ H).
    + apply (wf_steps M M0 W). now apply (steps_visit id M TE M0 TE0).
    + now apply (visit_erasable id M TE M0 TE0).
Qed.

Lemma erase_all_keeps (TE : list nat) :
  forall (M1 M2 : module) (i : instr),
    erase_all TE M1 = Done M2 -> In i (all_instrs M1) -> ~ In (iid i) TE ->
    In i (all_instrs M2).
Proof.
  induction TE as [|V TE IH]; intros M1 M2 i H Hi Hn; simpl in H.
  - now injection H as <-.
  - destruct (user_empty M1 (VInst V)); [|discriminate].
    apply (IH (eraseFromParent V M1) M2 i H).
    + unfold eraseFromParent. rewrite all_instrs_rewrite, erase_as_filter.
      apply filter_In. split; [easy|]. apply negb_true_iff. apply Nat.eqb_neq.
      intros E. apply Hn. now left.
    + intros X. apply Hn. now right.
Qed.

Lemma ext_In_l (n0 n1 : nat) (l l' : list instr) (i : instr) :
  ext n0 n1 l l' -> In i l -> exists i', In i' l' /\ iid i' = iid i.
Proof.
  intros E. induction E as [|a a' l l' Hid Hmd E IH|j l l' Hj Hc E IH]; intros H.
  - destruct H.
  - destruct H as [<-|H].
    + exists a'. split; [now left | easy].
    + destruct (IH H) as [i' [A B]]. exists i'. split; [now right | easy].
  - destruct (IH H) as [i' [A B]]. exists i'. split; [now right | easy].
Qed.

Lemma fext_In_l (n0 n1 : nat) (fs fs' : list function) (i : instr) :
  fext n0 n1 fs fs' -> In i (flat_map instrs_of fs) ->
  exists i', In i' (flat_map instrs_of fs') /\ iid i' = iid i.
Proof.
  intros E. induction E as [news H|F F' l l' Hn HE E IH]; intros Hin;
    [destruct Hin|].
  simpl in Hin. apply in_app_or in Hin. destruct Hin as [Hin|Hin].
  - destruct (ext_In_l _ _ _ _ i HE Hin) as [i' [A B]].
    exists i'. split; [simpl; apply in_or_app; now left | easy].
  - destruct (IH Hin) as [i' [A B]].
    exists i'. split; [simpl; apply in_or_app; now right | easy].
Qed.

Lemma present_refl (M : module) : present M M.
Proof. intros i Hi _. exists i. split; [easy | apply same_instr_refl]. Qed.

Lemma present_trans (M M1 M2 : module) : present M M1 -> present M1 M2 -> present M M2.
Proof.
  intros H1 H2 i Hi He. destruct (H1 i Hi He) as [i1 [A B]].
  assert (erasable (iop i1) = false) as He1.
  { destruct B as (_ & _ & _ & B). now rewrite (erasable_skeleton _ _ B). }
  destruct (H2 i1 A He1) as [i2 [A2 B2]]. exists i2.
  split; [easy | now apply (same_instr_trans i i1)].
Qed.

Lemma present_same (M M' : module) : all_instrs M' = all_instrs M -> present M M'.
Proof.
  intros E i Hi _. exists i. split; [now rewrite E | apply same_instr_refl].
Qed.

Lemma present_evolves (M M' : module) :
  wf M -> steps M M' -> evolves M M' -> present M M'.
Proof.
  intros W S [_ E] i Hi _.
  destruct (fext_In_l _ _ _ _ i E Hi) as [i' [A B]]. exists i'. split; [easy|].
  now apply (kinds_the_instr M M' i i' W (kinds_steps M M' W S)).
Qed.

Lemma present_turn (fuel : nat) (M M1 M2 : module) (TE : list nat) (F : function) :
  wf M -> getFunction M (fname F) = Some F ->
  walk_insts fuel (fname F) (hd_error (map iid (instrs_of F))) (M, []) = Done (M1, TE) ->
  erase_all TE M1 = Done M2 ->
  wf M2 /\ present M M2.
Proof.
  intros W HG HW HE.
  destruct (walk_insts_sound fuel (fname F) _ M [] M1 TE F [] (instrs_of F)
              W HG eq_refl (Forall_nil _) eq_refl HW) as [[W1 E1] _].
  pose proof (steps_walk_insts (fname F) fuel _ _ _ _ _ HW) as SW.
  pose proof (walk_insts_erasable (fname F) fuel _ M [] M1 TE W (Forall_nil _) HW) as Q.
  split; [apply (wf_steps M1 M2 W1), (steps_erase_all TE M1 M2 HE)|].
  intros i Hi He.
  destruct (present_evolves M M1 W SW E1 i Hi He) as [i1 [A B]].
  exists i1. split; [|exact B].
  apply (erase_all_keeps TE M1 M2 i1 HE A). intros X.
  rewrite Forall_forall in Q. destruct (Q _ X) as [_ Q2].
  specialize (Q2 i1 A eq_refl).
  destruct B as (_ & _ & _ & B). rewrite (erasable_skeleton _ _ B) in Q2. congruence.
Qed.

Lemma walk_functions_present (fuel : nat) :
  forall (I : option string) (M M' : module),
    wf M -> walk_functions fuel I M = Done M' -> present M M'.
Proof.
  induction fuel as [|fuel IH]; intros I M M' W H.
  - destruct I; simpl in H; [discriminate|]. injection H as <-. apply present_refl.
  - destruct I as [Fn|].
    2:{ simpl in H. injection H as <-. apply present_refl. }
    rewrite walk_functions_step in H.
    destruct (getFunction M Fn) as [F|] eqn:HG.
    2:{ injection H as <-. apply present_refl. }
    destruct (getFunction_split M Fn F W HG) as [Hn [a [b [Hf _]]]]. subst Fn.
    destruct (isDeclaration F && func_use_empty M (fname F)) eqn:ED.
    + apply andb_prop in ED. destruct ED as [ED _].
      apply (present_trans M (erase_function (fname F) M)).
      * apply present_same. now apply (all_instrs_erase_declaration M a b F).
      * exact (IH _ _ _ (wf_erase_declaration M a b F W Hf ED) H).
    + destruct (walk_insts (S fuel) (fname F) _ (M, [])) as [msg| |[M1 TE]] eqn:HW;
        try discriminate.
      destruct (erase_all TE M1) as [msg| |M2] eqn:HE; try discriminate.
      destruct (present_turn (S fuel) M M1 M2 TE F W HG HW HE) as [W2 P2].
      apply (present_trans M M2); [exact P2|]. exact (IH _ _ _ W2 H).
Qed.

(** *** The casts the normalization erases *)

Lemma operand_used (M : module) (J : instr) (v : value) :
  In J (all_instrs M) -> In v (operands (iop J)) -> user_empty M v = false.
Proof.
  intros HJ Hv. unfold user_empty, users.
  assert (In (iid J) (flat_map (uses_in v) (all_instrs M))) as H.
  { apply in_flat_map. exists J. split; [exact HJ|]. unfold uses_in.
    apply in_map_iff. exists v. split; [reflexivity|].
    apply filter_In. split; [exact Hv | apply value_eqb_refl]. }
  destruct (flat_map (uses_in v) (all_instrs M)) as [|x l]; [destruct H|].
  simpl. now destruct (rev l).
Qed.

Lemma eraseIfNoUse_keeps (Cs : list nat) (W : nat) (M : module) :
  (forall V, In V Cs -> forall i, In i (all_instrs M) -> iid i = V ->
             isCastInst (iop i) = false -> held V M) ->
  In W Cs ->
  (forall i, In i (all_instrs M) -> isCastInst (iop i) = false ->
             In i (all_instrs (eraseIfNoUse W M))) /\
  (forall V, In V Cs -> forall i, In i (all_instrs (eraseIfNoUse W M)) -> iid i = V ->
             isCastInst (iop i) = false -> held V (eraseIfNoUse W M)).
Proof.
  intros P HW.
  assert (forall i, In i (all_instrs M) -> isCastInst (iop i) = false ->
                    In i (all_instrs (eraseIfNoUse W M))) as K.
  { intros i Hi Hc. unfold eraseIfNoUse.
    destruct (user_empty M (VInst W)) eqn:UE; [|exact Hi].
    unfold eraseFromParent. rewrite all_instrs_rewrite, erase_as_filter.
    apply filter_In. split; [exact Hi|]. apply negb_true_iff, Nat.eqb_neq.
    intros E. destruct (P W HW i Hi E Hc) as (J & HJ & _ & HV).
    now rewrite (operand_used M J (VInst W) HJ HV) in UE. }
  split; [exact K|].
  intros V HV i Hi E Hc.
  destruct (P V HV i (all_instrs_eraseIfNoUse W M i Hi) E Hc) as (J & HJ & HJc & HJv).
  exists J. split; [now apply K|]. now split.
Qed.

Lemma erase_candidates_keep (Cs Es : list nat) :
  forall M : module,
    (forall V, In V Cs -> forall i, In i (all_instrs M) -> iid i = V ->
               isCastInst (iop i) = false -> held V M) ->
    incl Es Cs ->
    forall i, In i (all_instrs M) -> isCastInst (iop i) = false ->
              In i (all_instrs (fold_left (fun M' I => eraseIfNoUse I M') Es M)).
Proof.
  induction Es as [|W Es IH]; intros M P HI i Hi Hc; simpl; [exact Hi|].
  destruct (eraseIfNoUse_keeps Cs W M P (HI W (or_introl eq_refl))) as [K P'].
  apply IH; auto. intros V HV. apply HI. now right.
Qed.

Lemma isCastInst_lowerFuncPtr_call (N : module) (F : function) (Name : string)
    (i : instr) :
  isCastInst (iop (lowerFuncPtr_call N F Name i)) = isCastInst (iop i).
Proof.
  unfold lowerFuncPtr_call.
  destruct (iop i) as [[| | | | |callee| |] args t n| | | | | | | |] eqn:E;
    rewrite ?E; try reflexivity.
  destruct (String.eqb callee (fname F)); [reflexivity | now rewrite E].
Qed.

Lemma removeCast_not_cast (M : module) (V : nat) :
  (forall i, get_instr M V = Some i -> isCastInst (iop i) = false) ->
  removeCast M (VInst V) = VInst V.
Proof.
  intros H. unfold removeCast. cbn [removeConstantCast].
  destruct (get_instr M V) as [C|]; [|reflexivity].
  specialize (H C eq_refl).
  destruct (iop C) as [| | | | | | | |m [|v [|w l]]]; try reflexivity.
  now rewrite H.
Qed.

(** An argument that is no cast is still an argument of its call when the
    calls are rewritten. *)
Lemma candidates_held (F : function) (Name : string) (M : module) (V : nat)
    (i : instr) :
  wf M -> In V (InvokeFuncPtrs F M) ->
  In i (all_instrs (rewrite_instrs (fun j => [lowerFuncPtr_call M F Name j]) M)) ->
  iid i = V -> isCastInst (iop i) = false ->
  held V (rewrite_instrs (fun j => [lowerFuncPtr_call M F Name j]) M).
Proof.
  intros W HV Hi E Hc.
  rewrite all_instrs_rewrite in Hi. apply in_flat_map in Hi.
  destruct Hi as [i0 [Hi0 [<-|[]]]].
  rewrite isCastInst_lowerFuncPtr_call in Hc.
  rewrite (proj1 (iid_lowerFuncPtr_call M F Name i0)) in E.
  assert (removeCast M (VInst V) = VInst V) as HR.
  { apply removeCast_not_cast. intros c Hc0.
    destruct (get_instr_Some M V c Hc0) as [A B].
    assert (c = i0) as -> by
      (apply (NoDup_ids_eq (all_instrs M)); [apply W | easy | easy | congruence]).
    exact Hc. }
  unfold InvokeFuncPtrs in HV. apply in_flat_map in HV.
  destruct HV as [c [Hc1 HV]].
  destruct (iop c) as [[| | | | |callee| |] args t n| | | | | | | |] eqn:EO;
    try destruct HV.
  destruct (String.eqb callee (fname F)) eqn:EF; [|destruct HV].
  apply in_flat_map in HV. destruct HV as [[a ta] [Hp HV]]. cbn [fst snd] in HV.
  destruct (isFunctionPointerType ta) eqn:ET; [|destruct HV].
  destruct a as [id| | | | | | |]; try (now destruct HV).
  destruct HV as [HV|[]]. subst id.
  exists (lowerFuncPtr_call M F Name c). split; [|split].
  - rewrite all_instrs_rewrite. apply in_flat_map. exists c. split; [easy | now left].
  - rewrite isCastInst_lowerFuncPtr_call. now rewrite EO.
  - unfold lowerFuncPtr_call. rewrite EO, EF. cbn [set_iop iop operands].
    apply in_or_app. left. apply in_map_iff. exists (VInst V, ta).
    cbn [fst snd]. rewrite ET. split; [exact HR | exact Hp].
Qed.

Lemma present_lowerFuncPtr_F (F : function) (OC : string) (M : module) :
  wf M -> present M (lowerFuncPtr_F F OC M).
Proof.
  intros W i Hi He. unfold lowerFuncPtr_F. cbv zeta.
  set (Name := decorateSPIRVFunction OC).
  set (M1 := getOrCreateFunction (fret F) (fparams F) Name M).
  set (M2 := rewrite_instrs (fun j => [lowerFuncPtr_call M1 F Name j]) M1).
  assert (wf M1) as W1 by now apply wf_getOrCreateFunction.
  assert (In (lowerFuncPtr_call M1 F Name i) (all_instrs M2)) as H2.
  { unfold M2. rewrite all_instrs_rewrite. apply in_flat_map. exists i.
    split; [|now left]. unfold M1. now rewrite all_instrs_getOrCreateFunction. }
  assert (same_instr i (lowerFuncPtr_call M1 F Name i)) as SI.
  { split; [apply iid_lowerFuncPtr_call|]. unfold lowerFuncPtr_call.
    destruct (iop i) as [[| | | | |callee| |] args t n| | | | | | | |] eqn:E;
      try (repeat split; now rewrite E).
    destruct (String.eqb callee (fname F)); repeat split; now rewrite E. }
  exists (lowerFuncPtr_call M1 F Name i). split; [|exact SI].
  apply (erase_candidates_keep (InvokeFuncPtrs F M1) (InvokeFuncPtrs F M1) M2).
  - intros V HV j Hj E Hc. now apply (candidates_held F Name M1 V j).
  - apply incl_refl.
  - exact H2.
  - rewrite isCastInst_lowerFuncPtr_call.
    unfold erasable in He. destruct (iop i); try discriminate; exact He.
Qed.

Lemma present_lowerFuncPtr (M : module) : wf M -> present M (lowerFuncPtr M).
Proof.
  intros W. unfold lowerFuncPtr. generalize (flat_map
    (fun F => if hasFunctionPointerArg F
              then match getSPIRVFuncOC (fname F) with
                   | Some OC => [(F, OC)]
                   | None => []
                   end
              else []) (funcs M)).
  intros Work. revert M W.
  induction Work as [|[F OC] Work IH]; intros M W; simpl; [apply present_refl|].
  apply (present_trans M (lowerFuncPtr_F F OC M)).
  - now apply present_lowerFuncPtr_F.
  - apply IH. now apply descent_lowerFuncPtr_F.
Qed.

Lemma regularize_present (fuel : nat) (M M' : module) :
  wf M -> regularize fuel M = Done M' -> present M M'.
Proof.
  intros W H. unfold regularize in H. cbv zeta in H.
  pose proof (wf_eraseUselessFunctions M W) as W1.
  destruct (descent_lowerFuncPtr _ W1) as (W2 & _).
  apply (present_trans M (lowerFuncPtr (eraseUselessFunctions M))).
  - apply (present_trans M (eraseUselessFunctions M)).
    + apply present_same. apply all_instrs_eraseUselessFunctions.
    + now apply present_lowerFuncPtr.
  - exact (walk_functions_present fuel _ _ M' W2 H).
Qed.

(** X15: the pass erases no instruction other than a compare-exchange, an
    extraction or a cast: every other instruction of the module is still in
    it when the pass completes, under the same identifier, name and type and
    with the same operation. *)
Theorem regularize_keeps_instructions (fuel : nat) (M M' : module) (i : instr) :
  wf M -> regularize fuel M = Done M' ->
  In i (all_instrs M) -> erasable (iop i) = false ->
  exists i', In i' (all_instrs M') /\ iid i' = iid i /\ iname i' = iname i /\
             ity i' = ity i /\ skeleton (iop i') = skeleton (iop i).
Proof.
  intros W H Hi He.
  destruct (regularize_present fuel M M' W H i Hi He) as [i' [A B]].
  exists i'. split; [exact A | exact B].
Qed.

Lemma regularize_keeps_instructions_witness :
  regularize 20 mixed = Done (regularized 20 mixed) /\
  forall i, In i (all_instrs mixed) -> erasable (iop i) = false ->
    exists i', In i' (all_instrs (regularized 20 mixed)) /\ iid i' = iid i /\
               iname i' = iname i /\ ity i' = ity i /\
               skeleton (iop i') = skeleton (iop i).
Proof.
  split; [vm_compute; reflexivity|].
  intros i. apply (regularize_keeps_instructions 20 mixed (regularized 20 mixed) i).
  - apply wf_check_sound. reflexivity.
  - vm_compute. reflexivity.
Defined.

(** ** What a lowering leaves in the module *)

Lemma getFunction_update_function (n : string) (g : function -> function) (M : module) :
  (forall F, fname (g F) = fname F) ->
  getFunction (update_function n g M) n = option_map g (getFunction M n).
Proof.
  intros H. unfold getFunction, update_function. simpl.
  induction (funcs M) as [|F l IH]; simpl; [reflexivity|].
  destruct (String.eqb (fname F) n) eqn:E.
  - now rewrite H, E.
  - now rewrite E.
Qed.

Lemma getFunction_getOrCreateFunction (r : ty) (ps : list ty) (n : string) (M : module) :
  exists F, getFunction (getOrCreateFunction r ps n M) n = Some F /\
            (getFunction M n = None -> F = declaration n r ps).
Proof.
  unfold getOrCreateFunction. destruct (getFunction M n) as [F|] eqn:E.
  - exists F. split; [exact E | discriminate].
  - exists (declaration n r ps). split; [|reflexivity].
    now apply getFunction_append_new.
Qed.

Lemma find_app_skip {A} (p : A -> bool) (a m b : list A) :
  (forall x, In x m -> p x = false) -> find p (a ++ m ++ b) = find p (a ++ b).
Proof.
  intros H. induction a as [|x a IH]; simpl.
  - induction m as [|y m IHm]; simpl; [reflexivity|].
    rewrite (H y) by now left. apply IHm. intros x Hx. apply H. now right.
  - destruct (p x); [reflexivity | exact IH].
Qed.

Lemma get_instr_set_body (M : module) (n : string) (F : function) (B : list block)
    (k id : nat) :
  wf M -> getFunction M n = Some F -> empty F = true -> fresh_body M k B ->
  (id < next_id M)%nat ->
  get_instr (bump k (update_function n (set_blocks B) M)) id = get_instr M id.
Proof.
  intros W HG HE [HB _] Hid.
  destruct (getFunction_split M n F W HG) as [Hn [a [b [Hf Hab]]]].
  destruct M as [fs nid]. simpl in Hf, Hid, HB. subst fs.
  rewrite (update_function_split n _ a b F nid Hn Hab).
  unfold get_instr, all_instrs. simpl. rewrite !flat_map_app. simpl.
  rewrite instrs_of_set_blocks, (empty_instrs_of F HE). simpl.
  apply find_app_skip. intros j Hj. rewrite Forall_forall in HB.
  destruct (HB j Hj) as [[X _] _]. apply Nat.eqb_neq. lia.
Qed.

Lemma isDeclaration_set_blocks (b : block) (B : list block) (F : function) :
  isDeclaration (set_blocks (b :: B) F) = false.
Proof. reflexivity. Qed.

Lemma buildFunnelShiftLeftFunc_defines (n : string) (M : module) (F : function) :
  getFunction M n = Some F ->
  exists G, getFunction (buildFunnelShiftLeftFunc n M) n = Some G /\
            isDeclaration G = false.
Proof.
  intros HG. unfold buildFunnelShiftLeftFunc. rewrite HG.
  destruct (empty F) eqn:E; simpl.
  - eexists. split; [|apply isDeclaration_set_blocks].
    change (getFunction (bump 6 ?X) n) with (getFunction X n).
    rewrite getFunction_update_function by reflexivity. now rewrite HG.
  - exists F. now split.
Qed.

Lemma buildUMulWithOverflowFunc_defines (n : string) (M : module) (F : function) :
  getFunction M n = Some F ->
  exists G, getFunction (buildUMulWithOverflowFunc n M) n = Some G /\
            isDeclaration G = false.
Proof.
  intros HG. unfold buildUMulWithOverflowFunc. rewrite HG.
  destruct (empty F) eqn:E; simpl.
  - eexists. split; [|apply isDeclaration_set_blocks].
    change (getFunction (bump 6 ?X) n) with (getFunction X n).
    rewrite getFunction_update_function by reflexivity. now rewrite HG.
  - exists F. now split.
Qed.

Lemma get_instr_buildFunnelShiftLeftFunc (n : string) (M : module) (id : nat) :
  wf M -> (id < next_id M)%nat ->
  get_instr (buildFunnelShiftLeftFunc n M) id = get_instr M id.
Proof.
  intros W Hid. unfold buildFunnelShiftLeftFunc.
  destruct (getFunction M n) as [F|] eqn:E; [|reflexivity].
  destruct (empty F) eqn:EF; simpl; [|reflexivity].
  apply (get_instr_set_body M n F _ 6 id W E EF); [|exact Hid]. fresh_body_tac.
Qed.

Lemma get_instr_buildUMulWithOverflowFunc (n : string) (M : module) (id : nat) :
  wf M -> (id < next_id M)%nat ->
  get_instr (buildUMulWithOverflowFunc n M) id = get_instr M id.
Proof.
  intros W Hid. unfold buildUMulWithOverflowFunc.
  destruct (getFunction M n) as [F|] eqn:E; [|reflexivity].
  destruct (empty F) eqn:EF; simpl; [|reflexivity].
  apply (get_instr_set_body M n F _ 6 id W E EF); [|exact Hid]. fresh_body_tac.
Qed.

Lemma setCalledFunction_installs (id : nat) (n : string) (M : module) (II : instr)
    (G : function) (c : value) (args : list value) (t nu : bool) :
  get_instr M id = Some II -> iop II = Call c args t nu ->
  getFunction M n = Some G -> isDeclaration G = false ->
  (exists G', getFunction (setCalledFunction id n M) n = Some G' /\
              isDeclaration G' = false) /\
  option_map iop (get_instr (setCalledFunction id n M) id) =
    Some (Call (VFunc n) args t nu).
Proof.
  intros HG HO HF HD. unfold setCalledFunction. split.
  - unfold update_instr. rewrite getFunction_rewrite, HF. simpl.
    eexists. split; [reflexivity|]. now rewrite isDeclaration_map_function.
  - rewrite get_instr_update_instr.
    + rewrite HG. simpl. destruct (get_instr_Some M id II HG) as [_ ->].
      now rewrite Nat.eqb_refl, HO.
    + intros i. now destruct (iop i).
Qed.

(** X16: the lowering of a call of a funnel-shift or multiply-with-overflow
    intrinsic makes the function of the derived name the callee, whatever
    was in the module under that name: when the lowering is over that
    function has a body, and the call has the arguments and the marks it
    had. *)
Theorem lowering_installs_helper (k : lowering) (id : nat) (M : module) (II : instr)
    (CF : function) (c : value) (args : list value) (t nu : bool) :
  k <> LowerMemset ->
  wf M -> get_instr M id = Some II -> iop II = Call c args t nu ->
  getCalledFunction M II = Some CF ->
  (exists G, getFunction (lower k id M) (derived_name k M II) = Some G /\
             isDeclaration G = false) /\
  option_map iop (get_instr (lower k id M) id) =
    Some (Call (VFunc (derived_name k M II)) args t nu).
Proof.
  intros Hk W HG HO HC.
  pose proof (get_instr_lt M id II W HG) as Hlt.
  destruct k; [congruence| |]; simpl.
  - unfold lowerFunnelShiftLeft. rewrite HG, HC. cbv zeta.
    set (n := lowerLLVMIntrinsicName M II).
    set (M1 := getOrCreateFunction (fret CF) (fparams CF) n M).
    destruct (getFunction_getOrCreateFunction (fret CF) (fparams CF) n M)
      as [F1 [HF1 _]]. fold M1 in HF1.
    destruct (buildFunnelShiftLeftFunc_defines n M1 F1 HF1) as [G [HG2 HD2]].
    apply (setCalledFunction_installs id n _ II G c args t nu); auto.
    rewrite get_instr_buildFunnelShiftLeftFunc.
    + unfold M1. now rewrite get_instr_getOrCreateFunction.
    + now apply wf_getOrCreateFunction.
    + unfold M1. now rewrite next_id_getOrCreateFunction.
  - unfold lowerUMulWithOverflow. rewrite HG, HC. cbv zeta.
    set (n := lowerLLVMIntrinsicName M II).
    set (M1 := getOrCreateFunction (fret CF) (fparams CF) n M).
    destruct (getFunction_getOrCreateFunction (fret CF) (fparams CF) n M)
      as [F1 [HF1 _]]. fold M1 in HF1.
    destruct (buildUMulWithOverflowFunc_defines n M1 F1 HF1) as [G [HG2 HD2]].
    apply (setCalledFunction_installs id n _ II G c args t nu); auto.
    rewrite get_instr_buildUMulWithOverflowFunc.
    + unfold M1. now rewrite get_instr_getOrCreateFunction.
    + now apply wf_getOrCreateFunction.
    + unfold M1. now rewrite next_id_getOrCreateFunction.
Qed.

Lemma lowering_installs_helper_witness :
  (exists G, getFunction (lower LowerFshl 0 calls_fshl) "spirv.llvm_fshl_i8" = Some G /\
             isDeclaration G = false) /\
  option_map iop (get_instr (lower LowerFshl 0 calls_fshl) 0) =
    Some (Call (VFunc "spirv.llvm_fshl_i8") [VArg 0; VArg 1; VArg 2] false false).
Proof.
  apply (lowering_installs_helper LowerFshl 0 calls_fshl
           (mkInstr 0 "" (TInt 8)
              (Call (VFunc "llvm.fshl.i8") [VArg 0; VArg 1; VArg 2] false false) [])
           fshl_i8 (VFunc "llvm.fshl.i8") [VArg 0; VArg 1; VArg 2] false false).
  - discriminate.
  - apply wf_check_sound. reflexivity.
  - reflexivity.
  - reflexivity.
  - reflexivity.
Defined.

(** ** What the installed helper computes *)

Ltac decide_ids :=
  repeat match goal with
         | |- context [Nat.eqb ?x ?y] =>
             first [ replace (Nat.eqb x y) with true
                       by (symmetry; apply Nat.eqb_eq; lia)
                   | replace (Nat.eqb x y) with false
                       by (symmetry; apply Nat.eqb_neq; lia) ]
         end.

Lemma run_fshl_body (n : nat) (w a b r : Z) :
  run_insts [RInt (Bits a); RInt (Bits b); RInt (Bits r)] [] (fshl_body n w) =
  run_fshl w a b r.
Proof.
  unfold run_fshl, run_synthesized, synthesize, fshl_body.
  cbn -[eval_binop_lane Nat.eqb Nat.add wrap].
  destruct (eval_binop_lane URem false false w (Bits r) (Bits (wrap w w)))
    as [|s]; [reflexivity|].
  cbn -[eval_binop_lane Nat.eqb Nat.add wrap]. decide_ids.
  destruct (eval_binop_lane Shl false false w (Bits a) s) as [|l]; [reflexivity|].
  cbn -[eval_binop_lane Nat.eqb Nat.add wrap]. decide_ids.
  destruct (eval_binop_lane Sub false false w (Bits (wrap w w)) s)
    as [|k]; [reflexivity|].
  cbn -[eval_binop_lane Nat.eqb Nat.add wrap]. decide_ids.
  destruct (eval_binop_lane LShr false false w (Bits b) k) as [|q]; [reflexivity|].
  cbn -[eval_binop_lane Nat.eqb Nat.add wrap]. decide_ids.
  destruct (eval_binop_lane Or false false w l q) as [|x]; [reflexivity|].
  cbn -[eval_binop_lane Nat.eqb Nat.add wrap]. decide_ids. reflexivity.
Qed.

Lemma run_umul_body (n : nat) (w a b : Z) :
  run_insts [RInt (Bits a); RInt (Bits b)] [] (umul_body n w) = run_umul w a b.
Proof.
  unfold run_umul, run_synthesized, synthesize, umul_body.
  cbn -[eval_binop_lane Nat.eqb Nat.add wrap].
  destruct (eval_binop_lane Mul true false w (Bits a) (Bits b)) as [|p]; [reflexivity|].
  cbn -[eval_binop_lane Nat.eqb Nat.add wrap]. decide_ids.
  destruct (eval_binop_lane UDiv false false w p (Bits a)) as [|q]; [reflexivity|].
  cbn -[eval_binop_lane Nat.eqb Nat.add wrap]. decide_ids. reflexivity.
Qed.

Lemma flat_map_update_none (id : nat) (g : instr -> instr) (l : list instr) :
  (forall i, In i l -> iid i <> id) ->
  flat_map (fun i => [if Nat.eqb (iid i) id then g i else i]) l = l.
Proof.
  induction l as [|i l IH]; simpl; intros H; [reflexivity|].
  replace (Nat.eqb (iid i) id) with false
    by (symmetry; apply Nat.eqb_neq; apply H; now left).
  f_equal. apply IH. intros j Hj. apply H. now right.
Qed.

Lemma fresh_helper (id : nat) (n : string) (r : ty) (ps : list ty) (B : list instr)
    (bn : string) (k : nat) (M : module) :
  getFunction M n = None -> (forall i, In i B -> iid i <> id) ->
  getFunction
    (setCalledFunction id n
       (bump k (update_function n (set_blocks [mkBlock bn B])
                  (append_function (declaration n r ps) M)))) n =
  Some (mkFunction n r ps [mkBlock bn B]).
Proof.
  intros HN HB. unfold setCalledFunction, update_instr.
  rewrite getFunction_rewrite.
  change (getFunction (bump k ?X) n) with (getFunction X n).
  rewrite getFunction_update_function by reflexivity.
  rewrite (getFunction_append_new (declaration n r ps) n M eq_refl HN). simpl.
  unfold map_function, map_block. simpl. now rewrite flat_map_update_none.
Qed.

Lemma fresh_ids (n id : nat) (B : list instr) :
  (id < n)%nat -> Forall (fun i => (n <= iid i)%nat) B ->
  forall i, In i B -> iid i <> id.
Proof.
  intros Hid HB i Hi. rewrite Forall_forall in HB. specialize (HB i Hi). lia.
Qed.

(** X17: when no function of the derived name is in the module, the
    lowering of a call of the funnel-shift intrinsic of width [w] installs a
    helper that returns, on all operands, the funnel shift of the language
    reference, or poison when the rotate amount is a multiple of [w]. *)
Theorem lowered_fshl_computes (id : nat) (M : module) (II : instr) (CF : function)
    (w a b r : Z) :
  wf M -> get_instr M id = Some II -> getCalledFunction M II = Some CF ->
  fret CF = TInt w -> getFunction M (lowerLLVMIntrinsicName M II) = None ->
  0 < w -> 0 <= a -> 0 <= b < 2 ^ w ->
  exists G,
    getFunction (lowerFunnelShiftLeft id M) (lowerLLVMIntrinsicName M II) = Some G /\
    run_function G [RInt (Bits a); RInt (Bits b); RInt (Bits r)] =
    Ok (Some (RInt (fshl_lane w a b r))).
Proof.
  intros W HG HC HR HN Hw Ha Hb.
  pose proof (get_instr_lt M id II W HG) as Hlt.
  unfold lowerFunnelShiftLeft. rewrite HG, HC. cbv zeta.
  set (n := lowerLLVMIntrinsicName M II) in *.
  unfold getOrCreateFunction. rewrite HN.
  unfold buildFunnelShiftLeftFunc.
  rewrite (getFunction_append_new (declaration n (fret CF) (fparams CF)) n M eq_refl HN).
  cbn [empty isDeclaration declaration blocks negb fret]. rewrite HR.
  cbn [getIntegerBitWidth next_id append_function].
  exists (mkFunction n (TInt w) (fparams CF) [mkBlock "rotate" (fshl_body (next_id M) w)]).
  split.
  - apply (fresh_helper id n (TInt w) (fparams CF) (fshl_body (next_id M) w)); [exact HN|].
    apply (fresh_ids (next_id M)); [exact Hlt|].
    repeat (constructor; [simpl; lia|]). constructor.
  - unfold run_function. cbn [blocks insts]. rewrite run_fshl_body.
    unfold fshl_lane. destruct (r mod w =? 0) eqn:E.
    + apply Z.eqb_eq in E. now apply run_fshl_zero.
    + apply Z.eqb_neq in E. now apply run_fshl_nonzero.
Qed.

Lemma lowered_fshl_computes_witness :
  exists G,
    getFunction (lowerFunnelShiftLeft 0 calls_fshl) "spirv.llvm_fshl_i8" = Some G /\
    run_function G [RInt (Bits 129); RInt (Bits 192); RInt (Bits 11)] =
    Ok (Some (RInt (Bits 14))).
Proof.
  apply (lowered_fshl_computes 0 calls_fshl
           (mkInstr 0 "" (TInt 8)
              (Call (VFunc "llvm.fshl.i8") [VArg 0; VArg 1; VArg 2] false false) [])
           fshl_i8 8 129 192 11); try reflexivity; try lia.
  apply wf_check_sound. reflexivity.
Defined.

Lemma run_umul_outcome (w a b : Z) :
  0 <= w -> 0 <= a -> 0 <= b -> run_umul w a b = umul_outcome w a b.
Proof.
  intros Hw Ha Hb. unfold umul_outcome, umul_product_lane, umul_flag_lane.
  destruct (a =? 0) eqn:E0.
  - apply Z.eqb_eq in E0. subst a. now apply run_umul_zero.
  - apply Z.eqb_neq in E0. destruct (a * b <? 2 ^ w) eqn:E1.
    + apply Z.ltb_lt in E1. apply run_umul_fits; lia.
    + apply Z.ltb_ge in E1. apply run_umul_overflows; lia.
Qed.

(** X18: when no function of the derived name is in the module, the
    lowering of a call of the multiply-with-overflow intrinsic of width [w]
    installs a helper that, on all operands, divides by zero when the first
    operand is 0 and otherwise returns the product with a flag that tells
    whether the operands differ, or poison in both fields when the product
    does not fit. *)
Theorem lowered_umul_computes (id : nat) (M : module) (II : instr) (CF : function)
    (w a b : Z) :
  wf M -> get_instr M id = Some II -> getCalledFunction M II = Some CF ->
  fret CF = umul_ret w -> fparams CF = [TInt w; TInt w] ->
  getFunction M (lowerLLVMIntrinsicName M II) = None ->
  0 <= w -> 0 <= a -> 0 <= b ->
  exists G,
    getFunction (lowerUMulWithOverflow id M) (lowerLLVMIntrinsicName M II) = Some G /\
    run_function G [RInt (Bits a); RInt (Bits b)] = umul_outcome w a b.
Proof.
  intros W HG HC HR HP HN Hw Ha Hb.
  pose proof (get_instr_lt M id II W HG) as Hlt.
  unfold lowerUMulWithOverflow. rewrite HG, HC. cbv zeta.
  set (n := lowerLLVMIntrinsicName M II) in *.
  unfold getOrCreateFunction. rewrite HN.
  unfold buildUMulWithOverflowFunc.
  rewrite (getFunction_append_new (declaration n (fret CF) (fparams CF)) n M eq_refl HN).
  cbn [empty isDeclaration declaration blocks negb fret fparams]. rewrite HR, HP.
  cbn [nth cmp_result_ty next_id append_function].
  exists (mkFunction n (umul_ret w) [TInt w; TInt w]
            [mkBlock "entry" (umul_body (next_id M) w)]).
  split.
  - apply (fresh_helper id n (umul_ret w) [TInt w; TInt w] (umul_body (next_id M) w));
      [exact HN|].
    apply (fresh_ids (next_id M)); [exact Hlt|].
    repeat (constructor; [simpl; lia|]). constructor.
  - unfold run_function. cbn [blocks insts]. rewrite run_umul_body.
    now apply run_umul_outcome.
Qed.

Lemma lowered_umul_computes_witness :
  exists G,
    getFunction (lowerUMulWithOverflow 0 calls_umul)
                "spirv.llvm_umul_with_overflow_i8" = Some G /\
    run_function G [RInt (Bits 7); RInt (Bits 7)] =
    Ok (Some (RStruct [RInt (Bits 49); RInt (Bits 0)])).
Proof.
  apply (lowered_umul_computes 0 calls_umul
           (mkInstr 0 "" (TStruct [TInt 8; TInt 1])
              (Call (VFunc "llvm.umul.with.overflow.i8") [VArg 0; VArg 1] false false) [])
           (declaration "llvm.umul.with.overflow.i8" (TStruct [TInt 8; TInt 1])
              [TInt 8; TInt 8]) 8 7 7); try reflexivity; try lia.
  apply wf_check_sound. reflexivity.
Defined.

(** ** The lowering of a fill *)

(** X19: the lowering of a fill whose value or length is not a constant
    makes the function of the derived name (with the suffix [.volatile] for
    a volatile fill) the callee and leaves the call its arguments and marks.
    A function already in the module under that name is taken as it is, with
    or without a body; otherwise the function is created with a body. *)
Theorem lowerMemset_redirects (id : nat) (M : module) (II : instr) (CF : function)
    (c : value) (args : list value) (t nu : bool) :
  wf M -> get_instr M id = Some II -> iop II = Call c args t nu ->
  getCalledFunction M II = Some CF -> is_lowered LowerMemset II = true ->
  (exists G,
     getFunction (lowerMemset id M) (derived_name LowerMemset M II) = Some G /\
     isDeclaration G =
       match getFunction M (derived_name LowerMemset M II) with
       | Some F => isDeclaration F
       | None => false
       end) /\
  option_map iop (get_instr (lowerMemset id M) id) =
    Some (Call (VFunc (derived_name LowerMemset M II)) args t nu).
Proof.
  intros W HG HO HC HL.
  pose proof (get_instr_lt M id II W HG) as Hlt.
  unfold is_lowered, derived_name, call_args in *. rewrite HO in *.
  apply negb_true_iff in HL.
  unfold lowerMemset. rewrite HG, HO, HC, HL.
  set (n := (lowerLLVMIntrinsicName M II ++ _)%string).
  assert (forall N G,
            get_instr N id = Some II -> getFunction N n = Some G ->
            (exists G', getFunction (setCalledFunction id n N) n = Some G' /\
                        isDeclaration G' = isDeclaration G) /\
            get_instr (setCalledFunction id n N) id =
              Some (set_iop (Call (VFunc n) args t nu) II)) as Setc.
  { intros N G HGN HFN. unfold setCalledFunction. split.
    - unfold update_instr. rewrite getFunction_rewrite, HFN. simpl.
      eexists. split; [reflexivity|]. now rewrite isDeclaration_map_function.
    - rewrite get_instr_update_instr by (intros i; now destruct (iop i)).
      rewrite HGN. simpl. destruct (get_instr_Some N id II HGN) as [_ ->].
      now rewrite Nat.eqb_refl, HO. }
  destruct (getFunction M n) as [F|] eqn:EF.
  - destruct (Setc M F HG EF) as [[G' [A B]] C]. split.
    + exists G'. now split.
    + now rewrite C.
  - set (D := declaration n (fret CF) (fparams CF)).
    set (M1 := append_function D M).
    assert (get_instr M1 id = Some II) as HG1.
    { unfold get_instr, M1. rewrite all_instrs_append_function. simpl.
      now rewrite app_nil_r. }
    destruct (Setc M1 D HG1 (getFunction_append_new D n M eq_refl EF))
      as [[G' [A B]] C].
    set (M2 := setCalledFunction id n M1) in *.
    assert (wf M2) as W2
      by (apply sound_setCalledFunction; now apply wf_append_declaration).
    split.
    + eexists. split; [|apply isDeclaration_set_blocks].
      change (getFunction (bump 9 ?X) n) with (getFunction X n).
      rewrite getFunction_update_function by reflexivity. now rewrite A.
    + rewrite (get_instr_set_body M2 n G' _ 9 id W2 A).
      * now rewrite C.
      * unfold empty. now rewrite B.
      * unfold memset_loop. destruct (isVolatile args); fresh_body_tac.
      * exact Hlt.
Qed.

Lemma lowerMemset_redirects_witness :
  (exists G,
     getFunction (lowerMemset 0 variable_fill) "spirv.llvm_memset_p0i8_i32" = Some G /\
     isDeclaration G = false) /\
  option_map iop (get_instr (lowerMemset 0 variable_fill) 0) =
    Some (Call (VFunc "spirv.llvm_memset_p0i8_i32")
               [VArg 0; VConstInt 8 0; VArg 1; VConstInt 1 0] true false).
Proof.
  apply (lowerMemset_redirects 0 variable_fill
           (mkInstr 0 "" TVoid
              (Call (VFunc "llvm.memset.p0i8.i32")
                    [VArg 0; VConstInt 8 0; VArg 1; VConstInt 1 0] true false) [])
           memset_p0i8_i32 (VFunc "llvm.memset.p0i8.i32")
           [VArg 0; VConstInt 8 0; VArg 1; VConstInt 1 0] true false);
    try reflexivity.
  apply wf_check_sound. reflexivity.
Defined.

(** ** Modules without compare-exchange *)

Lemma no_cmpxchg_map_operands (g : value -> value) (o : opcode) :
  no_cmpxchg (map_operands g o) = no_cmpxchg o.
Proof. now destruct o as [| | | | | | |[v|]|]. Qed.

Lemma no_cmpxchg_created (o : opcode) : created o = true -> no_cmpxchg o = true.
Proof. destruct o; simpl; auto. Qed.

Lemma cmpxchg_free_steps (M M' : module) :
  wf M -> steps M M' -> cmpxchg_free M -> cmpxchg_free M'.
Proof.
  intros W S H i' Hi'.
  assert (offenders_from no_cmpxchg M M') as O.
  { apply offenders_steps; auto.
    - intros o old x. now rewrite no_cmpxchg_map_operands.
    - intros o. now rewrite no_cmpxchg_map_operands.
    - apply no_cmpxchg_created. }
  destruct (O i' Hi') as [X|[i [A [_ B]]]]; [exact X|].
  rewrite (H i A) in B. discriminate.
Qed.

Lemma visit_completes (id : nat) (M : module) (TE : list nat) :
  cmpxchg_free M -> exists M', visit id (M, TE) = Done (M', TE).
Proof.
  intros H. unfold visit. destruct (get_instr M id) as [II|] eqn:HG; [|eauto].
  destruct (get_instr_Some M id II HG) as [HI _]. specialize (H II HI).
  destruct (iop II); try discriminate; eauto.
Qed.

(** ** The loops of the pass come to their end *)

Lemma count_rewrite_le (p : instr -> bool) (g : instr -> instr) (l : list instr) :
  (forall i, In i l -> p (g i) = true -> p i = true) ->
  (List.length (filter p (flat_map (fun i => [g i]) l)) <= List.length (filter p l))%nat.
Proof.
  induction l as [|a l IH]; intros H; simpl; [lia|].
  assert (List.length (filter p (flat_map (fun i => [g i]) l)) <= List.length (filter p l))%nat
    as IH' by (apply IH; intros i Hi; apply H; now right).
  destruct (p (g a)) eqn:E.
  - rewrite (H a (or_introl eq_refl) E). simpl. lia.
  - destruct (p a); simpl; lia.
Qed.

Lemma rewrite_absent (g : instr -> instr) (id : nat) (l : list instr) :
  ~ In id (map iid l) ->
  flat_map (fun i => [if Nat.eqb (iid i) id then g i else i]) l = l.
Proof.
  induction l as [|a l IH]; intros H; simpl; [reflexivity|].
  simpl in H. destruct (Nat.eqb_spec (iid a) id) as [E|E]; [tauto|].
  rewrite IH; tauto.
Qed.

Lemma count_update_lt (p : instr -> bool) (g : instr -> instr) (id : nat)
    (l : list instr) (II : instr) :
  NoDup (map iid l) -> In II l -> iid II = id -> p II = true -> p (g II) = false ->
  (List.length (filter p (flat_map (fun i => [if Nat.eqb (iid i) id then g i else i]) l)) + 1
   <= List.length (filter p l))%nat.
Proof.
  induction l as [|a l IH]; intros ND HI E P Pg; [destruct HI|].
  simpl in ND. inversion ND as [|? ? Ha ND']; subst.
  cbn [flat_map app filter].
  destruct (Nat.eqb_spec (iid a) (iid II)) as [Ea|Ea].
  - assert (a = II) as ->.
    { destruct HI as [X|X]; [exact X|]. exfalso. apply Ha. rewrite Ea.
      now apply in_map. }
    rewrite Pg, P, rewrite_absent by exact Ha. simpl. lia.
  - destruct HI as [X|X]; [congruence|].
    specialize (IH ND' X eq_refl P Pg). destruct (p a); simpl; lia.
Qed.

Lemma ids_rewrite_single (g : instr -> instr) (l : list instr) :
  (forall i, iid (g i) = iid i) -> map iid (flat_map (fun i => [g i]) l) = map iid l.
Proof.
  intros H. induction l as [|a l IH]; simpl; [reflexivity|]. now rewrite H, IH.
Qed.

Lemma length_rewrite_single (g : instr -> instr) (l : list instr) :
  List.length (flat_map (fun i => [g i]) l) = List.length l.
Proof. induction l as [|a l IH]; simpl; [reflexivity|]. now rewrite IH. Qed.

Lemma drift_refl (S : nat) (M : module) : drift S 0 0 M M.
Proof.
  split; [auto|]. split; [|lia]. intros n F H _. exists F. now split.
Qed.

Lemma drift_trans (S a b a' b' : nat) (M M1 M2 : module) :
  drift S a b M M1 -> drift S a' b' M1 M2 -> drift S (a + a') (b + b') M M2.
Proof.
  intros (S1 & K1 & F1 & P1) (S2 & K2 & F2 & P2).
  split; [auto|]. split; [|lia].
  intros n F H N. destruct (K1 n F H N) as (F1' & H1 & E1).
  destruct (K2 n F1' H1) as (F2' & H2 & E2).
  { intros X. rewrite X in E1. destruct (instrs_of F); [tauto|discriminate]. }
  exists F2'. split; [exact H2|]. congruence.
Qed.

Lemma tame_drift (S a b : nat) (M M' : module) :
  (a <= b)%nat -> drift S a b M M' -> tame S M M'.
Proof. intros L (S1 & K1 & F1 & P1). split; [auto|]. split; [auto|lia]. Qed.

Lemma tame_refl (S : nat) (M : module) : tame S M M.
Proof. apply (tame_drift S 0 0); [lia|apply drift_refl]. Qed.

Lemma tame_trans (S : nat) (M M1 M2 : module) :
  tame S M M1 -> tame S M1 M2 -> tame S M M2.
Proof.
  intros (S1 & K1 & P1) (S2 & K2 & P2).
  split; [auto|]. split; [|lia].
  intros n F H N. destruct (K1 n F H N) as (F1' & H1 & E1).
  destruct (K2 n F1' H1) as (F2' & H2 & E2).
  { intros X. rewrite X in E1. destruct (instrs_of F); [tauto|discriminate]. }
  exists F2'. split; [exact H2|]. congruence.
Qed.

Lemma drift_rewrite_single (S : nat) (g : instr -> instr) (M : module) :
  (forall i, iid (g i) = iid i) ->
  (forall i, In i (all_instrs M) ->
             intrinsic_call (iop (g i)) = true -> intrinsic_call (iop i) = true) ->
  drift S 0 0 M (rewrite_instrs (fun i => [g i]) M).
Proof.
  intros Hid Hp. split; [|split; [|split]].
  - unfold sized. cbn [rewrite_instrs map_module funcs]. intros H.
    apply Forall_map. revert H. apply Forall_impl. intros F HF.
    now rewrite instrs_of_map_function, length_rewrite_single.
  - intros n F H _. rewrite getFunction_rewrite, H. cbn [option_map].
    eexists. split; [reflexivity|].
    rewrite instrs_of_map_function. now apply ids_rewrite_single.
  - cbn [rewrite_instrs map_module funcs]. rewrite length_map. lia.
  - unfold pending. rewrite all_instrs_rewrite, Nat.add_0_r.
    apply (count_rewrite_le (fun i => intrinsic_call (iop i))). exact Hp.
Qed.

Lemma drift_update_instr (S id : nat) (g : instr -> instr) (M : module) :
  (forall i, iid (g i) = iid i) ->
  (forall i, intrinsic_call (iop (g i)) = true -> intrinsic_call (iop i) = true) ->
  drift S 0 0 M (update_instr id g M).
Proof.
  intros Hid Hp. unfold update_instr.
  apply (drift_rewrite_single S (fun i => if Nat.eqb (iid i) id then g i else i)).
  - intros i. destruct (Nat.eqb (iid i) id); auto.
  - intros i _. destruct (Nat.eqb (iid i) id); auto.
Qed.

Lemma drift_set_flags (S id : nat) (M : module) (II : instr) (c : value)
    (a : list value) (t n t' n' : bool) :
  wf M -> get_instr M id = Some II -> iop II = Call c a t n ->
  drift S 0 0 M (update_instr id (set_iop (Call c a t' n')) M).
Proof.
  intros W HG HO. unfold update_instr.
  apply (drift_rewrite_single S
           (fun i => if Nat.eqb (iid i) id then set_iop (Call c a t' n') i else i)).
  - intros i. destruct (Nat.eqb (iid i) id); auto.
  - intros i Hi. destruct (Nat.eqb_spec (iid i) id) as [E|E]; auto.
    rewrite (the_instr M id II i W HG Hi E), HO. auto.
Qed.

Lemma drift_retarget (S id : nat) (F : string) (M : module) (II : instr) :
  wf M -> get_instr M id = Some II -> intrinsic_call (iop II) = true ->
  prefix "llvm." F = false -> drift S 0 1 M (setCalledFunction id F M).
Proof.
  intros W HG HI HF.
  set (g := fun i => match iop i with
                     | Call _ args t n => set_iop (Call (VFunc F) args t n) i
                     | _ => i
                     end).
  assert (forall i, iid (g i) = iid i) as Hid
    by (intros i; unfold g; now destruct (iop i)).
  destruct (drift_update_instr S id g M Hid) as (S1 & K1 & F1 & _).
  { intros i. unfold g. destruct (iop i) eqn:E; rewrite ?E; auto.
    simpl. congruence. }
  split; [exact S1|]. split; [exact K1|]. split; [exact F1|].
  unfold pending, setCalledFunction. fold g. unfold update_instr.
  rewrite all_instrs_rewrite.
  destruct (get_instr_Some M id II HG) as [HIn HE].
  apply (count_update_lt (fun i => intrinsic_call (iop i)) g id (all_instrs M) II);
    auto using wf_ids.
  unfold g. destruct (iop II); try discriminate. simpl. exact HF.
Qed.

Lemma find_app_first {A} (p : A -> bool) (l l' : list A) (x : A) :
  find p l = Some x -> find p (l ++ l') = Some x.
Proof.
  induction l as [|a l IH]; simpl; [discriminate|]. destruct (p a); auto.
Qed.

Lemma drift_append_declaration (S : nat) (n : string) (r : ty) (ps : list ty)
    (M : module) :
  drift S 1 0 M (append_function (declaration n r ps) M).
Proof.
  split; [|split; [|split]].
  - unfold sized. cbn [append_function funcs]. intros H.
    apply Forall_app. split; [exact H|]. constructor; [simpl; lia|constructor].
  - intros m F H _. exists F. split; [|reflexivity].
    unfold getFunction. cbn [append_function funcs]. now apply find_app_first.
  - cbn [append_function funcs]. rewrite length_app. simpl. lia.
  - unfold pending. rewrite all_instrs_append_function. simpl.
    rewrite app_nil_r. lia.
Qed.

Lemma drift_getOrCreateFunction (S : nat) (r : ty) (ps : list ty) (n : string)
    (M : module) :
  drift S 1 0 M (getOrCreateFunction r ps n M).
Proof.
  unfold getOrCreateFunction. destruct (getFunction M n).
  - destruct (drift_refl S M) as (A & B & C & D).
    split; [exact A|]. split; [exact B|]. split; lia.
  - apply drift_append_declaration.
Qed.

Lemma getFunction_update_function_other (n m : string) (g : function -> function)
    (M : module) :
  (forall F, fname (g F) = fname F) -> m <> n ->
  getFunction (update_function n g M) m = getFunction M m.
Proof.
  intros Hg Hn. unfold getFunction. cbn [update_function funcs].
  induction (funcs M) as [|a l IH]; simpl; [reflexivity|].
  destruct (String.eqb_spec (fname a) n) as [E|E].
  - rewrite Hg. destruct (String.eqb_spec (fname a) m) as [E'|E']; [congruence|].
    exact IH.
  - destruct (String.eqb (fname a) m); [reflexivity|exact IH].
Qed.

Lemma drift_set_body (S : nat) (M : module) (n : string) (F : function)
    (B : list block) (k : nat) :
  wf M -> getFunction M n = Some F -> empty F = true ->
  (List.length (flat_map insts B) <= S)%nat ->
  filter (fun i => intrinsic_call (iop i)) (flat_map insts B) = [] ->
  drift S 0 0 M (bump k (update_function n (set_blocks B) M)).
Proof.
  intros W HG HE HL HB. split; [|split; [|split]].
  - unfold sized. cbn [bump update_function funcs]. intros H.
    apply Forall_map. revert H. apply Forall_impl. intros G HG'.
    destruct (String.eqb (fname G) n); [|exact HG'].
    now rewrite instrs_of_set_blocks.
  - intros m G H N. exists G. split; [|reflexivity].
    assert (m <> n) as Hn.
    { intros ->. rewrite HG in H. injection H as <-.
      apply N. now apply empty_instrs_of. }
    change (getFunction (update_function n (set_blocks B) M) m = Some G).
    now rewrite getFunction_update_function_other.
  - cbn [bump update_function funcs]. rewrite length_map. lia.
  - destruct (getFunction_split M n F W HG) as (HN & a & b & Hf & Hab).
    unfold pending, all_instrs. cbn [bump funcs].
    destruct M as [fs nid]. cbn [funcs] in Hf. subst fs.
    rewrite (update_function_split n (set_blocks B) a b F nid HN Hab).
    cbn [funcs]. rewrite !flat_map_app. cbn [flat_map].
    rewrite instrs_of_set_blocks, (empty_instrs_of F HE).
    rewrite !filter_app, HB. simpl. lia.
Qed.

Lemma drift_buildFunnelShiftLeftFunc (S : nat) (n : string) (M : module) :
  wf M -> (9 <= S)%nat -> drift S 0 0 M (buildFunnelShiftLeftFunc n M).
Proof.
  intros W HS. unfold buildFunnelShiftLeftFunc.
  destruct (getFunction M n) as [F|] eqn:HG; [|apply drift_refl].
  destruct (empty F) eqn:HE; cbn [negb]; [|apply drift_refl].
  apply (drift_set_body S M n F); auto. simpl. lia.
Qed.

Lemma drift_buildUMulWithOverflowFunc (S : nat) (n : string) (M : module) :
  wf M -> (9 <= S)%nat -> drift S 0 0 M (buildUMulWithOverflowFunc n M).
Proof.
  intros W HS. unfold buildUMulWithOverflowFunc.
  destruct (getFunction M n) as [F|] eqn:HG; [|apply drift_refl].
  destruct (empty F) eqn:HE; cbn [negb]; [|apply drift_refl].
  apply (drift_set_body S M n F); auto. simpl. lia.
Qed.

Lemma tame_lowerFunnelShiftLeft (S id : nat) (M : module) (II : instr) :
  wf M -> (9 <= S)%nat -> get_instr M id = Some II ->
  intrinsic_call (iop II) = true -> tame S M (lowerFunnelShiftLeft id M).
Proof.
  intros W HS HG HI. unfold lowerFunnelShiftLeft. rewrite HG.
  destruct (getCalledFunction M II) as [CF|] eqn:E; [|apply tame_refl].
  destruct (derived_name_not_intrinsic M II CF "" E) as [H1 H2].
  rewrite string_app_nil in H1, H2.
  set (n := lowerLLVMIntrinsicName M II) in *.
  set (M1 := getOrCreateFunction (fret CF) (fparams CF) n M).
  assert (wf M1) as W1 by (apply (wf_steps M _ W); now apply steps_getOrCreateFunction).
  set (M2 := buildFunnelShiftLeftFunc n M1).
  assert (wf M2) as W2 by (apply (wf_steps M1 _ W1), steps_buildFunnelShiftLeftFunc).
  assert (get_instr M2 id = Some II) as HG2.
  { unfold M2. rewrite get_instr_buildFunnelShiftLeftFunc; auto.
    - unfold M1. now rewrite get_instr_getOrCreateFunction.
    - apply (get_instr_lt M1 id II W1). unfold M1.
      now rewrite get_instr_getOrCreateFunction. }
  apply (tame_drift S (1 + (0 + 0)) (0 + (0 + 1))); [lia|].
  apply (drift_trans S 1 0 (0 + 0) (0 + 1) M M1); [apply drift_getOrCreateFunction|].
  apply (drift_trans S 0 0 0 1 M1 M2); [now apply drift_buildFunnelShiftLeftFunc|].
  now apply (drift_retarget S id n M2 II).
Qed.

Lemma tame_lowerUMulWithOverflow (S id : nat) (M : module) (II : instr) :
  wf M -> (9 <= S)%nat -> get_instr M id = Some II ->
  intrinsic_call (iop II) = true -> tame S M (lowerUMulWithOverflow id M).
Proof.
  intros W HS HG HI. unfold lowerUMulWithOverflow. rewrite HG.
  destruct (getCalledFunction M II) as [CF|] eqn:E; [|apply tame_refl].
  destruct (derived_name_not_intrinsic M II CF "" E) as [H1 H2].
  rewrite string_app_nil in H1, H2.
  set (n := lowerLLVMIntrinsicName M II) in *.
  set (M1 := getOrCreateFunction (fret CF) (fparams CF) n M).
  assert (wf M1) as W1 by (apply (wf_steps M _ W); now apply steps_getOrCreateFunction).
  set (M2 := buildUMulWithOverflowFunc n M1).
  assert (wf M2) as W2 by (apply (wf_steps M1 _ W1), steps_buildUMulWithOverflowFunc).
  assert (get_instr M2 id = Some II) as HG2.
  { unfold M2. rewrite get_instr_buildUMulWithOverflowFunc; auto.
    - unfold M1. now rewrite get_instr_getOrCreateFunction.
    - apply (get_instr_lt M1 id II W1). unfold M1.
      now rewrite get_instr_getOrCreateFunction. }
  apply (tame_drift S (1 + (0 + 0)) (0 + (0 + 1))); [lia|].
  apply (drift_trans S 1 0 (0 + 0) (0 + 1) M M1); [apply drift_getOrCreateFunction|].
  apply (drift_trans S 0 0 0 1 M1 M2); [now apply drift_buildUMulWithOverflowFunc|].
  now apply (drift_retarget S id n M2 II).
Qed.

Lemma get_instr_append_declaration (n : string) (r : ty) (ps : list ty)
    (M : module) (id : nat) :
  get_instr (append_function (declaration n r ps) M) id = get_instr M id.
Proof.
  unfold get_instr. rewrite all_instrs_append_function. simpl.
  now rewrite app_nil_r.
Qed.

Lemma tame_lowerMemset (S id : nat) (M : module) (II : instr) :
  wf M -> (9 <= S)%nat -> get_instr M id = Some II ->
  intrinsic_call (iop II) = true -> tame S M (lowerMemset id M).
Proof.
  intros W HS HG HI. unfold lowerMemset. rewrite HG.
  destruct (iop II) as [callee args t n| | | | | | | |] eqn:EO; try apply tame_refl.
  destruct (getCalledFunction M II) as [CF|] eqn:E; [|apply tame_refl].
  destruct (isConstant _ && isConstantInt _); [apply tame_refl|].
  destruct (derived_name_not_intrinsic M II CF
              (if isVolatile args then ".volatile" else "") E) as [H1 H2].
  set (FuncName := (_ ++ _)%string) in *.
  assert (intrinsic_call (iop II) = true) as HI' by now rewrite EO.
  destruct (getFunction M FuncName) as [F|] eqn:EF.
  - apply (tame_drift S 0 1); [lia|]. now apply (drift_retarget S id FuncName M II).
  - set (D := declaration FuncName (fret CF) (fparams CF)).
    set (M1 := append_function D M).
    assert (wf M1) as W1 by now apply wf_append_declaration.
    assert (get_instr M1 id = Some II) as HG1
      by (unfold M1, D; now rewrite get_instr_append_declaration).
    set (M2 := setCalledFunction id FuncName M1).
    assert (wf M2) as W2.
    { apply (wf_steps M1); auto. apply steps_one. now constructor. }
    assert (exists G, getFunction M2 FuncName = Some G /\ empty G = true) as [G [HG2 EG]].
    { unfold M2, setCalledFunction, update_instr. rewrite getFunction_rewrite.
      unfold M1. rewrite (getFunction_append_new D FuncName M eq_refl EF). simpl. eauto. }
    apply (tame_drift S (1 + (0 + 0)) (0 + (1 + 0))); [lia|].
    apply (drift_trans S 1 0 (0 + 0) (1 + 0) M M1); [apply drift_append_declaration|].
    apply (drift_trans S 0 1 0 0 M1 M2); [now apply (drift_retarget S id FuncName M1 II)|].
    apply (drift_set_body S M2 FuncName G); auto.
    unfold memset_loop. now destruct (isVolatile args).
Qed.

Lemma called_intrinsic (M : module) (II : instr) (CF : function) (c : value)
    (a : list value) (t n t' n' : bool) :
  iop II = Call c a t n -> getCalledFunction M II = Some CF ->
  isIntrinsic CF = true -> intrinsic_call (Call c a t' n') = true.
Proof.
  intros HO E HI. unfold getCalledFunction in E. rewrite HO in E.
  destruct c; try discriminate. simpl.
  unfold getFunction in E. apply find_some in E. destruct E as [_ E].
  apply String.eqb_eq in E. now rewrite <- E.
Qed.

Lemma tame_strip (S id : nat) (M : module) : tame S M (update_instr id strip_metadata M).
Proof.
  apply (tame_drift S 0 0); [lia|]. apply drift_update_instr.
  - apply iid_strip_metadata.
  - intros i. now rewrite iop_strip_metadata.
Qed.

Lemma tame_visit (S id : nat) (M : module) (TE : list nat) (M' : module)
    (TE' : list nat) :
  wf M -> (9 <= S)%nat -> cmpxchg_free M ->
  visit id (M, TE) = Done (M', TE') -> tame S M M'.
Proof.
  intros W HS HF H. unfold visit in H.
  destruct (get_instr M id) as [II|] eqn:HG.
  2:{ injection H as <- _. apply tame_refl. }
  pose proof (HF II (proj1 (get_instr_Some M id II HG))) as NC.
  destruct (iop II) as [c a t n|op nuw ex x y| | | | | | |] eqn:EO;
    try discriminate NC; injection H as <- _;
    (eapply tame_trans; [|apply tame_strip]); try apply tame_refl.
  - set (Ma := update_instr id (set_iop (Call c a false n)) M).
    assert (tame S M Ma) as Ta.
    { apply (tame_drift S 0 0); [lia|].
      now apply (drift_set_flags S id M II c a t n). }
    destruct (getCalledFunction M II) as [CF|] eqn:E; [|exact Ta].
    destruct (isIntrinsic CF) eqn:HI; [|exact Ta].
    assert (wf Ma) as Wa by (apply wf_update_instr; auto).
    pose proof (get_instr_set_iop id (Call c a false n) M II HG) as Ga. fold Ma in Ga.
    set (Mb := update_instr id (set_iop (Call c a false false)) Ma).
    assert (tame S Ma Mb) as Tb.
    { apply (tame_drift S 0 0); [lia|].
      now apply (drift_set_flags S id Ma (set_iop (Call c a false n) II) c a false n). }
    assert (wf Mb) as Wb by (apply wf_update_instr; auto).
    pose proof (get_instr_set_iop id (Call c a false false) Ma _ Ga) as Gb. fold Mb in Gb.
    assert (intrinsic_call
              (iop (set_iop (Call c a false false) (set_iop (Call c a false n) II)))
            = true) as Hb
      by (apply (called_intrinsic M II CF c a t n false false EO E HI)).
    apply (tame_trans S M Ma); [exact Ta|]. apply (tame_trans S Ma Mb); [exact Tb|].
    destruct (isMemSet CF); [now apply (tame_lowerMemset S id Mb _ Wb HS Gb)|].
    destruct (isFshl CF); [now apply (tame_lowerFunnelShiftLeft S id Mb _ Wb HS Gb)|].
    destruct (isUMulWithOverflow CF);
      [now apply (tame_lowerUMulWithOverflow S id Mb _ Wb HS Gb)|].
    apply tame_refl.
  - destruct (isPossiblyExact op && ex); [|apply tame_refl].
    apply (tame_drift S 0 0); [lia|]. apply drift_update_instr; [reflexivity|].
    intros i. simpl. discriminate.
Qed.

Lemma walk_insts_finishes (S : nat) (Fn : string) (fuel : nat) :
  forall (M : module) (F : function) (pre post : list nat),
    wf M -> cmpxchg_free M -> (9 <= S)%nat ->
    getFunction M Fn = Some F -> map iid (instrs_of F) = pre ++ post ->
    (List.length post <= fuel)%nat ->
    exists M1, walk_insts fuel Fn (hd_error post) (M, []) = Done (M1, []) /\
               wf M1 /\ cmpxchg_free M1 /\ tame S M M1.
Proof.
  induction fuel as [|fuel IH]; intros M F pre post W HF HS HG HI HL.
  - destruct post; [|simpl in HL; lia]. exists M. simpl. auto using tame_refl.
  - destruct post as [|id post]; [exists M; simpl; auto using tame_refl|].
    cbn [hd_error]. rewrite walk_insts_step.
    destruct (visit_completes id M [] HF) as [M0 EV]. rewrite EV. cbn [fst].
    pose proof (steps_visit id M [] M0 [] EV) as St.
    pose proof (wf_steps M M0 W St) as W0.
    pose proof (cmpxchg_free_steps M M0 W St HF) as HF0.
    pose proof (tame_visit S id M [] M0 [] W HS HF EV) as T0.
    destruct (proj1 (proj2 T0) Fn F HG) as (F0 & HG0 & E0).
    { intros X. rewrite X in HI. destruct pre; discriminate. }
    assert (~ In id pre) as Hpre.
    { pose proof (NoDup_instrs_of M F W (getFunction_In M Fn F HG)) as ND.
      rewrite HI in ND. apply NoDup_remove_2 in ND.
      intros X. apply ND. apply in_app_iff. now left. }
    unfold inst_ids. rewrite HG0, E0, HI, next_after_app by assumption.
    destruct (IH M0 F0 (pre ++ [id]) post W0 HF0 HS HG0) as (M1 & E1 & W1 & HF1 & T).
    { rewrite E0, HI, <- app_assoc. reflexivity. }
    { simpl in HL. lia. }
    exists M1. split; [exact E1|]. split; [exact W1|]. split; [exact HF1|].
    now apply (tame_trans S M M0).
Qed.

Lemma walk_functions_finishes (S : nat) (fuel : nat) :
  forall (M : module) (done rest : list function),
    wf M -> cmpxchg_free M -> (9 <= S)%nat -> sized S M ->
    funcs M = done ++ rest ->
    (List.length rest + pending M + S <= fuel)%nat ->
    exists M', walk_functions fuel (hd_error (map fname rest)) M = Done M'.
Proof.
  induction fuel as [|fuel IH]; intros M done rest W HF HS HZ Hf HL.
  - destruct rest; [|simpl in HL; lia]. exists M. reflexivity.
  - destruct rest as [|F todo]; [exists M; reflexivity|].
    cbn [map hd_error]. rewrite walk_functions_step.
    destruct (cursor_found M done todo F W Hf) as (_ & _ & HG & HN).
    rewrite HG, HN.
    destruct (isDeclaration F && func_use_empty M (fname F)) eqn:ED.
    + apply andb_prop in ED. destruct ED as [E1 E2].
      pose proof (steps_one _ _ (prim_erase_decl M (fname F) F HG E1 E2)) as St.
      apply (IH (erase_function (fname F) M) done todo).
      * now apply (wf_steps M).
      * now apply (cmpxchg_free_steps M).
      * exact HS.
      * unfold sized in *. rewrite (erase_function_cursor M done todo F W Hf).
        rewrite Hf in HZ. apply Forall_app in HZ. destruct HZ as [Z1 Z2].
        apply Forall_app. split; [exact Z1|]. now inversion Z2.
      * apply (erase_function_cursor M done todo F W Hf).
      * unfold pending. rewrite (all_instrs_erase_declaration M done todo F W Hf E1).
        fold (pending M). simpl in HL. lia.
    + assert (List.length (instrs_of F) <= S)%nat as HB.
      { unfold sized in HZ. rewrite Forall_forall in HZ. apply HZ.
        now apply (getFunction_In M (fname F)). }
      destruct (walk_insts_finishes S (fname F) (Datatypes.S fuel) M F []
                  (map iid (instrs_of F)) W HF HS HG eq_refl)
        as (M1 & E1 & W1 & HF1 & T1 & _ & T3).
      { rewrite length_map. simpl in HL. lia. }
      rewrite E1. cbn [erase_all].
      destruct (function_turn_shape (Datatypes.S fuel) M M1 M1 [] done todo F W Hf E1 eq_refl)
        as (_ & d2 & F2 & t2 & news & Hf2 & Nd & NF & Nt).
      rewrite <- Nt.
      destruct t2 as [|G t2]; [exists M1; destruct fuel; reflexivity|].
      change (hd_error (map fname (G :: t2)))
        with (hd_error (map fname ((G :: t2) ++ news))).
      apply (IH M1 (d2 ++ [F2]) ((G :: t2) ++ news)); auto.
      * rewrite Hf2, <- !app_assoc. reflexivity.
      * apply (f_equal (@List.length string)) in Nd, Nt. rewrite !length_map in Nd, Nt.
        rewrite Hf2, Hf in T3. clear IH.
        repeat (rewrite ?length_app in *; cbn [List.length] in * ). lia.
Qed.

Lemma drift_rewrite_calls (S : nat) (N : module) (F : function) (Name : string)
    (M : module) :
  prefix "llvm." Name = false ->
  drift S 0 0 M (rewrite_instrs (fun i => [lowerFuncPtr_call N F Name i]) M).
Proof.
  intros HN. apply drift_rewrite_single.
  - intros i. apply iid_lowerFuncPtr_call.
  - intros i _. unfold lowerFuncPtr_call.
    destruct (iop i) as [c ? ? ?| | | | | | | |] eqn:E; rewrite ?E; auto.
    destruct c; rewrite ?E; auto.
    destruct (String.eqb _ _); rewrite ?E; auto.
    simpl. rewrite HN. discriminate.
Qed.

Lemma bounded_drift (S a b : nat) (M M' : module) :
  drift S a b M M' -> bounded S a M M'.
Proof. intros (A & _ & B & C). split; [exact A|]. split; lia. Qed.

Lemma bounded_trans (S a a' : nat) (M M1 M2 : module) :
  bounded S a M M1 -> bounded S a' M1 M2 -> bounded S (a + a') M M2.
Proof.
  intros (A1 & B1 & C1) (A2 & B2 & C2). split; [auto|]. split; lia.
Qed.

Lemma filter_filter_length {A} (p q : A -> bool) (l : list A) :
  (List.length (filter p (filter q l)) <= List.length (filter p l))%nat.
Proof.
  induction l as [|a l IH]; simpl; [lia|].
  destruct (q a); simpl; destruct (p a); simpl; lia.
Qed.

Lemma bounded_eraseIfNoUse (S V : nat) (M : module) :
  bounded S 0 M (eraseIfNoUse V M).
Proof.
  unfold eraseIfNoUse. destruct (user_empty M (VInst V));
    [|apply (bounded_drift S 0 0), drift_refl].
  split; [|split].
  - unfold sized. rewrite eraseFromParent_filter. cbn [funcs]. intros H.
    apply Forall_map. revert H. apply Forall_impl. intros F HF.
    rewrite instrs_of_filter.
    pose proof (filter_length_le (fun i => negb (Nat.eqb (iid i) V)) (instrs_of F)).
    lia.
  - rewrite eraseFromParent_filter. cbn [funcs]. rewrite length_map. lia.
  - unfold pending, eraseFromParent. rewrite all_instrs_rewrite, erase_as_filter.
    apply filter_filter_length.
Qed.

Lemma bounded_erase_candidates (S : nat) (Cs : list nat) :
  forall M : module,
    bounded S 0 M (fold_left (fun M' I => eraseIfNoUse I M') Cs M).
Proof.
  induction Cs as [|V Cs IH]; intros M; simpl;
    [apply (bounded_drift S 0 0), drift_refl|].
  apply (bounded_trans S 0 0 M (eraseIfNoUse V M));
    [apply bounded_eraseIfNoUse | apply IH].
Qed.

Lemma bounded_lowerFuncPtr_F (S : nat) (F : function) (OC : string) (M : module) :
  bounded S 1 M (lowerFuncPtr_F F OC M).
Proof.
  unfold lowerFuncPtr_F. cbv zeta.
  set (M1 := getOrCreateFunction (fret F) (fparams F) (decorateSPIRVFunction OC) M).
  apply (bounded_trans S 1 0 M M1);
    [apply (bounded_drift S 1 0), drift_getOrCreateFunction|].
  apply (bounded_trans S 0 0 M1
           (rewrite_instrs
              (fun i => [lowerFuncPtr_call M1 F (decorateSPIRVFunction OC) i]) M1)).
  - apply (bounded_drift S 0 0), drift_rewrite_calls. reflexivity.
  - apply bounded_erase_candidates.
Qed.

Lemma flat_map_short {A B} (f : A -> list B) (l : list A) :
  (forall x, List.length (f x) <= 1)%nat ->
  (List.length (flat_map f l) <= List.length l)%nat.
Proof.
  intros H. induction l as [|a l IH]; simpl; [lia|].
  rewrite length_app. specialize (H a). lia.
Qed.

Lemma bounded_lowerFuncPtr (S : nat) (M : module) :
  bounded S (List.length (funcs M)) M (lowerFuncPtr M).
Proof.
  unfold lowerFuncPtr.
  set (Work := flat_map _ (funcs M)).
  assert (List.length Work <= List.length (funcs M))%nat as HW.
  { unfold Work. apply flat_map_short. intros F.
    destruct (hasFunctionPointerArg F); [destruct (getSPIRVFuncOC (fname F))|];
      simpl; lia. }
  assert (bounded S (List.length Work) M
            (fold_left (fun M' I => lowerFuncPtr_F (fst I) (snd I) M') Work M)) as D.
  { clear HW. generalize Work. clear Work. intros Work. revert M.
    induction Work as [|[F OC] Work IH]; intros M;
      [apply (bounded_drift S 0 0), drift_refl|].
    cbn [fold_left fst snd List.length].
    apply (bounded_trans S 1 (List.length Work) M (lowerFuncPtr_F F OC M));
      [apply bounded_lowerFuncPtr_F | apply IH]. }
  destruct D as (D1 & D3 & D4). split; [exact D1|]. split; lia.
Qed.

Lemma sized_largest (S : nat) (M : module) : (largest M <= S)%nat -> sized S M.
Proof.
  unfold largest, sized. intros H. apply list_max_le in H.
  now apply Forall_map in H.
Qed.

Lemma drift_eraseUselessFunctions (S : nat) (M : module) :
  drift S 0 0 M (eraseUselessFunctions M).
Proof.
  split; [|split; [|split]].
  - unfold sized, eraseUselessFunctions. cbn [funcs]. intros H.
    rewrite Forall_forall in *. intros F HF. apply filter_In in HF. now apply H.
  - intros n F HG N. exists F. split; [|reflexivity].
    unfold getFunction, eraseUselessFunctions in *. cbn [funcs].
    revert HG. induction (funcs M) as [|G l IH]; simpl; [discriminate|].
    destruct (String.eqb (fname G) n) eqn:E.
    + intros X. injection X as ->.
      assert (isDeclaration F = false) as ->.
      { unfold isDeclaration. destruct (blocks F) eqn:B; [|reflexivity].
        exfalso. apply N. unfold instrs_of. now rewrite B. }
      simpl. now rewrite E.
    + intros X. destruct (negb _); simpl; [rewrite E|]; auto.
  - unfold eraseUselessFunctions. cbn [funcs].
    pose proof (filter_length_le
                  (fun f => negb (isDeclaration f && func_use_empty M (fname f)))
                  (funcs M)). lia.
  - unfold pending. rewrite all_instrs_eraseUselessFunctions. lia.
Qed.

(** X21: on a well-formed module that holds no compare-exchange the pass
    runs to its end: the loop over the functions and the loop over the
    instructions of each function are over within [enough M] iterations, and
    the pass returns a module. *)
Theorem regularize_completes (fuel : nat) (M : module) :
  wf M -> cmpxchg_free M -> (enough M <= fuel)%nat ->
  exists M', regularize fuel M = Done M'.
Proof.
  intros W H HL. unfold regularize. cbv zeta.
  set (S := Nat.max 9 (largest M)).
  set (M1 := eraseUselessFunctions M).
  set (M2 := lowerFuncPtr M1).
  assert (steps M M1) as S1 by (apply steps_one, prim_useless).
  assert (steps M1 M2) as S2 by apply steps_lowerFuncPtr.
  pose proof (wf_steps _ _ W S1) as W1.
  pose proof (cmpxchg_free_steps _ _ W S1 H) as H1.
  destruct (drift_eraseUselessFunctions S M) as (A1 & _ & A3 & A4).
  destruct (bounded_lowerFuncPtr S M1) as (B1 & B3 & B4).
  fold M1 in A1, A3, A4. fold M2 in B1, B3, B4.
  apply (walk_functions_finishes S fuel M2 [] (funcs M2)).
  - now apply (wf_steps M1).
  - now apply (cmpxchg_free_steps M1).
  - unfold S. lia.
  - apply B1, A1, sized_largest. unfold S. lia.
  - reflexivity.
  - unfold enough in HL. fold S in HL. lia.
Qed.

Lemma regularize_completes_witness :
  wf calls_fshl /\ cmpxchg_free calls_fshl /\ (enough calls_fshl <= 14)%nat /\
  exists M', regularize 14 calls_fshl = Done M'.
Proof.
  assert (wf calls_fshl) as W by (apply wf_check_sound; reflexivity).
  assert (cmpxchg_free calls_fshl) as H.
  { intros i Hi. simpl in Hi. destruct Hi as [<-|[<-|[]]]; reflexivity. }
  assert (enough calls_fshl <= 14)%nat as L by (vm_compute; lia).
  split; [exact W|]. split; [exact H|]. split; [exact L|].
  exact (regularize_completes 14 calls_fshl W H L).
Defined.

(** ** Bodies keep their layout *)

Lemma ids_kept_refl (M : module) : ids_kept M M.
Proof. intros n F H _. exists F. now split. Qed.

Lemma ids_kept_trans (M M1 M2 : module) :
  ids_kept M M1 -> ids_kept M1 M2 -> ids_kept M M2.
Proof.
  intros K1 K2 n F H N. destruct (K1 n F H N) as (F1 & H1 & E1).
  destruct (K2 n F1 H1) as (F2 & H2 & E2).
  { intros X. rewrite X in E1. destruct (instrs_of F); [tauto|discriminate]. }
  exists F2. split; [exact H2|]. congruence.
Qed.

Lemma getFunction_erase_function_other (n m : string) (M : module) :
  m <> n -> getFunction (erase_function n M) m = getFunction M m.
Proof.
  intros Hn. unfold getFunction. cbn [erase_function funcs].
  induction (funcs M) as [|a l IH]; simpl; [reflexivity|].
  destruct (String.eqb_spec (fname a) n) as [E|E]; simpl.
  - destruct (String.eqb_spec (fname a) m) as [E'|E']; [congruence|exact IH].
  - destruct (String.eqb (fname a) m); [reflexivity|exact IH].
Qed.

Lemma ids_kept_erase_declaration (M : module) (n : string) (F : function) :
  getFunction M n = Some F -> isDeclaration F = true ->
  ids_kept M (erase_function n M).
Proof.
  intros HG HD m G H N. exists G. split; [|reflexivity].
  rewrite getFunction_erase_function_other; [exact H|].
  intros ->. rewrite HG in H. injection H as <-.
  apply N. now apply empty_instrs_of.
Qed.

Lemma walk_insts_ids (Fn : string) (fuel : nat) :
  forall (cur : option nat) (M : module) (TE : list nat) (M1 : module)
         (TE1 : list nat),
    wf M -> cmpxchg_free M ->
    walk_insts fuel Fn cur (M, TE) = Done (M1, TE1) ->
    wf M1 /\ cmpxchg_free M1 /\ ids_kept M M1 /\ TE1 = TE.
Proof.
  induction fuel as [|fuel IH]; intros cur M TE M1 TE1 W HF H.
  - destruct cur; simpl in H; [discriminate|]. injection H as <- <-.
    auto using ids_kept_refl.
  - destruct cur as [id|]; [|simpl in H; injection H as <- <-; auto using ids_kept_refl].
    rewrite walk_insts_step in H.
    destruct (visit_completes id M TE HF) as [M0 EV]. rewrite EV in H. cbn [fst] in H.
    pose proof (steps_visit id M TE M0 TE EV) as St.
    pose proof (wf_steps M M0 W St) as W0.
    pose proof (cmpxchg_free_steps M M0 W St HF) as HF0.
    destruct (tame_visit 9 id M TE M0 TE W (le_n 9) HF EV) as (_ & K0 & _).
    destruct (IH _ M0 TE M1 TE1 W0 HF0 H) as (W1 & HF1 & K1 & E1).
    split; [exact W1|]. split; [exact HF1|]. split; [|exact E1].
    now apply (ids_kept_trans M M0).
Qed.

Lemma walk_functions_ids (fuel : nat) :
  forall (I : option string) (M M' : module),
    wf M -> cmpxchg_free M -> walk_functions fuel I M = Done M' -> ids_kept M M'.
Proof.
  induction fuel as [|fuel IH]; intros I M M' W HF H.
  - destruct I; simpl in H; [discriminate|]. injection H as <-. apply ids_kept_refl.
  - destruct I as [Fn|]; [|simpl in H; injection H as <-; apply ids_kept_refl].
    rewrite walk_functions_step in H.
    destruct (getFunction M Fn) as [F|] eqn:HG;
      [|injection H as <-; apply ids_kept_refl].
    destruct (isDeclaration F && func_use_empty M Fn) eqn:ED.
    + apply andb_prop in ED. destruct ED as [E1 E2].
      pose proof (steps_one _ _ (prim_erase_decl M Fn F HG E1 E2)) as St.
      apply (ids_kept_trans M (erase_function Fn M));
        [now apply (ids_kept_erase_declaration M Fn F)|].
      apply (IH _ _ _ (wf_steps _ _ W St) (cmpxchg_free_steps _ _ W St HF) H).
    + destruct (walk_insts (S fuel) Fn (hd_error (map iid (instrs_of F))) (M, []))
        as [msg| |[M1 TE1]] eqn:EW; try discriminate.
      destruct (walk_insts_ids Fn (S fuel) _ M [] M1 TE1 W HF EW)
        as (W1 & HF1 & K1 & ->).
      cbn [erase_all] in H.
      apply (ids_kept_trans M M1); [exact K1|]. now apply (IH _ _ _ W1 HF1 H).
Qed.

(** X22: on a well-formed module that holds no compare-exchange the walk of
    the pass changes instructions in place only: a function that holds
    instructions once the calls that take a function reference are normalized
    (which erases casts only) is still in the module under its name when the
    pass is over, and holds the same instructions in the same order; the
    walk inserts, erases and moves none. *)
Theorem regularize_keeps_layout (fuel : nat) (M M' : module) (n : string)
    (F : function) :
  wf M -> cmpxchg_free M -> regularize fuel M = Done M' ->
  getFunction (lowerFuncPtr (eraseUselessFunctions M)) n = Some F ->
  instrs_of F <> [] ->
  exists F', getFunction M' n = Some F' /\
             map iid (instrs_of F') = map iid (instrs_of F).
Proof.
  intros W H HR. revert n F.
  change (ids_kept (lowerFuncPtr (eraseUselessFunctions M)) M').
  unfold regularize in HR. cbv zeta in HR.
  set (M1 := eraseUselessFunctions M) in *.
  set (M2 := lowerFuncPtr M1) in *.
  assert (steps M M1) as S1 by (apply steps_one, prim_useless).
  assert (steps M1 M2) as S2 by apply steps_lowerFuncPtr.
  pose proof (wf_steps _ _ W S1) as W1.
  pose proof (cmpxchg_free_steps _ _ W S1 H) as H1.
  apply (walk_functions_ids fuel (hd_error (map fname (funcs M2))) M2 M');
    [now apply (wf_steps M1) | now apply (cmpxchg_free_steps M1) | exact HR].
Qed.

Lemma regularize_keeps_layout_witness :
  wf calls_fshl /\ cmpxchg_free calls_fshl /\
  exists F', getFunction (regularized 10 calls_fshl) "f" = Some F' /\
             map iid (instrs_of F') = [0; 1]%nat.
Proof.
  assert (wf calls_fshl) as W by (apply wf_check_sound; reflexivity).
  assert (cmpxchg_free calls_fshl) as H.
  { intros i Hi. simpl in Hi. destruct Hi as [<-|[<-|[]]]; reflexivity. }
  split; [exact W|]. split; [exact H|].
  refine (regularize_keeps_layout 10 calls_fshl (regularized 10 calls_fshl) "f"
            (nth 1 (funcs calls_fshl) fshl_i8) W H _ _ _).
  - vm_compute. reflexivity.
  - vm_compute. reflexivity.
  - vm_compute. discriminate.
Defined.

(** ** Declarations the loop over the functions arrives at *)

Lemma walk_functions_keeps (D : string) (fuel : nat) :
  forall (I : option string) (M M' : module),
    wf M ->
    match I with
    | None => In D (map fname (funcs M))
    | Some n => exists done F todo,
                  funcs M = done ++ F :: todo /\ fname F = n /\ In D (map fname done)
    end ->
    walk_functions fuel I M = Done M' -> In D (map fname (funcs M')).
Proof.
  induction fuel as [|fuel IH]; intros I M M' W HI H.
  - destruct I as [Fn|]; simpl in H; [discriminate|]. now injection H as <-.
  - destruct I as [Fn|]; [|simpl in H; now injection H as <-].
    destruct HI as (done & F & todo & Hf & <- & Hd).
    destruct (cursor_found M done todo F W Hf) as (_ & _ & HG & HN).
    rewrite walk_functions_step, HG, HN in H.
    destruct (isDeclaration F && func_use_empty M (fname F)) eqn:ED.
    + apply andb_prop in ED. destruct ED as [ED _].
      pose proof (erase_function_cursor M done todo F W Hf) as Fe.
      apply (IH (hd_error (map fname todo)) (erase_function (fname F) M) M'
                (wf_erase_declaration M done todo F W Hf ED)); [|exact H].
      destruct todo as [|T todo]; cbn [map hd_error].
      * rewrite Fe, app_nil_r. exact Hd.
      * exists done, T, todo. now rewrite Fe.
    + destruct (walk_insts (S fuel) (fname F) _ (M, [])) as [msg| |[M1 TE]] eqn:HW;
        try discriminate.
      destruct (erase_all TE M1) as [msg| |M2] eqn:HE; try discriminate.
      destruct (function_turn_shape (S fuel) M M1 M2 TE done todo F W Hf HW HE)
        as (W2 & d2 & F2 & t2 & news & Hf2 & Nd & NF & Nt).
      apply (IH (hd_error (map fname todo)) M2 M' W2); [|exact H].
      rewrite <- Nt. destruct t2 as [|G t2]; cbn [map hd_error].
      * rewrite Hf2, !map_app, <- Nd in *. apply in_or_app. left.
        apply in_or_app. now left.
      * exists (d2 ++ [F2]), G, (t2 ++ news). split; [|split; [reflexivity|]].
        -- rewrite Hf2, <- !app_assoc. reflexivity.
        -- rewrite map_app, Nd. apply in_or_app. now left.
Qed.

Lemma reaches_step (D : string) (fuel : nat) (Fn : string) (M : module) :
  reaches D (S fuel) (Some Fn) M =
  if String.eqb Fn D then Some M
  else
    match getFunction M Fn with
    | None => None
    | Some F =>
        if isDeclaration F && func_use_empty M Fn
        then reaches D fuel (next_after String.eqb Fn (map fname (funcs M)))
                     (erase_function Fn M)
        else
          match walk_insts (S fuel) Fn (hd_error (map iid (instrs_of F))) (M, []) with
          | Done (M1, ToErase) =>
              match erase_all ToErase M1 with
              | Done M2 =>
                  reaches D fuel (next_after String.eqb Fn (map fname (funcs M))) M2
              | _ => None
              end
          | _ => None
          end
    end.
Proof. reflexivity. Qed.

(** The loop over the functions, cut at the moment it arrives at [D]: the
    module is well formed then, [D] is under the iterator, and the rest of
    the loop is the loop started there. *)
Lemma reaches_split (D : string) (fuel : nat) :
  forall (I : option string) (M Mk M' : module),
    wf M ->
    match I with
    | None => True
    | Some n => exists done F todo, funcs M = done ++ F :: todo /\ fname F = n
    end ->
    reaches D fuel I M = Some Mk -> walk_functions fuel I M = Done M' ->
    wf Mk /\
    (exists done F todo, funcs Mk = done ++ F :: todo /\ fname F = D) /\
    exists fuel', walk_functions (S fuel') (Some D) Mk = Done M'.
Proof.
  induction fuel as [|fuel IH]; intros I M Mk M' W HI HR H.
  - destruct I; discriminate.
  - destruct I as [Fn|]; [|discriminate].
    rewrite reaches_step in HR.
    destruct (String.eqb_spec Fn D) as [->|NE].
    + injection HR as <-. split; [exact W|]. split; [exact HI|]. now exists fuel.
    + destruct HI as (done & F & todo & Hf & <-).
      destruct (cursor_found M done todo F W Hf) as (_ & _ & HG & HN).
      rewrite walk_functions_step, HG, HN in H. rewrite HG, HN in HR.
      destruct (isDeclaration F && func_use_empty M (fname F)) eqn:ED.
      * apply andb_prop in ED. destruct ED as [ED _].
        pose proof (erase_function_cursor M done todo F W Hf) as Fe.
        apply (IH (hd_error (map fname todo)) (erase_function (fname F) M) Mk M'
                  (wf_erase_declaration M done todo F W Hf ED)); [|exact HR|exact H].
        destruct todo as [|T todo]; cbn [map hd_error]; [exact I|].
        exists done, T, todo. now rewrite Fe.
      * destruct (walk_insts (S fuel) (fname F) _ (M, [])) as [msg| |[M1 TE]] eqn:HW;
          try discriminate.
        destruct (erase_all TE M1) as [msg| |M2] eqn:HE; try discriminate.
        destruct (function_turn_shape (S fuel) M M1 M2 TE done todo F W Hf HW HE)
          as (W2 & d2 & F2 & t2 & news & Hf2 & Nd & NF & Nt).
        apply (IH (hd_error (map fname todo)) M2 Mk M' W2); [|exact HR|exact H].
        rewrite <- Nt. destruct t2 as [|G t2]; cbn [map hd_error]; [exact I|].
        exists (d2 ++ [F2]), G, (t2 ++ news). split; [|reflexivity].
        rewrite Hf2, <- !app_assoc. reflexivity.
Qed.

Lemma pos_start (M : module) :
  match hd_error (map fname (funcs M)) with
  | None => True
  | Some n => exists done F todo, funcs M = done ++ F :: todo /\ fname F = n
  end.
Proof.
  destruct (funcs M) as [|F l] eqn:E; cbn [map hd_error]; [exact I|].
  exists [], F, l. now split.
Qed.

(** C10 (amended): the elimination of dead declarations is applied up front
    and again when the loop over the functions arrives at each function.  A
    function without a body, whose name is not one the loop gives to the
    functions it creates, is removed by the pass exactly when its use-list is
    empty at the moment the loop arrives at it: whether it was empty from the
    start or became empty during the loop, and not when it becomes empty only
    after the loop has passed the function. *)
Theorem declaration_removed_iff_unused_when_reached (fuel : nat) (D : string)
    (M M' Mk : module) (F : function) :
  wf M -> not_derived D = true ->
  regularize fuel M = Done M' ->
  reaches D fuel
    (hd_error (map fname (funcs (lowerFuncPtr (eraseUselessFunctions M)))))
    (lowerFuncPtr (eraseUselessFunctions M)) = Some Mk ->
  getFunction Mk D = Some F -> isDeclaration F = true ->
  (getFunction M' D = None <-> func_use_empty Mk D = true).
Proof.
  intros W HD H HR HG HF. unfold regularize in H. cbv zeta in H.
  pose proof (wf_eraseUselessFunctions M W) as W1.
  destruct (descent_lowerFuncPtr _ W1) as (W2 & _).
  destruct (reaches_split D fuel _ _ Mk M' W2 (pos_start _) HR H)
    as (Wk & (done & G & todo & Hf & HN) & fuel' & Hk).
  destruct (cursor_found Mk done todo G Wk Hf) as (Hd & _ & HG' & HN').
  rewrite HN in Hd, HG', HN'. rewrite HG in HG'. injection HG' as ->.
  split.
  - intros HA. destruct (func_use_empty Mk D) eqn:EU; [reflexivity|].
    exfalso. apply getFunction_None in HA. apply HA.
    rewrite walk_functions_step, HG, HN', HF, EU in Hk. cbn [andb] in Hk.
    destruct (walk_insts (S fuel') D _ (Mk, [])) as [msg| |[M1 TE]] eqn:HW;
      try discriminate.
    destruct (erase_all TE M1) as [msg| |M2] eqn:HE; try discriminate.
    rewrite <- HN in HW.
    destruct (function_turn_shape (S fuel') Mk M1 M2 TE done todo G Wk Hf HW HE)
      as (W3 & d2 & F2 & t2 & news & Hf2 & Nd & NF & Nt).
    apply (walk_functions_keeps D fuel' (hd_error (map fname todo)) M2 M' W3);
      [|exact Hk].
    rewrite <- Nt. destruct t2 as [|T t2]; cbn [map hd_error].
    + rewrite Hf2, !map_app. cbn [map]. rewrite NF, HN.
      apply in_or_app. left. apply in_or_app. right. now left.
    + exists (d2 ++ [F2]), T, (t2 ++ news). split; [|split; [reflexivity|]].
      * rewrite Hf2, <- !app_assoc. reflexivity.
      * rewrite map_app. cbn [map]. rewrite NF, HN. apply in_or_app. right. now left.
  - intros EU. apply getFunction_absent.
    apply (walk_functions_erases D (S fuel') HD (Some D) Mk M' Wk); [| |exact Hk].
    + apply decl_unused_idle. unfold decl_unused. rewrite EU, andb_true_r.
      apply forallb_forall. intros X HX.
      destruct (String.eqb_spec (fname X) D) as [E|E]; [|reflexivity].
      cbn [negb orb]. rewrite <- E in HG.
      now rewrite (wf_getFunction Mk X Wk HX) in HG; injection HG as ->.
    + exists done, G, todo. now repeat split.
Qed.

Lemma declaration_removed_iff_unused_when_reached_witness :
  func_use_empty calls_umul "llvm.umul.with.overflow.i8" = false /\
  exists Mk F,
    reaches "llvm.umul.with.overflow.i8" 10
      (hd_error (map fname (funcs (lowerFuncPtr (eraseUselessFunctions calls_umul)))))
      (lowerFuncPtr (eraseUselessFunctions calls_umul)) = Some Mk /\
    getFunction Mk "llvm.umul.with.overflow.i8" = Some F /\
    isDeclaration F = true /\
    func_use_empty Mk "llvm.umul.with.overflow.i8" = true /\
    getFunction (regularized 10 calls_umul) "llvm.umul.with.overflow.i8" = None.
Proof.
  split; [reflexivity|].
  eexists. eexists.
  split; [vm_compute; reflexivity|].
  split; [vm_compute; reflexivity|].
  split; [reflexivity|].
  split; [vm_compute; reflexivity|].
  refine (proj2 (declaration_removed_iff_unused_when_reached 10
                   "llvm.umul.with.overflow.i8" calls_umul (regularized 10 calls_umul)
                   _ _ _ _ _ _ _ _) _).
  - apply wf_check_sound. reflexivity.
  - reflexivity.
  - vm_compute. reflexivity.
  - vm_compute. reflexivity.
  - vm_compute. reflexivity.
  - reflexivity.
  - vm_compute. reflexivity.
Defined.

(** ** Consumers of a compare-exchange the loop does not expect *)












(** ** One synthesis for each derived name *)

Lemma has_body_steps (M M2 : module) (n : string) :
  wf M -> steps M M2 -> has_body M n = true -> has_body M2 n = true.
Proof.
  intros W S H. unfold has_body in *.
  destruct (getFunction M n) as [F|] eqn:HG; [|discriminate].
  apply negb_true_iff in H.
  destruct (getFunction_split M n F W HG) as [HN _].
  destruct (steps_invariant bodies_kept bodies_kept_refl bodies_kept_trans
              bodies_kept_prim M M2 W S F (getFunction_In M n F HG) H)
    as [F' [HF' (A & _ & _ & D)]].
  rewrite <- HN, <- A.
  rewrite (wf_getFunction M2 F' (wf_steps M M2 W S) HF').
  unfold empty, isDeclaration in *.
  destruct (blocks F) as [|b l]; [discriminate|].
  now destruct (blocks F').
Qed.

(** C7 (amended): once a function is in the module with a body, it has one
    at every later point of the run: after every turn of the loop over the
    instructions and when the pass completes.  And every lowering of a call
    whose derived name is the name of that function, be it a memory fill, a
    funnel shift or a multiplication with overflow, synthesizes nothing: all
    it does is to make that function the callee of the call.  So a body is
    synthesized at most once for each derived name. *)
Theorem helper_synthesized_once (M M2 : module) (n : string) :
  wf M -> has_body M n = true -> steps M M2 ->
  has_body M2 n = true /\
  (forall (k : lowering) (id : nat) (II : instr) (CF : function),
     get_instr M2 id = Some II -> getCalledFunction M2 II = Some CF ->
     is_lowered k II = true -> derived_name k M2 II = n ->
     lower k id M2 = setCalledFunction id n M2) /\
  (forall (id : nat) (TE : list nat) (M3 : module) (TE3 : list nat),
     visit id (M2, TE) = Done (M3, TE3) -> has_body M3 n = true) /\
  (forall (fuel : nat) (M3 : module),
     regularize fuel M2 = Done M3 -> has_body M3 n = true).
Proof.
  intros W H S. pose proof (has_body_steps M M2 n W S H) as H2.
  pose proof (wf_steps M M2 W S) as W2.
  split; [exact H2|]. split; [|split].
  - intros k id II CF HG HC HL <-.
    unfold has_body in H2.
    destruct (getFunction M2 (derived_name k M2 II)) as [F|] eqn:HF; [|discriminate].
    apply negb_true_iff in H2.
    now apply (lower_reuses_body k id M2 II CF F).
  - intros id TE M3 TE3 V.
    exact (has_body_steps M2 M3 n W2 (steps_visit id M2 TE M3 TE3 V) H2).
  - intros fuel M3 R.
    exact (has_body_steps M2 M3 n W2 (steps_regularize fuel M2 M3 R) H2).
Qed.

Lemma helper_synthesized_once_witness :
  has_body calls_fshl_twice "spirv.llvm_fshl_i8" = false /\
  has_body second_fshl_call "spirv.llvm_fshl_i8" = true /\
  lower LowerFshl 1 second_fshl_call =
  setCalledFunction 1 "spirv.llvm_fshl_i8" second_fshl_call /\
  has_body (regularized 10 second_fshl_call) "spirv.llvm_fshl_i8" = true.
Proof.
  split; [reflexivity|]. split; [reflexivity|].
  assert (wf second_fshl_call) as W by (apply wf_check_sound; reflexivity).
  destruct (helper_synthesized_once second_fshl_call second_fshl_call
              "spirv.llvm_fshl_i8" W eq_refl (steps_refl _)) as (_ & A & _ & B).
  split.
  - refine (A LowerFshl 1%nat _ fshl_i8 _ _ _ _); reflexivity.
  - apply (B 10%nat). vm_compute. reflexivity.
Defined.

(** ** Metadata *)




(** ** Fills that are not lowered *)











Section ConstantFill.
Variables (n : string) (args : list value) (id0 : nat).
Hypothesis HM : forall CF, fname CF = n -> isMemSet CF = true.
Hypothesis HC :
  isConstant (nth 1 args VNull) && isConstantInt (nth 2 args VNull) = true.








End ConstantFill.



